(** * GiGi windowing core: flag registry, window tree, event dispatch, grid layout

    A shallow embedding of [GG/GG/Flags.h] and [GG/src/Wnd.cpp].

    - C++ exceptions are the [Throw] branch of [result]; a method that both
      mutates and may throw returns the state next to its [result].
    - [unsigned short] flag storage, [X]/[Y] coordinates are [Z].
    - The heap of windows is a [gmap] from window identities to [Wnd.t]
      records; [shared_ptr]/[weak_ptr] are identities, a [weak_ptr] being
      resolved against the heap each time it is locked. *)

From Stdlib Require Import ZArith Lia String.
From stdpp Require Import base option list sorting gmap strings.

Local Open Scope Z_scope.

(** ** Exceptions *)

Inductive exn : Set :=
  | invalid_argument        (* std::invalid_argument *)
  | runtime_error           (* std::runtime_error *)
  | out_of_range            (* std::out_of_range, from array::at *)
  | bad_weak_ptr            (* std::bad_weak_ptr, from shared_from_this *)
  | UnknownFlag             (* FlagSpec::UnknownFlag and Flags::UnknownFlag *)
  | UnknownString           (* FlagSpec::UnknownString *)
  | BadLayout               (* Wnd::BadLayout *)
  | ForwardToParentException
  | undefined_behaviour     (* no C++ exception: a pointer to no window was followed *)
  | out_of_fuel.            (* no C++ exception: the recursion budget of the model ran out *)

Inductive result (A : Type) : Type :=
  | Ok (a : A)
  | Throw (e : exn).
Arguments Ok {A} a.
Arguments Throw {A} e.

#[global] Instance exn_eq_dec : EqDecision exn.
Proof. solve_decision. Defined.

#[global] Instance result_eq_dec {A} `{EqDecision A} : EqDecision (result A).
Proof. solve_decision. Defined.

#[global] Instance result_ret : MRet result := fun _ a => Ok a.
#[global] Instance result_bind : MBind result := fun _ _ f m =>
  match m with Ok a => f a | Throw e => Throw e end.
#[global] Instance result_fmap : FMap result := fun _ _ f m =>
  match m with Ok a => Ok (f a) | Throw e => Throw e end.

(** [array::at]: bounds-checked element access. *)
Definition at_ {A} (l : list A) (idx : nat) : result A :=
  match l !! idx with Some a => Ok a | None => Throw out_of_range end.

(** ** Flags.h *)

(** [std::numeric_limits<unsigned short>::digits]. *)
Definition digits : nat := 16.

(** [detail::OneBits]: the loop body run [n] more times. *)
Fixpoint OneBits_loop (n : nat) (num : Z) (retval : nat) : nat :=
  match n with
  | O => retval
  | S n' =>
      let retval' := if decide (Z.land num 1 = 0) then retval else S retval in
      OneBits_loop n' (Z.shiftr num 1) retval'
  end.

Definition OneBits (num : Z) : nat := OneBits_loop digits num 0.

(** The class generated by [GG_FLAG_TYPE]. *)
Module FlagType.
Record t : Set := Build { m_value : Z }.

(** [explicit name(InternalType value)]; the argument is converted to
    [unsigned short] at the call. *)
Definition make (value : Z) : result t :=
  let value := value mod 2 ^ Z.of_nat digits in
  if decide (1 < OneBits value)%nat then Throw invalid_argument
  else Ok (Build value).

#[global] Instance eq_dec : EqDecision t.
Proof. solve_decision. Defined.
End FlagType.

Module FlagSpec.
Record t : Set := Build {
  m_count : nat;
  m_flags : list FlagType.t;      (* std::array<FlagType, digits> *)
  m_strings : list string         (* std::array<std::string_view, digits> *)
}.

(** [constexpr FlagSpec() = default]. *)
Definition default : t :=
  Build 0 (replicate digits (FlagType.Build 0)) (replicate digits EmptyString).

(** Body of the [for (idx = 0; idx < m_count; ++idx)] loop of [contains],
    with [n] iterations left. *)
Fixpoint contains_loop (spec : t) (flag : FlagType.t) (n idx : nat) : result bool :=
  match n with
  | O => Ok false
  | S n' =>
      f ← at_ (m_flags spec) idx;
      if decide (f = flag) then Ok true
      else contains_loop spec flag n' (S idx)
  end.

Definition contains (spec : t) (flag : FlagType.t) : result bool :=
  contains_loop spec flag (m_count spec) 0%nat.

(** [begin()] to [end()]: the first [m_count] slots. *)
Definition range (spec : t) : list FlagType.t :=
  take (m_count spec) (m_flags spec).

Fixpoint ToString_loop (spec : t) (flag : FlagType.t) (n idx : nat) : result string :=
  match n with
  | O => Throw UnknownFlag
  | S n' =>
      f ← at_ (m_flags spec) idx;
      if decide (f = flag) then at_ (m_strings spec) idx
      else ToString_loop spec flag n' (S idx)
  end.

Definition ToString (spec : t) (flag : FlagType.t) : result string :=
  ToString_loop spec flag (m_count spec) 0%nat.

Fixpoint FromString_loop (spec : t) (str : string) (n idx : nat) : result FlagType.t :=
  match n with
  | O => Throw UnknownString
  | S n' =>
      s ← at_ (m_strings spec) idx;
      if decide (s = str) then at_ (m_flags spec) idx
      else FromString_loop spec str n' (S idx)
  end.

Definition FromString (spec : t) (str : string) : result FlagType.t :=
  FromString_loop spec str (m_count spec) 0%nat.

(** The duplicate scan of [insert]. *)
Fixpoint insert_scan (spec : t) (flag : FlagType.t) (n idx : nat) : result unit :=
  match n with
  | O => Ok tt
  | S n' =>
      f ← at_ (m_flags spec) idx;
      if decide (f = flag) then Throw invalid_argument
      else insert_scan spec flag n' (S idx)
  end.

(** [insert]: the registry after the call, next to the outcome. Both
    throws precede every write. *)
Definition insert (flag : FlagType.t) (name : string) (spec : t) : result unit * t :=
  if decide (digits ≤ m_count spec)%nat then (Throw runtime_error, spec)
  else
    match insert_scan spec flag (m_count spec) 0%nat with
    | Throw e => (Throw e, spec)
    | Ok _ =>
        (Ok tt,
         Build (S (m_count spec))
               (<[m_count spec := flag]> (m_flags spec))
               (<[m_count spec := name]> (m_strings spec)))
    end.
End FlagSpec.

(** [Flags<FlagType>]: every operation that converts a [FlagType] consults
    the registry singleton, passed here as [spec]. *)
Module Flags.
Record t : Set := Build { m_flags : Z }.

#[global] Instance eq_dec : EqDecision t.
Proof. solve_decision. Defined.

(** [constexpr Flags() = default]. *)
Definition default : t := Build 0.

(** [Flags(FlagType flag)]. *)
Definition make (spec : FlagSpec.t) (flag : FlagType.t) : result t :=
  c ← FlagSpec.contains spec flag;
  if (c : bool) then Ok (Build (FlagType.m_value flag)) else Throw UnknownFlag.

(** Conversion to bool. *)
Definition to_bool (f : t) : bool := bool_decide (m_flags f ≠ 0).

Definition or_assign (lhs rhs : t) : t := Build (Z.lor (m_flags lhs) (m_flags rhs)).
Definition and_assign (lhs rhs : t) : t := Build (Z.land (m_flags lhs) (m_flags rhs)).
Definition xor_assign (lhs rhs : t) : t := Build (Z.lxor (m_flags lhs) (m_flags rhs)).

(** [operator|], [operator&], [operator^] on two [Flags]. *)
Definition or (lhs rhs : t) : t := or_assign lhs rhs.
Definition and (lhs rhs : t) : t := and_assign lhs rhs.
Definition xor (lhs rhs : t) : t := xor_assign lhs rhs.

(** The mixed overloads convert the [FlagType] operand first. *)
Definition or_flag (spec : FlagSpec.t) (lhs : t) (rhs : FlagType.t) : result t :=
  r ← make spec rhs; Ok (or lhs r).
Definition and_flag (spec : FlagSpec.t) (lhs : t) (rhs : FlagType.t) : result t :=
  r ← make spec rhs; Ok (and lhs r).
Definition flag_and (spec : FlagSpec.t) (lhs : FlagType.t) (rhs : t) : result t :=
  l ← make spec lhs; Ok (and l rhs).
Definition xor_flag (spec : FlagSpec.t) (lhs : t) (rhs : FlagType.t) : result t :=
  r ← make spec rhs; Ok (xor lhs r).

(** [operator~(Flags)]: the range-for over the registry. *)
Fixpoint complement_loop (spec : FlagSpec.t) (flags : t)
         (rest : list FlagType.t) (retval : t) : result t :=
  match rest with
  | [] => Ok retval
  | flag :: rest' =>
      both ← flag_and spec flag flags;
      if to_bool both then complement_loop spec flags rest' retval
      else
        f ← make spec flag;
        complement_loop spec flags rest' (or_assign retval f)
  end.

Definition complement (spec : FlagSpec.t) (flags : t) : result t :=
  complement_loop spec flags (FlagSpec.range spec) default.

(** [operator~(FlagType)]. *)
Definition complement_flag (spec : FlagSpec.t) (flag : FlagType.t) : result t :=
  f ← make spec flag; complement spec f.
End Flags.

(** ** Geometry *)

(** Modelled from the spec: [PtRect.h] is not among the sources. Points add,
    subtract and compare component-wise (section 3, "component-wise"), and a
    rectangle holds the points from its upper-left corner up to, and not
    including, its lower-right corner. *)
Module Pt.
Record t : Set := Build { x : Z; y : Z }.

#[global] Instance eq_dec : EqDecision t.
Proof. solve_decision. Defined.

Definition add (a b : t) : t := Build (x a + x b) (y a + y b).
Definition sub (a b : t) : t := Build (x a - x b) (y a - y b).
Definition le (a b : t) : bool := bool_decide (x a ≤ x b) && bool_decide (y a ≤ y b).
Definition lt (a b : t) : bool := bool_decide (x a < x b) && bool_decide (y a < y b).
End Pt.

Module Rect.
Record t : Set := Build { ul : Pt.t; lr : Pt.t }.

(** [Rect::Contains]. *)
Definition Contains (r : t) (pt : Pt.t) : bool := Pt.le (ul r) pt && Pt.lt pt (lr r).
End Rect.

(** ** The window record *)

Module Wnd.
Record t : Set := Build {
  weak_this : bool;                (* enable_shared_from_this: a shared_ptr owns the window *)
  is_layout : bool;                (* the dynamic type is Layout *)
  m_upperleft : Pt.t;
  m_lowerright : Pt.t;
  m_min_size : Pt.t;
  m_max_size : Pt.t;
  m_flags : Flags.t;
  m_parent : option nat;           (* weak_ptr<Wnd> *)
  m_children : list nat;           (* list<shared_ptr<Wnd>> *)
  m_layout : option nat;           (* weak_ptr<Layout> *)
  m_containing_layout : option nat;(* weak_ptr<Layout> *)
  m_filters : list nat;            (* vector<weak_ptr<Wnd>> *)
  m_done : bool
}.

Definition set_weak_this (b : bool) (w : t) : t :=
  Build b (is_layout w) (m_upperleft w) (m_lowerright w) (m_min_size w) (m_max_size w)
        (m_flags w) (m_parent w) (m_children w) (m_layout w) (m_containing_layout w)
        (m_filters w) (m_done w).
Definition set_geometry (ul lr : Pt.t) (w : t) : t :=
  Build (weak_this w) (is_layout w) ul lr (m_min_size w) (m_max_size w)
        (m_flags w) (m_parent w) (m_children w) (m_layout w) (m_containing_layout w)
        (m_filters w) (m_done w).
Definition set_min_size (sz : Pt.t) (w : t) : t :=
  Build (weak_this w) (is_layout w) (m_upperleft w) (m_lowerright w) sz (m_max_size w)
        (m_flags w) (m_parent w) (m_children w) (m_layout w) (m_containing_layout w)
        (m_filters w) (m_done w).
Definition set_max_size (sz : Pt.t) (w : t) : t :=
  Build (weak_this w) (is_layout w) (m_upperleft w) (m_lowerright w) (m_min_size w) sz
        (m_flags w) (m_parent w) (m_children w) (m_layout w) (m_containing_layout w)
        (m_filters w) (m_done w).
Definition set_flags (f : Flags.t) (w : t) : t :=
  Build (weak_this w) (is_layout w) (m_upperleft w) (m_lowerright w) (m_min_size w) (m_max_size w)
        f (m_parent w) (m_children w) (m_layout w) (m_containing_layout w)
        (m_filters w) (m_done w).
Definition set_parent (p : option nat) (w : t) : t :=
  Build (weak_this w) (is_layout w) (m_upperleft w) (m_lowerright w) (m_min_size w) (m_max_size w)
        (m_flags w) p (m_children w) (m_layout w) (m_containing_layout w)
        (m_filters w) (m_done w).
Definition set_children (cs : list nat) (w : t) : t :=
  Build (weak_this w) (is_layout w) (m_upperleft w) (m_lowerright w) (m_min_size w) (m_max_size w)
        (m_flags w) (m_parent w) cs (m_layout w) (m_containing_layout w)
        (m_filters w) (m_done w).
Definition set_layout (l : option nat) (w : t) : t :=
  Build (weak_this w) (is_layout w) (m_upperleft w) (m_lowerright w) (m_min_size w) (m_max_size w)
        (m_flags w) (m_parent w) (m_children w) l (m_containing_layout w)
        (m_filters w) (m_done w).
Definition set_containing_layout (l : option nat) (w : t) : t :=
  Build (weak_this w) (is_layout w) (m_upperleft w) (m_lowerright w) (m_min_size w) (m_max_size w)
        (m_flags w) (m_parent w) (m_children w) (m_layout w) l
        (m_filters w) (m_done w).
Definition set_filters (fs : list nat) (w : t) : t :=
  Build (weak_this w) (is_layout w) (m_upperleft w) (m_lowerright w) (m_min_size w) (m_max_size w)
        (m_flags w) (m_parent w) (m_children w) (m_layout w) (m_containing_layout w)
        fs (m_done w).
Definition set_done (b : bool) (w : t) : t :=
  Build (weak_this w) (is_layout w) (m_upperleft w) (m_lowerright w) (m_min_size w) (m_max_size w)
        (m_flags w) (m_parent w) (m_children w) (m_layout w) (m_containing_layout w)
        (m_filters w) b.

(** [Width], [Height], [Size], [MinSize], [MaxSize]. *)
Definition Width (w : t) : Z := Pt.x (m_lowerright w) - Pt.x (m_upperleft w).
Definition Height (w : t) : Z := Pt.y (m_lowerright w) - Pt.y (m_upperleft w).
Definition Size (w : t) : Pt.t :=
  Pt.Build (Pt.x (m_lowerright w) - Pt.x (m_upperleft w))
           (Pt.y (m_lowerright w) - Pt.y (m_upperleft w)).
Definition MinSize (w : t) : Pt.t := m_min_size w.
Definition MaxSize (w : t) : Pt.t := m_max_size w.
Definition RelativeUpperLeft (w : t) : Pt.t := m_upperleft w.
Definition RelativeLowerRight (w : t) : Pt.t := m_lowerright w.
End Wnd.

(** What [Wnd.h] declares and [Wnd.cpp] uses: the window flags and the
    member initialisers of the size limits. *)
Class WndHeader : Set := {
  NO_WND_FLAGS : FlagType.t;
  INTERACTIVE : FlagType.t;
  REPEAT_BUTTON_DOWN : FlagType.t;
  DRAGABLE : FlagType.t;
  RESIZABLE : FlagType.t;
  ONTOP : FlagType.t;
  MODAL : FlagType.t;
  REPEAT_KEY_PRESS : FlagType.t;
  default_min_size : Pt.t;
  default_max_size : Pt.t
}.

(** ** Events *)

Module WndEvent.
Inductive EventType : Set :=
  | EmptyEvent
  | LButtonDown | LDrag | LButtonUp | LClick | LDoubleClick
  | MButtonDown | MDrag | MButtonUp | MClick | MDoubleClick
  | RButtonDown | RDrag | RButtonUp | RClick | RDoubleClick
  | MouseEnter | MouseHere | MouseLeave | MouseWheel
  | DragDropEnter | DragDropHere | CheckDrops | DragDropLeave | DragDroppedOn
  | KeyPress | KeyRelease | TextInput
  | GainingFocus | LosingFocus | TimerFiring.

(** The payload that [Wnd]'s own handlers read. The map of acceptable
    drops, which the event shares between all windows it is offered to, is
    kept in the state ([State.drops]). *)
Record t : Set := Build {
  Type_ : EventType;
  Point : Pt.t;
  ModKeys : Z;
  DragMove : Pt.t;
  WheelMove : Z
}.

#[global] Instance EventType_eq_dec : EqDecision EventType.
Proof. solve_decision. Defined.
End WndEvent.

(** ** State *)

(** Calls that leave [Wnd.cpp]: to the application object, to [Layout], to
    [std::cerr], and the virtual hook [ModalInit]. They are recorded, and
    what the callee does is outside the model. *)
Inductive call : Set :=
  | GUI_Remove (wnd : nat)
  | GUI_RegisterModal (wnd : nat)
  | GUI_RunModal (wnd : nat)
  | Virtual_ModalInit (wnd : nat)
  | Layout_Resize (layout : nat) (sz : Pt.t)
  | Layout_ChildSizeOrMinSizeChanged (layout : nat)
  | Layout_DetachAndResetChildren (layout : nat)
  | Layout_ctor (layout : nat) (rows columns : nat)
  | Layout_Add (layout wnd : nat) (row column num_rows num_columns : Z)
  | cerr_AttachChild (parent : nat) (child : option nat).

Record State : Type := mkState {
  wnd_flags : FlagSpec.t;            (* FlagSpec<WndFlag>::instance() *)
  heap : gmap nat Wnd.t;             (* the windows that exist *)
  drops : list (nat * bool);         (* the event's map of acceptable drops *)
  calls : list call                  (* most recent last *)
}.

(** State and exceptions: a throw keeps the writes made before it. *)
Definition M (A : Type) : Type := State → result A * State.

#[global] Instance M_ret : MRet M := λ _ a st, (Ok a, st).
#[global] Instance M_bind : MBind M := λ _ _ f m st,
  match m st with
  | (Ok a, st') => f a st'
  | (Throw e, st') => (Throw e, st')
  end.

Definition throw {A} (e : exn) : M A := λ st, (Throw e, st).
Definition lift {A} (r : result A) : M A := λ st, (r, st).
Definition read {A} (f : State → result A) : M A := λ st, (f st, st).

(** [try { body } catch (const e&) { handler }]. *)
Definition try_catch {A} (body : M A) (e : exn) (handler : M A) : M A := λ st,
  match body st with
  | (Throw e', st') => if decide (e' = e) then handler st' else (Throw e', st')
  | r => r
  end.

Definition do_call (c : call) : M unit := λ st,
  (Ok tt, mkState (wnd_flags st) (heap st) (drops st) (calls st ++ [c])).

(** Reading a window through a pointer; one that points nowhere is not a
    C++ exception and cannot be caught. *)
Definition deref (st : State) (this : nat) : result Wnd.t :=
  match heap st !! this with
  | Some w => Ok w
  | None => Throw undefined_behaviour
  end.

Definition modify (this : nat) (f : Wnd.t → Wnd.t) : M unit := λ st,
  match heap st !! this with
  | Some w => (Ok tt, mkState (wnd_flags st) (<[this := f w]> (heap st)) (drops st) (calls st))
  | None => (Throw undefined_behaviour, st)
  end.

(** Modelled from the spec: [LockAndResetIfExpired] is declared outside the
    sources. A weak back-reference resolves to its window while that window
    exists and to "absent" afterwards (glossary); resetting an expired
    [weak_ptr] changes nothing that [Wnd] can observe and is left out. *)
Definition LockAndResetIfExpired (st : State) (ptr : option nat) : option nat :=
  match ptr with
  | Some p => if heap st !! p is Some _ then Some p else None
  | None => None
  end.

Section Wnd.
Context {hdr : WndHeader}.

(** [shared_from_this]. *)
Definition shared_from_this (st : State) (this : nat) : result nat :=
  w ← deref st this;
  if Wnd.weak_this w then Ok this else Throw bad_weak_ptr.

(** [m_flags & FLAG] read as a [bool]. *)
Definition has_flag (st : State) (w : Wnd.t) (flag : FlagType.t) : result bool :=
  f ← Flags.and_flag (wnd_flags st) (Wnd.m_flags w) flag;
  Ok (Flags.to_bool f).

Definition Parent (st : State) (this : nat) : result (option nat) :=
  w ← deref st this;
  Ok (LockAndResetIfExpired st (Wnd.m_parent w)).

Definition GetLayout (st : State) (this : nat) : result (option nat) :=
  w ← deref st this;
  Ok (LockAndResetIfExpired st (Wnd.m_layout w)).

Definition Interactive (st : State) (this : nat) : result bool :=
  w ← deref st this; has_flag st w INTERACTIVE.

Definition RepeatKeyPress (st : State) (this : nat) : result bool :=
  w ← deref st this; has_flag st w REPEAT_KEY_PRESS.

Definition RepeatButtonDown (st : State) (this : nat) : result bool :=
  w ← deref st this; has_flag st w REPEAT_BUTTON_DOWN.

Definition Dragable (st : State) (this : nat) : result bool :=
  w ← deref st this; has_flag st w DRAGABLE.

Definition Resizable (st : State) (this : nat) : result bool :=
  w ← deref st this; has_flag st w RESIZABLE.

(** [!Parent() && m_flags & ONTOP]: the flag test is skipped under a parent. *)
Definition OnTop (st : State) (this : nat) : result bool :=
  parent ← Parent st this;
  w ← deref st this;
  if parent is Some _ then Ok false else has_flag st w ONTOP.

Definition Modal (st : State) (this : nat) : result bool :=
  parent ← Parent st this;
  w ← deref st this;
  if parent is Some _ then Ok false else has_flag st w MODAL.

(** [UpperLeft] adds the parent's [ClientUpperLeft], which for a plain
    [Wnd] is the parent's [UpperLeft]: a walk up the parent chain, here with
    a budget of [fuel] windows. *)
Fixpoint UpperLeft (fuel : nat) (st : State) (this : nat) : result Pt.t :=
  match fuel with
  | O => Throw out_of_fuel
  | S fuel' =>
      w ← deref st this;
      match LockAndResetIfExpired st (Wnd.m_parent w) with
      | Some parent =>
          off ← UpperLeft fuel' st parent;
          Ok (Pt.add (Wnd.m_upperleft w) off)
      | None => Ok (Wnd.m_upperleft w)
      end
  end.

Definition ClientUpperLeft (fuel : nat) (st : State) (this : nat) : result Pt.t :=
  UpperLeft fuel st this.

Definition LowerRight (fuel : nat) (st : State) (this : nat) : result Pt.t :=
  w ← deref st this;
  match LockAndResetIfExpired st (Wnd.m_parent w) with
  | Some parent =>
      off ← ClientUpperLeft fuel st parent;
      Ok (Pt.add (Wnd.m_lowerright w) off)
  | None => Ok (Wnd.m_lowerright w)
  end.

Definition ClientLowerRight (fuel : nat) (st : State) (this : nat) : result Pt.t :=
  LowerRight fuel st this.

Definition ClientSize (fuel : nat) (st : State) (this : nat) : result Pt.t :=
  lr ← ClientLowerRight fuel st this;
  ul ← ClientUpperLeft fuel st this;
  Ok (Pt.sub lr ul).

(** One coordinate of [ClampRectWithMinAndMaxSize]; the x block and the y
    block of the source are this code on [x] and on [y]. [cur_ul] and
    [cur_lr] are the window's present edges. *)
Definition clamp_axis (ul lr min_sz max_sz cur_ul cur_lr : Z) : Z * Z :=
  if decide (lr - ul < min_sz) then
    if decide (ul ≠ cur_ul) then (lr - min_sz, lr) else (ul, ul + min_sz)
  else if decide (max_sz < lr - ul) then
    if decide (lr ≠ cur_lr) then (ul, ul + max_sz) else (lr - max_sz, lr)
  else (ul, lr).

Definition ClampRectWithMinAndMaxSize (fuel : nat) (st : State) (this : nat)
           (ul lr : Pt.t) : result (Pt.t * Pt.t) :=
  w ← deref st this;
  let min_sz := Wnd.MinSize w in
  let max_sz := Wnd.MaxSize w in
  layout ← GetLayout st this;
  min_sz ← match layout with
           | Some l =>
               lw ← deref st l;
               client_sz ← ClientSize fuel st this;
               let layout_min_sz := Pt.add (Wnd.MinSize lw) (Pt.sub (Wnd.Size w) client_sz) in
               Ok (Pt.Build (Z.max (Pt.x min_sz) (Pt.x layout_min_sz))
                            (Z.max (Pt.y min_sz) (Pt.y layout_min_sz)))
           | None => Ok min_sz
           end;
  let '(ulx, lrx) := clamp_axis (Pt.x ul) (Pt.x lr) (Pt.x min_sz) (Pt.x max_sz)
                                (Pt.x (Wnd.m_upperleft w)) (Pt.x (Wnd.m_lowerright w)) in
  let '(uly, lry) := clamp_axis (Pt.y ul) (Pt.y lr) (Pt.y min_sz) (Pt.y max_sz)
                                (Pt.y (Wnd.m_upperleft w)) (Pt.y (Wnd.m_lowerright w)) in
  Ok (Pt.Build ulx uly, Pt.Build lrx lry).

Definition SizeMove (fuel : nat) (this : nat) (ul_ lr_ : Pt.t) : M unit :=
  w ← read (λ st, deref st this);
  let original_sz := Wnd.Size w in
  let resized := bool_decide (original_sz ≠ Pt.sub lr_ ul_) in
  rect ← (if resized then read (λ st, ClampRectWithMinAndMaxSize fuel st this ul_ lr_)
          else mret (ul_, lr_));
  modify this (Wnd.set_geometry rect.1 rect.2);;
  if resized then
    w' ← read (λ st, deref st this);
    let size_changed := bool_decide (Wnd.Size w' ≠ original_sz) in
    layout ← read (λ st, GetLayout st this);
    match layout with
    | Some l =>
        if size_changed then
          client_sz ← read (λ st, ClientSize fuel st this);
          do_call (Layout_Resize l client_sz)
        else mret tt
    | None => mret tt
    end;;
    if size_changed && negb (Wnd.is_layout w') then
      containing_layout ← read (λ st, Ok (LockAndResetIfExpired st (Wnd.m_containing_layout w')));
      match containing_layout with
      | Some cl => do_call (Layout_ChildSizeOrMinSizeChanged cl)
      | None => mret tt
      end
    else mret tt
  else mret tt.

Definition MoveTo (fuel : nat) (this : nat) (pt : Pt.t) : M unit :=
  w ← read (λ st, deref st this);
  SizeMove fuel this pt (Pt.add pt (Wnd.Size w)).

Definition OffsetMove (fuel : nat) (this : nat) (pt : Pt.t) : M unit :=
  w ← read (λ st, deref st this);
  SizeMove fuel this (Pt.add (Wnd.m_upperleft w) pt) (Pt.add (Wnd.m_lowerright w) pt).

Definition Resize (fuel : nat) (this : nat) (sz : Pt.t) : M unit :=
  w ← read (λ st, deref st this);
  SizeMove fuel this (Wnd.m_upperleft w) (Pt.add (Wnd.m_upperleft w) sz).

Definition SetMinSize (fuel : nat) (this : nat) (sz : Pt.t) : M unit :=
  w ← read (λ st, deref st this);
  let min_size_changed := bool_decide (Wnd.m_min_size w ≠ sz) in
  modify this (Wnd.set_min_size sz);;
  if decide (Wnd.Width w < Pt.x sz ∨ Wnd.Height w < Pt.y sz) then
    Resize fuel this (Pt.Build (Z.max (Wnd.Width w) (Pt.x sz)) (Z.max (Wnd.Height w) (Pt.y sz)))
  else if min_size_changed && negb (Wnd.is_layout w) then
    containing_layout ← read (λ st, Ok (LockAndResetIfExpired st (Wnd.m_containing_layout w)));
    match containing_layout with
    | Some cl => do_call (Layout_ChildSizeOrMinSizeChanged cl)
    | None => mret tt
    end
  else mret tt.

Definition SetMaxSize (fuel : nat) (this : nat) (sz : Pt.t) : M unit :=
  w ← read (λ st, deref st this);
  modify this (Wnd.set_max_size sz);;
  if decide (Pt.x sz < Wnd.Width w ∨ Pt.y sz < Wnd.Height w) then
    Resize fuel this (Pt.Build (Z.min (Wnd.Width w) (Pt.x sz)) (Z.min (Wnd.Height w) (Pt.y sz)))
  else mret tt.

(** *** Tree mutation *)

(** [list::erase] at the iterator [find_if] returned: the first match goes. *)
Fixpoint erase_first (wnd : nat) (l : list nat) : list nat :=
  match l with
  | [] => []
  | c :: l' => if decide (c = wnd) then l' else c :: erase_first wnd l'
  end.

Definition SetParent (this : nat) (wnd : option nat) : M unit :=
  modify this (Wnd.set_parent wnd).

Definition DetachChildCore (this : nat) (wnd : option nat) : M unit :=
  match wnd with
  | None => mret tt
  | Some c =>
      modify c (Wnd.set_parent None);;
      modify c (Wnd.set_containing_layout None);;
      layout ← read (λ st, GetLayout st this);
      if decide (layout = Some c) then modify this (Wnd.set_layout None) else mret tt
  end.

Definition DetachChild (this : nat) (wnd : option nat) : M unit :=
  w ← read (λ st, deref st this);
  match wnd with
  | Some c =>
      if decide (c ∈ Wnd.m_children w) then
        DetachChildCore this wnd;;
        modify this (λ w', Wnd.set_children (erase_first c (Wnd.m_children w')) w')
      else mret tt
  | None => mret tt
  end.

Definition AttachChild (this : nat) (wnd : option nat) : M unit :=
  match wnd with
  | None => mret tt
  | Some c =>
      try_catch
        (my_shared ← read (λ st, shared_from_this st this);
         parent ← read (λ st, Parent st c);
         match parent with
         | Some p => DetachChild p wnd
         | None => mret tt
         end;;
         w ← read (λ st, deref st my_shared);
         let this_as_layout := if Wnd.is_layout w then Some my_shared else None in
         do_call (GUI_Remove c);;
         SetParent c (Some my_shared);;
         (if this_as_layout is Some l then modify c (Wnd.set_containing_layout (Some l))
          else mret tt);;
         modify this (λ w', Wnd.set_children (Wnd.m_children w' ++ [c]) w'))
        bad_weak_ptr
        (do_call (cerr_AttachChild this wnd))
  end.

Definition MoveChildUp (this : nat) (wnd : option nat) : M unit :=
  match wnd with
  | None => mret tt
  | Some c =>
      w ← read (λ st, deref st this);
      if decide (c ∈ Wnd.m_children w) then
        modify this (Wnd.set_children (erase_first c (Wnd.m_children w) ++ [c]))
      else mret tt
  end.

Definition MoveChildDown (this : nat) (wnd : option nat) : M unit :=
  match wnd with
  | None => mret tt
  | Some c =>
      w ← read (λ st, deref st this);
      if decide (c ∈ Wnd.m_children w) then
        modify this (Wnd.set_children (c :: erase_first c (Wnd.m_children w)))
      else mret tt
  end.

(** The loop of [DetachChildren] over the children still to visit. *)
Fixpoint DetachChildren_loop (this : nat) (rest : list nat) : M unit :=
  match rest with
  | [] => mret tt
  | wnd :: rest' => DetachChildCore this (Some wnd);; DetachChildren_loop this rest'
  end.

Definition DetachChildren (this : nat) : M unit :=
  modify this (Wnd.set_layout None);;
  w ← read (λ st, deref st this);
  DetachChildren_loop this (Wnd.m_children w);;
  modify this (Wnd.set_children []).

(** *** Modal run *)

Definition ModalInit (this : nat) : M unit := mret tt.

Definition Run (this : nat) : M bool :=
  parent ← read (λ st, Parent st this);
  w ← read (λ st, deref st this);
  modal ← (if parent is Some _ then mret false else read (λ st, has_flag st w MODAL));
  if (modal : bool) then
    me ← read (λ st, shared_from_this st this);
    do_call (GUI_RegisterModal me);;
    do_call (Virtual_ModalInit this);; ModalInit this;;
    modify this (Wnd.set_done false);;
    me ← read (λ st, shared_from_this st this);
    do_call (GUI_RunModal me);;
    me ← read (λ st, shared_from_this st this);
    do_call (GUI_Remove me);;
    mret true
  else mret false.

Definition EndRun (this : nat) : M unit := modify this (Wnd.set_done true).

(** *** Construction *)

(** [ValidateFlags], on the window under construction. *)
Definition ValidateFlags (spec : FlagSpec.t) (w : Wnd.t) : result Wnd.t :=
  modal ← Flags.and_flag spec (Wnd.m_flags w) MODAL;
  if Flags.to_bool modal then
    ontop ← Flags.and_flag spec (Wnd.m_flags w) ONTOP;
    if Flags.to_bool ontop then
      not_ontop ← Flags.complement_flag spec ONTOP;
      Ok (Wnd.set_flags (Flags.and_assign (Wnd.m_flags w) not_ontop) w)
    else Ok w
  else Ok w.

(** [Wnd::Wnd(x, y, w, h, flags)]; the members it does not name take the
    initialisers of [Wnd.h]. *)
Definition Wnd_ctor (spec : FlagSpec.t) (x y w h : Z) (flags : Flags.t) : result Wnd.t :=
  ValidateFlags spec
    (Wnd.Build false false (Pt.Build x y) (Pt.Build (x + w) (y + h))
               default_min_size default_max_size flags None [] None None [] false).

(** Modelled from the spec: [Wnd::Create] is declared outside the sources.
    It is the factory of section 3 ("created via a factory that returns a
    shared-ownership handle"): the constructor runs, and the new window is
    owned by a [shared_ptr] from then on. *)
Definition Create (x y w h : Z) (flags : Flags.t) : M nat := λ st,
  match Wnd_ctor (wnd_flags st) x y w h flags with
  | Ok wnd =>
      let this := fresh (dom (heap st)) in
      (Ok this,
       mkState (wnd_flags st) (<[this := Wnd.set_weak_this true wnd]> (heap st))
               (drops st) (calls st))
  | Throw e => (Throw e, st)
  end.

(** *** Event handlers *)

Definition ForwardEventToParent {A} : M A := throw ForwardToParentException.

(** The body shared by the handlers that only bubble:
    [if (!Interactive()) ForwardEventToParent();]. *)
Definition bubble_unless_interactive (this : nat) : M unit :=
  interactive ← read (λ st, Interactive st this);
  if (interactive : bool) then mret tt else ForwardEventToParent.

(** [DropsAcceptable]: every candidate is rejected. *)
Definition DropsAcceptable (this : nat) (pt : Pt.t) (mod_keys : Z) : M unit := λ st,
  (Ok tt, mkState (wnd_flags st) (heap st) ((λ d, (d.1, false)) <$> drops st) (calls st)).

Definition LButtonDown (this : nat) (pt : Pt.t) (mod_keys : Z) : M unit :=
  bubble_unless_interactive this.

Definition LDrag (fuel : nat) (this : nat) (pt move : Pt.t) (mod_keys : Z) : M unit :=
  dragable ← read (λ st, Dragable st this);
  if (dragable : bool) then OffsetMove fuel this move
  else bubble_unless_interactive this.

Definition LButtonUp (this : nat) (pt : Pt.t) (mod_keys : Z) : M unit :=
  bubble_unless_interactive this.
Definition LClick (this : nat) (pt : Pt.t) (mod_keys : Z) : M unit :=
  bubble_unless_interactive this.
Definition LDoubleClick (this : nat) (pt : Pt.t) (mod_keys : Z) : M unit :=
  LClick this pt mod_keys.
Definition MButtonDown (this : nat) (pt : Pt.t) (mod_keys : Z) : M unit :=
  bubble_unless_interactive this.
Definition MDrag (this : nat) (pt move : Pt.t) (mod_keys : Z) : M unit :=
  bubble_unless_interactive this.
Definition MButtonUp (this : nat) (pt : Pt.t) (mod_keys : Z) : M unit :=
  bubble_unless_interactive this.
Definition MClick (this : nat) (pt : Pt.t) (mod_keys : Z) : M unit :=
  bubble_unless_interactive this.
Definition MDoubleClick (this : nat) (pt : Pt.t) (mod_keys : Z) : M unit :=
  MClick this pt mod_keys.
Definition RButtonDown (this : nat) (pt : Pt.t) (mod_keys : Z) : M unit :=
  bubble_unless_interactive this.
Definition RDrag (this : nat) (pt move : Pt.t) (mod_keys : Z) : M unit :=
  bubble_unless_interactive this.
Definition RButtonUp (this : nat) (pt : Pt.t) (mod_keys : Z) : M unit :=
  bubble_unless_interactive this.
Definition RClick (this : nat) (pt : Pt.t) (mod_keys : Z) : M unit :=
  bubble_unless_interactive this.
Definition RDoubleClick (this : nat) (pt : Pt.t) (mod_keys : Z) : M unit :=
  RClick this pt mod_keys.
Definition MouseEnter (this : nat) (pt : Pt.t) (mod_keys : Z) : M unit :=
  bubble_unless_interactive this.
Definition MouseHere (this : nat) (pt : Pt.t) (mod_keys : Z) : M unit :=
  bubble_unless_interactive this.
Definition MouseLeave (this : nat) : M unit :=
  bubble_unless_interactive this.
Definition MouseWheel (this : nat) (pt : Pt.t) (move : Z) (mod_keys : Z) : M unit :=
  bubble_unless_interactive this.
Definition DragDropEnter (this : nat) (pt : Pt.t) (mod_keys : Z) : M unit :=
  bubble_unless_interactive this.
Definition DragDropHere (this : nat) (pt : Pt.t) (mod_keys : Z) : M unit :=
  bubble_unless_interactive this;;
  DropsAcceptable this pt mod_keys.
Definition CheckDrops (this : nat) (pt : Pt.t) (mod_keys : Z) : M unit :=
  bubble_unless_interactive this;;
  DropsAcceptable this pt mod_keys.
Definition DragDropLeave (this : nat) : M unit :=
  bubble_unless_interactive this.
Definition KeyPress (this : nat) (mod_keys : Z) : M unit :=
  bubble_unless_interactive this.
Definition KeyRelease (this : nat) (mod_keys : Z) : M unit :=
  bubble_unless_interactive this.
Definition TextInput (this : nat) : M unit :=
  bubble_unless_interactive this.
Definition GainingFocus (this : nat) : M unit := mret tt.
Definition LosingFocus (this : nat) : M unit := mret tt.
Definition TimerFiring (this : nat) : M unit := mret tt.

(** [AcceptDrops]: [if (!Interactive() && Parent()) ForwardEventToParent();]. *)
Definition AcceptDrops (this : nat) (pt : Pt.t) (mod_keys : Z) : M unit :=
  interactive ← read (λ st, Interactive st this);
  if (interactive : bool) then mret tt
  else
    parent ← read (λ st, Parent st this);
    if parent is Some _ then ForwardEventToParent else mret tt.

(** [Wnd::EventFilter]. *)
Definition EventFilter (this : nat) (w : nat) (event : WndEvent.t) : M bool := mret false.

(** Modelled from the spec: [ProcessThenRemoveExpiredPtrs] is declared
    outside the sources. Section 4.4, step 1: the list is walked, the action
    runs on every window that still exists, and the references whose window
    is gone are dropped from the list. [s] is what the action's lambda
    captures by reference; the pruned list is returned with it. *)
Fixpoint ProcessThenRemoveExpiredPtrs {S : Type} (ptrs : list nat)
         (action : nat → S → M S) (s : S) : M (S * list nat) :=
  match ptrs with
  | [] => mret (s, [])
  | p :: ptrs' =>
      live ← read (λ st, Ok (LockAndResetIfExpired st (Some p)));
      match live with
      | Some wnd =>
          s' ← action wnd s;
          r ← ProcessThenRemoveExpiredPtrs ptrs' action s';
          mret (r.1, p :: r.2)
      | None => ProcessThenRemoveExpiredPtrs ptrs' action s
      end
  end.

Definition dispatch (fuel : nat) (this : nat) (event : WndEvent.t) : M unit :=
  let pt := WndEvent.Point event in
  let mod_keys := WndEvent.ModKeys event in
  match WndEvent.Type_ event with
  | WndEvent.LButtonDown => LButtonDown this pt mod_keys
  | WndEvent.LDrag => LDrag fuel this pt (WndEvent.DragMove event) mod_keys
  | WndEvent.LButtonUp => LButtonUp this pt mod_keys
  | WndEvent.LClick => LClick this pt mod_keys
  | WndEvent.LDoubleClick => LDoubleClick this pt mod_keys
  | WndEvent.MButtonDown => MButtonDown this pt mod_keys
  | WndEvent.MDrag => MDrag this pt (WndEvent.DragMove event) mod_keys
  | WndEvent.MButtonUp => MButtonUp this pt mod_keys
  | WndEvent.MClick => MClick this pt mod_keys
  | WndEvent.MDoubleClick => MDoubleClick this pt mod_keys
  | WndEvent.RButtonDown => RButtonDown this pt mod_keys
  | WndEvent.RDrag => RDrag this pt (WndEvent.DragMove event) mod_keys
  | WndEvent.RButtonUp => RButtonUp this pt mod_keys
  | WndEvent.RClick => RClick this pt mod_keys
  | WndEvent.RDoubleClick => RDoubleClick this pt mod_keys
  | WndEvent.MouseEnter => MouseEnter this pt mod_keys
  | WndEvent.MouseHere => MouseHere this pt mod_keys
  | WndEvent.MouseLeave => MouseLeave this
  | WndEvent.DragDropEnter => DragDropEnter this pt mod_keys
  | WndEvent.DragDropHere => DragDropHere this pt mod_keys
  | WndEvent.CheckDrops => CheckDrops this pt mod_keys
  | WndEvent.DragDropLeave => DragDropLeave this
  | WndEvent.DragDroppedOn => AcceptDrops this pt mod_keys
  | WndEvent.MouseWheel => MouseWheel this pt (WndEvent.WheelMove event) mod_keys
  | WndEvent.KeyPress => KeyPress this mod_keys
  | WndEvent.KeyRelease => KeyRelease this mod_keys
  | WndEvent.TextInput => TextInput this
  | WndEvent.GainingFocus => GainingFocus this
  | WndEvent.LosingFocus => LosingFocus this
  | WndEvent.TimerFiring => TimerFiring this
  | WndEvent.EmptyEvent => mret tt
  end.

(** [HandleEvent]: [fuel] bounds both the re-dispatches up the parent chain
    and the geometry walks of the handlers. *)
Fixpoint HandleEvent (fuel : nat) (this : nat) (event : WndEvent.t) : M unit :=
  match fuel with
  | O => throw out_of_fuel
  | S fuel' =>
      w ← read (λ st, deref st this);
      r ← ProcessThenRemoveExpiredPtrs (Wnd.m_filters w)
             (λ wnd (filtered : bool),
                if filtered then mret filtered else EventFilter wnd this event)
             false;
      modify this (Wnd.set_filters r.2);;
      if (r.1 : bool) then mret tt
      else
        try_catch (dispatch fuel this event) ForwardToParentException
          (p ← read (λ st, Parent st this);
           match p with
           | Some p => HandleEvent fuel' p event
           | None => mret tt
           end)
  end.

End Wnd.

(** [RegisterWndFlags], run on the registry [spec]: the eight [insert]
    calls in order, stopping at the first that throws. *)
Definition RegisterWndFlags {hdr : WndHeader} (spec : FlagSpec.t) : result bool * FlagSpec.t :=
  let insert flag name (acc : result unit * FlagSpec.t) :=
    match acc with
    | (Ok _, spec) => FlagSpec.insert flag name spec
    | thrown => thrown
    end in
  let r :=
    insert REPEAT_KEY_PRESS "REPEAT_KEY_PRESS"
      (insert MODAL "MODAL"
         (insert ONTOP "ONTOP"
            (insert RESIZABLE "RESIZABLE"
               (insert DRAGABLE "DRAGABLE"
                  (insert REPEAT_BUTTON_DOWN "REPEAT_BUTTON_DOWN"
                     (insert INTERACTIVE "INTERACTIVE"
                        (insert NO_WND_FLAGS "NO_WND_FLAGS" (Ok tt, spec)))))))) in
  ((λ _, true) <$> r.1, r.2).

(** The window-flag registry once static initialisation has run. *)
Definition WndFlagSpec {hdr : WndHeader} : FlagSpec.t :=
  (RegisterWndFlags FlagSpec.default).2.

(** The state before any window exists. *)
Definition initial_state {hdr : WndHeader} : State := mkState WndFlagSpec ∅ [] [].

(** The flag values and size limits of GG's [Wnd.h]. *)
#[global] Instance GG_WndHeader : WndHeader := {|
  NO_WND_FLAGS := FlagType.Build 0;
  INTERACTIVE := FlagType.Build 1;
  REPEAT_BUTTON_DOWN := FlagType.Build 2;
  DRAGABLE := FlagType.Build 4;
  RESIZABLE := FlagType.Build 8;
  ONTOP := FlagType.Build 16;
  MODAL := FlagType.Build 32;
  REPEAT_KEY_PRESS := FlagType.Build 64;
  default_min_size := Pt.Build 0 0;
  default_max_size := Pt.Build (2 ^ 30) (2 ^ 30)
|}.


(** * Grid layout *)

(** ** The pixel grid of [Wnd::GridLayout] *)

Module GridLayoutWnd.
Record t : Set := Build { wnd : nat; ul : Pt.t; lr : Pt.t }.

#[global] Instance inhabited : Inhabited t :=
  populate (Build 0%nat (Pt.Build 0 0) (Pt.Build 0 0)).
End GridLayoutWnd.

(** The four [ordered_non_unique] indices of the container, by their tags. *)
Inductive Index : Set := LayoutLeft | LayoutTop | LayoutRight | LayoutBottom.

#[global] Instance Index_eq_dec : EqDecision Index.
Proof. solve_decision. Defined.

(** The comparators. Each has three overloads (point and point, coordinate
    and point, point and coordinate) that compare the same coordinate the
    same way; here they take that coordinate of both sides: [x] for [IsLeft]
    and [IsRight], [y] for [IsTop] and [IsBottom]. *)
Definition IsLeft (lhs rhs : Z) : bool := bool_decide (lhs < rhs).
Definition IsTop (lhs rhs : Z) : bool := bool_decide (lhs < rhs).
Definition IsRight (lhs rhs : Z) : bool := bool_decide (rhs < lhs).
Definition IsBottom (lhs rhs : Z) : bool := bool_decide (rhs < lhs).

Definition comp (i : Index) : Z → Z → bool :=
  match i with
  | LayoutLeft => IsLeft
  | LayoutTop => IsTop
  | LayoutRight => IsRight
  | LayoutBottom => IsBottom
  end.

(** The coordinate an index is ordered by: its key member ([ul] or [lr])
    seen through its comparator. *)
Definition edge (i : Index) (g : GridLayoutWnd.t) : Z :=
  match i with
  | LayoutLeft => Pt.x (GridLayoutWnd.ul g)
  | LayoutTop => Pt.y (GridLayoutWnd.ul g)
  | LayoutRight => Pt.x (GridLayoutWnd.lr g)
  | LayoutBottom => Pt.y (GridLayoutWnd.lr g)
  end.

(** [grid_wnd.ul.x = x] and its three siblings. *)
Definition set_edge (i : Index) (v : Z) (g : GridLayoutWnd.t) : GridLayoutWnd.t :=
  let ul := GridLayoutWnd.ul g in
  let lr := GridLayoutWnd.lr g in
  match i with
  | LayoutLeft => GridLayoutWnd.Build (GridLayoutWnd.wnd g) (Pt.Build v (Pt.y ul)) lr
  | LayoutTop => GridLayoutWnd.Build (GridLayoutWnd.wnd g) (Pt.Build (Pt.x ul) v) lr
  | LayoutRight => GridLayoutWnd.Build (GridLayoutWnd.wnd g) ul (Pt.Build v (Pt.y lr))
  | LayoutBottom => GridLayoutWnd.Build (GridLayoutWnd.wnd g) ul (Pt.Build (Pt.x lr) v)
  end.

(** [boost::multi_index_container]: the elements are nodes shared by all
    indices. The [Pointer] index is [ordered_unique] on [wnd], so a node is
    known by its window; every index is the list of the nodes in its order,
    and an iterator is a node ([None] for [end()]). *)
Module GridLayoutWndContainer.
Record t : Type := Build {
  nodes : gmap nat GridLayoutWnd.t;
  by_pointer : list nat;
  by_left : list nat;
  by_top : list nat;
  by_right : list nat;
  by_bottom : list nat
}.

Definition empty : t := Build ∅ [] [] [] [] [].

(** [get<Tag>()]. *)
Definition get (i : Index) (c : t) : list nat :=
  match i with
  | LayoutLeft => by_left c
  | LayoutTop => by_top c
  | LayoutRight => by_right c
  | LayoutBottom => by_bottom c
  end.

Definition edge_of (i : Index) (nodes : gmap nat GridLayoutWnd.t) (y : nat) : Z :=
  edge i (nodes !!! y).

(** Linking a node with key [k] into an [ordered_non_unique] index: after
    the nodes whose key is not greater, before the first whose key is. *)
Fixpoint link (i : Index) (nodes : gmap nat GridLayoutWnd.t) (k : Z) (it : nat)
         (l : list nat) : list nat :=
  match l with
  | [] => [it]
  | y :: l' =>
      if comp i k (edge_of i nodes y) then it :: l
      else y :: link i nodes k it l'
  end.

(** Linking into the [Pointer] index, ordered by [std::less] on the pointer. *)
Fixpoint link_unique (it : nat) (l : list nat) : list nat :=
  match l with
  | [] => [it]
  | y :: l' => if decide (it < y)%nat then it :: l else y :: link_unique it l'
  end.

(** [insert]: refused when the [Pointer] index has the window already. *)
Definition insert (v : GridLayoutWnd.t) (c : t) : t :=
  let it := GridLayoutWnd.wnd v in
  if decide (is_Some (nodes c !! it)) then c
  else
    Build (<[it := v]> (nodes c))
          (link_unique it (by_pointer c))
          (link LayoutLeft (nodes c) (edge LayoutLeft v) it (by_left c))
          (link LayoutTop (nodes c) (edge LayoutTop v) it (by_top c))
          (link LayoutRight (nodes c) (edge LayoutRight v) it (by_right c))
          (link LayoutBottom (nodes c) (edge LayoutBottom v) it (by_bottom c)).

(** [count(x, comparator)]: the nodes whose key is neither before nor after
    [x]. *)
Definition count (i : Index) (c : t) (x : Z) : nat :=
  length (filter (λ y, comp i x (edge_of i (nodes c) y) = false ∧
                       comp i (edge_of i (nodes c) y) x = false) (get i c)).

(** [begin()], [++it] and [--it] in an index. *)
Definition begin_ (i : Index) (c : t) : option nat := head (get i c).

Fixpoint succ_in (l : list nat) (it : nat) : option nat :=
  match l with
  | [] => None
  | y :: l' => if decide (y = it) then head l' else succ_in l' it
  end.

Fixpoint pred_in (l : list nat) (it : nat) (prev : option nat) : option nat :=
  match l with
  | [] => None
  | y :: l' => if decide (y = it) then prev else pred_in l' it (Some y)
  end.

(** [replace] in one [ordered_non_unique] index. The node stays where it is
    when the new key fits between its neighbours (Boost's [in_place]);
    otherwise it is unlinked and linked again. *)
Definition in_place (i : Index) (nodes : gmap nat GridLayoutWnd.t) (k : Z)
           (l : list nat) (it : nat) : bool :=
  (if pred_in l it None is Some y then negb (comp i k (edge_of i nodes y)) else true) &&
  (if succ_in l it is Some y then negb (comp i (edge_of i nodes y) k) else true).

Definition replace_in (i : Index) (nodes : gmap nat GridLayoutWnd.t) (k : Z)
           (l : list nat) (it : nat) : list nat :=
  if in_place i nodes k l it then l
  else link i nodes k it (erase_first it l).

(** [replace(it, v)]; [v] is a copy of [*it] with one coordinate changed,
    so the [Pointer] index has nothing to do. *)
Definition replace (it : nat) (v : GridLayoutWnd.t) (c : t) : t :=
  Build (<[it := v]> (nodes c))
        (by_pointer c)
        (replace_in LayoutLeft (nodes c) (edge LayoutLeft v) (by_left c) it)
        (replace_in LayoutTop (nodes c) (edge LayoutTop v) (by_top c) it)
        (replace_in LayoutRight (nodes c) (edge LayoutRight v) (by_right c) it)
        (replace_in LayoutBottom (nodes c) (edge LayoutBottom v) (by_bottom c) it).
End GridLayoutWndContainer.

(** ** The four alignment loops

    The loops that align left sides, right sides, tops and bottoms are one
    loop over an index [i]:
    - left:   [x] from [ul.x - 1] down to [0]; stop at a right side at
      [x + 1], snap to a left side at [x];
    - right:  [x] from [lr.x + 1] up to [client_sz.x - 1]; stop at a left
      side at [x - 1], snap to a right side at [x];
    - top and bottom: the same on [y]. *)

Definition opposite (i : Index) : Index :=
  match i with
  | LayoutLeft => LayoutRight
  | LayoutTop => LayoutBottom
  | LayoutRight => LayoutLeft
  | LayoutBottom => LayoutTop
  end.

(** The increment of the inner loop variable. *)
Definition stride (i : Index) : Z :=
  match i with
  | LayoutLeft | LayoutTop => -1
  | LayoutRight | LayoutBottom => 1
  end.

(** How many values the inner loop variable takes, from the edge [k]. *)
Definition trip_count (i : Index) (client_sz : Pt.t) (k : Z) : nat :=
  match i with
  | LayoutLeft | LayoutTop => Z.to_nat k
  | LayoutRight => Z.to_nat (Pt.x client_sz - k - 1)
  | LayoutBottom => Z.to_nat (Pt.y client_sz - k - 1)
  end.

(** The inner loop, [x] being the loop variable and [n] the number of
    values left for it: the coordinate to snap to, if any. *)
Fixpoint scan (i : Index) (c : GridLayoutWndContainer.t) (n : nat) (x : Z) : option Z :=
  match n with
  | O => None
  | S n' =>
      if decide (GridLayoutWndContainer.count (opposite i) c (x - stride i) ≠ 0%nat) then None
      else if decide (GridLayoutWndContainer.count i c x ≠ 0%nat) then Some x
      else scan i c n' (x + stride i)
  end.

(** The outer loop, from the iterator [it] on; [fuel] bounds the number of
    nodes visited. *)
Fixpoint align (fuel : nat) (i : Index) (client_sz : Pt.t) (it : option nat)
         (c : GridLayoutWndContainer.t) : result GridLayoutWndContainer.t :=
  match it with
  | None => Ok c
  | Some node =>
      match fuel with
      | O => Throw out_of_fuel
      | S fuel' =>
          let g := GridLayoutWndContainer.nodes c !!! node in
          let c' :=
            match scan i c (trip_count i client_sz (edge i g)) (edge i g + stride i) with
            | Some x => GridLayoutWndContainer.replace node (set_edge i x g) c
            | None => c
            end in
          align fuel' i client_sz
                (GridLayoutWndContainer.succ_in (GridLayoutWndContainer.get i c') node) c'
      end
  end.

(** ** Validation *)

(** [wnd_ul.x < 0 || wnd_ul.y < 0 || client_sz.x < wnd_lr.x || client_sz.y < wnd_lr.y] *)
Definition outside (client_sz wnd_ul wnd_lr : Pt.t) : bool :=
  bool_decide (Pt.x wnd_ul < 0) || bool_decide (Pt.y wnd_ul < 0) ||
  bool_decide (Pt.x client_sz < Pt.x wnd_lr) || bool_decide (Pt.y client_sz < Pt.y wnd_lr).

(** The test of the inner validation loop against one later sibling. *)
Definition corner_inside (rect : nat → Rect.t) (wnd_ul wnd_lr : Pt.t) (other : nat) : bool :=
  Rect.Contains (rect other) wnd_ul ||
  Rect.Contains (rect other) (Pt.sub wnd_lr (Pt.Build 1 1)).

(** The first loop over [m_children]; [rect] gives a child's
    [RelativeUpperLeft] and [RelativeLowerRight]. *)
Fixpoint validate (client_sz : Pt.t) (rect : nat → Rect.t) (m_children : list nat)
         (grid_layout : GridLayoutWndContainer.t) : result GridLayoutWndContainer.t :=
  match m_children with
  | [] => Ok grid_layout
  | wnd :: later =>
      let wnd_ul := Rect.ul (rect wnd) in
      let wnd_lr := Rect.lr (rect wnd) in
      if outside client_sz wnd_ul wnd_lr then validate client_sz rect later grid_layout
      else if existsb (corner_inside rect wnd_ul wnd_lr) later then Throw BadLayout
      else validate client_sz rect later
             (GridLayoutWndContainer.insert (GridLayoutWnd.Build wnd wnd_ul wnd_lr) grid_layout)
  end.

(** ** Cells *)

(** [std::set<X>] and [std::set<Y>] as strictly increasing lists. *)
Fixpoint emplace (x : Z) (s : list Z) : list Z :=
  match s with
  | [] => [x]
  | y :: s' =>
      if decide (x < y) then x :: s
      else if decide (x = y) then s
      else y :: emplace x s'
  end.

(** [std::distance(s.begin(), s.find(x))]; [find] is [end()] on a miss. *)
Fixpoint find_distance (x : Z) (s : list Z) : nat :=
  match s with
  | [] => 0
  | y :: s' => if decide (y = x) then 0 else S (find_distance x s')
  end.

(** [std::distance(s.begin(), s.lower_bound(x))]. *)
Fixpoint lower_bound_distance (x : Z) (s : list Z) : nat :=
  match s with
  | [] => 0
  | y :: s' => if decide (y < x) then S (lower_bound_distance x s') else 0
  end.

(** The arguments of one [layout->Add]. *)
Record GridCell : Set := mkGridCell {
  cell_wnd : nat;
  cell_row : Z;
  cell_column : Z;
  cell_num_rows : Z;
  cell_num_columns : Z
}.

(** What [GridLayout] asks of the new layout: its numbers of rows and of
    columns, and the [Add] calls in their order. *)
Record LayoutPlan : Set := mkLayoutPlan {
  plan_rows : nat;
  plan_columns : nat;
  plan_cells : list GridCell
}.

Definition unique_edges (i : Index) (c : GridLayoutWndContainer.t) : list Z :=
  foldl (λ s y, emplace (GridLayoutWndContainer.edge_of i (GridLayoutWndContainer.nodes c) y) s)
        [] (GridLayoutWndContainer.get i c).

Definition cell_of (unique_lefts unique_tops : list Z) (layout_wnd : GridLayoutWnd.t)
  : GridCell :=
  let ul := GridLayoutWnd.ul layout_wnd in
  let lr := GridLayoutWnd.lr layout_wnd in
  let left := Z.of_nat (find_distance (Pt.x ul) unique_lefts) in
  let top := Z.of_nat (find_distance (Pt.y ul) unique_tops) in
  let right := Z.of_nat (lower_bound_distance (Pt.x lr) unique_lefts) in
  let bottom := Z.of_nat (lower_bound_distance (Pt.y lr) unique_tops) in
  mkGridCell (GridLayoutWnd.wnd layout_wnd) top left (bottom - top) (right - left).

(** [Wnd::GridLayout] between [Pt client_sz = ClientSize();] and the making
    of the layout: [None] when it returns early. *)
Definition GridLayout_core (fuel : nat) (client_sz : Pt.t) (rect : nat → Rect.t)
           (m_children : list nat) : result (option LayoutPlan) :=
  grid_layout ← validate client_sz rect m_children GridLayoutWndContainer.empty;
  grid_layout ← align fuel LayoutLeft client_sz
                  (GridLayoutWndContainer.begin_ LayoutLeft grid_layout) grid_layout;
  grid_layout ← align fuel LayoutRight client_sz
                  (GridLayoutWndContainer.begin_ LayoutRight grid_layout) grid_layout;
  grid_layout ← align fuel LayoutTop client_sz
                  (GridLayoutWndContainer.begin_ LayoutTop grid_layout) grid_layout;
  grid_layout ← align fuel LayoutBottom client_sz
                  (GridLayoutWndContainer.begin_ LayoutBottom grid_layout) grid_layout;
  let unique_lefts := unique_edges LayoutLeft grid_layout in
  let unique_tops := unique_edges LayoutTop grid_layout in
  if bool_decide (unique_lefts = []) || bool_decide (unique_tops = []) then Ok None
  else
    Ok (Some (mkLayoutPlan (length unique_tops) (length unique_lefts)
                ((λ y, cell_of unique_lefts unique_tops
                         (GridLayoutWndContainer.nodes grid_layout !!! y))
                   <$> GridLayoutWndContainer.by_pointer grid_layout))).

(** ** [GridLayout] on the window tree *)

Section GridLayout.
Context {hdr : WndHeader}.

(** [Wnd::RemoveLayout]. What [Layout::DetachAndResetChildren] does to the
    layout is outside the sources; [Children()] is [m_children]. *)
Definition RemoveLayout (this : nat) : M unit :=
  layout ← read (λ st, GetLayout st this);
  modify this (Wnd.set_layout None);;
  match layout with
  | None => mret tt
  | Some l =>
      lw ← read (λ st, deref st l);
      let layout_children := Wnd.m_children lw in
      do_call (Layout_DetachAndResetChildren l);;
      foldr (λ wnd rest, AttachChild this (Some wnd);; rest) (mret tt) layout_children
  end.

(** Modelled from the spec: [Layout] and [Wnd::Create<Layout>] are outside
    the sources. Section 3, LayoutNode: a "specialization of WindowNode
    representing a manufactured grid container". The new window is made by
    the constructor of [Wnd] without flags and is a layout; its grid is kept
    by [Layout] and shows here as the recorded calls. *)
Definition Create_Layout (x y w h : Z) (rows columns : nat) : M nat := λ st,
  match Wnd_ctor (wnd_flags st) x y w h Flags.default with
  | Ok wnd =>
      let this := fresh (dom (heap st)) in
      (Ok this,
       mkState (wnd_flags st)
               (<[this := Wnd.Build true true (Wnd.m_upperleft wnd) (Wnd.m_lowerright wnd)
                            (Wnd.m_min_size wnd) (Wnd.m_max_size wnd) (Wnd.m_flags wnd)
                            None [] None None [] false]> (heap st))
               (drops st) (calls st ++ [Layout_ctor this rows columns]))
  | Throw e => (Throw e, st)
  end.

(** The rectangle of a child relative to its parent. *)
Definition rect_of (st : State) (child : nat) : Rect.t :=
  match heap st !! child with
  | Some w => Rect.Build (Wnd.RelativeUpperLeft w) (Wnd.RelativeLowerRight w)
  | None => Rect.Build (Pt.Build 0 0) (Pt.Build 0 0)
  end.

(** [Wnd::GridLayout]. *)
Definition GridLayout (fuel : nat) (this : nat) : M unit :=
  RemoveLayout this;;
  client_sz ← read (λ st, ClientSize fuel st this);
  w ← read (λ st, deref st this);
  read (λ st, foldr (λ child rest, _ ← deref st child; rest) (Ok tt) (Wnd.m_children w));;
  plan ← read (λ st, GridLayout_core fuel client_sz (rect_of st) (Wnd.m_children w));
  match plan with
  | None => mret tt
  | Some plan =>
      sz ← read (λ st, ClientSize fuel st this);
      layout ← Create_Layout 0 0 (Pt.x sz) (Pt.y sz) (plan_rows plan) (plan_columns plan);
      modify this (Wnd.set_layout (Some layout));;
      AttachChild this (Some layout);;
      foldr (λ cell rest,
               do_call (Layout_Add layout (cell_wnd cell) (cell_row cell) (cell_column cell)
                                   (cell_num_rows cell) (cell_num_columns cell));;
               rest)
            (mret tt) (plan_cells plan)
  end.

End GridLayout.


(** * Vocabulary of the statements *)

(** Array shape kept by the registry: both arrays have [digits] slots. *)
Definition FlagSpec_wf (spec : FlagSpec.t) : Prop :=
  (FlagSpec.m_count spec ≤ digits)%nat ∧
  length (FlagSpec.m_flags spec) = digits ∧
  length (FlagSpec.m_strings spec) = digits.

(** The names of the registered flags, in registration order. *)
Definition FlagSpec_names (spec : FlagSpec.t) : list string :=
  take (FlagSpec.m_count spec) (FlagSpec.m_strings spec).

(** [ToString] and [FromString] are the same scan with the two arrays
    swapped; [assoc_scan] is that scan. *)
Fixpoint assoc_scan {K V} `{EqDecision K} (keys : list K) (vals : list V)
         (k : K) (miss : exn) (n idx : nat) : result V :=
  match n with
  | O => Throw miss
  | S n' =>
      f ← at_ keys idx;
      if decide (f = k) then at_ vals idx
      else assoc_scan keys vals k miss n' (S idx)
  end.

(** Registries reachable from the empty one by successful [insert] calls. *)
Inductive registered : FlagSpec.t → Prop :=
  | registered_default : registered FlagSpec.default
  | registered_insert spec flag name spec' :
      registered spec →
      FlagSpec.insert flag name spec = (Ok tt, spec') →
      registered spec'.

(** Valid registrations: every successful [insert] brings a name that is
    not yet in use. *)
Inductive valid_registrations : FlagSpec.t → Prop :=
  | valid_default : valid_registrations FlagSpec.default
  | valid_insert spec flag name spec' :
      valid_registrations spec →
      name ∉ FlagSpec_names spec →
      FlagSpec.insert flag name spec = (Ok tt, spec') →
      valid_registrations spec'.

(** The registered universe as a bit set: the union of all registered flags. *)
Definition universe (spec : FlagSpec.t) : Z :=
  foldr (λ f acc, Z.lor (FlagType.m_value f) acc) 0 (FlagSpec.range spec).

(** A flag value the [FlagType] constructor accepts and stores as it is. *)
Definition FlagType_valid (f : FlagType.t) : Prop :=
  FlagType.make (FlagType.m_value f) = Ok f.

(** The fixed-width complement of the 16-bit storage. *)
Definition bit_complement (s : Z) : Z := Z.lxor s (Z.ones (Z.of_nat digits)).

(** Three flags [A], [B], [C] registered in this order. *)
Definition flag_A : FlagType.t := FlagType.Build 1.
Definition flag_B : FlagType.t := FlagType.Build 2.
Definition flag_C : FlagType.t := FlagType.Build 4.
Definition spec_A : FlagSpec.t := (FlagSpec.insert flag_A "A" FlagSpec.default).2.
Definition spec_AB : FlagSpec.t := (FlagSpec.insert flag_B "B" spec_A).2.
Definition spec_ABC : FlagSpec.t := (FlagSpec.insert flag_C "C" spec_AB).2.

(** ** Reachable states *)

Section reachable.
Context {hdr : WndHeader}.

(** One call of an operation of [Wnd] (whatever its outcome), or one more
    flag registered. *)
Inductive step : State → State → Prop :=
  | step_Create x y w h flags st r st' :
      Create x y w h flags st = (r, st') → step st st'
  | step_SizeMove fuel this ul lr st r st' :
      SizeMove fuel this ul lr st = (r, st') → step st st'
  | step_MoveTo fuel this pt st r st' :
      MoveTo fuel this pt st = (r, st') → step st st'
  | step_OffsetMove fuel this pt st r st' :
      OffsetMove fuel this pt st = (r, st') → step st st'
  | step_Resize fuel this sz st r st' :
      Resize fuel this sz st = (r, st') → step st st'
  | step_SetMinSize fuel this sz st r st' :
      SetMinSize fuel this sz st = (r, st') → step st st'
  | step_SetMaxSize fuel this sz st r st' :
      SetMaxSize fuel this sz st = (r, st') → step st st'
  | step_AttachChild this wnd st r st' :
      AttachChild this wnd st = (r, st') → step st st'
  | step_DetachChild this wnd st r st' :
      DetachChild this wnd st = (r, st') → step st st'
  | step_DetachChildren this st r st' :
      DetachChildren this st = (r, st') → step st st'
  | step_MoveChildUp this wnd st r st' :
      MoveChildUp this wnd st = (r, st') → step st st'
  | step_MoveChildDown this wnd st r st' :
      MoveChildDown this wnd st = (r, st') → step st st'
  | step_Run this st r st' :
      Run this st = (r, st') → step st st'
  | step_EndRun this st r st' :
      EndRun this st = (r, st') → step st st'
  | step_HandleEvent fuel this event st r st' :
      HandleEvent fuel this event st = (r, st') → step st st'
  | step_RemoveLayout this st r st' :
      RemoveLayout this st = (r, st') → step st st'
  | step_GridLayout fuel this st r st' :
      GridLayout fuel this st = (r, st') → step st st'
  | step_insert flag name st r spec' :
      FlagSpec.insert flag name (wnd_flags st) = (r, spec') →
      step st (mkState spec' (heap st) (drops st) (calls st)).

Inductive reachable : State → Prop :=
  | reachable_initial : reachable initial_state
  | reachable_step st st' : reachable st → step st st' → reachable st'.

(** The two capability bits are not both set. *)
Definition modal_xor_ontop (w : Wnd.t) : Prop :=
  ¬ (Z.land (Flags.m_flags (Wnd.m_flags w)) (FlagType.m_value MODAL) ≠ 0 ∧
     Z.land (Flags.m_flags (Wnd.m_flags w)) (FlagType.m_value ONTOP) ≠ 0).

(** No window has both capability bits. *)
Definition all_exclusive (st : State) : Prop :=
  ∀ this w, heap st !! this = Some w → modal_xor_ontop w.

(** [m] keeps the property [I] of states, whatever its outcome. *)
Definition keeps (I : State → Prop) {A} (m : M A) : Prop :=
  ∀ st r st', m st = (r, st') → I st → I st'.

(** Every window of [st'] was in [st], with the same flags. *)
Definition keeps_flags (st st' : State) : Prop :=
  ∀ this w', heap st' !! this = Some w' →
             ∃ w, heap st !! this = Some w ∧ Wnd.m_flags w' = Wnd.m_flags w.

(** [m] changes no window's flags and makes no window. *)
Definition preserves_flags {A} (m : M A) : Prop :=
  ∀ st r st', m st = (r, st') → keeps_flags st st'.

End reachable.

(** ** States used as examples (GG's header values) *)

(** One parentless window made with [MODAL | ONTOP]. *)
Definition st_modal_ontop : State :=
  (Create 0 0 10 10 (Flags.Build 48) initial_state).2.

(** One parentless window made with [INTERACTIVE] alone. *)
Definition st_plain : State :=
  (Create 0 0 10 10 (Flags.Build 1) initial_state).2.

(** ** The window tree *)

(** The state with another heap. *)
Definition set_heap (st : State) (h : gmap nat Wnd.t) : State :=
  mkState (wnd_flags st) h (drops st) (calls st).

(** The shape of the strong edges: a window is listed once by its parent,
    every listed child exists, and its weak back-reference names the window
    that lists it. *)
Definition wf_tree (st : State) : Prop :=
  map_Forall (λ p w,
    NoDup (Wnd.m_children w) ∧
    Forall (λ c, Wnd.m_parent <$> heap st !! c = Some (Some p)) (Wnd.m_children w))
    (heap st).

(** A [shared_ptr] owns the window: [shared_from_this] succeeds. *)
Definition shared (st : State) (this : nat) : Prop :=
  Wnd.weak_this <$> heap st !! this = Some true.

(** The children listed by [this]; none when [this] does not exist. *)
Definition children (st : State) (this : nat) : list nat :=
  default [] (Wnd.m_children <$> heap st !! this).

(** The state after [m]. *)
Definition after {A} (m : M A) (st : State) : State := (m st).2.

(** The effective minimum size of section 4.2: the window's own minimum,
    raised to the installed layout's minimum plus the chrome (window size
    minus client size). *)
Definition effective_min_size {hdr : WndHeader} (fuel : nat) (st : State) (this : nat)
  : result Pt.t :=
  w ← deref st this;
  layout ← GetLayout st this;
  match layout with
  | Some l =>
      lw ← deref st l;
      client_sz ← ClientSize fuel st this;
      Ok (Pt.Build
            (Z.max (Pt.x (Wnd.m_min_size w))
                   (Pt.x (Wnd.m_min_size lw) + (Wnd.Width w - Pt.x client_sz)))
            (Z.max (Pt.y (Wnd.m_min_size w))
                   (Pt.y (Wnd.m_min_size lw) + (Wnd.Height w - Pt.y client_sz))))
  | None => Ok (Wnd.m_min_size w)
  end.

(** One coordinate of a resize: a request below the minimum ends at the
    minimum; otherwise a request above the maximum ends at the maximum;
    otherwise the request is granted. *)
Definition axis_clamped (requested min_sz max_sz result : Z) : Prop :=
  (requested < min_sz → result = min_sz) ∧
  (min_sz ≤ requested → max_sz < requested → result = max_sz) ∧
  (min_sz ≤ requested → requested ≤ max_sz → result = requested).

(** A window whose minimum size was set to 10 x 10 and whose maximum size
    was then set to 5 x 5. *)
Definition st_min_above_max : State :=
  after (SetMaxSize 0 0%nat (Pt.Build 5 5))
    (after (SetMinSize 0 0%nat (Pt.Build 10 10)) st_plain).

(** Two parents (0 and 1) and a child (2), all made by [Create]; and a
    dragable, non-interactive window on its own. *)
Definition st_three : State :=
  after (Create 0 0 5 5 (Flags.Build 1))
    (after (Create 0 0 50 50 (Flags.Build 1))
       (after (Create 0 0 50 50 (Flags.Build 1)) initial_state)).

Definition st_dragable : State :=
  after (Create 0 0 10 10 (Flags.Build 4)) initial_state.

(** Two states whose windows exist alike and have the same parent links. *)
Definition same_links (st st1 : State) : Prop :=
  ∀ X, Wnd.m_parent <$> heap st1 !! X = Wnd.m_parent <$> heap st !! X.

(** ** Event dispatch *)

(** The state once [HandleEvent] has walked the filters of [this]: the
    references to windows that are gone have been dropped from the list. *)
Definition pruned (st : State) (this : nat) (w : Wnd.t) : State :=
  set_heap st
    (<[this := Wnd.set_filters (filter (λ p, is_Some (heap st !! p)) (Wnd.m_filters w)) w]>
       (heap st)).

(** The state with [this] moved by [move], its size kept. *)
Definition moved (st : State) (this : nat) (w : Wnd.t) (move : Pt.t) : State :=
  set_heap st
    (<[this := Wnd.set_geometry (Pt.add (Wnd.m_upperleft w) move)
                                (Pt.add (Wnd.m_lowerright w) move) w]> (heap st)).

(** A left-button drag by (5, 5). *)
Definition ev_LDrag : WndEvent.t :=
  WndEvent.Build WndEvent.LDrag (Pt.Build 0 0) 0 (Pt.Build 5 5) 0.

(** The window of [st_dragable]. *)
Definition w_dragable : Wnd.t :=
  Wnd.Build true false (Pt.Build 0 0) (Pt.Build 10 10) (Pt.Build 0 0)
            (Pt.Build (2 ^ 30) (2 ^ 30)) (Flags.Build 4) None [] None None [] false.

(** ** Grid layout *)

(** The place of a coordinate in the order of index [i]: the left and top
    indices run upwards, the right and bottom indices downwards. *)
Definition rank (i : Index) (a : Z) : Z :=
  match i with
  | LayoutLeft | LayoutTop => a
  | LayoutRight | LayoutBottom => - a
  end.

(** The list [l] of nodes is in the order of index [i]. *)
Definition sorted (i : Index) (nodes : gmap nat GridLayoutWnd.t) (l : list nat) : Prop :=
  StronglySorted
    (λ a b, rank i (GridLayoutWndContainer.edge_of i nodes a)
            ≤ rank i (GridLayoutWndContainer.edge_of i nodes b)) l.

(** Some node of index [i] has its edge at [x]. *)
Definition present (i : Index) (c : GridLayoutWndContainer.t) (x : Z) : Prop :=
  ∃ y, y ∈ GridLayoutWndContainer.get i c ∧
       GridLayoutWndContainer.edge_of i (GridLayoutWndContainer.nodes c) y = x.

(** The shape of a container: a node is kept under its window, and every
    index lists every node once, in its order. *)
Definition container_wf (c : GridLayoutWndContainer.t) : Prop :=
  (∀ y g, GridLayoutWndContainer.nodes c !! y = Some g → GridLayoutWnd.wnd g = y) ∧
  (∀ y, y ∈ GridLayoutWndContainer.by_pointer c
        ↔ is_Some (GridLayoutWndContainer.nodes c !! y)) ∧
  ∀ j, NoDup (GridLayoutWndContainer.get j c) ∧
       sorted j (GridLayoutWndContainer.nodes c) (GridLayoutWndContainer.get j c) ∧
       (∀ y, y ∈ GridLayoutWndContainer.get j c
             ↔ is_Some (GridLayoutWndContainer.nodes c !! y)).

(** Where one pass of the body of the alignment loop of index [i] leaves a
    node whose edge is at [k]. *)
Definition target (i : Index) (client_sz : Pt.t) (c : GridLayoutWndContainer.t) (k : Z) : Z :=
  match scan i c (trip_count i client_sz k) (k + stride i) with
  | Some x => x
  | None => k
  end.

(** Three children in a 100 x 100 client area: 1 and 2 share their left
    edge, 3 stands to their right. *)
Definition rect_three (child : nat) : Rect.t :=
  match child with
  | 1%nat => Rect.Build (Pt.Build 10 10) (Pt.Build 40 40)
  | 2%nat => Rect.Build (Pt.Build 10 50) (Pt.Build 40 90)
  | 3%nat => Rect.Build (Pt.Build 60 10) (Pt.Build 90 40)
  | _ => Rect.Build (Pt.Build 0 0) (Pt.Build 0 0)
  end.

(** A cross: 1 lies across, 2 stands upright, in a 30 x 30 client area. *)
Definition rect_cross (child : nat) : Rect.t :=
  match child with
  | 1%nat => Rect.Build (Pt.Build 0 10) (Pt.Build 30 20)
  | 2%nat => Rect.Build (Pt.Build 10 0) (Pt.Build 20 30)
  | _ => Rect.Build (Pt.Build 0 0) (Pt.Build 0 0)
  end.

(** 1 is inside the 100 x 100 client area; 2 reaches out of it and covers 1. *)
Definition rect_outside (child : nat) : Rect.t :=
  match child with
  | 1%nat => Rect.Build (Pt.Build 0 0) (Pt.Build 10 10)
  | 2%nat => Rect.Build (Pt.Build (-5) (-5)) (Pt.Build 50 50)
  | _ => Rect.Build (Pt.Build 0 0) (Pt.Build 0 0)
  end.

(** A 100 x 100 window (0) with the three children of [rect_three]. *)
Definition st_grid : State :=
  after (AttachChild 0%nat (Some 3%nat))
    (after (AttachChild 0%nat (Some 2%nat))
       (after (AttachChild 0%nat (Some 1%nat))
          (after (Create 60 10 30 30 (Flags.Build 1))
             (after (Create 10 50 30 40 (Flags.Build 1))
                (after (Create 10 10 30 30 (Flags.Build 1))
                   (after (Create 0 0 100 100 (Flags.Build 1)) initial_state)))))).

(** ** Operations that leave the tree alone *)

(** The same windows, with the same parent links and child lists. *)
Definition same_tree (st st' : State) : Prop :=
  ∀ X, Wnd.m_parent <$> heap st' !! X = Wnd.m_parent <$> heap st !! X ∧
       Wnd.m_children <$> heap st' !! X = Wnd.m_children <$> heap st !! X.

Definition preserves_tree {A} (m : M A) : Prop :=
  ∀ st r st', m st = (r, st') → same_tree st st'.


Local Open Scope Z_scope.
(** ** Stream output of a flag set *)

(** The bits of [unsigned int]: [sizeof(flags_data) * 8]. *)
Definition unsigned_int_bits : nat := 32.

(** [operator<<(std::ostream&, Flags<FlagType>)], with [os] the text the
    stream holds. [n] rounds of the loop are left, [i] is the loop counter.
    [FlagType(1 << i)] converts its argument to [unsigned short] and may
    throw, as may [ToString]; what was written before a throw stays
    written. *)
Fixpoint Flags_output_loop (spec : FlagSpec.t) (n i : nat) (flags_data : Z)
         (flag_printed : bool) (os : string) : result unit * string :=
  match n with
  | O => (Ok tt, os)
  | S n' =>
      if decide (Z.land flags_data 1 = 0) then
        Flags_output_loop spec n' (S i) (Z.shiftr flags_data 1) flag_printed os
      else
        let os := if flag_printed then (os ++ " | ")%string else os in
        match flag ← FlagType.make (Z.shiftl 1 (Z.of_nat i)); FlagSpec.ToString spec flag with
        | Ok s => Flags_output_loop spec n' (S i) (Z.shiftr flags_data 1) true (os ++ s)
        | Throw e => (Throw e, os)
        end
  end.

Definition Flags_output (spec : FlagSpec.t) (flags : Flags.t) (os : string)
  : result unit * string :=
  Flags_output_loop spec unsigned_int_bits 0 (Flags.m_flags flags) false os.

(** ** More of [Wnd]: screen coordinates, ancestors, regions *)

(** Modelled from the spec: [WndRegion] is declared outside the sources.
    [WindowRegion] computes the region as the integer [x_pos + 3 * y_pos]
    and converts it; the result is kept as that integer, next to the
    enumerator [WR_NONE]. *)
Inductive WndRegion : Set :=
  | WR_NONE
  | WndRegion_of (n : Z).

#[global] Instance WndRegion_eq_dec : EqDecision WndRegion.
Proof. solve_decision. Defined.

Section Wnd_more.
Context {hdr : WndHeader}.

Definition Left (fuel : nat) (st : State) (this : nat) : result Z :=
  ul ← UpperLeft fuel st this; Ok (Pt.x ul).

Definition Top (fuel : nat) (st : State) (this : nat) : result Z :=
  ul ← UpperLeft fuel st this; Ok (Pt.y ul).

Definition Right (fuel : nat) (st : State) (this : nat) : result Z :=
  lr ← LowerRight fuel st this; Ok (Pt.x lr).

Definition Bottom (fuel : nat) (st : State) (this : nat) : result Z :=
  lr ← LowerRight fuel st this; Ok (Pt.y lr).

Definition ClientWidth (fuel : nat) (st : State) (this : nat) : result Z :=
  lr ← ClientLowerRight fuel st this;
  ul ← ClientUpperLeft fuel st this;
  Ok (Pt.x lr - Pt.x ul).

Definition ClientHeight (fuel : nat) (st : State) (this : nat) : result Z :=
  lr ← ClientLowerRight fuel st this;
  ul ← ClientUpperLeft fuel st this;
  Ok (Pt.y lr - Pt.y ul).

Definition ScreenToWindow (fuel : nat) (st : State) (this : nat) (pt : Pt.t) : result Pt.t :=
  ul ← UpperLeft fuel st this; Ok (Pt.sub pt ul).

Definition ScreenToClient (fuel : nat) (st : State) (this : nat) (pt : Pt.t) : result Pt.t :=
  ul ← ClientUpperLeft fuel st this; Ok (Pt.sub pt ul).

(** [pt >= UpperLeft() && pt < LowerRight()]: the right operand is
    evaluated only when the left one holds. *)
Definition InWindow (fuel : nat) (st : State) (this : nat) (pt : Pt.t) : result bool :=
  ul ← UpperLeft fuel st this;
  if Pt.le ul pt then lr ← LowerRight fuel st this; Ok (Pt.lt pt lr)
  else Ok false.

Definition InClient (fuel : nat) (st : State) (this : nat) (pt : Pt.t) : result bool :=
  ul ← ClientUpperLeft fuel st this;
  if Pt.le ul pt then lr ← ClientLowerRight fuel st this; Ok (Pt.lt pt lr)
  else Ok false.

Definition Children (st : State) (this : nat) : result (list nat) :=
  w ← deref st this; Ok (Wnd.m_children w).

Definition ContainingLayout (st : State) (this : nat) : result (option nat) :=
  w ← deref st this;
  Ok (LockAndResetIfExpired st (Wnd.m_containing_layout w)).

(** The [while (parent_of_wnd)] loop of [IsAncestorOf], with a budget of
    [fuel] rounds. *)
Fixpoint IsAncestorOf_loop (fuel : nat) (st : State) (this : nat)
         (parent_of_wnd : option nat) : result bool :=
  match fuel with
  | O => Throw out_of_fuel
  | S fuel' =>
      match parent_of_wnd with
      | None => Ok false
      | Some p =>
          if decide (p = this) then Ok true
          else
            next ← Parent st p;
            IsAncestorOf_loop fuel' st this next
      end
  end.

Definition IsAncestorOf (fuel : nat) (st : State) (this : nat) (wnd : option nat)
  : result bool :=
  match wnd with
  | None => Ok false
  | Some w =>
      parent_of_wnd ← Parent st w;
      IsAncestorOf_loop fuel st this parent_of_wnd
  end.

(** The [while (gparent)] loop of [RootParent]. *)
Fixpoint RootParent_loop (fuel : nat) (st : State) (parent gparent : option nat)
  : result (option nat) :=
  match fuel with
  | O => Throw out_of_fuel
  | S fuel' =>
      match gparent with
      | None => Ok parent
      | Some g =>
          next ← Parent st g;
          RootParent_loop fuel' st (Some g) next
      end
  end.

Definition RootParent (fuel : nat) (st : State) (this : nat) : result (option nat) :=
  parent ← Parent st this;
  gparent ← match parent with
            | Some p => Parent st p
            | None => Ok None
            end;
  RootParent_loop fuel st parent gparent.

(** [WindowRegion]: [LEFT], [MIDDLE], [RIGHT] are 0, 1, 2, as are [TOP],
    [MIDDLE], [BOTTOM]; the lower-right corner is read only when the point
    is not before the upper-left one. *)
Definition WindowRegion (fuel : nat) (st : State) (this : nat) (pt : Pt.t)
  : result WndRegion :=
  cul ← ClientUpperLeft fuel st this;
  x_pos ← (if decide (Pt.x pt < Pt.x cul) then Ok 0
           else
             clr ← ClientLowerRight fuel st this;
             Ok (if decide (Pt.x clr < Pt.x pt) then 2 else 1));
  cul ← ClientUpperLeft fuel st this;
  y_pos ← (if decide (Pt.y pt < Pt.y cul) then Ok 0
           else
             clr ← ClientLowerRight fuel st this;
             Ok (if decide (Pt.y clr < Pt.y pt) then 2 else 1));
  resizable ← Resizable st this;
  Ok (if (resizable : bool) then WndRegion_of (x_pos + 3 * y_pos) else WR_NONE).

(** [ChildrenDraggedAway]: the loop over [wnds]. *)
Fixpoint ChildrenDraggedAway (this : nat) (wnds : list (option nat))
         (destination : option nat) : M unit :=
  match wnds with
  | [] => mret tt
  | wnd :: wnds' => DetachChild this wnd;; ChildrenDraggedAway this wnds' destination
  end.

Definition DetachLayout (this : nat) : M (option nat) :=
  layout ← read (λ st, GetLayout st this);
  DetachChild this layout;;
  mret layout.

End Wnd_more.

(** ** Browse modes *)

(** Modelled from the spec: [BrowseInfoMode] is declared outside the
    sources. Section 3: a mode is a "text + per-mode display delay +
    optional custom hover-window". A mode made by [resize] has no window
    and an empty text; its delay is written by [SetBrowseModeTime] before
    anything reads it. *)
Module BrowseInfoMode.
Record t : Set := Build { time : Z; wnd : option nat; text : string }.

Definition default : t := Build 0 None EmptyString.

Definition set_time (time : Z) (m : t) : t := Build time (wnd m) (text m).
Definition set_wnd (wnd : option nat) (m : t) : t := Build (time m) wnd (text m).

#[global] Instance eq_dec : EqDecision t.
Proof. solve_decision. Defined.

#[global] Instance inhabited : Inhabited t := populate default.
End BrowseInfoMode.

(** The methods below touch no member but [m_browse_modes], and are
    functions of that vector. *)


(** [for (i = first; i < first + n; ++i) m_browse_modes[i].time = time]. *)
Fixpoint set_times (n first : nat) (time : Z) (m_browse_modes : list BrowseInfoMode.t)
  : list BrowseInfoMode.t :=
  match n with
  | O => m_browse_modes
  | S n' =>
      set_times n' (S first) time (alter (BrowseInfoMode.set_time time) first m_browse_modes)
  end.



Definition SetBrowseInfoWnd (wnd : option nat) (mode : nat)
           (m_browse_modes : list BrowseInfoMode.t) : result (list BrowseInfoMode.t) :=
  _ ← at_ m_browse_modes mode;
  Ok (alter (BrowseInfoMode.set_wnd wnd) mode m_browse_modes).

Definition ClearBrowseInfoWnd (mode : nat) (m_browse_modes : list BrowseInfoMode.t)
  : result (list BrowseInfoMode.t) :=
  _ ← at_ m_browse_modes mode;
  Ok (alter (BrowseInfoMode.set_wnd None) mode m_browse_modes).


(** ** Row, column and custom layouts *)

Section Layouts.
Context {hdr : WndHeader}.

(** [WndHorizontalLess] and [WndVerticalLess]: [lhs->Left() < rhs->Left()]
    and [lhs->Top() < rhs->Top()]. *)
Definition WndHorizontalLess (fuel : nat) (st : State) (lhs rhs : nat) : result bool :=
  l ← Left fuel st lhs;
  r ← Left fuel st rhs;
  Ok (bool_decide (l < r)).

Definition WndVerticalLess (fuel : nat) (st : State) (lhs rhs : nat) : result bool :=
  l ← Top fuel st lhs;
  r ← Top fuel st rhs;
  Ok (bool_decide (l < r)).

(** [std::multiset::emplace], the multiset being the list of its elements
    in iteration order: the new element goes before the first element that
    it is less than, so after the elements equivalent to it. The
    comparisons are made along the list. *)
Fixpoint multiset_emplace (less : nat → nat → result bool) (wnd : nat) (wnds : list nat)
  : result (list nat) :=
  match wnds with
  | [] => Ok [wnd]
  | y :: wnds' =>
      b ← less wnd y;
      if (b : bool) then Ok (wnd :: wnds)
      else
        rest ← multiset_emplace less wnd wnds';
        Ok (y :: rest)
  end.

(** The loop over [m_children] of [HorizontalLayout] and [VerticalLayout],
    which differ in the comparison of the multiset; [rect] gives a
    child's [RelativeUpperLeft] and [RelativeLowerRight]. *)
Fixpoint layout_wnds (less : nat → nat → result bool) (client_sz : Pt.t) (rect : nat → Rect.t)
         (m_children : list nat) (wnds : list nat) : result (list nat) :=
  match m_children with
  | [] => Ok wnds
  | child :: later =>
      let wnd_ul := Rect.ul (rect child) in
      let wnd_lr := Rect.lr (rect child) in
      if outside client_sz wnd_ul wnd_lr then layout_wnds less client_sz rect later wnds
      else
        wnds ← multiset_emplace less child wnds;
        layout_wnds less client_sz rect later wnds
  end.

(** [HorizontalLayout] and [VerticalLayout] between [RemoveLayout();] and
    the making of the layout: the windows in the order in which they are
    handed to [Layout::Add], the [i]-th of them for column, respectively
    row, [i]. *)
Definition HorizontalLayout_wnds (fuel : nat) (st : State) (this : nat) : result (list nat) :=
  client_sz ← ClientSize fuel st this;
  w ← deref st this;
  layout_wnds (WndHorizontalLess fuel st) client_sz (rect_of st) (Wnd.m_children w) [].

Definition VerticalLayout_wnds (fuel : nat) (st : State) (this : nat) : result (list nat) :=
  client_sz ← ClientSize fuel st this;
  w ← deref st this;
  layout_wnds (WndVerticalLess fuel st) client_sz (rect_of st) (Wnd.m_children w) [].

(** [Layout::SizeMove], which [Layout] overrides outside the sources. *)
Variable Layout_SizeMove : nat → Pt.t → Pt.t → M unit.

(** [Wnd::SetLayout]; its two overloads have the same body, [m_layout]
    being a weak reference that the assignment copies. The second operand
    of [||] is evaluated when the first is false. *)
Definition SetLayout (fuel : nat) (this : nat) (layout : option nat) : M unit :=
  mm_layout ← read (λ st, GetLayout st this);
  bad ← (if decide (layout = mm_layout) then mret true
         else
           containing ← read (λ st, ContainingLayout st this);
           mret (bool_decide (layout = containing)));
  if (bad : bool) then throw BadLayout
  else
    RemoveLayout this;;
    w ← read (λ st, deref st this);
    let children := Wnd.m_children w in
    DetachChildren this;;
    client_sz ← read (λ st, ClientSize fuel st this);
    foldr (λ wnd rest,
             cw ← read (λ st, deref st wnd);
             (if outside client_sz (Wnd.RelativeUpperLeft cw) (Wnd.RelativeLowerRight cw)
              then AttachChild this (Some wnd) else mret tt);;
             rest)
          (mret tt) children;;
    AttachChild this layout;;
    modify this (Wnd.set_layout layout);;
    match layout with
    | None => throw undefined_behaviour
    | Some l =>
        width ← read (λ st, ClientWidth fuel st this);
        height ← read (λ st, ClientHeight fuel st this);
        Layout_SizeMove l (Pt.Build 0 0) (Pt.Build width height)
    end.

End Layouts.

Local Open Scope Z_scope.
(** ** Vocabulary of the further properties *)

(** The positions of the set bits of a 16-bit value, lowest first. *)
Definition set_bits (s : Z) : list nat :=
  filter (λ i, Z.testbit s (Z.of_nat i) = true) (seq 0 digits).

(** The flag whose only bit is bit [i]. *)
Definition bit_flag (i : nat) : FlagType.t := FlagType.Build (2 ^ Z.of_nat i).

(** A 16-bit value with at most one bit set. *)
Definition single_bit (v : Z) : Prop :=
  v = 0 ∨ ∃ i, (i < digits)%nat ∧ v = 2 ^ Z.of_nat i.

(** The place of a coordinate against the two borders of one axis:
    before the first (0), after the second (2), or from one to the other,
    borders included (1). *)
Definition axis_region (first second p : Z) : Z :=
  if decide (p < first) then 0 else if decide (second < p) then 2 else 1.

(** The point with both coordinates negated. *)
Definition Pt_opp (p : Pt.t) : Pt.t := Pt.Build (- Pt.x p) (- Pt.y p).

(** Child 1 of [st_grid], and the window of [st_plain]. *)
Definition w_grid_1 : Wnd.t :=
  Wnd.Build true false (Pt.Build 10 10) (Pt.Build 40 40) (Pt.Build 0 0)
            (Pt.Build (2 ^ 30) (2 ^ 30)) (Flags.Build 1) (Some 0%nat) [] None None [] false.

Definition w_plain : Wnd.t :=
  Wnd.Build true false (Pt.Build 0 0) (Pt.Build 10 10) (Pt.Build 0 0)
            (Pt.Build (2 ^ 30) (2 ^ 30)) (Flags.Build 1) None [] None None [] false.

(** The parent of [st_grid]. *)
Definition w_grid_0 : Wnd.t :=
  Wnd.Build true false (Pt.Build 0 0) (Pt.Build 100 100) (Pt.Build 0 0)
            (Pt.Build (2 ^ 30) (2 ^ 30)) (Flags.Build 1) None [1; 2; 3]%nat None None [] false.

(** [st_grid] once [GridLayout] has made window 4 the layout of window 0,
    and window 0 then. *)
Definition st_layout : State := after (GridLayout 16 0%nat) st_grid.

Definition w_layout_0 : Wnd.t :=
  Wnd.Build true false (Pt.Build 0 0) (Pt.Build 100 100) (Pt.Build 0 0)
            (Pt.Build (2 ^ 30) (2 ^ 30)) (Flags.Build 1) None [1; 2; 3; 4]%nat (Some 4%nat)
            None [] false.

(** One parentless window made with [RESIZABLE] alone, at (20, 20). *)
Definition st_resizable : State :=
  after (Create 20 20 10 10 (Flags.Build 8)) initial_state.

Definition w_resizable : Wnd.t :=
  Wnd.Build true false (Pt.Build 20 20) (Pt.Build 30 30) (Pt.Build 0 0)
            (Pt.Build (2 ^ 30) (2 ^ 30)) (Flags.Build 8) None [] None None [] false.

(** The left and top edges of the children of [st_grid]. *)
Definition left_three (child : nat) : Z := Pt.x (Rect.ul (rect_three child)).
Definition top_three (child : nat) : Z := Pt.y (Rect.ul (rect_three child)).

(** * Flag registry and flag sets: proofs *)

Local Open Scope Z_scope.

Section result_facts.
Context {A B : Type}.

Lemma bind_Ok (m : result A) (f : A → result B) (b : B) :
  m ≫= f = Ok b ↔ ∃ a, m = Ok a ∧ f a = Ok b.
Proof.
  destruct m as [a|e]; simpl; split.
  - intros H. by exists a.
  - by intros (a' & [= ->] & H).
  - discriminate.
  - by intros (a' & [=] & _).
Qed.

Lemma at_Ok (l : list A) (i : nat) (a : A) : at_ l i = Ok a ↔ l !! i = Some a.
Proof. unfold at_. destruct (l !! i); split; congruence. Qed.

Lemma at_lt (l : list A) (i : nat) : (i < length l)%nat → ∃ a, at_ l i = Ok a ∧ l !! i = Some a.
Proof.
  intros Hi. destruct (lookup_lt_is_Some_2 l i Hi) as [a Ha].
  exists a. by rewrite at_Ok.
Qed.

End result_facts.

(** ** OneBits counts the set bits among the low [digits] bits *)

Lemma OneBits_loop_acc n num acc :
  OneBits_loop n num acc = (acc + OneBits_loop n num 0)%nat.
Proof.
  revert num acc. induction n as [|n IH]; intros num acc; simpl; [lia|].
  case_decide.
  - apply IH.
  - rewrite (IH _ (S acc)), (IH _ 1%nat). lia.
Qed.

Lemma land_1_mod num : Z.land num 1 = num mod 2.
Proof. change 1 with (Z.ones 1). by rewrite Z.land_ones. Qed.

Lemma OneBits_loop_zero n num :
  0 ≤ num < 2 ^ Z.of_nat n → OneBits_loop n num 0 = 0%nat → num = 0.
Proof.
  revert num. induction n as [|n IH]; intros num Hr H.
  - simpl in Hr. lia.
  - simpl in H. rewrite land_1_mod in H.
    rewrite Nat2Z.inj_succ, Z.pow_succ_r in Hr by lia.
    rewrite Z.shiftr_div_pow2 in H by lia. change (2 ^ 1) with 2 in H.
    case_decide as Hb.
    + assert (num `div` 2 = 0) as Hq.
      { apply IH; [|done]. split; [apply Z.div_pos; lia|].
        apply Z.div_lt_upper_bound; lia. }
      pose proof (Z.div_mod num 2). lia.
    + rewrite OneBits_loop_acc in H. lia.
Qed.

Lemma OneBits_loop_single n num :
  0 ≤ num < 2 ^ Z.of_nat n → (OneBits_loop n num 0 ≤ 1)%nat →
  num = 0 ∨ ∃ i, 0 ≤ i ∧ num = 2 ^ i.
Proof.
  revert num. induction n as [|n IH]; intros num Hr H.
  - simpl in Hr. left. lia.
  - simpl in H. rewrite land_1_mod in H.
    rewrite Nat2Z.inj_succ, Z.pow_succ_r in Hr by lia.
    rewrite Z.shiftr_div_pow2 in H by lia. change (2 ^ 1) with 2 in H.
    assert (0 ≤ num `div` 2 < 2 ^ Z.of_nat n) as Hq.
    { split; [apply Z.div_pos; lia|]. apply Z.div_lt_upper_bound; lia. }
    pose proof (Z.div_mod num 2) as Hdm.
    pose proof (Z.mod_pos_bound num 2) as Hm.
    case_decide as Hb.
    + destruct (IH _ Hq H) as [H0|(i & Hi & Hp)]; [left; lia|].
      right. exists (Z.succ i). split; [lia|].
      rewrite Z.pow_succ_r by lia. lia.
    + rewrite OneBits_loop_acc in H.
      assert (OneBits_loop n (num `div` 2) 0 = 0%nat) as H0 by lia.
      apply OneBits_loop_zero in H0; [|done].
      right. exists 0. split; [lia|]. simpl. lia.
Qed.

Lemma FlagType_make_single (f : FlagType.t) :
  FlagType.make (FlagType.m_value f) = Ok f →
  FlagType.m_value f = 0 ∨ ∃ i, 0 ≤ i ∧ FlagType.m_value f = 2 ^ i.
Proof.
  unfold FlagType.make. destruct f as [v]; simpl.
  case_decide as Hb; [discriminate|]. intros [= Hv].
  apply (OneBits_loop_single digits).
  - rewrite <- Hv at 1 2. apply Z.mod_pos_bound. by apply Z.pow_pos_nonneg.
  - unfold OneBits in Hb. rewrite Hv in Hb. lia.
Qed.

(** A single-bit flag is either inside a flag set or disjoint from it. *)
Lemma single_bit_land v s :
  (v = 0 ∨ ∃ i, 0 ≤ i ∧ v = 2 ^ i) → Z.land v s = 0 ∨ Z.land v s = v.
Proof.
  intros [->|(i & Hi & ->)]; [by left|].
  destruct (Z.testbit s i) eqn:Hs; [right|left]; apply Z.bits_inj'; intros k Hk;
    rewrite Z.land_spec, ?Z.bits_0, Z.pow2_bits_eqb by lia;
    destruct (Z.eqb_spec i k) as [->|]; simpl; try done; by rewrite Hs.
Qed.

Lemma single_bit_ldiff v s :
  (v = 0 ∨ ∃ i, 0 ≤ i ∧ v = 2 ^ i) →
  Z.ldiff v s = if decide (Z.land v s = 0) then v else 0.
Proof.
  intros Hv. case_decide as H0.
  - apply Z.bits_inj'. intros k Hk. rewrite Z.ldiff_spec.
    assert (Z.testbit (Z.land v s) k = false) as Hb by (by rewrite H0, Z.bits_0).
    rewrite Z.land_spec in Hb. destruct (Z.testbit v k), (Z.testbit s k); done.
  - destruct (single_bit_land v s Hv) as [|Hl]; [done|].
    apply Z.bits_inj'. intros k Hk. rewrite Z.ldiff_spec, Z.bits_0.
    assert (Z.testbit (Z.land v s) k = Z.testbit v k) as Hb by (by rewrite Hl).
    rewrite Z.land_spec in Hb. destruct (Z.testbit v k), (Z.testbit s k); done.
Qed.

(** ** The registry loops, read as list searches *)



Lemma contains_loop_spec spec flag n idx :
  (idx + n ≤ length (FlagSpec.m_flags spec))%nat →
  FlagSpec.contains_loop spec flag n idx
  = Ok (bool_decide (flag ∈ take n (drop idx (FlagSpec.m_flags spec)))).
Proof.
  revert idx. induction n as [|n IH]; intros idx Hlen; simpl.
  - done.
  - destruct (at_lt (FlagSpec.m_flags spec) idx) as (f & -> & Hf); [lia|]. simpl.
    rewrite (drop_S _ _ _ Hf). simpl. case_decide as Heq.
    + subst f. rewrite bool_decide_eq_true_2; [done|apply list_elem_of_here].
    + rewrite IH by lia. f_equal. apply bool_decide_ext.
      rewrite elem_of_cons. clear IH. intuition congruence.
Qed.

Lemma contains_spec spec flag :
  FlagSpec_wf spec →
  FlagSpec.contains spec flag = Ok (bool_decide (flag ∈ FlagSpec.range spec)).
Proof.
  intros (Hc & Hf & _). unfold FlagSpec.contains, FlagSpec.range.
  rewrite contains_loop_spec by (rewrite Hf; lia). by rewrite drop_0.
Qed.

Lemma insert_scan_spec spec flag n idx :
  (idx + n ≤ length (FlagSpec.m_flags spec))%nat →
  FlagSpec.insert_scan spec flag n idx
  = if bool_decide (flag ∈ take n (drop idx (FlagSpec.m_flags spec)))
    then Throw invalid_argument else Ok tt.
Proof.
  revert idx. induction n as [|n IH]; intros idx Hlen; simpl.
  - done.
  - destruct (at_lt (FlagSpec.m_flags spec) idx) as (f & -> & Hf); [lia|]. simpl.
    rewrite (drop_S _ _ _ Hf). simpl. case_decide as Heq.
    + subst f. rewrite bool_decide_eq_true_2; [done|apply list_elem_of_here].
    + rewrite IH by lia.
      rewrite (bool_decide_ext (flag ∈ f :: _) (flag ∈ take n (drop (S idx) (FlagSpec.m_flags spec)))); [done|].
      rewrite elem_of_cons. clear IH. intuition congruence.
Qed.


Lemma ToString_loop_scan spec flag n idx :
  FlagSpec.ToString_loop spec flag n idx
  = assoc_scan (FlagSpec.m_flags spec) (FlagSpec.m_strings spec) flag UnknownFlag n idx.
Proof. revert idx. induction n as [|n IH]; intros idx; simpl; [done|]. by rewrite IH. Qed.

Lemma FromString_loop_scan spec str n idx :
  FlagSpec.FromString_loop spec str n idx
  = assoc_scan (FlagSpec.m_strings spec) (FlagSpec.m_flags spec) str UnknownString n idx.
Proof. revert idx. induction n as [|n IH]; intros idx; simpl; [done|]. by rewrite IH. Qed.

Section assoc_scan.
Context {K V : Type} `{EqDecision K}.
Implicit Types (keys : list K) (vals : list V).

Lemma assoc_scan_Ok keys vals k miss n idx v :
  (idx + n ≤ length keys)%nat → (idx + n ≤ length vals)%nat →
  assoc_scan keys vals k miss n idx = Ok v ↔
  ∃ i, (idx ≤ i < idx + n)%nat ∧ keys !! i = Some k ∧ vals !! i = Some v ∧
       ∀ j, (idx ≤ j < i)%nat → keys !! j ≠ Some k.
Proof.
  revert idx. induction n as [|n IH]; intros idx Hk Hv; simpl.
  - split; [discriminate|]. intros (i & ? & _). lia.
  - destruct (at_lt keys idx) as (f & -> & Hf); [lia|]. simpl.
    case_decide as Heq.
    + subst f. rewrite at_Ok. split.
      * intros Hv'. exists idx. repeat split; try done; try lia; intros; lia.
      * intros (i & Hi & Hki & Hvi & Hfirst).
        destruct (decide (i = idx)) as [->|Hne]; [done|].
        exfalso. apply (Hfirst idx); [lia|done].
    + rewrite IH by lia. split.
      * intros (i & Hi & Hki & Hvi & Hfirst). exists i. repeat split; try done; try lia.
        intros j Hj. destruct (decide (j = idx)) as [->|Hne]; [congruence|].
        apply Hfirst. lia.
      * intros (i & Hi & Hki & Hvi & Hfirst).
        assert (i ≠ idx) by congruence.
        exists i. repeat split; try done; try lia. intros j Hj. apply Hfirst. lia.
Qed.

Lemma assoc_scan_Throw keys vals k miss n idx e :
  (idx + n ≤ length keys)%nat → (idx + n ≤ length vals)%nat →
  assoc_scan keys vals k miss n idx = Throw e ↔
  e = miss ∧ ∀ i, (idx ≤ i < idx + n)%nat → keys !! i ≠ Some k.
Proof.
  revert idx. induction n as [|n IH]; intros idx Hk Hv; simpl.
  - split; [intros [= <-]; split; [done|intros; lia] | by intros [-> _]].
  - destruct (at_lt keys idx) as (f & -> & Hf); [lia|]. simpl.
    case_decide as Heq.
    + subst f. destruct (at_lt vals idx) as (v & -> & _); [lia|].
      split; [discriminate|]. intros [_ Hno]. exfalso. apply (Hno idx); [lia|done].
    + rewrite IH by lia. split; intros [-> Hno]; (split; [done|]); intros i Hi.
      * destruct (decide (i = idx)) as [->|Hne]; [congruence|]. apply Hno. lia.
      * apply Hno. lia.
Qed.

End assoc_scan.

(** ** Shape of reachable registries *)

Lemma FlagSpec_default_wf : FlagSpec_wf FlagSpec.default.
Proof. repeat split; [vm_compute; lia|reflexivity..]. Qed.

Lemma insert_Ok flag name spec spec' :
  FlagSpec_wf spec →
  FlagSpec.insert flag name spec = (Ok tt, spec') →
  (FlagSpec.m_count spec < digits)%nat ∧ (flag ∉ FlagSpec.range spec) ∧
  FlagSpec_wf spec' ∧
  FlagSpec.m_count spec' = S (FlagSpec.m_count spec) ∧
  FlagSpec.range spec' = (FlagSpec.range spec ++ [flag]) ∧
  FlagSpec_names spec' = FlagSpec_names spec ++ [name].
Proof.
  intros (Hc & Hf & Hs). unfold FlagSpec.insert.
  case_decide as Hfull; [discriminate|].
  rewrite insert_scan_spec by (rewrite Hf; lia). rewrite drop_0.
  case_bool_decide as Hin; [discriminate|]. intros [= <-].
  unfold FlagSpec_wf, FlagSpec.range, FlagSpec_names. simpl.
  rewrite !length_insert.
  rewrite (take_S_r _ _ flag) by (apply list_lookup_insert_eq; lia).
  rewrite (take_S_r _ _ name) by (apply list_lookup_insert_eq; lia).
  rewrite !take_insert_ge by lia.
  repeat split; try done; lia.
Qed.

Lemma registered_wf spec : registered spec → FlagSpec_wf spec.
Proof.
  induction 1 as [|spec flag name spec' _ IH Hins]; [apply FlagSpec_default_wf|].
  by destruct (insert_Ok _ _ _ _ IH Hins) as (_ & _ & ? & _).
Qed.

Lemma valid_registrations_registered spec : valid_registrations spec → registered spec.
Proof. induction 1; [constructor|by econstructor]. Qed.

Lemma registered_NoDup spec : registered spec → NoDup (FlagSpec.range spec).
Proof.
  induction 1 as [|spec flag name spec' Hreg IH Hins]; [constructor|].
  destruct (insert_Ok _ _ _ _ (registered_wf _ Hreg) Hins) as (_ & Hnew & _ & _ & -> & _).
  apply NoDup_app. repeat split; [done| |apply NoDup_singleton].
  intros x Hx ->%list_elem_of_singleton. done.
Qed.

Lemma valid_registrations_NoDup_names spec :
  valid_registrations spec → NoDup (FlagSpec_names spec).
Proof.
  induction 1 as [|spec flag name spec' Hreg IH Hnew Hins]; [constructor|].
  apply valid_registrations_registered, registered_wf in Hreg.
  destruct (insert_Ok _ _ _ _ Hreg Hins) as (_ & _ & _ & _ & _ & ->).
  apply NoDup_app. repeat split; [done| |apply NoDup_singleton].
  intros x Hx ->%list_elem_of_singleton. done.
Qed.

(** ** C2: outcome of [insert] *)

(** C2 (as amended). On a registry built by [insert] calls, [insert flag name]
    throws exactly when the registry already holds [digits] flags or already
    holds [flag]; a throw leaves the registry as it was; otherwise the pair is
    appended. The name is never looked at. *)
Theorem FlagSpec_insert_outcome spec flag name :
  registered spec →
  match FlagSpec.insert flag name spec with
  | (Throw e, spec') =>
      spec' = spec ∧
      ((digits ≤ FlagSpec.m_count spec)%nat ∨ flag ∈ FlagSpec.range spec)
  | (Ok _, spec') =>
      (FlagSpec.m_count spec < digits)%nat ∧ (flag ∉ FlagSpec.range spec) ∧
      FlagSpec.range spec' = (FlagSpec.range spec ++ [flag]) ∧
      FlagSpec_names spec' = FlagSpec_names spec ++ [name]
  end.
Proof.
  intros Hreg. pose proof (registered_wf _ Hreg) as Hwf.
  destruct (FlagSpec.insert flag name spec) as [[[]|e] spec'] eqn:Hins.
  - destruct (insert_Ok _ _ _ _ Hwf Hins) as (? & ? & _ & _ & ? & ?). done.
  - destruct Hwf as (Hc & Hf & _). unfold FlagSpec.insert in Hins.
    case_decide as Hfull; [injection Hins as _ <-; split; [done|by left]|].
    rewrite insert_scan_spec in Hins by (rewrite Hf; lia). rewrite drop_0 in Hins.
    case_bool_decide as Hin; [|discriminate].
    injection Hins as _ <-. split; [done|by right].
Qed.

Lemma FlagSpec_insert_outcome_witness :
  match FlagSpec.insert flag_B "B" spec_A with
  | (Throw e, spec') =>
      spec' = spec_A ∧
      ((digits ≤ FlagSpec.m_count spec_A)%nat ∨
       flag_B ∈ FlagSpec.range spec_A)
  | (Ok _, spec') =>
      (FlagSpec.m_count spec_A < digits)%nat ∧
      (flag_B ∉ FlagSpec.range spec_A) ∧
      FlagSpec.range spec' = (FlagSpec.range spec_A ++ [flag_B]) ∧
      FlagSpec_names spec' = FlagSpec_names spec_A ++ ["B"%string]
  end.
Proof.
  apply (FlagSpec_insert_outcome spec_A flag_B "B").
  by apply (registered_insert FlagSpec.default flag_A "A"); [apply registered_default|].
Defined.

(** C2, counterexample to the claim as stated: a name that is already in the
    registry does not make [insert] fail; the registry then holds it twice. *)
Lemma FlagSpec_insert_accepts_used_name :
  "N"%string ∈ FlagSpec_names (FlagSpec.insert flag_A "N" FlagSpec.default).2 ∧
  FlagSpec.insert flag_B "N" (FlagSpec.insert flag_A "N" FlagSpec.default).2
  = (Ok tt, FlagSpec.Build 2
       (<[1%nat := flag_B]> (<[0%nat := flag_A]> (replicate digits (FlagType.Build 0))))
       (<[1%nat := "N"%string]> (<[0%nat := "N"%string]> (replicate digits EmptyString)))).
Proof. split; [apply list_elem_of_here|reflexivity]. Qed.

(** ** C7: [ToString] and [FromString] *)

Lemma ToString_Ok spec flag s :
  FlagSpec_wf spec →
  FlagSpec.ToString spec flag = Ok s ↔
  ∃ i, (i < FlagSpec.m_count spec)%nat ∧
       FlagSpec.m_flags spec !! i = Some flag ∧ FlagSpec.m_strings spec !! i = Some s ∧
       ∀ j, (j < i)%nat → FlagSpec.m_flags spec !! j ≠ Some flag.
Proof.
  intros (Hc & Hf & Hs). unfold FlagSpec.ToString.
  rewrite ToString_loop_scan, assoc_scan_Ok by lia.
  split; intros (i & Hi & ? & ? & Hfirst); exists i; repeat split; try done; try lia;
    intros j Hj; apply Hfirst; lia.
Qed.

Lemma FromString_Ok spec str f :
  FlagSpec_wf spec →
  FlagSpec.FromString spec str = Ok f ↔
  ∃ i, (i < FlagSpec.m_count spec)%nat ∧
       FlagSpec.m_strings spec !! i = Some str ∧ FlagSpec.m_flags spec !! i = Some f ∧
       ∀ j, (j < i)%nat → FlagSpec.m_strings spec !! j ≠ Some str.
Proof.
  intros (Hc & Hf & Hs). unfold FlagSpec.FromString.
  rewrite FromString_loop_scan, assoc_scan_Ok by lia.
  split; intros (i & Hi & ? & ? & Hfirst); exists i; repeat split; try done; try lia;
    intros j Hj; apply Hfirst; lia.
Qed.

Lemma ToString_Throw spec flag e :
  FlagSpec_wf spec →
  FlagSpec.ToString spec flag = Throw e ↔ e = UnknownFlag ∧ flag ∉ FlagSpec.range spec.
Proof.
  intros (Hc & Hf & Hs). unfold FlagSpec.ToString, FlagSpec.range.
  rewrite ToString_loop_scan, assoc_scan_Throw, elem_of_take by lia.
  split; intros [-> Hno]; (split; [done|]).
  - intros (i & Hi & ?). apply (Hno i); [lia|done].
  - intros i Hi Hl. apply Hno. exists i. split; [done|lia].
Qed.

Lemma FromString_Throw spec str e :
  FlagSpec_wf spec →
  FlagSpec.FromString spec str = Throw e ↔ e = UnknownString ∧ str ∉ FlagSpec_names spec.
Proof.
  intros (Hc & Hf & Hs). unfold FlagSpec.FromString, FlagSpec_names.
  rewrite FromString_loop_scan, assoc_scan_Throw, elem_of_take by lia.
  split; intros [-> Hno]; (split; [done|]).
  - intros (i & Hi & ?). apply (Hno i); [lia|done].
  - intros i Hi Hl. apply Hno. exists i. split; [done|lia].
Qed.

(** The first slot, among the registered ones, that holds [x]. *)
Lemma first_slot {A} `{EqDecision A} (l : list A) (n : nat) (x : A) :
  x ∈ take n l →
  ∃ i, (i < n)%nat ∧ l !! i = Some x ∧ ∀ j, (j < i)%nat → l !! j ≠ Some x.
Proof.
  revert l. induction n as [|n IH]; intros l; [by intros ?%elem_of_nil|].
  destruct l as [|y l]; [by intros ?%elem_of_nil|]. simpl.
  destruct (decide (y = x)) as [->|Hne].
  - intros _. exists 0%nat. repeat split; [lia|]. intros j Hj. lia.
  - intros [?|Hin]%elem_of_cons; [congruence|].
    destruct (IH l Hin) as (i & Hi & Hl & Hfirst).
    exists (S i). repeat split; [lia|done|].
    intros [|j] Hj; simpl; [congruence|]. apply Hfirst. lia.
Qed.

Lemma NoDup_take_lookup {A} (l : list A) (n i j : nat) (x : A) :
  NoDup (take n l) → (i < n)%nat → (j < n)%nat →
  l !! i = Some x → l !! j = Some x → i = j.
Proof.
  intros Hnd Hi Hj Hli Hlj.
  apply (NoDup_lookup (take n l) i j x Hnd); by rewrite lookup_take_lt.
Qed.

(** C7. After valid registrations (each flag and each name registered once),
    a registered flag goes to its name and back, a registered name goes to
    its flag and back, and the two lookups throw exactly on what is not
    registered: [UnknownFlag], respectively [UnknownString]. *)
Theorem FlagSpec_string_round_trip spec :
  valid_registrations spec →
  (∀ f, f ∈ FlagSpec.range spec →
        ∃ n, FlagSpec.ToString spec f = Ok n ∧ FlagSpec.FromString spec n = Ok f) ∧
  (∀ n, n ∈ FlagSpec_names spec →
        ∃ f, FlagSpec.FromString spec n = Ok f ∧ FlagSpec.ToString spec f = Ok n) ∧
  (∀ f, f ∉ FlagSpec.range spec ↔ FlagSpec.ToString spec f = Throw UnknownFlag) ∧
  (∀ n, n ∉ FlagSpec_names spec ↔ FlagSpec.FromString spec n = Throw UnknownString).
Proof.
  intros Hvalid.
  pose proof (valid_registrations_NoDup_names _ Hvalid) as Hnames.
  apply valid_registrations_registered in Hvalid.
  pose proof (registered_NoDup _ Hvalid) as Hflags.
  pose proof (registered_wf _ Hvalid) as Hwf.
  pose proof Hwf as (Hc & Hf & Hs).
  split; [|split; [|split]].
  - intros f Hin.
    destruct (first_slot _ _ _ Hin) as (i & Hi & Hfi & Hfirst).
    destruct (lookup_lt_is_Some_2 (FlagSpec.m_strings spec) i) as [n Hn]; [lia|].
    exists n. split; [apply ToString_Ok; [done|]; by exists i|].
    apply FromString_Ok; [done|]. exists i. repeat split; try done.
    intros j Hj Hnj.
    assert (i = j) by (apply (NoDup_take_lookup _ _ i j n Hnames); [lia..|done|done]). lia.
  - intros n Hin.
    destruct (first_slot _ _ _ Hin) as (i & Hi & Hni & Hfirst).
    destruct (lookup_lt_is_Some_2 (FlagSpec.m_flags spec) i) as [f Hfi]; [lia|].
    exists f. split; [apply FromString_Ok; [done|]; by exists i|].
    apply ToString_Ok; [done|]. exists i. repeat split; try done.
    intros j Hj Hfj.
    assert (i = j) by (apply (NoDup_take_lookup _ _ i j f Hflags); [lia..|done|done]). lia.
  - intros f. rewrite ToString_Throw by done. tauto.
  - intros n. rewrite FromString_Throw by done. tauto.
Qed.

Lemma spec_ABC_valid : valid_registrations spec_ABC.
Proof.
  apply (valid_insert spec_AB flag_C "C"); [|compute_done|reflexivity].
  apply (valid_insert spec_A flag_B "B"); [|compute_done|reflexivity].
  apply (valid_insert FlagSpec.default flag_A "A"); [|compute_done|reflexivity].
  apply valid_default.
Qed.

Lemma FlagSpec_string_round_trip_witness :
  (∀ f, f ∈ FlagSpec.range spec_ABC →
        ∃ n, FlagSpec.ToString spec_ABC f = Ok n ∧ FlagSpec.FromString spec_ABC n = Ok f) ∧
  (∀ n, n ∈ FlagSpec_names spec_ABC →
        ∃ f, FlagSpec.FromString spec_ABC n = Ok f ∧ FlagSpec.ToString spec_ABC f = Ok n) ∧
  (∀ f, f ∉ FlagSpec.range spec_ABC ↔ FlagSpec.ToString spec_ABC f = Throw UnknownFlag) ∧
  (∀ n, n ∉ FlagSpec_names spec_ABC ↔ FlagSpec.FromString spec_ABC n = Throw UnknownString).
Proof. apply (FlagSpec_string_round_trip spec_ABC), spec_ABC_valid. Defined.

(** Why the names must be registered once: [insert] accepts a used name,
    and the second flag under that name no longer comes back. *)
Example round_trip_needs_distinct_names :
  FlagSpec.ToString (FlagSpec.insert flag_B "N" (FlagSpec.insert flag_A "N" FlagSpec.default).2).2 flag_B
  = Ok "N"%string ∧
  FlagSpec.FromString (FlagSpec.insert flag_B "N" (FlagSpec.insert flag_A "N" FlagSpec.default).2).2 "N"
  = Ok flag_A.
Proof. split; reflexivity. Qed.

(** ** C3: complement *)

Lemma ldiff_lor a b s : Z.ldiff (Z.lor a b) s = Z.lor (Z.ldiff a s) (Z.ldiff b s).
Proof.
  apply Z.bits_inj'. intros k Hk.
  rewrite !Z.lor_spec, !Z.ldiff_spec, Z.lor_spec.
  by destruct (Z.testbit a k), (Z.testbit b k), (Z.testbit s k).
Qed.

Lemma Flags_make_registered spec flag :
  FlagSpec_wf spec → flag ∈ FlagSpec.range spec →
  Flags.make spec flag = Ok (Flags.Build (FlagType.m_value flag)).
Proof.
  intros Hwf Hin. unfold Flags.make. rewrite contains_spec by done.
  by rewrite bool_decide_eq_true_2.
Qed.

Lemma Flags_make_unregistered spec flag :
  FlagSpec_wf spec → flag ∉ FlagSpec.range spec →
  Flags.make spec flag = Throw UnknownFlag.
Proof.
  intros Hwf Hin. unfold Flags.make. rewrite contains_spec by done.
  by rewrite bool_decide_eq_false_2.
Qed.

Lemma complement_loop_spec spec s rest retval :
  FlagSpec_wf spec →
  Forall (λ f, f ∈ FlagSpec.range spec ∧ FlagType_valid f) rest →
  Flags.complement_loop spec s rest retval
  = Ok (Flags.Build
          (Z.lor (Flags.m_flags retval)
                 (Z.ldiff (foldr (λ f acc, Z.lor (FlagType.m_value f) acc) 0 rest)
                          (Flags.m_flags s)))).
Proof.
  intros Hwf Hall. revert retval.
  induction Hall as [|flag rest [Hin Hvalid] _ IH]; intros retval; simpl.
  - rewrite Z.lor_0_r. by destruct retval.
  - unfold Flags.flag_and. rewrite (Flags_make_registered spec flag Hwf Hin). simpl.
    rewrite ldiff_lor, (single_bit_ldiff _ _ (FlagType_make_single _ Hvalid)).
    unfold Flags.to_bool. simpl. case_bool_decide as Hb; case_decide as Hd; try done.
    all: rewrite IH; simpl; by rewrite ?Z.lor_0_l, ?Z.lor_assoc.
Qed.

(** C3. Over a registry built by [insert] calls on flags the [FlagType]
    constructor accepts, [~flags] never throws and is the registered universe
    minus the operand: a registered non-zero flag is in the complement
    exactly when it is not in the operand, [~{}] is the whole universe,
    [~universe] is empty, and the result is the fixed-width bit complement
    cut down to the registered universe. *)
Theorem Flags_complement_universe_minus_operand spec s :
  registered spec →
  Forall FlagType_valid (FlagSpec.range spec) →
  Flags.complement spec s = Ok (Flags.Build (Z.ldiff (universe spec) (Flags.m_flags s))) ∧
  (∀ f c, f ∈ FlagSpec.range spec → FlagType.m_value f ≠ 0 →
          Flags.complement spec s = Ok c →
          Z.land (FlagType.m_value f) (Flags.m_flags c) ≠ 0 ↔
          Z.land (FlagType.m_value f) (Flags.m_flags s) = 0) ∧
  Flags.complement spec Flags.default = Ok (Flags.Build (universe spec)) ∧
  Flags.complement spec (Flags.Build (universe spec)) = Ok Flags.default ∧
  Z.ldiff (universe spec) (Flags.m_flags s)
  = Z.land (bit_complement (Flags.m_flags s)) (universe spec).
Proof.
  intros Hreg Hvalid. pose proof (registered_wf _ Hreg) as Hwf.
  assert (∀ s', Flags.complement spec s'
                = Ok (Flags.Build (Z.ldiff (universe spec) (Flags.m_flags s')))) as Hcompl.
  { intros s'. unfold Flags.complement. rewrite complement_loop_spec; [done..|].
    apply Forall_forall. intros f Hf. split; [done|].
    by apply (proj1 (Forall_forall _ _) Hvalid). }
  split; [apply Hcompl|]. split; [|split; [|split]].
  - intros f c Hin Hnz. rewrite Hcompl. intros [= <-]. simpl.
    assert (Z.land (FlagType.m_value f) (universe spec) = FlagType.m_value f) as Hsub.
    { unfold universe. clear -Hin. induction (FlagSpec.range spec) as [|g l IH].
      - by apply elem_of_nil in Hin.
      - simpl. apply elem_of_cons in Hin as [->|Hin].
        + apply Z.bits_inj'. intros k _. rewrite Z.land_spec, Z.lor_spec.
          by destruct (Z.testbit (FlagType.m_value g) k), (Z.testbit _ k).
        + specialize (IH Hin). apply Z.bits_inj'. intros k _.
          assert (Z.testbit (Z.land (FlagType.m_value f) (foldr (λ f acc, Z.lor (FlagType.m_value f) acc) 0 l)) k
                  = Z.testbit (FlagType.m_value f) k) as Hk by (by rewrite IH).
          rewrite Z.land_spec in Hk. rewrite Z.land_spec, Z.lor_spec.
          destruct (Z.testbit (FlagType.m_value f) k), (Z.testbit (FlagType.m_value g) k),
            (Z.testbit _ k); done. }
    assert (Z.land (FlagType.m_value f) (Z.ldiff (universe spec) (Flags.m_flags s))
            = Z.ldiff (FlagType.m_value f) (Flags.m_flags s)) as ->.
    { rewrite <- Hsub at 2. apply Z.bits_inj'. intros k _.
      rewrite !Z.land_spec, !Z.ldiff_spec, Z.land_spec.
      by destruct (Z.testbit (FlagType.m_value f) k), (Z.testbit (universe spec) k),
        (Z.testbit (Flags.m_flags s) k). }
    rewrite single_bit_ldiff
      by (apply FlagType_make_single, (proj1 (Forall_forall _ _) Hvalid f Hin)).
    case_decide; tauto.
  - rewrite Hcompl. simpl. by rewrite Z.ldiff_0_r.
  - rewrite Hcompl. simpl. by rewrite Z.ldiff_diag.
  - unfold bit_complement. apply Z.bits_inj'. intros k Hk.
    rewrite Z.ldiff_spec, Z.land_spec, Z.lxor_spec.
    destruct (Z.testbit (universe spec) k) eqn:Hu; [|by rewrite !andb_false_r|..]; try done.
    assert (Z.testbit (Z.ones (Z.of_nat digits)) k = true) as Hones;
      [|rewrite Hones; by destruct (Z.testbit (Flags.m_flags s) k)].
    apply Z.ones_spec_low. split; [done|].
    destruct (Z.lt_ge_cases k (Z.of_nat digits)) as [|Hge]; [done|exfalso].
    revert Hu. unfold universe. clear -Hvalid Hge.
    induction Hvalid as [|f l Hf _ IH]; simpl; [by rewrite Z.bits_0|].
    rewrite Z.lor_spec. intros [Hb|Hb]%orb_true_iff; [|by apply IH].
    unfold FlagType_valid, FlagType.make in Hf. case_decide; [done|].
    injection Hf as Hf. rewrite <- Hf in Hb. simpl in Hb.
    rewrite Z.mod_pow2_bits_high in Hb; [done|lia].
Qed.

Lemma spec_ABC_registered : registered spec_ABC.
Proof. apply valid_registrations_registered, spec_ABC_valid. Qed.

Lemma spec_ABC_flags_valid : Forall FlagType_valid (FlagSpec.range spec_ABC).
Proof.
  change (FlagSpec.range spec_ABC) with [flag_A; flag_B; flag_C].
  repeat constructor.
Qed.

Lemma Flags_complement_universe_minus_operand_witness :
  Flags.complement spec_ABC (Flags.Build 1)
  = Ok (Flags.Build (Z.ldiff (universe spec_ABC) (Flags.m_flags (Flags.Build 1)))) ∧
  (∀ f c, f ∈ FlagSpec.range spec_ABC → FlagType.m_value f ≠ 0 →
          Flags.complement spec_ABC (Flags.Build 1) = Ok c →
          Z.land (FlagType.m_value f) (Flags.m_flags c) ≠ 0 ↔
          Z.land (FlagType.m_value f) (Flags.m_flags (Flags.Build 1)) = 0) ∧
  Flags.complement spec_ABC Flags.default = Ok (Flags.Build (universe spec_ABC)) ∧
  Flags.complement spec_ABC (Flags.Build (universe spec_ABC)) = Ok Flags.default ∧
  Z.ldiff (universe spec_ABC) (Flags.m_flags (Flags.Build 1))
  = Z.land (bit_complement (Flags.m_flags (Flags.Build 1))) (universe spec_ABC).
Proof.
  apply (Flags_complement_universe_minus_operand spec_ABC (Flags.Build 1)).
  - apply spec_ABC_registered.
  - apply spec_ABC_flags_valid.
Defined.

(** The three-flag registry of the specification: [~{A} = {B,C}],
    [~{} = {A,B,C}], [~{A,B,C} = {}]; the fixed-width complement of [{A}]
    is another value. *)
Example complement_ABC :
  Flags.complement spec_ABC (Flags.Build 1) = Ok (Flags.Build 6) ∧
  Flags.complement spec_ABC (Flags.Build 0) = Ok (Flags.Build 7) ∧
  Flags.complement spec_ABC (Flags.Build 7) = Ok (Flags.Build 0) ∧
  bit_complement 1 = 65534.
Proof. repeat split. Qed.

(** * Windows: proofs *)

Local Open Scope Z_scope.

(** Unfolds the plumbing of [M]. *)
Ltac unfold_M :=
  unfold mbind, M_bind, mret, M_ret, read, lift, throw, do_call, try_catch in *.

(** ** Properties of states kept by an operation *)

Lemma keeps_ret I {A} (a : A) : keeps I (mret a).
Proof. by intros st r st' [= _ <-]. Qed.

Lemma keeps_read I {A} (f : State → result A) : keeps I (read f).
Proof. by intros st r st' [= _ <-]. Qed.

Lemma keeps_throw I {A} e : keeps I (@throw A e).
Proof. by intros st r st' [= _ <-]. Qed.

Lemma keeps_bind I {A B} (m : M A) (f : A → M B) :
  keeps I m → (∀ a, keeps I (f a)) → keeps I (m ≫= f).
Proof.
  intros Hm Hf st r st'. unfold mbind, M_bind.
  destruct (m st) as [[a|e] st1] eqn:Hst1.
  - intros Hst' HI. eapply Hf; [done|]. by eapply Hm.
  - intros [= _ <-]. by eapply Hm.
Qed.

(** Works through the binds and branches of an operation, down to its
    calls. *)
Ltac keeps_step :=
  first
    [ apply keeps_ret
    | apply keeps_read
    | apply keeps_throw
    | apply keeps_bind; [|intros ?]
    | match goal with
      | |- keeps _ (if ?b then _ else _) => destruct b
      | |- keeps _ (match ?o with _ => _ end) => destruct o
      end ].

Lemma keeps_foldr I {A} (f : A → M unit) (l : list A) :
  (∀ a, keeps I (f a)) → keeps I (foldr (λ a rest, f a;; rest) (mret tt) l).
Proof.
  intros Hf. induction l as [|a l IH]; simpl; [apply keeps_ret|].
  apply keeps_bind; [apply Hf|by intros _].
Qed.

Section Wnd_facts.
Context {hdr : WndHeader}.

Lemma has_flag_registered st w flag :
  FlagSpec_wf (wnd_flags st) → flag ∈ FlagSpec.range (wnd_flags st) →
  has_flag st w flag
  = Ok (bool_decide (Z.land (Flags.m_flags (Wnd.m_flags w)) (FlagType.m_value flag) ≠ 0)).
Proof.
  intros Hwf Hin. unfold has_flag, Flags.and_flag.
  by rewrite (Flags_make_registered _ _ Hwf Hin).
Qed.

Lemma deref_Some st this w : heap st !! this = Some w → deref st this = Ok w.
Proof. unfold deref. by intros ->. Qed.

Lemma modify_Some st this w f :
  heap st !! this = Some w →
  modify this f st
  = (Ok tt, mkState (wnd_flags st) (<[this := f w]> (heap st)) (drops st) (calls st)).
Proof. unfold modify. by intros ->. Qed.

(** ** C10: [Run] *)

(** C10. For a window under a parent, or without the [MODAL] bit, [Run]
    returns [false] and leaves the whole state as it was: the window, the
    other windows, and the record of calls (no [RegisterModal], no
    [ModalInit]). If [Run] returns [true], the window has no parent and has
    the [MODAL] bit. [MODAL] is a registered window flag. *)
Theorem Run_false_without_effect st this w :
  heap st !! this = Some w →
  registered (wnd_flags st) → MODAL ∈ FlagSpec.range (wnd_flags st) →
  (is_Some (LockAndResetIfExpired st (Wnd.m_parent w)) ∨
   Z.land (Flags.m_flags (Wnd.m_flags w)) (FlagType.m_value MODAL) = 0 →
   Run this st = (Ok false, st)) ∧
  (∀ st', Run this st = (Ok true, st') →
          Parent st this = Ok None ∧
          Z.land (Flags.m_flags (Wnd.m_flags w)) (FlagType.m_value MODAL) ≠ 0).
Proof.
  intros Hw Hreg Hmodal. pose proof (registered_wf _ Hreg) as Hwf.
  unfold Run, Parent. unfold_M. rewrite (deref_Some _ _ _ Hw). simpl.
  destruct (LockAndResetIfExpired st (Wnd.m_parent w)) as [p|] eqn:Hp.
  - split; [done|]. intros st' [=].
  - rewrite (has_flag_registered _ _ _ Hwf Hmodal).
    case_bool_decide as Hbit.
    + split; [intros [[? [=]]|?]; done|]. done.
    + split; [done|]. intros st' [=].
Qed.

(** ** C9: modal excludes on-top *)

(** What the complement keeps is disjoint from the operand, whatever the
    registry holds. *)
Lemma complement_loop_disjoint spec s rest retval c :
  Flags.complement_loop spec s rest retval = Ok c →
  Z.land (Flags.m_flags retval) (Flags.m_flags s) = 0 →
  Z.land (Flags.m_flags c) (Flags.m_flags s) = 0.
Proof.
  revert retval. induction rest as [|flag rest IH]; intros retval; simpl.
  - by intros [= <-].
  - unfold Flags.flag_and, Flags.make.
    destruct (FlagSpec.contains spec flag) as [[]|e]; simpl; try done.
    unfold Flags.to_bool. simpl. case_bool_decide as Hb; [apply IH|].
    intros Hloop Hret. apply (IH _ Hloop). simpl.
    rewrite Z.land_lor_distr_l, Hret, Hb. done.
Qed.

Lemma complement_flag_disjoint spec flag c :
  Flags.complement_flag spec flag = Ok c →
  Z.land (Flags.m_flags c) (FlagType.m_value flag) = 0.
Proof.
  unfold Flags.complement_flag, Flags.make.
  destruct (FlagSpec.contains spec flag) as [[]|e]; simpl; try done.
  unfold Flags.complement. intros Hloop.
  by apply (complement_loop_disjoint _ _ _ _ _ Hloop).
Qed.

Lemma ValidateFlags_exclusive spec w w' :
  ValidateFlags spec w = Ok w' → modal_xor_ontop w'.
Proof.
  unfold ValidateFlags, modal_xor_ontop, Flags.and_flag, Flags.make.
  destruct (FlagSpec.contains spec MODAL) as [[]|e]; simpl; try done.
  unfold Flags.to_bool at 1. simpl. case_bool_decide as Hm; [|intros [= <-]; tauto].
  destruct (FlagSpec.contains spec ONTOP) as [[]|e]; simpl; try done.
  unfold Flags.to_bool at 1. simpl. case_bool_decide as Ho; [|intros [= <-]; tauto].
  destruct (Flags.complement_flag spec ONTOP) as [c|e] eqn:Hc; simpl; [|done].
  intros [= <-]. simpl. apply complement_flag_disjoint in Hc.
  intros [_ Hcontra]. apply Hcontra.
  by rewrite <- Z.land_assoc, Hc, Z.land_0_r.
Qed.

Lemma ValidateFlags_flags_only spec w w' :
  ValidateFlags spec w = Ok w' → ∃ f, w' = Wnd.set_flags f w.
Proof.
  unfold ValidateFlags.
  destruct (Flags.and_flag spec (Wnd.m_flags w) MODAL) as [m|]; simpl; [|done].
  destruct (Flags.to_bool m); [|intros [= <-]; exists (Wnd.m_flags w); by destruct w].
  destruct (Flags.and_flag spec (Wnd.m_flags w) ONTOP) as [o|]; simpl; [|done].
  destruct (Flags.to_bool o); [|intros [= <-]; exists (Wnd.m_flags w); by destruct w].
  destruct (Flags.complement_flag spec ONTOP) as [c|]; simpl; [|done].
  intros [= <-]. by eexists.
Qed.

(** *** Operations other than construction leave the flags alone *)

Lemma keeps_flags_refl st : keeps_flags st st.
Proof. intros this w Hw. by exists w. Qed.

Lemma keeps_flags_trans st1 st2 st3 :
  keeps_flags st1 st2 → keeps_flags st2 st3 → keeps_flags st1 st3.
Proof.
  intros H12 H23 this w3 Hw3.
  destruct (H23 _ _ Hw3) as (w2 & Hw2 & ->).
  destruct (H12 _ _ Hw2) as (w1 & Hw1 & ->). by exists w1.
Qed.

Lemma preserves_ret {A} (a : A) : preserves_flags (mret a).
Proof. intros st r st' [= _ <-]. apply keeps_flags_refl. Qed.

Lemma preserves_bind {A B} (m : M A) (f : A → M B) :
  preserves_flags m → (∀ a, preserves_flags (f a)) → preserves_flags (m ≫= f).
Proof.
  intros Hm Hf st r st'. unfold mbind, M_bind.
  destruct (m st) as [[a|e] st1] eqn:Hst1.
  - intros Hst'. eapply keeps_flags_trans; [by eapply Hm|by eapply Hf].
  - intros [= _ <-]. by eapply Hm.
Qed.

Lemma preserves_read {A} (f : State → result A) : preserves_flags (read f).
Proof. intros st r st' [= _ <-]. apply keeps_flags_refl. Qed.

Lemma preserves_throw {A} e : preserves_flags (@throw A e).
Proof. intros st r st' [= _ <-]. apply keeps_flags_refl. Qed.

Lemma preserves_do_call c : preserves_flags (do_call c).
Proof. intros st r st' [= _ <-] this w Hw. by exists w. Qed.

Lemma preserves_modify this f :
  (∀ w, Wnd.m_flags (f w) = Wnd.m_flags w) → preserves_flags (modify this f).
Proof.
  intros Hf st r st'. unfold modify.
  destruct (heap st !! this) as [w|] eqn:Hw; intros [= _ <-]; [|apply keeps_flags_refl].
  intros that w'. simpl. rewrite lookup_insert. case_decide as Heq.
  - intros [= <-]. subst that. exists w. by rewrite Hf.
  - intros Hw'. by exists w'.
Qed.

Lemma preserves_try_catch {A} (body handler : M A) e :
  preserves_flags body → preserves_flags handler →
  preserves_flags (try_catch body e handler).
Proof.
  intros Hb Hh st r st'. unfold try_catch.
  destruct (body st) as [[a|e'] st1] eqn:Hst1.
  - intros [= _ <-]. by eapply Hb.
  - case_decide.
    + intros Hst'. eapply keeps_flags_trans; [by eapply Hb|by eapply Hh].
    + intros [= _ <-]. by eapply Hb.
Qed.

Lemma preserves_DropsAcceptable this pt mod_keys :
  preserves_flags (DropsAcceptable this pt mod_keys).
Proof. intros st r st' [= _ <-] that w Hw. by exists w. Qed.

(** Works through an operation built from the blocks above. *)
Ltac preserves_step :=
  first
    [ apply preserves_ret
    | apply preserves_read
    | apply preserves_throw
    | apply preserves_do_call
    | apply preserves_DropsAcceptable
    | apply preserves_modify; by intros []
    | apply preserves_try_catch
    | apply preserves_bind; [|intros ?]
    | match goal with
      | |- preserves_flags (if ?b then _ else _) => destruct b
      | |- preserves_flags (match ?o with _ => _ end) => destruct o
      end ].

Ltac preserves := repeat preserves_step.

Lemma preserves_SizeMove fuel this ul lr : preserves_flags (SizeMove fuel this ul lr).
Proof. unfold SizeMove. preserves. Qed.

Lemma preserves_Resize fuel this sz : preserves_flags (Resize fuel this sz).
Proof. unfold Resize. preserves. Qed.

Lemma preserves_OffsetMove fuel this pt : preserves_flags (OffsetMove fuel this pt).
Proof. unfold OffsetMove. preserves. Qed.

Lemma preserves_DetachChildCore this wnd : preserves_flags (DetachChildCore this wnd).
Proof. unfold DetachChildCore. preserves. Qed.

Lemma preserves_DetachChild this wnd : preserves_flags (DetachChild this wnd).
Proof. unfold DetachChild. preserves. Qed.

Lemma preserves_AttachChild this wnd : preserves_flags (AttachChild this wnd).
Proof.
  unfold AttachChild, SetParent. preserves.
Qed.

Lemma preserves_DetachChildren_loop this rest :
  preserves_flags (DetachChildren_loop this rest).
Proof.
  induction rest as [|wnd rest IH]; simpl; preserves; done.
Qed.

Lemma preserves_ProcessThenRemoveExpiredPtrs {S} ptrs (action : nat → S → M S) s :
  (∀ wnd s', preserves_flags (action wnd s')) →
  preserves_flags (ProcessThenRemoveExpiredPtrs ptrs action s).
Proof.
  intros Haction. revert s. induction ptrs as [|p ptrs IH]; intros s; simpl; preserves;
    try apply Haction; apply IH.
Qed.

Lemma preserves_bubble this : preserves_flags (bubble_unless_interactive this).
Proof. unfold bubble_unless_interactive, ForwardEventToParent. preserves. Qed.

Lemma preserves_dispatch fuel this event : preserves_flags (dispatch fuel this event).
Proof.
  unfold dispatch. destruct (WndEvent.Type_ event); preserves.
Qed.

Lemma preserves_HandleEvent fuel this event : preserves_flags (HandleEvent fuel this event).
Proof.
  revert this. induction fuel as [|fuel IH]; intros this; simpl; preserves.
  - apply preserves_ProcessThenRemoveExpiredPtrs. intros wnd s'. unfold EventFilter. preserves.
  - apply preserves_dispatch.
  - apply IH.
Qed.

Lemma preserves_MoveTo fuel this pt : preserves_flags (MoveTo fuel this pt).
Proof. unfold MoveTo. preserves. Qed.

Lemma preserves_SetMinSize fuel this sz : preserves_flags (SetMinSize fuel this sz).
Proof. unfold SetMinSize. preserves. Qed.

Lemma preserves_SetMaxSize fuel this sz : preserves_flags (SetMaxSize fuel this sz).
Proof. unfold SetMaxSize. preserves. Qed.

Lemma preserves_DetachChildren this : preserves_flags (DetachChildren this).
Proof. unfold DetachChildren. preserves. apply preserves_DetachChildren_loop. Qed.

Lemma preserves_MoveChildUp this wnd : preserves_flags (MoveChildUp this wnd).
Proof. unfold MoveChildUp. preserves. Qed.

Lemma preserves_MoveChildDown this wnd : preserves_flags (MoveChildDown this wnd).
Proof. unfold MoveChildDown. preserves. Qed.

Lemma preserves_Run this : preserves_flags (Run this).
Proof. unfold Run, ModalInit. preserves. Qed.

Lemma preserves_EndRun this : preserves_flags (EndRun this).
Proof. unfold EndRun. preserves. Qed.

Lemma exclusive_flags {A} (m : M A) : preserves_flags m → keeps all_exclusive m.
Proof.
  intros Hm st r st' Hrun Hinv this w' Hw'.
  destruct (Hm _ _ _ Hrun _ _ Hw') as (w & Hw & Hf).
  unfold modal_xor_ontop. rewrite Hf. by eapply Hinv.
Qed.

Lemma Wnd_ctor_exclusive spec x y w h flags wnd :
  Wnd_ctor spec x y w h flags = Ok wnd → modal_xor_ontop wnd.
Proof. intros Hctor. by apply ValidateFlags_exclusive in Hctor. Qed.

Lemma exclusive_Create x y w h flags : keeps all_exclusive (Create x y w h flags).
Proof.
  intros st r st'. unfold Create.
  destruct (Wnd_ctor (wnd_flags st) x y w h flags) as [wnd|e] eqn:Hctor;
    intros [= _ <-] Hinv; [|done].
  intros this w'. simpl. rewrite lookup_insert. case_decide; [|apply Hinv].
  intros [= <-]. apply Wnd_ctor_exclusive in Hctor. by destruct wnd.
Qed.

Lemma exclusive_Create_Layout x y w h rows columns :
  keeps all_exclusive (Create_Layout x y w h rows columns).
Proof.
  intros st r st'. unfold Create_Layout.
  destruct (Wnd_ctor (wnd_flags st) x y w h Flags.default) as [wnd|e] eqn:Hctor;
    intros [= _ <-] Hinv; [|done].
  intros this w'. simpl. rewrite lookup_insert. case_decide; [|apply Hinv].
  intros [= <-]. apply Wnd_ctor_exclusive in Hctor. by destruct wnd.
Qed.

Lemma exclusive_RemoveLayout this : keeps all_exclusive (RemoveLayout this).
Proof.
  unfold RemoveLayout. repeat keeps_step.
  - apply exclusive_flags. preserves.
  - apply exclusive_flags. preserves.
  - apply keeps_foldr. intros wnd. apply exclusive_flags, preserves_AttachChild.
Qed.

Lemma exclusive_GridLayout fuel this : keeps all_exclusive (GridLayout fuel this).
Proof.
  unfold GridLayout. apply keeps_bind; [apply exclusive_RemoveLayout|intros _].
  repeat keeps_step.
  - apply exclusive_Create_Layout.
  - apply exclusive_flags. preserves.
  - apply exclusive_flags, preserves_AttachChild.
  - apply keeps_foldr. intros cell. apply exclusive_flags, preserves_do_call.
Qed.

Lemma step_keeps_exclusive st st' : step st st' → all_exclusive st → all_exclusive st'.
Proof.
  intros Hstep.
  destruct Hstep as
    [x y w h flags st r st' H | fuel this ul lr st r st' H | fuel this pt st r st' H
    | fuel this pt st r st' H | fuel this sz st r st' H | fuel this sz st r st' H
    | fuel this sz st r st' H | this wnd st r st' H | this wnd st r st' H | this st r st' H
    | this wnd st r st' H | this wnd st r st' H | this st r st' H | this st r st' H
    | fuel this event st r st' H | this st r st' H | fuel this st r st' H
    | flag name st r spec' H ].
  - by eapply exclusive_Create.
  - eapply exclusive_flags; [apply preserves_SizeMove|done].
  - eapply exclusive_flags; [apply preserves_MoveTo|done].
  - eapply exclusive_flags; [apply preserves_OffsetMove|done].
  - eapply exclusive_flags; [apply preserves_Resize|done].
  - eapply exclusive_flags; [apply preserves_SetMinSize|done].
  - eapply exclusive_flags; [apply preserves_SetMaxSize|done].
  - eapply exclusive_flags; [apply preserves_AttachChild|done].
  - eapply exclusive_flags; [apply preserves_DetachChild|done].
  - eapply exclusive_flags; [apply preserves_DetachChildren|done].
  - eapply exclusive_flags; [apply preserves_MoveChildUp|done].
  - eapply exclusive_flags; [apply preserves_MoveChildDown|done].
  - eapply exclusive_flags; [apply preserves_Run|done].
  - eapply exclusive_flags; [apply preserves_EndRun|done].
  - eapply exclusive_flags; [apply preserves_HandleEvent|done].
  - by eapply exclusive_RemoveLayout.
  - by eapply exclusive_GridLayout.
  - done.
Qed.

Lemma reachable_exclusive st : reachable st → all_exclusive st.
Proof.
  induction 1 as [|st st' _ IH Hstep].
  - intros this w. simpl. by rewrite lookup_empty.
  - by apply (step_keeps_exclusive st st').
Qed.

Lemma has_flag_true st w flag :
  has_flag st w flag = Ok true →
  Z.land (Flags.m_flags (Wnd.m_flags w)) (FlagType.m_value flag) ≠ 0.
Proof.
  unfold has_flag, Flags.and_flag, Flags.make.
  destruct (FlagSpec.contains (wnd_flags st) flag) as [[]|e]; simpl; try done.
  unfold Flags.to_bool. simpl. intros [= Hb]. by apply bool_decide_eq_true in Hb.
Qed.

Lemma Modal_true st this w :
  heap st !! this = Some w → Modal st this = Ok true →
  Z.land (Flags.m_flags (Wnd.m_flags w)) (FlagType.m_value MODAL) ≠ 0.
Proof.
  intros Hw. unfold Modal, Parent. rewrite (deref_Some _ _ _ Hw). simpl.
  destruct (LockAndResetIfExpired st (Wnd.m_parent w)); [done|apply has_flag_true].
Qed.

Lemma OnTop_true st this w :
  heap st !! this = Some w → OnTop st this = Ok true →
  Z.land (Flags.m_flags (Wnd.m_flags w)) (FlagType.m_value ONTOP) ≠ 0.
Proof.
  intros Hw. unfold OnTop, Parent. rewrite (deref_Some _ _ _ Hw). simpl.
  destruct (LockAndResetIfExpired st (Wnd.m_parent w)); [done|apply has_flag_true].
Qed.

Lemma Wnd_ctor_clears_ONTOP spec x y w h flags wnd :
  Wnd_ctor spec x y w h flags = Ok wnd →
  Z.land (Flags.m_flags flags) (FlagType.m_value MODAL) ≠ 0 →
  Z.land (Flags.m_flags flags) (FlagType.m_value ONTOP) ≠ 0 →
  Z.land (Flags.m_flags (Wnd.m_flags wnd)) (FlagType.m_value ONTOP) = 0.
Proof.
  unfold Wnd_ctor, ValidateFlags, Flags.and_flag, Flags.make. simpl.
  destruct (FlagSpec.contains spec MODAL) as [[]|e]; simpl; try done.
  destruct (FlagSpec.contains spec ONTOP) as [[]|e]; simpl;
    unfold Flags.to_bool; simpl; intros Hctor Hm Ho;
    rewrite bool_decide_eq_true_2 in Hctor by done; simpl in Hctor; try done.
  rewrite bool_decide_eq_true_2 in Hctor by done.
  destruct (Flags.complement_flag spec ONTOP) as [c|e] eqn:Hc; simpl in Hctor; [|done].
  injection Hctor as <-. simpl. apply complement_flag_disjoint in Hc.
  by rewrite <- Z.land_assoc, Hc, Z.land_0_r.
Qed.

(** C9. In every state reached from the initial one by the operations of
    [Wnd], no window has [Modal()] and [OnTop()] both true, because no window
    holds both bits: a window made with [MODAL] and [ONTOP] has lost [ONTOP]
    when its constructor returns, and nothing writes the flags later. *)
Theorem Modal_OnTop_exclusive st :
  reachable st →
  (∀ this, ¬ (Modal st this = Ok true ∧ OnTop st this = Ok true)) ∧
  (∀ this w, heap st !! this = Some w → modal_xor_ontop w) ∧
  (∀ x y w h flags this st',
     Create x y w h flags st = (Ok this, st') →
     Z.land (Flags.m_flags flags) (FlagType.m_value MODAL) ≠ 0 →
     Z.land (Flags.m_flags flags) (FlagType.m_value ONTOP) ≠ 0 →
     ∃ wnd, heap st' !! this = Some wnd ∧
            Z.land (Flags.m_flags (Wnd.m_flags wnd)) (FlagType.m_value ONTOP) = 0).
Proof.
  intros Hreach. pose proof (reachable_exclusive _ Hreach) as Hinv.
  split; [|split; [done|]].
  - intros this [Hmodal Hontop].
    destruct (heap st !! this) as [w|] eqn:Hw.
    + apply (Hinv _ _ Hw). split; [by eapply Modal_true|by eapply OnTop_true].
    + unfold Modal, Parent, deref in Hmodal. by rewrite Hw in Hmodal.
  - intros x y w h flags this st'. unfold Create.
    destruct (Wnd_ctor (wnd_flags st) x y w h flags) as [wnd|e] eqn:Hctor; [|done].
    intros [= <- <-] Hm Ho. exists (Wnd.set_weak_this true wnd). simpl.
    rewrite lookup_insert_eq. split; [done|].
    by apply (Wnd_ctor_clears_ONTOP _ _ _ _ _ _ _ Hctor).
Qed.

End Wnd_facts.

Lemma RegisterWndFlags_registered `{WndHeader} spec spec' :
  registered spec → RegisterWndFlags spec = (Ok true, spec') → registered spec'.
Proof.
  intros Hreg. unfold RegisterWndFlags. cbv zeta.
  repeat match goal with
         | |- context [FlagSpec.insert ?f ?n spec] =>
             let Hi := fresh "Hins" in
             let s := fresh "s" in
             destruct (FlagSpec.insert f n spec) as [[[]|?] s] eqn:Hi;
             [apply (registered_insert _ _ _ _ Hreg) in Hi; clear Hreg; rename Hi into Hreg;
              clear spec; rename s into spec
             |simpl; intros [=]]
         end.
  simpl. by intros [= <-].
Qed.

Lemma WndFlagSpec_registered : registered (@WndFlagSpec GG_WndHeader).
Proof.
  apply (RegisterWndFlags_registered FlagSpec.default); [apply registered_default|].
  reflexivity.
Qed.

Lemma st_modal_ontop_reachable : reachable st_modal_ontop.
Proof.
  apply (reachable_step initial_state); [apply reachable_initial|].
  apply (step_Create 0 0 10 10 (Flags.Build 48) initial_state (Ok 0%nat)).
  reflexivity.
Qed.

Lemma Modal_OnTop_exclusive_witness :
  (∀ this, ¬ (Modal st_modal_ontop this = Ok true ∧ OnTop st_modal_ontop this = Ok true)) ∧
  (∀ this w, heap st_modal_ontop !! this = Some w → modal_xor_ontop w) ∧
  (∀ x y w h flags this st',
     Create x y w h flags st_modal_ontop = (Ok this, st') →
     Z.land (Flags.m_flags flags) (FlagType.m_value MODAL) ≠ 0 →
     Z.land (Flags.m_flags flags) (FlagType.m_value ONTOP) ≠ 0 →
     ∃ wnd, heap st' !! this = Some wnd ∧
            Z.land (Flags.m_flags (Wnd.m_flags wnd)) (FlagType.m_value ONTOP) = 0).
Proof. apply (Modal_OnTop_exclusive st_modal_ontop), st_modal_ontop_reachable. Defined.

(** The window made with [MODAL | ONTOP] holds [MODAL] alone and is modal. *)
Example st_modal_ontop_flags :
  Wnd.m_flags <$> heap st_modal_ontop !! 0%nat = Some (Flags.Build 32) ∧
  Modal st_modal_ontop 0%nat = Ok true ∧ OnTop st_modal_ontop 0%nat = Ok false.
Proof. repeat split. Qed.

Lemma Run_false_without_effect_witness :
  (is_Some (LockAndResetIfExpired st_plain (Wnd.m_parent
     (Wnd.Build true false (Pt.Build 0 0) (Pt.Build 10 10) (Pt.Build 0 0)
        (Pt.Build (2 ^ 30) (2 ^ 30)) (Flags.Build 1) None [] None None [] false))) ∨
   Z.land (Flags.m_flags (Wnd.m_flags
     (Wnd.Build true false (Pt.Build 0 0) (Pt.Build 10 10) (Pt.Build 0 0)
        (Pt.Build (2 ^ 30) (2 ^ 30)) (Flags.Build 1) None [] None None [] false)))
     (FlagType.m_value MODAL) = 0 →
   Run 0%nat st_plain = (Ok false, st_plain)) ∧
  (∀ st', Run 0%nat st_plain = (Ok true, st') →
          Parent st_plain 0%nat = Ok None ∧
          Z.land (Flags.m_flags (Wnd.m_flags
            (Wnd.Build true false (Pt.Build 0 0) (Pt.Build 10 10) (Pt.Build 0 0)
               (Pt.Build (2 ^ 30) (2 ^ 30)) (Flags.Build 1) None [] None None [] false)))
            (FlagType.m_value MODAL) ≠ 0).
Proof.
  apply (Run_false_without_effect st_plain 0%nat).
  - reflexivity.
  - apply WndFlagSpec_registered.
  - compute_done.
Defined.

(** [Run] on the modal window registers it, calls the hook, runs the modal
    loop and unregisters the window. *)
Example Run_modal_calls :
  (Run 0%nat st_modal_ontop).1 = Ok true ∧
  calls (Run 0%nat st_modal_ontop).2
  = [GUI_RegisterModal 0%nat; Virtual_ModalInit 0%nat; GUI_RunModal 0%nat; GUI_Remove 0%nat].
Proof. split; reflexivity. Qed.

(** ** C5: resizing against the size limits *)

Local Open Scope Z_scope.

Section SizeMove_facts.
Context {hdr : WndHeader}.

Lemma clamp_axis_spec ul lr min_sz max_sz cur_ul cur_lr :
  axis_clamped (lr - ul) min_sz max_sz
    ((clamp_axis ul lr min_sz max_sz cur_ul cur_lr).2
     - (clamp_axis ul lr min_sz max_sz cur_ul cur_lr).1).
Proof.
  unfold axis_clamped, clamp_axis. repeat case_decide; simpl; lia.
Qed.

Lemma same_links_lock st st1 p :
  same_links st st1 → LockAndResetIfExpired st1 p = LockAndResetIfExpired st p.
Proof.
  intros Hl. destruct p as [p|]; [|done]. simpl. specialize (Hl p).
  by destruct (heap st1 !! p), (heap st !! p).
Qed.

Lemma same_links_UpperLeft_defined fuel st st1 X ul :
  same_links st st1 → UpperLeft fuel st X = Ok ul → ∃ ul1, UpperLeft fuel st1 X = Ok ul1.
Proof.
  intros Hl. revert X ul. induction fuel as [|fuel IH]; intros X ul; simpl; [done|].
  unfold deref. pose proof (Hl X) as HX.
  destruct (heap st !! X) as [w|] eqn:Hw; [|done].
  destruct (heap st1 !! X) as [w1|] eqn:Hw1; [|done].
  simpl. injection HX as HX. rewrite HX, (same_links_lock _ _ _ Hl).
  destruct (LockAndResetIfExpired st (Wnd.m_parent w)) as [p|]; [|by eexists].
  destruct (UpperLeft fuel st p) as [off|] eqn:Hoff; [|done].
  destruct (IH _ _ Hoff) as [off1 ->]. by eexists.
Qed.

Lemma same_links_ClientSize_defined fuel st st1 X sz :
  same_links st st1 → ClientSize fuel st X = Ok sz → ∃ sz1, ClientSize fuel st1 X = Ok sz1.
Proof.
  intros Hl. unfold ClientSize, ClientLowerRight, LowerRight, ClientUpperLeft, deref.
  pose proof (Hl X) as HX.
  destruct (heap st !! X) as [w|] eqn:Hw; [|done].
  destruct (heap st1 !! X) as [w1|] eqn:Hw1; [|done].
  simpl. injection HX as HX. rewrite HX, (same_links_lock _ _ _ Hl).
  destruct (LockAndResetIfExpired st (Wnd.m_parent w)) as [p|]; simpl.
  - destruct (UpperLeft fuel st p) as [off|] eqn:Hoff; [|done]. simpl.
    destruct (same_links_UpperLeft_defined _ _ _ _ _ Hl Hoff) as [off1 ->]. simpl.
    destruct (UpperLeft fuel st X) as [ul|] eqn:Hul; [|done].
    destruct (same_links_UpperLeft_defined _ _ _ _ _ Hl Hul) as [ul1 ->]. by eexists.
  - destruct (UpperLeft fuel st X) as [ul|] eqn:Hul; [|done].
    destruct (same_links_UpperLeft_defined _ _ _ _ _ Hl Hul) as [ul1 ->]. by eexists.
Qed.

Lemma set_geometry_same_links st this w ul lr :
  heap st !! this = Some w →
  same_links st (mkState (wnd_flags st) (<[this := Wnd.set_geometry ul lr w]> (heap st))
                         (drops st) (calls st)).
Proof.
  intros Hw X. simpl. rewrite lookup_insert. case_decide; [|done].
  subst X. by rewrite Hw.
Qed.

Lemma Clamp_effective fuel st this w ul lr eff :
  heap st !! this = Some w →
  effective_min_size fuel st this = Ok eff →
  ClampRectWithMinAndMaxSize fuel st this ul lr
  = Ok (Pt.Build
          (clamp_axis (Pt.x ul) (Pt.x lr) (Pt.x eff) (Pt.x (Wnd.m_max_size w))
                      (Pt.x (Wnd.m_upperleft w)) (Pt.x (Wnd.m_lowerright w))).1
          (clamp_axis (Pt.y ul) (Pt.y lr) (Pt.y eff) (Pt.y (Wnd.m_max_size w))
                      (Pt.y (Wnd.m_upperleft w)) (Pt.y (Wnd.m_lowerright w))).1,
        Pt.Build
          (clamp_axis (Pt.x ul) (Pt.x lr) (Pt.x eff) (Pt.x (Wnd.m_max_size w))
                      (Pt.x (Wnd.m_upperleft w)) (Pt.x (Wnd.m_lowerright w))).2
          (clamp_axis (Pt.y ul) (Pt.y lr) (Pt.y eff) (Pt.y (Wnd.m_max_size w))
                      (Pt.y (Wnd.m_upperleft w)) (Pt.y (Wnd.m_lowerright w))).2).
Proof.
  intros Hw. unfold effective_min_size, ClampRectWithMinAndMaxSize.
  rewrite (deref_Some _ _ _ Hw). simpl.
  destruct (GetLayout st this) as [[l|]|] eqn:Hl; simpl; [| |done].
  - destruct (deref st l) as [lw|]; simpl; [|done].
    destruct (ClientSize fuel st this) as [cs|]; simpl; [|done].
    intros [= <-]. simpl. unfold Wnd.MinSize, Wnd.MaxSize, Wnd.Width, Wnd.Height.
    by do 2 destruct (clamp_axis _ _ _ _ _ _).
  - intros [= <-]. unfold Wnd.MinSize, Wnd.MaxSize.
    by do 2 destruct (clamp_axis _ _ _ _ _ _).
Qed.

(** C5 (as amended). A [SizeMove] whose requested size differs from the
    present one returns normally and leaves the window with, on each axis:
    the effective minimum when the request was below it; the maximum when
    the request was at least the minimum and above the maximum; the request
    otherwise. The minimum is tested first, so that it wins over a smaller
    maximum. [Resize] is [SizeMove] from the present upper-left corner. The
    hypothesis on [effective_min_size] says that the installed layout, if
    any, can be read with the given budget. *)
Theorem SizeMove_clamps fuel st this w ul lr eff :
  heap st !! this = Some w →
  effective_min_size fuel st this = Ok eff →
  Wnd.Size w ≠ Pt.sub lr ul →
  (∃ st' w',
     SizeMove fuel this ul lr st = (Ok tt, st') ∧ heap st' !! this = Some w' ∧
     axis_clamped (Pt.x lr - Pt.x ul) (Pt.x eff) (Pt.x (Wnd.m_max_size w)) (Wnd.Width w') ∧
     axis_clamped (Pt.y lr - Pt.y ul) (Pt.y eff) (Pt.y (Wnd.m_max_size w)) (Wnd.Height w')) ∧
  (∀ sz, Resize fuel this sz st
         = SizeMove fuel this (Wnd.m_upperleft w) (Pt.add (Wnd.m_upperleft w) sz) st).
Proof.
  intros Hw Heff Hne. split.
  2:{ intros sz. unfold Resize. unfold_M. by rewrite (deref_Some _ _ _ Hw). }
  pose proof (Clamp_effective fuel st this w ul lr eff Hw Heff) as Hclamp.
  set (cx := clamp_axis (Pt.x ul) (Pt.x lr) (Pt.x eff) (Pt.x (Wnd.m_max_size w))
                 (Pt.x (Wnd.m_upperleft w)) (Pt.x (Wnd.m_lowerright w))) in *.
  set (cy := clamp_axis (Pt.y ul) (Pt.y lr) (Pt.y eff) (Pt.y (Wnd.m_max_size w))
                 (Pt.y (Wnd.m_upperleft w)) (Pt.y (Wnd.m_lowerright w))) in *.
  set (w1 := Wnd.set_geometry (Pt.Build cx.1 cy.1) (Pt.Build cx.2 cy.2) w).
  set (st1 := mkState (wnd_flags st) (<[this := w1]> (heap st)) (drops st) (calls st)).
  assert (same_links st st1) as Hlinks by (by apply set_geometry_same_links).
  assert (heap st1 !! this = Some w1) as Hw1 by apply lookup_insert_eq.
  assert (∃ st', SizeMove fuel this ul lr st = (Ok tt, st') ∧ heap st' = heap st1)
    as (st' & Hrun & Hheap).
  { unfold SizeMove. unfold_M. rewrite (deref_Some _ _ _ Hw).
    rewrite bool_decide_eq_true_2 by done. rewrite Hclamp.
    rewrite (modify_Some _ _ _ _ Hw). cbn [fst snd]. fold w1. fold st1.
    rewrite (deref_Some _ _ _ Hw1).
    assert (GetLayout st1 this = GetLayout st this) as ->.
    { unfold GetLayout. rewrite (deref_Some _ _ _ Hw), (deref_Some _ _ _ Hw1).
      change (Ok (LockAndResetIfExpired st1 (Wnd.m_layout w))
              = Ok (LockAndResetIfExpired st (Wnd.m_layout w))).
      by rewrite (same_links_lock _ _ _ Hlinks). }
    unfold effective_min_size in Heff. rewrite (deref_Some _ _ _ Hw) in Heff. simpl in Heff.
    destruct (GetLayout st this) as [[l|]|] eqn:Hlayout; simpl in Heff; [| |done].
    - destruct (deref st l) as [lw|]; simpl in Heff; [|done].
      destruct (ClientSize fuel st this) as [cs|] eqn:Hcs; [|done].
      destruct (same_links_ClientSize_defined _ _ _ _ _ Hlinks Hcs) as [cs1 Hcs1].
      destruct (bool_decide (Wnd.Size w1 ≠ Wnd.Size w)); simpl.
      + rewrite Hcs1. simpl.
        destruct (Wnd.is_layout w); simpl; [by eexists|].
        destruct (LockAndResetIfExpired _ _); by eexists.
      + by eexists.
    - destruct (bool_decide (Wnd.Size w1 ≠ Wnd.Size w)); simpl; [|by eexists].
      destruct (Wnd.is_layout w); simpl; [by eexists|].
      destruct (LockAndResetIfExpired _ _); by eexists. }
  exists st', w1. rewrite Hheap. split; [done|]. split; [done|].
  split; [apply clamp_axis_spec|apply clamp_axis_spec].
Qed.

End SizeMove_facts.

Lemma SizeMove_clamps_witness :
  (∃ st' w',
     SizeMove 0 0%nat (Pt.Build 0 0) (Pt.Build 7 7) st_min_above_max = (Ok tt, st') ∧
     heap st' !! 0%nat = Some w' ∧
     axis_clamped (7 - 0) 10 5 (Wnd.Width w') ∧
     axis_clamped (7 - 0) 10 5 (Wnd.Height w')) ∧
  (∀ sz, Resize 0 0%nat sz st_min_above_max
         = SizeMove 0 0%nat (Pt.Build 0 0) (Pt.add (Pt.Build 0 0) sz) st_min_above_max).
Proof.
  apply (SizeMove_clamps 0 st_min_above_max 0%nat
           (Wnd.Build true false (Pt.Build 0 0) (Pt.Build 10 10) (Pt.Build 10 10)
              (Pt.Build 5 5) (Flags.Build 1) None [] None None [] false)
           (Pt.Build 0 0) (Pt.Build 7 7) (Pt.Build 10 10)).
  - reflexivity.
  - reflexivity.
  - discriminate.
Defined.

(** C5, counterexample to the claim as stated. The window of
    [st_min_above_max] is 10 x 10 with minimum 10 x 10 and maximum 5 x 5
    (both set through [SetMinSize] and [SetMaxSize]). Resizing it to 7 x 7
    asks for a size that differs from the present one and exceeds the
    maximum; the window stays 10 x 10, which is not below the maximum. *)
Lemma Resize_above_max_stays_above_max :
  Wnd.Size <$> heap st_min_above_max !! 0%nat = Some (Pt.Build 10 10) ∧
  Wnd.m_min_size <$> heap st_min_above_max !! 0%nat = Some (Pt.Build 10 10) ∧
  Wnd.m_max_size <$> heap st_min_above_max !! 0%nat = Some (Pt.Build 5 5) ∧
  (Resize 0 0%nat (Pt.Build 7 7) st_min_above_max).1 = Ok tt ∧
  Wnd.Size <$> heap (Resize 0 0%nat (Pt.Build 7 7) st_min_above_max).2 !! 0%nat
  = Some (Pt.Build 10 10) ∧
  ¬ (10 ≤ 5).
Proof. repeat split; try reflexivity. lia. Qed.

(** ** C6: attaching re-parents *)

Local Open Scope Z_scope.

Section tree_facts.
Context {hdr : WndHeader}.

Lemma erase_first_elem x c l : x ∈ erase_first c l → x ∈ l.
Proof.
  induction l as [|y l IH]; simpl; [done|]. case_decide.
  - intros ?. by apply list_elem_of_further.
  - intros [->|?]%elem_of_cons; [apply list_elem_of_here|]. apply list_elem_of_further. auto.
Qed.

Lemma erase_first_NoDup c l : NoDup l → NoDup (erase_first c l).
Proof.
  induction 1 as [|y l Hy Hl IH]; simpl; [constructor|]. case_decide; [done|].
  constructor; [|done]. intros ?%erase_first_elem. done.
Qed.

Lemma erase_first_gone c l : NoDup l → c ∉ erase_first c l.
Proof.
  induction 1 as [|y l Hy Hl IH]; simpl; [apply not_elem_of_nil|]. case_decide.
  - by subst.
  - intros [->|?]%elem_of_cons; done.
Qed.

Lemma set_heap_same st : set_heap st (heap st) = st.
Proof. by destruct st. Qed.

Lemma modify_live st this f :
  is_Some (heap st !! this) →
  modify this f st = (Ok tt, set_heap st (alter f this (heap st))).
Proof.
  intros [w Hw]. rewrite (modify_Some _ _ _ _ Hw). unfold set_heap. do 2 f_equal.
  apply map_eq. intros i. rewrite lookup_insert, lookup_alter.
  case_decide; [subst; by rewrite Hw|done].
Qed.

Lemma alter_live (f : Wnd.t → Wnd.t) (h : gmap nat Wnd.t) i j :
  is_Some (alter f i h !! j) ↔ is_Some (h !! j).
Proof.
  rewrite lookup_alter. case_decide; [subst; apply fmap_is_Some|done].
Qed.

Lemma set_heap_set_heap st h h' : set_heap (set_heap st h) h' = set_heap st h'.
Proof. done. Qed.

Lemma bind_run {A B} (m : M A) (f : A → M B) st a st1 :
  m st = (Ok a, st1) → (m ≫= f) st = f a st1.
Proof. unfold mbind, M_bind. by intros ->. Qed.

Lemma bind_read {A B} (g : State → result A) (f : A → M B) st a :
  g st = Ok a → (read g ≫= f) st = f a st.
Proof. unfold mbind, M_bind, read. by intros ->. Qed.

Lemma GetLayout_live st this w :
  heap st !! this = Some w →
  GetLayout st this = Ok (LockAndResetIfExpired st (Wnd.m_layout w)).
Proof. intros Hw. unfold GetLayout. by rewrite (deref_Some _ _ _ Hw). Qed.

Lemma Parent_live st this w :
  heap st !! this = Some w →
  Parent st this = Ok (LockAndResetIfExpired st (Wnd.m_parent w)).
Proof. intros Hw. unfold Parent. by rewrite (deref_Some _ _ _ Hw). Qed.

Lemma DetachChildCore_run st O C :
  is_Some (heap st !! O) → is_Some (heap st !! C) →
  ∃ g : Wnd.t → Wnd.t,
    (g = Wnd.set_layout None ∨ g = id) ∧
    DetachChildCore O (Some C) st
    = (Ok tt, set_heap st (alter g O (alter (Wnd.set_containing_layout None) C
                                        (alter (Wnd.set_parent None) C (heap st))))).
Proof.
  intros HO HC. unfold DetachChildCore.
  rewrite (bind_run _ _ _ _ _ (modify_live st C _ HC)).
  assert (is_Some (heap (set_heap st (alter (Wnd.set_parent None) C (heap st))) !! C)) as HC1.
  { simpl. by apply alter_live. }
  rewrite (bind_run _ _ _ _ _ (modify_live _ C _ HC1)). rewrite set_heap_set_heap.
  cbn [heap set_heap].
  set (h2 := alter (Wnd.set_containing_layout None) C
               (alter (Wnd.set_parent None) C (heap st))).
  assert (is_Some (heap (set_heap st h2) !! O)) as [ow2 HO2].
  { simpl. unfold h2. by rewrite !alter_live. }
  rewrite (bind_read _ _ _ _ (GetLayout_live _ _ _ HO2)).
  case_decide.
  - exists (Wnd.set_layout None). split; [by left|].
    by rewrite (modify_live _ O) by eauto.
  - exists id. split; [by right|]. unfold mret, M_ret. do 2 f_equal.
    apply map_eq. intros X. rewrite lookup_alter. case_decide; [|done].
    subst. by rewrite option_fmap_id.
Qed.

(** What [DetachChild] does to each window of the heap. *)
Definition detached (O C : nat) (X : nat) (w : Wnd.t) (w1 : Wnd.t) : Prop :=
  Wnd.weak_this w1 = Wnd.weak_this w ∧
  Wnd.is_layout w1 = Wnd.is_layout w ∧
  Wnd.m_children w1 = (if decide (O = X) then erase_first C (Wnd.m_children w)
                       else Wnd.m_children w) ∧
  Wnd.m_parent w1 = (if decide (C = X) then None else Wnd.m_parent w).

Lemma DetachChild_found st O C ow :
  heap st !! O = Some ow → C ∈ Wnd.m_children ow → is_Some (heap st !! C) →
  ∃ h1, DetachChild O (Some C) st = (Ok tt, set_heap st h1) ∧
        ∀ X, match heap st !! X with
             | Some w => ∃ w1, h1 !! X = Some w1 ∧ detached O C X w w1
             | None => h1 !! X = None
             end.
Proof.
  intros HO Hin HC. unfold DetachChild.
  rewrite (bind_read _ _ _ _ (deref_Some _ _ _ HO)). rewrite decide_True by done.
  destruct (DetachChildCore_run st O C) as (g & Hg & Hcore); [by eauto|done|].
  rewrite (bind_run _ _ _ _ _ Hcore).
  rewrite modify_live by (simpl; rewrite !alter_live; eauto).
  rewrite set_heap_set_heap. cbn [heap set_heap].
  eexists. split; [done|]. intros X.
  destruct (decide (O = X)) as [HOX|HOX], (decide (C = X)) as [HCX|HCX]; subst;
    repeat (rewrite lookup_alter_eq || rewrite lookup_alter_ne by done);
    (destruct (heap st !! X) as [w|] eqn:HX; simpl; [|done]);
    (eexists; split; [done|]);
    unfold detached; destruct w; destruct Hg as [-> | ->]; simpl;
    repeat case_decide; done.
Qed.

Lemma DetachChild_wf st O C :
  wf_tree st → is_Some (heap st !! O) → is_Some (heap st !! C) →
  ∃ h1, DetachChild O (Some C) st = (Ok tt, set_heap st h1) ∧
        wf_tree (set_heap st h1) ∧
        (∀ X, Wnd.weak_this <$> h1 !! X = Wnd.weak_this <$> heap st !! X) ∧
        (∀ X, Wnd.is_layout <$> h1 !! X = Wnd.is_layout <$> heap st !! X) ∧
        (∀ X, X ≠ O → Wnd.m_children <$> h1 !! X = Wnd.m_children <$> heap st !! X) ∧
        C ∉ default [] (Wnd.m_children <$> h1 !! O).
Proof.
  intros Hwf [ow HO] HC.
  destruct (decide (C ∈ Wnd.m_children ow)) as [Hin|Hnin].
  - destruct (DetachChild_found st O C ow HO Hin HC) as (h1 & Hrun & Hpt).
    exists h1. split; [done|].
    assert (∀ X w1, h1 !! X = Some w1 →
                    ∃ w, heap st !! X = Some w ∧ detached O C X w w1) as Hback.
    { intros X w1 HX1. specialize (Hpt X).
      destruct (heap st !! X) as [w|]; [|congruence].
      destruct Hpt as (w1' & HX1' & Hd). exists w. split; [done|]. congruence. }
    split; [|split; [|split; [|split]]].
    + intros p w1 Hp1. simpl in Hp1.
      destruct (Hback _ _ Hp1) as (w & Hp & _ & _ & Hch & _).
      destruct (Hwf _ _ Hp) as [Hnd Hall]. rewrite Hch. split.
      * case_decide; [by apply erase_first_NoDup|done].
      * apply Forall_forall. intros c Hc. simpl.
        assert (c ∈ Wnd.m_children w) as Hc0.
        { case_decide; [by eapply erase_first_elem|done]. }
        pose proof (proj1 (Forall_forall _ _) Hall c Hc0) as Hpar. simpl in Hpar.
        specialize (Hpt c). destruct (heap st !! c) as [cw|] eqn:Hcw; [|done].
        simpl in Hpar.
        destruct Hpt as (cw1 & -> & _ & _ & _ & Hpar1). simpl. rewrite Hpar1.
        destruct (decide (C = c)) as [HCc|HCc]; [|done]. subst c. exfalso.
        destruct (Hwf _ _ HO) as [HndO HallO].
        pose proof (proj1 (Forall_forall _ _) HallO C Hin) as HparO. simpl in HparO.
        rewrite Hcw in HparO. simpl in HparO.
        assert (p = O) by congruence. subst p.
        rewrite decide_True in Hc by done.
        assert (w = ow) as -> by congruence.
        by apply (erase_first_gone C (Wnd.m_children ow)).
    + intros X. specialize (Hpt X). destruct (heap st !! X) as [w|]; [|by rewrite Hpt].
      destruct Hpt as (w1 & -> & Hd & _). simpl. by rewrite Hd.
    + intros X. specialize (Hpt X). destruct (heap st !! X) as [w|]; [|by rewrite Hpt].
      destruct Hpt as (w1 & -> & _ & Hd & _). simpl. by rewrite Hd.
    + intros X HXO. specialize (Hpt X). destruct (heap st !! X) as [w|]; [|by rewrite Hpt].
      destruct Hpt as (w1 & -> & _ & _ & Hch & _). simpl. rewrite Hch.
      by rewrite decide_False by done.
    + specialize (Hpt O). rewrite HO in Hpt.
      destruct Hpt as (w1 & -> & _ & _ & Hch & _). simpl. rewrite Hch.
      rewrite decide_True by done. apply erase_first_gone.
      by destruct (Hwf _ _ HO).
  - exists (heap st). rewrite set_heap_same.
    split; [|split; [exact Hwf|repeat split; try done]].
    + unfold DetachChild. unfold_M. rewrite (deref_Some _ _ _ HO).
      by rewrite decide_False by done.
    + by rewrite HO.
Qed.

Lemma try_catch_Ok {A} (body handler : M A) e st a st' :
  body st = (Ok a, st') → try_catch body e handler st = (Ok a, st').
Proof. unfold try_catch. by intros ->. Qed.

Lemma lock_Some st ptr p : LockAndResetIfExpired st ptr = Some p → ptr = Some p ∧ is_Some (heap st !! p).
Proof.
  destruct ptr as [q|]; simpl; [|done].
  destruct (heap st !! q) eqn:Hq; [|done]. intros [= <-]. eauto.
Qed.

Lemma lock_live st p : is_Some (heap st !! p) → LockAndResetIfExpired st (Some p) = Some p.
Proof. intros [w Hw]. simpl. by rewrite Hw. Qed.

(** First half of [AttachChild]: the child leaves the list of its present
    parent, and is then in no list at all. *)
Lemma AttachChild_detaches st C cw :
  wf_tree st → heap st !! C = Some cw →
  ∃ h1,
    match LockAndResetIfExpired st (Wnd.m_parent cw) with
    | Some p => DetachChild p (Some C)
    | None => mret tt
    end st = (Ok tt, set_heap st h1) ∧
    wf_tree (set_heap st h1) ∧
    (∀ X, Wnd.weak_this <$> h1 !! X = Wnd.weak_this <$> heap st !! X) ∧
    (∀ X, Wnd.is_layout <$> h1 !! X = Wnd.is_layout <$> heap st !! X) ∧
    (∀ X, C ∉ default [] (Wnd.m_children <$> h1 !! X)).
Proof.
  intros Hwf HC.
  assert (∀ X w, heap st !! X = Some w → C ∈ Wnd.m_children w →
                 LockAndResetIfExpired st (Wnd.m_parent cw) = Some X) as Hlisted.
  { intros X w HX Hin. destruct (Hwf _ _ HX) as [_ Hall].
    pose proof (proj1 (Forall_forall _ _) Hall C Hin) as Hpar. simpl in Hpar.
    rewrite HC in Hpar. injection Hpar as ->. apply lock_live. eauto. }
  destruct (LockAndResetIfExpired st (Wnd.m_parent cw)) as [O|] eqn:Hlock.
  - apply lock_Some in Hlock as [Hpar HO].
    destruct (DetachChild_wf st O C Hwf HO) as (h1 & Hrun & Hwf1 & Hwt & Hil & Hch & HnO);
      [by eauto|].
    exists h1. split_and!; try done.
    intros X. destruct (decide (X = O)) as [->|HXO]; [done|].
    rewrite (Hch X HXO). destruct (heap st !! X) as [w|] eqn:HX; simpl; [|apply not_elem_of_nil].
    intros Hin. specialize (Hlisted _ _ HX Hin). congruence.
  - exists (heap st). rewrite set_heap_same. split_and!; try done.
    intros X. destruct (heap st !! X) as [w|] eqn:HX; simpl; [|apply not_elem_of_nil].
    intros Hin. by specialize (Hlisted _ _ HX Hin).
Qed.

(** What the second half of [AttachChild] does to each window. *)
Definition attached (P C : nat) (X : nat) (w : Wnd.t) (w2 : Wnd.t) : Prop :=
  Wnd.weak_this w2 = Wnd.weak_this w ∧
  Wnd.m_children w2 = (if decide (P = X) then Wnd.m_children w ++ [C] else Wnd.m_children w) ∧
  Wnd.m_parent w2 = (if decide (C = X) then Some P else Wnd.m_parent w).

Lemma AttachChild_links st P C pw :
  heap st !! P = Some pw → is_Some (heap st !! C) →
  ∃ h2,
    (do_call (GUI_Remove C);;
     SetParent C (Some P);;
     (if (if Wnd.is_layout pw then Some P else None) is Some l
      then modify C (Wnd.set_containing_layout (Some l)) else mret tt);;
     modify P (λ w', Wnd.set_children (Wnd.m_children w' ++ [C]) w')) st
    = (Ok tt, mkState (wnd_flags st) h2 (drops st) (calls st ++ [GUI_Remove C])) ∧
    ∀ X, match heap st !! X with
         | Some w => ∃ w2, h2 !! X = Some w2 ∧ attached P C X w w2
         | None => h2 !! X = None
         end.
Proof.
  intros HP HC.
  set (st0 := mkState (wnd_flags st) (heap st) (drops st) (calls st ++ [GUI_Remove C])).
  assert (do_call (GUI_Remove C) st = (Ok tt, st0)) as Hcall by done.
  rewrite (bind_run _ _ _ _ _ Hcall). unfold SetParent.
  rewrite (bind_run _ _ _ _ _ (modify_live st0 C _ HC)).
  assert (∃ g : Wnd.t → Wnd.t,
            (g = Wnd.set_containing_layout (Some P) ∨ g = id) ∧
            (if (if Wnd.is_layout pw then Some P else None) is Some l
             then modify C (Wnd.set_containing_layout (Some l)) else mret tt)
              (set_heap st0 (alter (Wnd.set_parent (Some P)) C (heap st0)))
            = (Ok tt, set_heap st0 (alter g C (alter (Wnd.set_parent (Some P)) C (heap st0)))))
    as (g & Hg & Hrun).
  { destruct (Wnd.is_layout pw).
    - exists (Wnd.set_containing_layout (Some P)). split; [by left|].
      rewrite modify_live by (simpl; by apply alter_live). done.
    - exists id. split; [by right|]. unfold mret, M_ret. do 2 f_equal.
      symmetry. by apply alter_id. }
  rewrite (bind_run _ _ _ _ _ Hrun).
  rewrite modify_live by (simpl; rewrite !alter_live; eauto).
  eexists. split; [done|]. intros X. cbn [heap set_heap st0].
  destruct (decide (P = X)) as [HPX|HPX], (decide (C = X)) as [HCX|HCX]; subst;
    repeat (rewrite lookup_alter_eq || rewrite lookup_alter_ne by done);
    (destruct (heap st !! X) as [w|] eqn:HX; simpl; [|done]);
    (eexists; split; [done|]);
    unfold attached; destruct w; destruct Hg as [-> | ->]; simpl;
    repeat case_decide; done.
Qed.

(** [AttachChild] on a well-formed tree. *)
Lemma AttachChild_wf st P C :
  wf_tree st → shared st P → is_Some (heap st !! C) →
  ∃ st', AttachChild P (Some C) st = (Ok tt, st') ∧
         wf_tree st' ∧
         Parent st' C = Ok (Some P) ∧
         (∀ X, C ∈ children st' X ↔ X = P) ∧
         (∀ X, Wnd.weak_this <$> heap st' !! X = Wnd.weak_this <$> heap st !! X).
Proof.
  intros Hwf HP [cw HC]. unfold shared in HP.
  destruct (heap st !! P) as [pw|] eqn:HPw; [|done]. injection HP as HP.
  destruct (AttachChild_detaches st C cw Hwf HC) as (h1 & Hrun1 & Hwf1 & Hwt1 & Hil1 & Hno1).
  assert (∃ pw1, h1 !! P = Some pw1 ∧ Wnd.is_layout pw1 = Wnd.is_layout pw) as (pw1 & HP1 & Hpl).
  { specialize (Hil1 P). rewrite HPw in Hil1. destruct (h1 !! P) as [pw1|]; [|done].
    injection Hil1 as ?. by exists pw1. }
  assert (is_Some (h1 !! C)) as HC1.
  { specialize (Hwt1 C). rewrite HC in Hwt1. by destruct (h1 !! C). }
  destruct (AttachChild_links (set_heap st h1) P C pw1 HP1 HC1) as (h2 & Hrun2 & Hpt).
  eexists. split; [|split; [|split; [|split]]].
  - unfold AttachChild. apply try_catch_Ok.
    rewrite (bind_read _ _ _ P) by (unfold shared_from_this; rewrite (deref_Some _ _ _ HPw); simpl; by rewrite HP).
    rewrite (bind_read _ _ _ _ (Parent_live _ _ _ HC)).
    rewrite (bind_run _ _ _ _ _ Hrun1).
    rewrite (bind_read _ _ _ _ (deref_Some (set_heap st h1) _ _ HP1)).
    exact Hrun2.
  - intros p w2 Hp2. cbn [heap] in Hp2 |- *.
    pose proof (Hpt p) as Hptp. cbn [heap set_heap] in Hptp.
    destruct (h1 !! p) as [w|] eqn:Hp1; [|congruence].
    destruct Hptp as (w2' & Hw2' & _ & Hch & _). assert (w2' = w2) as -> by congruence.
    destruct (Hwf1 _ _ Hp1) as [Hnd Hall]. rewrite Hch.
    assert (C ∉ Wnd.m_children w) as HCw.
    { specialize (Hno1 p). by rewrite Hp1 in Hno1. }
    assert (∀ c, c ∈ Wnd.m_children w → Wnd.m_parent <$> h2 !! c = Some (Some p)) as Hold.
    { intros c Hc. pose proof (proj1 (Forall_forall _ _) Hall c Hc) as Hpar.
      cbn [heap set_heap] in Hpar.
      pose proof (Hpt c) as Hptc. cbn [heap set_heap] in Hptc.
      destruct (h1 !! c) as [cw1|]; [|done]. simpl in Hpar.
      destruct Hptc as (cw2 & -> & _ & _ & Hpar2). simpl. rewrite Hpar2.
      rewrite decide_False; [done|]. intros <-. done. }
    split.
    + case_decide; [|done]. apply NoDup_app. repeat split; [done| |apply NoDup_singleton].
      intros x Hx ->%list_elem_of_singleton. done.
    + apply Forall_forall. intros c Hc. case_decide as HPp; [|by apply Hold].
      apply elem_of_app in Hc as [Hc|Hc%list_elem_of_singleton]; [by apply Hold|].
      subst c p. pose proof (Hpt C) as HptC. cbn [heap set_heap] in HptC.
      destruct HC1 as [cw1 HC1]. rewrite HC1 in HptC.
      destruct HptC as (cw2 & -> & _ & _ & Hpar2). simpl. rewrite Hpar2.
      by rewrite decide_True.
  - pose proof (Hpt C) as HptC. cbn [heap set_heap] in HptC.
    destruct HC1 as [cw1 HC1]. rewrite HC1 in HptC.
    destruct HptC as (cw2 & HC2 & _ & _ & Hpar2).
    rewrite (Parent_live _ _ cw2) by done. rewrite Hpar2, decide_True by done.
    rewrite lock_live; [done|]. cbn [heap].
    pose proof (Hpt P) as HptP. cbn [heap set_heap] in HptP. rewrite HP1 in HptP.
    destruct HptP as (? & -> & _). eauto.
  - intros X. unfold children. cbn [heap].
    pose proof (Hpt X) as HptX. cbn [heap set_heap] in HptX.
    pose proof (Hno1 X) as HnoX.
    destruct (h1 !! X) as [w|] eqn:HX1.
    + destruct HptX as (w2 & -> & _ & Hch & _). simpl in *. rewrite Hch.
      case_decide as HPX; [|split; [done|congruence]].
      split; [done|]. intros _. apply elem_of_app. right. apply list_elem_of_here.
    + rewrite HptX. simpl. split; [by intros ?%elem_of_nil|].
      intros ->. congruence.
  - intros X. cbn [heap]. rewrite <- Hwt1.
    pose proof (Hpt X) as HptX. cbn [heap set_heap] in HptX.
    destruct (h1 !! X) as [w|]; [|by rewrite HptX].
    destruct HptX as (w2 & -> & Hd & _). simpl. by rewrite Hd.
Qed.

End tree_facts.

Lemma st_three_wf : wf_tree st_three.
Proof. unfold wf_tree. compute_done. Qed.

(** ** The tree of every reachable state is well formed *)

Local Open Scope Z_scope.

Section reach_facts.
Context {hdr : WndHeader}.

Lemma same_tree_refl st : same_tree st st.
Proof. by intros X. Qed.

Lemma same_tree_trans st1 st2 st3 :
  same_tree st1 st2 → same_tree st2 st3 → same_tree st1 st3.
Proof.
  intros H12 H23 X. destruct (H12 X) as [<- <-]. apply H23.
Qed.

Lemma same_tree_wf st st' : same_tree st st' → wf_tree st → wf_tree st'.
Proof.
  intros Hsame Hwf p w' Hp. destruct (Hsame p) as [_ Hch]. rewrite Hp in Hch.
  destruct (heap st !! p) as [w|] eqn:Hw; [|done]. injection Hch as Hch.
  destruct (Hwf _ _ Hw) as [Hnd Hall]. rewrite Hch. split; [done|].
  apply Forall_forall. intros c Hc.
  pose proof (proj1 (Forall_forall _ _) Hall c Hc) as Hpar. simpl in Hpar.
  destruct (Hsame c) as [-> _]. done.
Qed.

Lemma tree_ret {A} (a : A) : preserves_tree (mret a).
Proof. intros st r st' [= _ <-]. apply same_tree_refl. Qed.

Lemma tree_bind {A B} (m : M A) (f : A → M B) :
  preserves_tree m → (∀ a, preserves_tree (f a)) → preserves_tree (m ≫= f).
Proof.
  intros Hm Hf st r st'. unfold mbind, M_bind.
  destruct (m st) as [[a|e] st1] eqn:Hst1.
  - intros Hst'. eapply same_tree_trans; [by eapply Hm|by eapply Hf].
  - intros [= _ <-]. by eapply Hm.
Qed.

Lemma tree_read {A} (f : State → result A) : preserves_tree (read f).
Proof. intros st r st' [= _ <-]. apply same_tree_refl. Qed.

Lemma tree_throw {A} e : preserves_tree (@throw A e).
Proof. intros st r st' [= _ <-]. apply same_tree_refl. Qed.

Lemma tree_do_call c : preserves_tree (do_call c).
Proof. by intros st r st' [= _ <-] X. Qed.

Lemma tree_DropsAcceptable this pt mod_keys :
  preserves_tree (DropsAcceptable this pt mod_keys).
Proof. by intros st r st' [= _ <-] X. Qed.

Lemma tree_modify this f :
  (∀ w, Wnd.m_parent (f w) = Wnd.m_parent w ∧ Wnd.m_children (f w) = Wnd.m_children w) →
  preserves_tree (modify this f).
Proof.
  intros Hf st r st'. unfold modify.
  destruct (heap st !! this) as [w|] eqn:Hw; intros [= _ <-]; [|apply same_tree_refl].
  intros X. simpl. rewrite lookup_insert. case_decide as Heq; [|done].
  subst X. rewrite Hw. simpl. by destruct (Hf w) as [-> ->].
Qed.

Lemma tree_try_catch {A} (body handler : M A) e :
  preserves_tree body → preserves_tree handler → preserves_tree (try_catch body e handler).
Proof.
  intros Hb Hh st r st'. unfold try_catch.
  destruct (body st) as [[a|e'] st1] eqn:Hst1.
  - intros [= _ <-]. by eapply Hb.
  - case_decide.
    + intros Hst'. eapply same_tree_trans; [by eapply Hb|by eapply Hh].
    + intros [= _ <-]. by eapply Hb.
Qed.

(** Works through an operation built from the blocks above. *)
Ltac tree_step :=
  first
    [ apply tree_ret
    | apply tree_read
    | apply tree_throw
    | apply tree_do_call
    | apply tree_DropsAcceptable
    | apply tree_modify; by intros []
    | apply tree_try_catch
    | apply tree_bind; [|intros ?]
    | match goal with
      | |- preserves_tree (if ?b then _ else _) => destruct b
      | |- preserves_tree (match ?o with _ => _ end) => destruct o
      end ].

Ltac tree := repeat tree_step.

Lemma tree_SizeMove fuel this ul lr : preserves_tree (SizeMove fuel this ul lr).
Proof. unfold SizeMove. tree. Qed.

Lemma tree_MoveTo fuel this pt : preserves_tree (MoveTo fuel this pt).
Proof. unfold MoveTo, SizeMove. tree. Qed.

Lemma tree_OffsetMove fuel this pt : preserves_tree (OffsetMove fuel this pt).
Proof. unfold OffsetMove, SizeMove. tree. Qed.

Lemma tree_Resize fuel this sz : preserves_tree (Resize fuel this sz).
Proof. unfold Resize, SizeMove. tree. Qed.

Lemma tree_SetMinSize fuel this sz : preserves_tree (SetMinSize fuel this sz).
Proof. unfold SetMinSize, Resize, SizeMove. tree. Qed.

Lemma tree_SetMaxSize fuel this sz : preserves_tree (SetMaxSize fuel this sz).
Proof. unfold SetMaxSize, Resize, SizeMove. tree. Qed.

Lemma tree_Run this : preserves_tree (Run this).
Proof. unfold Run, ModalInit. tree. Qed.

Lemma tree_EndRun this : preserves_tree (EndRun this).
Proof. unfold EndRun. tree. Qed.

Lemma tree_filters {S} ptrs (action : nat → S → M S) s :
  (∀ wnd s', preserves_tree (action wnd s')) →
  preserves_tree (ProcessThenRemoveExpiredPtrs ptrs action s).
Proof.
  intros Haction. revert s. induction ptrs as [|p ptrs IH]; intros s; simpl; tree;
    try apply Haction; apply IH.
Qed.

Lemma tree_dispatch fuel this event : preserves_tree (dispatch fuel this event).
Proof.
  unfold dispatch.
  destruct (WndEvent.Type_ event);
    unfold LDrag, OffsetMove, SizeMove, bubble_unless_interactive, ForwardEventToParent; tree.
Qed.

Lemma tree_HandleEvent fuel this event : preserves_tree (HandleEvent fuel this event).
Proof.
  revert this. induction fuel as [|fuel IH]; intros this; simpl; tree.
  - apply tree_filters. intros wnd s'. unfold EventFilter. tree.
  - apply tree_dispatch.
  - apply IH.
Qed.

Lemma wf_tree_heap st st' : heap st' = heap st → wf_tree st → wf_tree st'.
Proof. intros Hh. unfold wf_tree. by rewrite Hh. Qed.

Lemma wf_child_live st p w c :
  wf_tree st → heap st !! p = Some w → c ∈ Wnd.m_children w → is_Some (heap st !! c).
Proof.
  intros Hwf Hp Hc. destruct (Hwf _ _ Hp) as [_ Hall].
  pose proof (proj1 (Forall_forall _ _) Hall c Hc) as Hpar. simpl in Hpar.
  by destruct (heap st !! c).
Qed.

Lemma Create_wf x y w h flags st r st' :
  Create x y w h flags st = (r, st') → wf_tree st → wf_tree st'.
Proof.
  unfold Create, Wnd_ctor.
  destruct (ValidateFlags _ _) as [wnd|e] eqn:Hctor; intros [= _ <-] Hwf; [|done].
  apply ValidateFlags_flags_only in Hctor as [f ->].
  set (this := fresh (dom (heap st))).
  assert (heap st !! this = None) as Hfresh by apply not_elem_of_dom, is_fresh.
  intros p w'. simpl. rewrite lookup_insert. case_decide as Hp.
  - intros [= <-]. simpl. split; [constructor|constructor].
  - intros Hp'. destruct (Hwf _ _ Hp') as [Hnd Hall]. split; [done|].
    apply Forall_forall. intros c Hc. simpl.
    rewrite lookup_insert_ne; [exact (proj1 (Forall_forall _ _) Hall c Hc)|].
    intros <-. destruct (wf_child_live _ _ _ _ Hwf Hp' Hc) as [? ?]. congruence.
Qed.

Lemma AttachChild_step_wf this wnd st r st' :
  AttachChild this wnd st = (r, st') → wf_tree st → wf_tree st'.
Proof.
  intros Hrun Hwf. destruct wnd as [c|]; [|by injection Hrun as _ <-].
  destruct (heap st !! this) as [pw|] eqn:Hthis.
  2:{ revert Hrun. unfold AttachChild, try_catch, shared_from_this. unfold_M.
      unfold deref. rewrite Hthis. simpl. by intros [= _ <-]. }
  destruct (Wnd.weak_this pw) eqn:Hshared.
  2:{ revert Hrun. unfold AttachChild, try_catch, shared_from_this. unfold_M.
      unfold deref. rewrite Hthis. simpl. rewrite Hshared. simpl. by intros [= _ <-]. }
  destruct (heap st !! c) as [cw|] eqn:Hc.
  2:{ revert Hrun. unfold AttachChild, try_catch, shared_from_this, Parent. unfold_M.
      unfold deref. rewrite Hthis, Hc. simpl. rewrite Hshared. simpl. by intros [= _ <-]. }
  destruct (AttachChild_wf st this c Hwf) as (st1 & Hrun1 & Hwf1 & _).
  - unfold shared. by rewrite Hthis, <- Hshared.
  - by rewrite Hc.
  - rewrite Hrun1 in Hrun. by injection Hrun as _ <-.
Qed.

Lemma DetachChild_step_wf this wnd st r st' :
  DetachChild this wnd st = (r, st') → wf_tree st → wf_tree st'.
Proof.
  intros Hrun Hwf. destruct (heap st !! this) as [w|] eqn:Hthis.
  2:{ revert Hrun. unfold DetachChild. unfold_M. unfold deref. rewrite Hthis.
      by intros [= _ <-]. }
  destruct wnd as [c|].
  2:{ revert Hrun. unfold DetachChild. unfold_M. unfold deref. rewrite Hthis.
      by intros [= _ <-]. }
  destruct (decide (c ∈ Wnd.m_children w)) as [Hin|Hnin].
  - destruct (DetachChild_wf st this c Hwf) as (h1 & Hrun1 & Hwf1 & _).
    + by rewrite Hthis.
    + by apply (wf_child_live st this w).
    + rewrite Hrun1 in Hrun. by injection Hrun as _ <-.
  - revert Hrun. unfold DetachChild. unfold_M. unfold deref. rewrite Hthis.
    rewrite decide_False by done. by intros [= _ <-].
Qed.

(** Putting the children of a window in another order. *)
Lemma wf_reorder st this w l :
  wf_tree st → heap st !! this = Some w →
  NoDup l → (∀ c, c ∈ l → c ∈ Wnd.m_children w) →
  wf_tree (mkState (wnd_flags st) (<[this := Wnd.set_children l w]> (heap st))
                   (drops st) (calls st)).
Proof.
  intros Hwf Hthis Hnd Hsub.
  assert (∀ p c, Wnd.m_parent <$> heap st !! c = Some (Some p) →
                 Wnd.m_parent <$> <[this := Wnd.set_children l w]> (heap st) !! c
                 = Some (Some p)) as Hpar.
  { intros p c Hc. rewrite lookup_insert. case_decide as Heq; [|done].
    subst c. rewrite Hthis in Hc. by destruct w. }
  intros p w'. simpl. rewrite lookup_insert. case_decide as Hp.
  - intros [= <-]. subst p. destruct (Hwf _ _ Hthis) as [_ Hall].
    split; [by destruct w|]. apply Forall_forall. intros c Hc. simpl. apply Hpar.
    apply (proj1 (Forall_forall _ _) Hall c). apply Hsub. by destruct w.
  - intros Hp'. destruct (Hwf _ _ Hp') as [Hnd' Hall]. split; [done|].
    apply Forall_forall. intros c Hc. simpl. apply Hpar.
    exact (proj1 (Forall_forall _ _) Hall c Hc).
Qed.

Lemma MoveChildUp_step_wf this wnd st r st' :
  MoveChildUp this wnd st = (r, st') → wf_tree st → wf_tree st'.
Proof.
  intros Hrun Hwf. destruct wnd as [c|]; [|by injection Hrun as _ <-].
  revert Hrun. unfold MoveChildUp. unfold_M. unfold deref.
  destruct (heap st !! this) as [w|] eqn:Hthis; [|by intros [= _ <-]].
  case_decide as Hin; [|by intros [= _ <-]].
  rewrite (modify_Some _ _ _ _ Hthis). intros [= _ <-].
  destruct (Hwf _ _ Hthis) as [Hnd _].
  apply wf_reorder; [done|done| |].
  - apply NoDup_app. split; [by apply erase_first_NoDup|]. split; [|apply NoDup_singleton].
    intros x Hx ->%list_elem_of_singleton. by apply (erase_first_gone c (Wnd.m_children w)).
  - intros x [Hx|Hx%list_elem_of_singleton]%elem_of_app; [by eapply erase_first_elem|by subst].
Qed.

Lemma MoveChildDown_step_wf this wnd st r st' :
  MoveChildDown this wnd st = (r, st') → wf_tree st → wf_tree st'.
Proof.
  intros Hrun Hwf. destruct wnd as [c|]; [|by injection Hrun as _ <-].
  revert Hrun. unfold MoveChildDown. unfold_M. unfold deref.
  destruct (heap st !! this) as [w|] eqn:Hthis; [|by intros [= _ <-]].
  case_decide as Hin; [|by intros [= _ <-]].
  rewrite (modify_Some _ _ _ _ Hthis). intros [= _ <-].
  destruct (Hwf _ _ Hthis) as [Hnd _].
  apply wf_reorder; [done|done| |].
  - apply NoDup_cons. split; [by apply erase_first_gone|by apply erase_first_NoDup].
  - intros x [->|Hx]%elem_of_cons; [done|by eapply erase_first_elem].
Qed.

(** What the loop of [DetachChildren] over [l] does to a window [X]. *)
Definition orphaned (l : list nat) (X : nat) (w w' : Wnd.t) : Prop :=
  Wnd.m_children w' = Wnd.m_children w ∧
  Wnd.m_parent w' = (if decide (X ∈ l) then None else Wnd.m_parent w).

Lemma DetachChildren_loop_run this l st :
  is_Some (heap st !! this) → (∀ c, c ∈ l → is_Some (heap st !! c)) →
  ∃ st', DetachChildren_loop this l st = (Ok tt, st') ∧
         ∀ X, match heap st !! X with
              | Some w => ∃ w', heap st' !! X = Some w' ∧ orphaned l X w w'
              | None => heap st' !! X = None
              end.
Proof.
  revert st. induction l as [|c l IH]; intros st Hthis Hlive.
  - exists st. split; [done|]. intros X. destruct (heap st !! X) as [w|]; [|done].
    exists w. split; [done|]. split; [done|]. by rewrite decide_False by apply not_elem_of_nil.
  - cbn [DetachChildren_loop].
    destruct (DetachChildCore_run st this c Hthis) as (g & Hg & Hcore); [apply Hlive; left|].
    rewrite (bind_run _ _ _ _ _ Hcore).
    set (h1 := alter g this (alter (Wnd.set_containing_layout None) c
                              (alter (Wnd.set_parent None) c (heap st)))) in *.
    assert (∀ X, is_Some (h1 !! X) ↔ is_Some (heap st !! X)) as Hdom.
    { intros X. unfold h1. by rewrite !alter_live. }
    destruct (IH (set_heap st h1)) as (st' & Hrun & Hpt).
    { simpl. by apply Hdom. }
    { intros x Hx. simpl. apply Hdom, Hlive. by right. }
    exists st'. split; [done|]. intros X. specialize (Hpt X). cbn [heap set_heap] in Hpt.
    assert (h1 !! X = (λ w, g (if decide (c = X)
                               then Wnd.set_containing_layout None (Wnd.set_parent None w)
                               else w)) <$> heap st !! X ∨
            h1 !! X = (λ w, if decide (c = X)
                            then Wnd.set_containing_layout None (Wnd.set_parent None w)
                            else w) <$> heap st !! X) as Hh1.
    { unfold h1. destruct (decide (this = X)) as [HtX|HtX], (decide (c = X)) as [HcX|HcX];
        subst;
        repeat (rewrite lookup_alter_eq || rewrite lookup_alter_ne by done);
        destruct (heap st !! X); simpl; auto. }
    destruct (heap st !! X) as [w|] eqn:HX.
    + assert (∃ w1, h1 !! X = Some w1 ∧ Wnd.m_children w1 = Wnd.m_children w ∧
                    Wnd.m_parent w1 = if decide (c = X) then None else Wnd.m_parent w)
        as (w1 & Hw1 & Hch1 & Hpar1).
      { destruct Hh1 as [-> | ->]; simpl; eexists; (split; [done|]);
          destruct Hg as [-> | ->]; destruct w; simpl; case_decide; done. }
      rewrite Hw1 in Hpt. destruct Hpt as (w' & Hw' & Hch & Hpar).
      exists w'. split; [done|]. split; [congruence|]. rewrite Hpar, Hpar1.
      destruct (decide (c = X)) as [->|HcX].
      * rewrite (decide_True (P := X ∈ X :: l)) by left. by case_decide.
      * destruct (decide (X ∈ l)).
        -- rewrite decide_True; [done|by right].
        -- rewrite decide_False; [done|]. intros [->|?]%elem_of_cons; done.
    + assert (h1 !! X = None) as Hnone by (by destruct Hh1 as [-> | ->]).
      by rewrite Hnone in Hpt.
Qed.

Lemma DetachChildren_step_wf this st r st' :
  DetachChildren this st = (r, st') → wf_tree st → wf_tree st'.
Proof.
  intros Hrun Hwf. destruct (heap st !! this) as [w|] eqn:Hthis.
  2:{ revert Hrun. unfold DetachChildren. unfold_M. unfold modify. rewrite Hthis.
      by intros [= _ <-]. }
  revert Hrun. unfold DetachChildren.
  rewrite (bind_run _ _ _ _ _ (modify_live st this _ (mk_is_Some _ _ Hthis))).
  set (st1 := set_heap st (alter (Wnd.set_layout None) this (heap st))).
  assert (heap st1 !! this = Some (Wnd.set_layout None w)) as Hthis1.
  { simpl. by rewrite lookup_alter_eq, Hthis. }
  rewrite (bind_read _ _ _ _ (deref_Some _ _ _ Hthis1)).
  assert (∀ X, is_Some (heap st1 !! X) ↔ is_Some (heap st !! X)) as Hdom1.
  { intros X. simpl. by rewrite alter_live. }
  destruct (DetachChildren_loop_run this (Wnd.m_children w) st1) as (st2 & Hloop & Hpt).
  { by rewrite Hthis1. }
  { intros c Hc. apply Hdom1. by apply (wf_child_live st this w). }
  replace (Wnd.m_children (Wnd.set_layout None w)) with (Wnd.m_children w) by (by destruct w).
  rewrite (bind_run _ _ _ _ _ Hloop).
  assert (∃ w2, heap st2 !! this = Some w2) as [w2 Hthis2].
  { specialize (Hpt this). rewrite Hthis1 in Hpt. destruct Hpt as (w2 & ? & _). eauto. }
  rewrite (modify_Some _ _ _ _ Hthis2). intros [= _ <-].
  assert (∀ X wX, heap st !! X = Some wX →
                  ∃ w', heap st2 !! X = Some w' ∧ orphaned (Wnd.m_children w) X wX w') as Hfwd.
  { intros X wX HX. specialize (Hpt X). simpl in Hpt. rewrite lookup_alter in Hpt.
    case_decide as Heq.
    - subst X. rewrite HX in Hpt. simpl in Hpt. destruct Hpt as (w' & Hw' & Hch & Hpar).
      exists w'. split; [done|]. split; [by destruct wX|]. rewrite Hpar. by destruct wX.
    - by rewrite HX in Hpt. }
  intros p w3. simpl. rewrite lookup_insert. case_decide as Hp.
  - intros [= <-]. simpl. split; [constructor|constructor].
  - intros Hp2.
    destruct (heap st !! p) as [wp|] eqn:Hp0.
    2:{ specialize (Hpt p). simpl in Hpt. rewrite lookup_alter_ne, Hp0 in Hpt by done.
        congruence. }
    destruct (Hfwd _ _ Hp0) as (w' & Hw' & Hch & _). assert (w' = w3) as -> by congruence.
    destruct (Hwf _ _ Hp0) as [Hnd Hall]. rewrite Hch. split; [done|].
    apply Forall_forall. intros c Hc. simpl.
    pose proof (proj1 (Forall_forall _ _) Hall c Hc) as Hpar. simpl in Hpar.
    destruct (heap st !! c) as [cw|] eqn:Hc0; [|done]. injection Hpar as Hpar.
    destruct (Hfwd _ _ Hc0) as (cw' & Hcw' & _ & Hpar').
    assert (c ∉ Wnd.m_children w) as Hnot.
    { intros Hin. destruct (Hwf _ _ Hthis) as [_ Hall'].
      pose proof (proj1 (Forall_forall _ _) Hall' c Hin) as Hpar''. simpl in Hpar''.
      rewrite Hc0 in Hpar''. simpl in Hpar''. congruence. }
    rewrite decide_False in Hpar' by done.
    rewrite lookup_insert. case_decide as Hc3.
    + subst c. simpl. assert (cw' = w2) as -> by congruence.
      replace (Wnd.m_parent (Wnd.set_children [] w2)) with (Wnd.m_parent w2) by (by destruct w2).
      congruence.
    + rewrite Hcw'. simpl. congruence.
Qed.

Lemma wf_same_tree {A} (m : M A) : preserves_tree m → keeps wf_tree m.
Proof. intros Hm st r st' Hrun. apply same_tree_wf. by eapply Hm. Qed.

Lemma wf_Create_Layout x y w h rows columns :
  keeps wf_tree (Create_Layout x y w h rows columns).
Proof.
  intros st r st'. unfold Create_Layout, Wnd_ctor.
  destruct (ValidateFlags _ _) as [wnd|e] eqn:Hctor; intros [= _ <-] Hwf; [|done].
  set (this := fresh (dom (heap st))).
  assert (heap st !! this = None) as Hfresh by apply not_elem_of_dom, is_fresh.
  intros p w'. simpl. rewrite lookup_insert. case_decide as Hp.
  - intros [= <-]. simpl. split; [constructor|constructor].
  - intros Hp'. destruct (Hwf _ _ Hp') as [Hnd Hall]. split; [done|].
    apply Forall_forall. intros c Hc. simpl.
    rewrite lookup_insert_ne; [exact (proj1 (Forall_forall _ _) Hall c Hc)|].
    intros <-. destruct (wf_child_live _ _ _ _ Hwf Hp' Hc) as [? ?]. congruence.
Qed.

Lemma wf_AttachChild this wnd : keeps wf_tree (AttachChild this wnd).
Proof. intros st r st'. apply AttachChild_step_wf. Qed.

Lemma wf_RemoveLayout this : keeps wf_tree (RemoveLayout this).
Proof.
  unfold RemoveLayout. repeat keeps_step.
  - apply wf_same_tree. tree.
  - apply wf_same_tree. tree.
  - apply keeps_foldr. intros wnd. apply wf_AttachChild.
Qed.

Lemma wf_GridLayout fuel this : keeps wf_tree (GridLayout fuel this).
Proof.
  unfold GridLayout. apply keeps_bind; [apply wf_RemoveLayout|intros _].
  repeat keeps_step.
  - apply wf_Create_Layout.
  - apply wf_same_tree. tree.
  - apply wf_AttachChild.
  - apply keeps_foldr. intros cell. apply wf_same_tree, tree_do_call.
Qed.

Lemma step_wf st st' : step st st' → wf_tree st → wf_tree st'.
Proof.
  intros Hstep Hwf.
  destruct Hstep as
    [x y w h flags st r st' H | fuel this ul lr st r st' H | fuel this pt st r st' H
    | fuel this pt st r st' H | fuel this sz st r st' H | fuel this sz st r st' H
    | fuel this sz st r st' H | this wnd st r st' H | this wnd st r st' H | this st r st' H
    | this wnd st r st' H | this wnd st r st' H | this st r st' H | this st r st' H
    | fuel this event st r st' H | this st r st' H | fuel this st r st' H
    | flag name st r spec' H ].
  - by eapply Create_wf.
  - eapply same_tree_wf; [by eapply tree_SizeMove|done].
  - eapply same_tree_wf; [by eapply tree_MoveTo|done].
  - eapply same_tree_wf; [by eapply tree_OffsetMove|done].
  - eapply same_tree_wf; [by eapply tree_Resize|done].
  - eapply same_tree_wf; [by eapply tree_SetMinSize|done].
  - eapply same_tree_wf; [by eapply tree_SetMaxSize|done].
  - by eapply AttachChild_step_wf.
  - by eapply DetachChild_step_wf.
  - by eapply DetachChildren_step_wf.
  - by eapply MoveChildUp_step_wf.
  - by eapply MoveChildDown_step_wf.
  - eapply same_tree_wf; [by eapply tree_Run|done].
  - eapply same_tree_wf; [by eapply tree_EndRun|done].
  - eapply same_tree_wf; [by eapply tree_HandleEvent|done].
  - by eapply wf_RemoveLayout.
  - by eapply wf_GridLayout.
  - done.
Qed.

(** Whatever the operations that led to it, a state lists every child once,
    under the window its parent link names. *)
Lemma reachable_wf st : reachable st → wf_tree st.
Proof.
  induction 1 as [|st st' _ IH Hstep].
  - intros p w. simpl. by rewrite lookup_empty.
  - by apply (step_wf st st').
Qed.

(** C6. In a state reached through the operations of [Wnd], for windows
    [P] and [Q] owned by a [shared_ptr] and an existing child [C]:
    [P.AttachChild(C)] returns normally, makes [P] the parent of [C], and
    leaves [C] in the child list of [P] and of no other window, its previous
    parent included; attaching [C] to [Q] next does the same for [Q], so
    that [C] is then listed by [Q] only. *)
Theorem AttachChild_reparents st P Q C :
  reachable st → shared st P → shared st Q → is_Some (heap st !! C) →
  ((AttachChild P (Some C) st).1 = Ok tt ∧
   Parent (after (AttachChild P (Some C)) st) C = Ok (Some P) ∧
   (∀ X, C ∈ children (after (AttachChild P (Some C)) st) X ↔ X = P) ∧
   (∀ O, Parent st C = Ok (Some O) → O ≠ P →
         C ∉ children (after (AttachChild P (Some C)) st) O)) ∧
  ((AttachChild Q (Some C) (after (AttachChild P (Some C)) st)).1 = Ok tt ∧
   Parent (after (AttachChild Q (Some C)) (after (AttachChild P (Some C)) st)) C
   = Ok (Some Q) ∧
   (∀ X, C ∈ children (after (AttachChild Q (Some C)) (after (AttachChild P (Some C)) st)) X
         ↔ X = Q)).
Proof.
  intros Hwf%reachable_wf HP HQ HC.
  destruct (AttachChild_wf st P C Hwf HP HC) as (st1 & Hrun1 & Hwf1 & Hpar1 & Hch1 & Hwt1).
  assert (shared st1 Q) as HQ1 by (unfold shared; by rewrite Hwt1).
  assert (is_Some (heap st1 !! C)) as HC1.
  { specialize (Hwt1 C). destruct HC as [cw HC]. rewrite HC in Hwt1.
    by destruct (heap st1 !! C). }
  destruct (AttachChild_wf st1 Q C Hwf1 HQ1 HC1) as (st2 & Hrun2 & Hwf2 & Hpar2 & Hch2 & _).
  unfold after. rewrite Hrun1. cbn [fst snd]. rewrite Hrun2. cbn [fst snd].
  split_and!; try done.
  intros O _ HOP HO. by apply Hch1 in HO.
Qed.

(** X3. In a state reached through the operations of [Wnd], a window lists
    a child once, and the parent link of a listed child resolves to the
    window that lists it. *)
Theorem reachable_child_parent st p c :
  reachable st → c ∈ children st p →
  Parent st c = Ok (Some p) ∧ NoDup (children st p).
Proof.
  intros Hwf%reachable_wf Hc. unfold children in *.
  destruct (heap st !! p) as [w|] eqn:Hp; [|by apply elem_of_nil in Hc]. simpl in *.
  destruct (Hwf _ _ Hp) as [Hnd Hall]. split; [|done].
  pose proof (proj1 (Forall_forall _ _) Hall c Hc) as Hpar. simpl in Hpar.
  destruct (heap st !! c) as [cw|] eqn:Hcw; [|done]. injection Hpar as Hpar.
  rewrite (Parent_live _ _ _ Hcw), Hpar. simpl. by rewrite Hp.
Qed.

Lemma reachable_after_Create x y w h flags st :
  reachable st → reachable (after (Create x y w h flags) st).
Proof.
  intros Hst. apply (reachable_step st); [done|].
  apply (step_Create x y w h flags st (Create x y w h flags st).1). apply surjective_pairing.
Qed.

Lemma reachable_after_AttachChild this wnd st :
  reachable st → reachable (after (AttachChild this wnd) st).
Proof.
  intros Hst. apply (reachable_step st); [done|].
  apply (step_AttachChild this wnd st (AttachChild this wnd st).1). apply surjective_pairing.
Qed.

End reach_facts.

Lemma st_grid_reachable : reachable st_grid.
Proof.
  unfold st_grid.
  repeat (apply reachable_after_AttachChild || apply reachable_after_Create).
  apply reachable_initial.
Qed.

Lemma reachable_child_parent_witness :
  Parent st_grid 2%nat = Ok (Some 0%nat) ∧ NoDup (children st_grid 0%nat).
Proof.
  apply (reachable_child_parent st_grid 0%nat 2%nat).
  - apply st_grid_reachable.
  - compute_done.
Defined.

Lemma st_three_reachable : reachable st_three.
Proof.
  apply (reachable_step
           (after (Create 0 0 50 50 (Flags.Build 1))
              (after (Create 0 0 50 50 (Flags.Build 1)) initial_state))).
  - apply (reachable_step (after (Create 0 0 50 50 (Flags.Build 1)) initial_state)).
    + apply (reachable_step initial_state); [apply reachable_initial|].
      by apply (step_Create 0 0 50 50 (Flags.Build 1) initial_state (Ok 0%nat)).
    + by apply (step_Create 0 0 50 50 (Flags.Build 1) _ (Ok 1%nat)).
  - by apply (step_Create 0 0 5 5 (Flags.Build 1) _ (Ok 2%nat)).
Qed.

Lemma AttachChild_reparents_witness :
  ((AttachChild 0%nat (Some 2%nat) st_three).1 = Ok tt ∧
   Parent (after (AttachChild 0%nat (Some 2%nat)) st_three) 2%nat = Ok (Some 0%nat) ∧
   (∀ X, 2%nat ∈ children (after (AttachChild 0%nat (Some 2%nat)) st_three) X ↔ X = 0%nat) ∧
   (∀ O, Parent st_three 2%nat = Ok (Some O) → O ≠ 0%nat →
         2%nat ∉ children (after (AttachChild 0%nat (Some 2%nat)) st_three) O)) ∧
  ((AttachChild 1%nat (Some 2%nat) (after (AttachChild 0%nat (Some 2%nat)) st_three)).1 = Ok tt ∧
   Parent (after (AttachChild 1%nat (Some 2%nat))
             (after (AttachChild 0%nat (Some 2%nat)) st_three)) 2%nat
   = Ok (Some 1%nat) ∧
   (∀ X, 2%nat ∈ children (after (AttachChild 1%nat (Some 2%nat))
                           (after (AttachChild 0%nat (Some 2%nat)) st_three)) X
         ↔ X = 1%nat)).
Proof.
  apply (AttachChild_reparents st_three 0%nat 1%nat 2%nat).
  - apply st_three_reachable.
  - reflexivity.
  - reflexivity.
  - by eexists.
Defined.

(** The child of [st_three], attached to 0 and then to 1, is listed by 1
    and no longer by 0. *)
Example AttachChild_twice_lists :
  children (after (AttachChild 1%nat (Some 2%nat))
              (after (AttachChild 0%nat (Some 2%nat)) st_three)) 1%nat = [2%nat] ∧
  children (after (AttachChild 1%nat (Some 2%nat))
              (after (AttachChild 0%nat (Some 2%nat)) st_three)) 0%nat = [].
Proof. split; reflexivity. Qed.

(** ** C4: event dispatch and the forward-to-parent signal *)

Local Open Scope Z_scope.

Section event_facts.
Context {hdr : WndHeader}.

(** [Wnd::EventFilter] filters nothing: the walk over the filters only
    prunes the list. *)
Lemma filters_run ptrs this event (s : bool) st :
  ProcessThenRemoveExpiredPtrs ptrs
    (λ wnd (filtered : bool),
       if filtered then mret filtered else EventFilter wnd this event) s st
  = (Ok (s, filter (λ p, is_Some (heap st !! p)) ptrs), st).
Proof.
  revert s. induction ptrs as [|p ptrs IH]; intros s; [done|].
  cbn [ProcessThenRemoveExpiredPtrs]. unfold_M. cbn [LockAndResetIfExpired].
  rewrite filter_cons. destruct (heap st !! p) as [wp|] eqn:Hp.
  - rewrite decide_True by done.
    destruct s; [|unfold EventFilter, mret, M_ret]; by rewrite IH.
  - rewrite decide_False by (by intros [? [=]]). apply IH.
Qed.

Lemma HandleEvent_unfold fuel st this event w :
  heap st !! this = Some w →
  HandleEvent (S fuel) this event st
  = try_catch (dispatch (S fuel) this event) ForwardToParentException
      (p ← read (λ st, Parent st this);
       match p with
       | Some p => HandleEvent fuel p event
       | None => mret tt
       end) (pruned st this w).
Proof.
  intros Hw. cbn [HandleEvent].
  rewrite (bind_read _ _ _ _ (deref_Some _ _ _ Hw)).
  rewrite (bind_run _ _ _ _ _ (filters_run _ _ _ _ _)).
  cbn [fst snd]. by rewrite (bind_run _ _ _ _ _ (modify_Some _ _ _ _ Hw)).
Qed.

(** The signal does not leave [HandleEvent], whatever the state. *)
Lemma HandleEvent_catches fuel this event st :
  (HandleEvent fuel this event st).1 ≠ Throw ForwardToParentException.
Proof.
  revert this st. induction fuel as [|fuel IH]; intros this st; [done|].
  destruct (heap st !! this) as [w|] eqn:Hw.
  - rewrite (HandleEvent_unfold _ _ _ _ _ Hw). unfold try_catch.
    destruct (dispatch _ _ _ _) as [[[]|e] st1]; [done|].
    case_decide as He; [|simpl; congruence].
    unfold_M. destruct (Parent st1 this) as [[p|]|e'] eqn:Hp; [apply IH|done|].
    unfold Parent, deref in Hp. destruct (heap st1 !! this); simpl in *; congruence.
  - cbn [HandleEvent]. unfold_M. unfold deref. by rewrite Hw.
Qed.

Lemma Interactive_run st this w :
  heap st !! this = Some w → FlagSpec_wf (wnd_flags st) →
  INTERACTIVE ∈ FlagSpec.range (wnd_flags st) →
  Interactive st this
  = Ok (bool_decide (Z.land (Flags.m_flags (Wnd.m_flags w)) (FlagType.m_value INTERACTIVE) ≠ 0)).
Proof.
  intros Hw Hwf Hin. unfold Interactive. rewrite (deref_Some _ _ _ Hw).
  apply (has_flag_registered _ _ _ Hwf Hin).
Qed.

Lemma Dragable_run st this w :
  heap st !! this = Some w → FlagSpec_wf (wnd_flags st) →
  DRAGABLE ∈ FlagSpec.range (wnd_flags st) →
  Dragable st this
  = Ok (bool_decide (Z.land (Flags.m_flags (Wnd.m_flags w)) (FlagType.m_value DRAGABLE) ≠ 0)).
Proof.
  intros Hw Hwf Hin. unfold Dragable. rewrite (deref_Some _ _ _ Hw).
  apply (has_flag_registered _ _ _ Hwf Hin).
Qed.

Lemma bubble_run st this (i : bool) :
  Interactive st this = Ok i →
  bubble_unless_interactive this st
  = if i then (Ok tt, st) else (Throw ForwardToParentException, st).
Proof.
  intros Hi. unfold bubble_unless_interactive. rewrite (bind_read _ _ _ _ Hi).
  by destruct i.
Qed.

(** A move keeps the size, so [SizeMove] takes its short path: no clamping
    and no word to any layout. *)
Lemma OffsetMove_run fuel st this w move :
  heap st !! this = Some w →
  OffsetMove fuel this move st = (Ok tt, moved st this w move).
Proof.
  intros Hw. unfold OffsetMove. rewrite (bind_read _ _ _ _ (deref_Some _ _ _ Hw)).
  unfold SizeMove. rewrite (bind_read _ _ _ _ (deref_Some _ _ _ Hw)).
  assert (Wnd.Size w = Pt.sub (Pt.add (Wnd.m_lowerright w) move)
                              (Pt.add (Wnd.m_upperleft w) move)) as Hsz.
  { unfold Wnd.Size, Pt.sub, Pt.add. simpl. f_equal; lia. }
  rewrite bool_decide_eq_false_2 by (by intros []).
  unfold_M. by rewrite (modify_Some _ _ _ _ Hw).
Qed.

(** What one handler does: it returns, or it raises the signal before it
    has written anything, and only on a window that is not interactive. *)
Lemma dispatch_outcome fuel st this w event (i d : bool) :
  heap st !! this = Some w →
  Interactive st this = Ok i → Dragable st this = Ok d →
  (∃ st', dispatch fuel this event st = (Ok tt, st')) ∨
  (i = false ∧ dispatch fuel this event st = (Throw ForwardToParentException, st)).
Proof.
  intros Hw Hi Hd.
  assert (bubble_unless_interactive this st = (Ok tt, st) ∨
          (i = false ∧
           bubble_unless_interactive this st = (Throw ForwardToParentException, st)))
    as Hb by (rewrite (bubble_run _ _ _ Hi); destruct i; eauto).
  unfold dispatch.
  destruct (WndEvent.Type_ event);
    try (left; by eexists);
    try (destruct Hb as [Hb|[-> Hb]]; [left; by eexists|by right]).
  - unfold LDrag. rewrite (bind_read _ _ _ _ Hd). destruct d.
    + left. rewrite (OffsetMove_run _ _ _ _ _ Hw). by eexists.
    + destruct Hb as [Hb|[-> Hb]]; [left; by eexists|by right].
  - unfold DragDropHere. unfold mbind, M_bind.
    destruct Hb as [Hb|[-> Hb]]; rewrite Hb; [left; by eexists|by right].
  - unfold CheckDrops. unfold mbind, M_bind.
    destruct Hb as [Hb|[-> Hb]]; rewrite Hb; [left; by eexists|by right].
  - unfold AcceptDrops. rewrite (bind_read _ _ _ _ Hi). destruct i; [left; by eexists|].
    unfold_M. unfold Parent. rewrite (deref_Some _ _ _ Hw). simpl.
    destruct (LockAndResetIfExpired st (Wnd.m_parent w)); [by right|left; by eexists].
Qed.

Lemma try_catch_caught {A} (body handler : M A) e st r :
  body st = (Throw e, st) → handler st = r → try_catch body e handler st = r.
Proof. intros Hb Hh. unfold try_catch. by rewrite Hb, decide_True. Qed.

Lemma pruned_lookup st this w :
  heap (pruned st this w) !! this
  = Some (Wnd.set_filters (filter (λ p, is_Some (heap st !! p)) (Wnd.m_filters w)) w).
Proof. apply lookup_insert_eq. Qed.

Lemma pruned_lock st this w ptr :
  heap st !! this = Some w →
  LockAndResetIfExpired (pruned st this w) ptr = LockAndResetIfExpired st ptr.
Proof.
  intros Hw. destruct ptr as [p|]; [|done]. simpl. rewrite lookup_insert.
  case_decide; [subst p; by rewrite Hw|done].
Qed.

Lemma pruned_id st this w :
  heap st !! this = Some w → Wnd.m_filters w = [] → pruned st this w = st.
Proof.
  intros Hw Hf. unfold pruned. rewrite Hf, filter_nil.
  replace (Wnd.set_filters [] w) with w by (destruct w; simpl in *; by subst).
  rewrite (insert_id _ _ _ Hw). apply set_heap_same.
Qed.

(** C4. The forward-to-parent signal never leaves [HandleEvent]. On a
    window that exists, with [INTERACTIVE] and [DRAGABLE] registered, one
    call either returns normally or is the parent's [HandleEvent] on the
    same event (the window then has a parent and is not interactive). On a
    window that is not interactive and has no parent and no filters, every
    event returns normally; the state is left as it was, except for a
    left-button drag on a dragable window, which moves the window by the
    drag. *)
Theorem HandleEvent_catches_forwarding fuel st this event w :
  heap st !! this = Some w →
  registered (wnd_flags st) →
  INTERACTIVE ∈ FlagSpec.range (wnd_flags st) →
  DRAGABLE ∈ FlagSpec.range (wnd_flags st) →
  (∀ n, (HandleEvent n this event st).1 ≠ Throw ForwardToParentException) ∧
  ((∃ st', HandleEvent (S fuel) this event st = (Ok tt, st')) ∨
   (∃ p, Parent st this = Ok (Some p) ∧ Interactive st this = Ok false ∧
         HandleEvent (S fuel) this event st
         = HandleEvent fuel p event (pruned st this w))) ∧
  (Wnd.m_filters w = [] → Parent st this = Ok None → Interactive st this = Ok false →
   HandleEvent (S fuel) this event st
   = (Ok tt,
      match WndEvent.Type_ event with
      | WndEvent.LDrag =>
          if bool_decide (Z.land (Flags.m_flags (Wnd.m_flags w))
                                 (FlagType.m_value DRAGABLE) ≠ 0)
          then moved st this w (WndEvent.DragMove event) else st
      | _ => st
      end)).
Proof.
  intros Hw Hreg Hin Hdr. pose proof (registered_wf _ Hreg) as Hwf.
  split; [intros n; apply HandleEvent_catches|].
  rewrite (HandleEvent_unfold _ _ _ _ _ Hw). split.
  - pose proof (pruned_lookup st this w) as Hw1.
    set (st1 := pruned st this w) in *.
    assert (Interactive st1 this = Interactive st this) as Hi1.
    { by rewrite (Interactive_run _ _ _ Hw1 Hwf Hin), (Interactive_run _ _ _ Hw Hwf Hin). }
    assert (Parent st1 this = Parent st this) as Hp1.
    { unfold Parent. rewrite (deref_Some _ _ _ Hw1), (deref_Some _ _ _ Hw). simpl.
      by rewrite (pruned_lock _ _ _ _ Hw). }
    destruct (dispatch_outcome (S fuel) st1 this _ event _ _ Hw1
                (Interactive_run _ _ _ Hw1 Hwf Hin) (Dragable_run _ _ _ Hw1 Hwf Hdr))
      as [[st' Hrun]|[Hi Hrun]]; unfold try_catch; rewrite Hrun.
    + left. by eexists.
    + rewrite decide_True by done. unfold_M. rewrite Hp1.
      unfold Parent. rewrite (deref_Some _ _ _ Hw). simpl.
      destruct (LockAndResetIfExpired st (Wnd.m_parent w)) as [p|] eqn:Hp.
      * right. exists p. split; [done|]. split; [|done].
        rewrite <- Hi1, (Interactive_run _ _ _ Hw1 Hwf Hin). by rewrite Hi.
      * left. by eexists.
  - intros Hf Hp Hi. rewrite (pruned_id _ _ _ Hw Hf).
    pose proof (bubble_run _ _ _ Hi) as Hb. cbn iota in Hb.
    unfold dispatch.
    destruct (WndEvent.Type_ event);
      try done;
      try (apply try_catch_caught; [exact Hb|by rewrite (bind_read _ _ _ _ Hp)]).
    + unfold LDrag. case_bool_decide as Hbit.
      * unfold try_catch. rewrite (bind_read _ _ _ _ (Dragable_run _ _ _ Hw Hwf Hdr)).
        rewrite bool_decide_eq_true_2 by done.
        by rewrite (OffsetMove_run _ _ _ _ _ Hw).
      * apply try_catch_caught; [|by rewrite (bind_read _ _ _ _ Hp)].
        rewrite (bind_read _ _ _ _ (Dragable_run _ _ _ Hw Hwf Hdr)).
        rewrite bool_decide_eq_false_2; [done|]. by intros [].
    + apply try_catch_caught; [|by rewrite (bind_read _ _ _ _ Hp)].
      unfold DragDropHere, mbind, M_bind. by rewrite Hb.
    + apply try_catch_caught; [|by rewrite (bind_read _ _ _ _ Hp)].
      unfold CheckDrops, mbind, M_bind. by rewrite Hb.
    + unfold try_catch, AcceptDrops. rewrite (bind_read _ _ _ _ Hi).
      by rewrite (bind_read _ _ _ _ Hp).
Qed.

End event_facts.

Lemma HandleEvent_catches_forwarding_witness :
  (∀ n, (HandleEvent n 0%nat ev_LDrag st_dragable).1 ≠ Throw ForwardToParentException) ∧
  ((∃ st', HandleEvent 1 0%nat ev_LDrag st_dragable = (Ok tt, st')) ∨
   (∃ p, Parent st_dragable 0%nat = Ok (Some p) ∧ Interactive st_dragable 0%nat = Ok false ∧
         HandleEvent 1 0%nat ev_LDrag st_dragable
         = HandleEvent 0 p ev_LDrag (pruned st_dragable 0%nat w_dragable))) ∧
  (Wnd.m_filters w_dragable = [] → Parent st_dragable 0%nat = Ok None →
   Interactive st_dragable 0%nat = Ok false →
   HandleEvent 1 0%nat ev_LDrag st_dragable
   = (Ok tt, moved st_dragable 0%nat w_dragable (Pt.Build 5 5))).
Proof.
  assert (INTERACTIVE ∈ FlagSpec.range (wnd_flags st_dragable)) as Hi by compute_done.
  assert (DRAGABLE ∈ FlagSpec.range (wnd_flags st_dragable)) as Hd by compute_done.
  exact (HandleEvent_catches_forwarding 0 st_dragable 0%nat ev_LDrag w_dragable
           eq_refl WndFlagSpec_registered Hi Hd).
Defined.

(** C4, counterexample to the claim as stated. The window of [st_dragable]
    is not interactive and has no parent and no filters, and it is dragable.
    A left-button drag by (5, 5) returns normally and moves the window from
    (0, 0) to (5, 5): the state has changed. *)
Lemma HandleEvent_LDrag_moves_dragable_window :
  Interactive st_dragable 0%nat = Ok false ∧
  Parent st_dragable 0%nat = Ok None ∧
  Wnd.m_filters <$> heap st_dragable !! 0%nat = Some [] ∧
  (HandleEvent 1 0%nat ev_LDrag st_dragable).1 = Ok tt ∧
  Wnd.m_upperleft <$> heap st_dragable !! 0%nat = Some (Pt.Build 0 0) ∧
  Wnd.m_upperleft <$> heap (HandleEvent 1 0%nat ev_LDrag st_dragable).2 !! 0%nat
  = Some (Pt.Build 5 5) ∧
  (HandleEvent 1 0%nat ev_LDrag st_dragable).2 ≠ st_dragable.
Proof.
  split_and!; try reflexivity.
  intros Heq. apply (f_equal (λ s, Wnd.m_upperleft <$> heap s !! 0%nat)) in Heq.
  vm_compute in Heq. discriminate.
Qed.

(** A window that is neither interactive nor dragable leaves the drag to
    nobody: the state is as before. *)
Example HandleEvent_bubble_to_nowhere :
  HandleEvent 1 0%nat ev_LDrag
    (after (Create 0 0 10 10 (Flags.Build 0)) initial_state)
  = (Ok tt, after (Create 0 0 10 10 (Flags.Build 0)) initial_state).
Proof. reflexivity. Qed.

(** * Grid layout: proofs *)

Local Open Scope Z_scope.

Import GridLayoutWndContainer.

(** ** The comparators as an order on ranks *)

Lemma comp_true i a b : comp i a b = true ↔ rank i a < rank i b.
Proof.
  destruct i; unfold comp, IsLeft, IsTop, IsRight, IsBottom, rank;
    rewrite bool_decide_eq_true; lia.
Qed.

Lemma comp_false i a b : comp i a b = false ↔ rank i b ≤ rank i a.
Proof.
  destruct i; unfold comp, IsLeft, IsTop, IsRight, IsBottom, rank;
    rewrite bool_decide_eq_false; lia.
Qed.

Lemma rank_inj i a b : rank i a = rank i b → a = b.
Proof. destruct i; unfold rank; lia. Qed.

Lemma rank_stride i x : rank i (x + stride i) = rank i x - 1.
Proof. destruct i; unfold rank, stride; lia. Qed.

Lemma rank_unstride i x : rank i (x - stride i) = rank i x + 1.
Proof. destruct i; unfold rank, stride; lia. Qed.

Lemma rank_opposite i x : rank (opposite i) x = - rank i x.
Proof. destruct i; unfold rank, opposite; lia. Qed.

(** ** Lists in index order *)

Section index_lists.
Variable i : Index.
Implicit Types (nodes : gmap nat GridLayoutWnd.t) (l : list nat) (it : nat).

Lemma sorted_ext nodes nodes' l :
  (∀ y, y ∈ l → edge_of i nodes' y = edge_of i nodes y) →
  sorted i nodes l → sorted i nodes' l.
Proof.
  unfold sorted. intros Hext Hs. induction Hs as [|a l Hs IH Ha]; [constructor|].
  constructor.
  - apply IH. intros y Hy. apply Hext. by right.
  - rewrite Forall_forall in *. intros b Hb.
    rewrite (Hext a), (Hext b) by (by (left || right)). by apply Ha.
Qed.

Lemma link_ext nodes nodes' k it l :
  (∀ y, y ∈ l → edge_of i nodes' y = edge_of i nodes y) →
  link i nodes' k it l = link i nodes k it l.
Proof.
  induction l as [|y l IH]; intros Hext; [done|]. simpl.
  rewrite (Hext y) by left. rewrite IH; [done|]. intros z Hz. apply Hext. by right.
Qed.

(** Where [link] puts the node. *)
Lemma link_split nodes k it l :
  ∃ l1 l2, l = l1 ++ l2 ∧ link i nodes k it l = l1 ++ it :: l2 ∧
           Forall (λ y, rank i (edge_of i nodes y) ≤ rank i k) l1 ∧
           (∀ y, head l2 = Some y → rank i k < rank i (edge_of i nodes y)).
Proof.
  induction l as [|y l IH]; simpl.
  - exists [], []. by repeat split.
  - destruct (comp i k (edge_of i nodes y)) eqn:Hc.
    + exists [], (y :: l). repeat split; [done|]. intros ? [= <-]. by apply comp_true.
    + destruct IH as (l1 & l2 & -> & -> & Hl1 & Hl2).
      exists (y :: l1), l2. repeat split; [|done]. constructor; [|done].
      by apply comp_false.
Qed.

Lemma link_elem nodes k it l y : y ∈ link i nodes k it l ↔ y = it ∨ y ∈ l.
Proof.
  destruct (link_split nodes k it l) as (l1 & l2 & -> & -> & _).
  rewrite !elem_of_app, elem_of_cons. tauto.
Qed.

Lemma link_NoDup nodes k it l : it ∉ l → NoDup l → NoDup (link i nodes k it l).
Proof.
  destruct (link_split nodes k it l) as (l1 & l2 & -> & -> & _).
  rewrite !NoDup_app, NoDup_cons, !elem_of_app. intros Hit (H1 & H12 & H2).
  split; [done|]. split.
  - intros y Hy [->|Hy2]%elem_of_cons; [tauto|]. by apply (H12 y).
  - split; [tauto|done].
Qed.

Lemma link_length nodes k it l : length (link i nodes k it l) = S (length l).
Proof.
  destruct (link_split nodes k it l) as (l1 & l2 & -> & -> & _).
  rewrite !length_app. simpl. lia.
Qed.

(** Linking keeps the order, the new node's key being [k]. *)
Lemma link_sorted nodes k it l :
  edge_of i nodes it = k → sorted i nodes l → sorted i nodes (link i nodes k it l).
Proof.
  intros Hk Hs. unfold sorted in *. induction Hs as [|y l Hs IH Hy]; simpl.
  - repeat constructor.
  - destruct (comp i k (edge_of i nodes y)) eqn:Hc.
    + apply comp_true in Hc. constructor; [by constructor|].
      constructor; [rewrite Hk; lia|].
      rewrite Forall_forall in *. intros z Hz. specialize (Hy z Hz). rewrite Hk. lia.
    + apply comp_false in Hc. constructor; [done|].
      rewrite Forall_forall in *. intros z [->|Hz]%link_elem; [by rewrite Hk|by apply Hy].
Qed.

Lemma link_app nodes k it l1 l2 :
  Forall (λ y, rank i k < rank i (edge_of i nodes y)) l2 →
  link i nodes k it (l1 ++ l2) = link i nodes k it l1 ++ l2.
Proof.
  intros Hl2. induction l1 as [|y l1 IH]; simpl.
  - destruct l2 as [|z l2]; [done|]. simpl.
    apply Forall_cons in Hl2 as [Hz _]. apply comp_true in Hz. by rewrite Hz.
  - destruct (comp i k (edge_of i nodes y)); [done|]. by rewrite IH.
Qed.

Lemma erase_first_app it l1 l2 :
  it ∉ l1 → erase_first it (l1 ++ it :: l2) = l1 ++ l2.
Proof.
  induction l1 as [|y l1 IH]; simpl; intros Hit.
  - by rewrite decide_True.
  - rewrite not_elem_of_cons in Hit. destruct Hit as [Hne Hit].
    rewrite decide_False by done. by rewrite IH.
Qed.

Lemma succ_in_app it l1 l2 :
  it ∉ l1 → succ_in (l1 ++ it :: l2) it = head l2.
Proof.
  induction l1 as [|y l1 IH]; simpl; intros Hit.
  - by rewrite decide_True.
  - rewrite not_elem_of_cons in Hit. destruct Hit as [Hne Hit].
    rewrite decide_False by done. by apply IH.
Qed.

Lemma pred_in_app it l1 l2 prev :
  it ∉ l1 → pred_in (l1 ++ it :: l2) it prev = from_option Some prev (last l1).
Proof.
  revert prev. induction l1 as [|y l1 IH]; simpl; intros prev Hit.
  - by rewrite decide_True.
  - rewrite not_elem_of_cons in Hit. destruct Hit as [Hne Hit].
    rewrite decide_False by done. rewrite IH by done.
    destruct l1 as [|z l1]; [done|]. rewrite last_cons_cons.
    destruct (last (z :: l1)) eqn:Hlast; [done|]. by apply last_None in Hlast.
Qed.

Lemma edge_of_insert nodes it v : edge_of i (<[it := v]> nodes) it = edge i v.
Proof. unfold edge_of. by rewrite lookup_total_insert_eq. Qed.

Lemma edge_of_insert_ne nodes it v y :
  y ≠ it → edge_of i (<[it := v]> nodes) y = edge_of i nodes y.
Proof. intros Hne. unfold edge_of. by rewrite lookup_total_insert_ne. Qed.

Lemma sorted_app nodes l1 l2 :
  sorted i nodes (l1 ++ l2) ↔
  sorted i nodes l1 ∧ sorted i nodes l2 ∧
  ∀ a b, a ∈ l1 → b ∈ l2 → rank i (edge_of i nodes a) ≤ rank i (edge_of i nodes b).
Proof. unfold sorted. rewrite StronglySorted_app. tauto. Qed.

Lemma sorted_cons nodes y l :
  sorted i nodes (y :: l) ↔
  (∀ b, b ∈ l → rank i (edge_of i nodes y) ≤ rank i (edge_of i nodes b)) ∧ sorted i nodes l.
Proof. unfold sorted. rewrite StronglySorted_cons, Forall_forall. tauto. Qed.

(** [replace] in one index keeps the index a list of the same nodes in
    order, whatever the new key. *)
Lemma replace_in_wf nodes v l it :
  NoDup l → it ∈ l → sorted i nodes l →
  NoDup (replace_in i nodes (edge i v) l it) ∧
  (∀ y, y ∈ replace_in i nodes (edge i v) l it ↔ y ∈ l) ∧
  sorted i (<[it := v]> nodes) (replace_in i nodes (edge i v) l it).
Proof.
  intros Hnd Hit Hs. apply list_elem_of_split in Hit as (l1 & l2 & ->).
  pose proof Hnd as Hnd'. apply NoDup_app in Hnd' as (Hnd1 & Hnd12 & Hnd2).
  apply NoDup_cons in Hnd2 as [Hit2 Hnd2].
  assert (it ∉ l1) as Hit1 by (intros Hin; apply (Hnd12 _ Hin); left).
  apply sorted_app in Hs as (Hs1 & Hs2 & Hs12). apply sorted_cons in Hs2 as [Hs2 Hs2'].
  set (nodes' := <[it := v]> nodes).
  assert (∀ y, y ∈ l1 ++ l2 → edge_of i nodes' y = edge_of i nodes y) as Hext.
  { intros y Hy. apply edge_of_insert_ne. intros ->.
    apply elem_of_app in Hy as [?|?]; done. }
  unfold replace_in. destruct (in_place i nodes (edge i v) (l1 ++ it :: l2) it) eqn:Hip.
  - split; [done|]. split; [done|].
    unfold in_place in Hip. rewrite pred_in_app, succ_in_app in Hip by done.
    apply andb_true_iff in Hip as [Hpred Hsucc].
    apply sorted_app. split; [|split].
    + apply (sorted_ext nodes); [|done]. intros y Hy. apply Hext, elem_of_app. by left.
    + apply sorted_cons. split.
      * intros b Hb. unfold nodes'. rewrite edge_of_insert, Hext by (apply elem_of_app; by right).
        destruct l2 as [|z l2]; [by apply elem_of_nil in Hb|]. simpl in Hsucc.
        apply negb_true_iff, comp_false in Hsucc.
        apply elem_of_cons in Hb as [->|Hb]; [done|].
        apply sorted_cons in Hs2' as [Hz _]. specialize (Hz b Hb). lia.
      * apply (sorted_ext nodes); [|done]. intros y Hy. apply Hext, elem_of_app. by right.
    + intros a b Ha Hb. rewrite (Hext a) by (apply elem_of_app; by left).
      assert (rank i (edge_of i nodes a) ≤ rank i (edge i v)) as Hav.
      { destruct (last l1) as [p|] eqn:Hlast; simpl in Hpred.
        - apply negb_true_iff, comp_false in Hpred.
          apply last_Some in Hlast as [l1' ->].
          apply elem_of_app in Ha as [Ha|Ha%list_elem_of_singleton]; [|by subst a].
          apply sorted_app in Hs1 as (_ & _ & Hs1). specialize (Hs1 a p Ha). 
          etrans; [apply Hs1; by left|done].
        - apply last_None in Hlast. subst l1. by apply elem_of_nil in Ha. }
      apply elem_of_cons in Hb as [->|Hb].
      * unfold nodes'. by rewrite edge_of_insert.
      * rewrite (Hext b) by (apply elem_of_app; by right).
        destruct l2 as [|z l2]; [by apply elem_of_nil in Hb|]. simpl in Hsucc.
        apply negb_true_iff, comp_false in Hsucc.
        apply elem_of_cons in Hb as [->|Hb]; [lia|].
        apply sorted_cons in Hs2' as [Hz _]. specialize (Hz b Hb). lia.
  - rewrite erase_first_app by done.
    assert (it ∉ l1 ++ l2) as Hit12 by (rewrite elem_of_app; tauto).
    assert (NoDup (l1 ++ l2)) as Hnd12'.
    { apply NoDup_app. split; [done|]. split; [|done].
      intros y Hy1 Hy2. apply (Hnd12 y Hy1). by right. }
    split; [by apply link_NoDup|]. split.
    + intros y. rewrite link_elem, !elem_of_app, elem_of_cons. tauto.
    + rewrite <- (link_ext nodes nodes') by done. apply link_sorted.
      * apply edge_of_insert.
      * apply (sorted_ext nodes); [done|]. apply sorted_app. split; [done|].
        split; [done|]. intros a b Ha Hb. apply Hs12; [done|by right].
Qed.

(** [replace] with a key that comes before the keys of the nodes that
    follow: the node moves towards the front, or stays. *)
Lemma replace_in_own nodes k l1 it l2 :
  NoDup (l1 ++ it :: l2) →
  Forall (λ y, rank i k < rank i (edge_of i nodes y)) l2 →
  ∃ b1 b2, l1 = b1 ++ b2 ∧
           replace_in i nodes k (l1 ++ it :: l2) it = b1 ++ it :: b2 ++ l2.
Proof.
  intros Hnd Hl2. apply NoDup_app in Hnd as (_ & Hnd12 & _).
  assert (it ∉ l1) as Hit1 by (intros Hin; apply (Hnd12 _ Hin); left).
  unfold replace_in. destruct (in_place _ _ _ _ _).
  - exists l1, []. by rewrite app_nil_r.
  - rewrite erase_first_app, link_app by done.
    destruct (link_split nodes k it l1) as (b1 & b2 & -> & -> & _).
    exists b1, b2. by rewrite <- app_assoc.
Qed.

End index_lists.

(** ** The container *)

Lemma get_replace j it v c :
  get j (replace it v c) = replace_in j (nodes c) (edge j v) (get j c) it.
Proof. by destruct j. Qed.

Lemma get_insert j v c :
  nodes c !! GridLayoutWnd.wnd v = None →
  get j (insert v c)
  = link j (nodes c) (edge j v) (GridLayoutWnd.wnd v) (get j c).
Proof.
  intros Hnone. unfold insert. rewrite decide_False by (rewrite Hnone; by intros [? [=]]).
  by destruct j.
Qed.

Lemma link_unique_elem it l y : y ∈ link_unique it l ↔ y = it ∨ y ∈ l.
Proof.
  induction l as [|z l IH]; simpl.
  - rewrite list_elem_of_singleton, elem_of_nil. tauto.
  - case_decide; rewrite !elem_of_cons; [tauto|]. rewrite IH. tauto.
Qed.

Lemma empty_wf : container_wf empty.
Proof.
  split; [intros y g; simpl; by rewrite lookup_empty|]. split.
  - intros y. simpl. rewrite elem_of_nil, lookup_empty. split; [done|by intros [? [=]]].
  - intros j. replace (get j empty) with (@nil nat) by (by destruct j).
    split; [constructor|]. split; [constructor|].
    intros y. simpl. rewrite elem_of_nil, lookup_empty. split; [done|by intros [? [=]]].
Qed.

Lemma insert_wf v c : container_wf c → container_wf (insert v c).
Proof.
  intros (Hwnd & Hptr & Hidx).
  destruct (nodes c !! GridLayoutWnd.wnd v) as [g|] eqn:Hv.
  { unfold insert. rewrite decide_True by (by rewrite Hv). done. }
  assert (nodes (insert v c) = <[GridLayoutWnd.wnd v := v]> (nodes c)) as Hnodes.
  { unfold insert. by rewrite decide_False by (rewrite Hv; by intros [? [=]]). }
  assert (by_pointer (insert v c) = link_unique (GridLayoutWnd.wnd v) (by_pointer c)) as Hbp.
  { unfold insert. by rewrite decide_False by (rewrite Hv; by intros [? [=]]). }
  assert (∀ y, is_Some (<[GridLayoutWnd.wnd v := v]> (nodes c) !! y)
               ↔ y = GridLayoutWnd.wnd v ∨ is_Some (nodes c !! y)) as Hdom.
  { intros y. rewrite lookup_insert_is_Some. split; [intros [->|[_ ?]]; tauto|].
    intros [->|Hy]; [by left|]. destruct (decide (GridLayoutWnd.wnd v = y)); [by left|by right]. }
  split; [|split].
  - intros y g. rewrite Hnodes, lookup_insert. case_decide; [by intros [= <-]|apply Hwnd].
  - intros y. rewrite Hbp, Hnodes, link_unique_elem, Hdom, Hptr. done.
  - intros j. destruct (Hidx j) as (Hnd & Hs & Hel).
    assert (GridLayoutWnd.wnd v ∉ get j c) as Hnew.
    { rewrite Hel, Hv. by intros [? [=]]. }
    rewrite (get_insert _ _ _ Hv), Hnodes.
    assert (∀ y, y ∈ get j c →
                 edge_of j (<[GridLayoutWnd.wnd v := v]> (nodes c)) y = edge_of j (nodes c) y)
      as Hext.
    { intros y Hy. apply edge_of_insert_ne. by intros ->. }
    split; [by apply link_NoDup|]. split.
    + rewrite <- (link_ext j _ _ _ _ _ Hext). apply link_sorted; [apply edge_of_insert|].
      by apply (sorted_ext j (nodes c)).
    + intros y. rewrite link_elem, Hdom, Hel. done.
Qed.

Lemma replace_wf c it g v :
  container_wf c → nodes c !! it = Some g → GridLayoutWnd.wnd v = it →
  container_wf (replace it v c).
Proof.
  intros (Hwnd & Hptr & Hidx) Hit Hv.
  assert (∀ y, is_Some (<[it := v]> (nodes c) !! y) ↔ is_Some (nodes c !! y)) as Hdom.
  { intros y. rewrite lookup_insert_is_Some. split.
    - intros [<-|[_ ?]]; [by rewrite Hit|done].
    - intros Hy. destruct (decide (it = y)); [by left|by right]. }
  split; [|split].
  - intros y g'. simpl. rewrite lookup_insert. case_decide; [by intros [= <-]; subst|apply Hwnd].
  - intros y. simpl. rewrite Hdom. apply Hptr.
  - intros j. destruct (Hidx j) as (Hnd & Hs & Hel).
    assert (it ∈ get j c) as Hin by (by rewrite Hel, Hit).
    destruct (replace_in_wf j (nodes c) v (get j c) it Hnd Hin Hs) as (Hnd' & Hel' & Hs').
    rewrite get_replace. split; [done|]. split; [done|].
    intros y. simpl. by rewrite Hel', Hdom.
Qed.

Lemma replace_length c it v j :
  container_wf c → is_Some (nodes c !! it) →
  length (get j (replace it v c)) = length (get j c).
Proof.
  intros (_ & _ & Hidx) Hit. destruct (Hidx j) as (Hnd & Hs & Hel).
  apply Hel in Hit. apply list_elem_of_split in Hit as (l1 & l2 & Hl).
  rewrite get_replace, Hl. unfold replace_in. destruct (in_place _ _ _ _ _); [done|].
  rewrite Hl in Hnd. apply NoDup_app in Hnd as (_ & Hnd12 & _).
  rewrite erase_first_app by (intros Hin; apply (Hnd12 _ Hin); left).
  rewrite link_length, !length_app. simpl. lia.
Qed.

(** ** Validation *)

(** Every node holds the rectangle of its window. *)
Definition from_rects (rect : nat → Rect.t) (c : GridLayoutWndContainer.t) : Prop :=
  ∀ y g, nodes c !! y = Some g →
         g = GridLayoutWnd.Build y (Rect.ul (rect y)) (Rect.lr (rect y)).

Lemma validate_spec client_sz rect m_children c c' :
  validate client_sz rect m_children c = Ok c' →
  container_wf c → from_rects rect c →
  container_wf c' ∧ from_rects rect c' ∧
  (∀ y, y ∈ m_children →
        outside client_sz (Rect.ul (rect y)) (Rect.lr (rect y)) = false →
        is_Some (nodes c' !! y)) ∧
  (∀ y, is_Some (nodes c !! y) → is_Some (nodes c' !! y)) ∧
  (∀ j, (length (get j c') ≤ length (get j c) + length m_children)%nat).
Proof.
  revert c. induction m_children as [|wnd later IH]; intros c; simpl.
  - intros [= <-] Hwf Hfr. split_and!; try done.
    + intros y Hy. by apply elem_of_nil in Hy.
    + intros j. lia.
  - destruct (outside client_sz _ _) eqn:Hout.
    + intros Hv Hwf Hfr. destruct (IH _ Hv Hwf Hfr) as (Hwf' & Hfr' & Hin & Hkeep & Hlen).
      split_and!; try done.
      * intros y [->|Hy]%elem_of_cons Hy'; [congruence|by apply Hin].
      * intros j. specialize (Hlen j). lia.
    + destruct (existsb _ later); [done|].
      set (v := GridLayoutWnd.Build wnd (Rect.ul (rect wnd)) (Rect.lr (rect wnd))).
      intros Hv Hwf Hfr.
      assert (from_rects rect (insert v c)) as Hfr1.
      { intros y g. unfold insert. case_decide; [apply Hfr|]. simpl.
        rewrite lookup_insert. case_decide; [by intros [= <-]; subst|apply Hfr]. }
      assert (∀ y, is_Some (nodes c !! y) ∨ y = wnd → is_Some (nodes (insert v c) !! y)) as Hin1.
      { intros y Hy. unfold insert. case_decide as Hc; simpl in *.
        - destruct Hy as [Hy| ->]; done.
        - rewrite lookup_insert_is_Some. destruct (decide (wnd = y)); [by left|].
          right. split; [done|]. destruct Hy as [Hy| ->]; done. }
      destruct (IH _ Hv (insert_wf v c Hwf) Hfr1) as (Hwf' & Hfr' & Hin & Hkeep & Hlen).
      split_and!; try done.
      * intros y [->|Hy]%elem_of_cons Hy'; [|by apply Hin].
        apply Hkeep, Hin1. by right.
      * intros y Hy. apply Hkeep, Hin1. by left.
      * intros j. specialize (Hlen j).
        assert (length (get j (insert v c)) ≤ S (length (get j c)))%nat; [|lia].
        destruct (nodes c !! wnd) as [g|] eqn:Hw.
        -- unfold insert. rewrite decide_True by (simpl; by rewrite Hw). lia.
        -- rewrite (get_insert j v c Hw), link_length. lia.
Qed.

(** ** The inner loop *)

Lemma count_present i c x : count i c x ≠ 0%nat ↔ present i c x.
Proof.
  unfold count, present. split.
  - destruct (filter _ _) as [|y l] eqn:Hf; [done|]. intros _.
    assert (y ∈ y :: l) as Hy by left. rewrite <- Hf in Hy.
    apply list_elem_of_filter in Hy as [[H1 H2] Hy]. exists y. split; [done|].
    apply comp_false in H1, H2. apply (rank_inj i). lia.
  - intros (y & Hy & Hx).
    assert (y ∈ filter (λ y, comp i x (edge_of i (nodes c) y) = false ∧
                              comp i (edge_of i (nodes c) y) x = false) (get i c)) as Hin.
    { apply list_elem_of_filter. split; [|done]. rewrite Hx, !comp_false. lia. }
    destruct (filter _ _); [by apply elem_of_nil in Hin|done].
Qed.

Lemma scan_Some i c n x x' :
  scan i c n x = Some x' → present i c x' ∧ rank i x' ≤ rank i x.
Proof.
  revert x. induction n as [|n IH]; intros x; simpl; [done|].
  case_decide; [done|]. case_decide as Hp.
  - intros [= <-]. by apply count_present in Hp.
  - intros Hs. destruct (IH _ Hs) as [Hpr Hle]. split; [done|].
    rewrite rank_stride in Hle. lia.
Qed.

(** The loop looks at the edges of the opposite index and at the edges of
    its own index from [x] on. *)
Lemma scan_ext i c c' n x :
  (∀ z, present (opposite i) c' z ↔ present (opposite i) c z) →
  (∀ z, rank i z ≤ rank i x → (present i c' z ↔ present i c z)) →
  scan i c' n x = scan i c n x.
Proof.
  intros Hopp. revert x. induction n as [|n IH]; intros x Hown; simpl; [done|].
  rewrite (decide_ext (count (opposite i) c' (x - stride i) ≠ 0%nat)
                      (count (opposite i) c (x - stride i) ≠ 0%nat))
    by (by rewrite !count_present).
  case_decide; [done|].
  rewrite (decide_ext (count i c' x ≠ 0%nat) (count i c x ≠ 0%nat))
    by (rewrite !count_present; by apply Hown).
  case_decide; [done|]. apply IH. intros z Hz. apply Hown. rewrite rank_stride in Hz. lia.
Qed.

(** A loop that found nothing finds nothing among fewer edges. *)
Lemma scan_None_mono i c c' n x :
  (∀ z, present (opposite i) c' z ↔ present (opposite i) c z) →
  (∀ z, present i c' z → present i c z) →
  scan i c n x = None → scan i c' n x = None.
Proof.
  intros Hopp Hown. revert x. induction n as [|n IH]; intros x; simpl; [done|].
  rewrite (decide_ext (count (opposite i) c' (x - stride i) ≠ 0%nat)
                      (count (opposite i) c (x - stride i) ≠ 0%nat))
    by (by rewrite !count_present).
  case_decide; [done|]. case_decide as Hc; [done|]. intros Hs.
  rewrite decide_False; [by apply IH|].
  intros Hp. by apply count_present, Hown, count_present in Hp.
Qed.

Lemma target_fixed i client_sz c k :
  target i client_sz c k = k ↔
  scan i c (trip_count i client_sz k) (k + stride i) = None.
Proof.
  unfold target. destruct (scan _ _ _ _) as [x|] eqn:Hs; [|done].
  apply scan_Some in Hs as [_ Hle]. rewrite rank_stride in Hle.
  split; [|done]. intros ->. lia.
Qed.

(** ** The outer loop *)

Section align_facts.
Variable i : Index.
Variable client_sz : Pt.t.
(** The container when the loop starts. *)
Variable c0 : GridLayoutWndContainer.t.

(** The loop invariant. [P] is the set of the nodes the body has run on,
    [l1] the part of the index before the iterator and [l2] the part from the
    iterator on. A node of [P] is where the body leaves it ([inv_stable]);
    the other nodes are as at the start and come after the iterator; nodes
    that started on the same edge are on the same edge once in [P], and the
    body will bring there those still to come ([inv_next]). *)
Record Inv (c : GridLayoutWndContainer.t) (P : gset nat) (l1 l2 : list nat) : Prop := {
  inv_wf : container_wf c;
  inv_list : get i c = l1 ++ l2;
  inv_len : length (get i c) = length (get i c0);
  inv_done : ∀ y, y ∈ l1 → y ∈ P;
  inv_stable : ∀ y, y ∈ P →
    target i client_sz c (edge_of i (nodes c) y) = edge_of i (nodes c) y;
  inv_fresh : ∀ y, y ∉ P → nodes c !! y = nodes c0 !! y;
  inv_order : ∀ y z, y ∈ P → z ∈ l2 → z ∉ P →
    rank i (edge_of i (nodes c0) y) ≤ rank i (edge_of i (nodes c0) z);
  inv_same : ∀ y z, y ∈ P → z ∈ P →
    edge_of i (nodes c0) y = edge_of i (nodes c0) z →
    edge_of i (nodes c) y = edge_of i (nodes c) z;
  inv_next : ∀ y z, y ∈ P → z ∈ l2 → z ∉ P →
    edge_of i (nodes c0) y = edge_of i (nodes c0) z →
    target i client_sz c (edge_of i (nodes c) z) = edge_of i (nodes c) y;
  inv_dom : ∀ y, is_Some (nodes c !! y) ↔ is_Some (nodes c0 !! y);
  inv_other : ∀ j y, j ≠ i → edge_of j (nodes c) y = edge_of j (nodes c0) y;
  inv_pointer : by_pointer c = by_pointer c0
}.

(** What is left to do: the nodes still to come that the body has not run
    on weigh a whole pass each. *)
Definition todo (P : gset nat) (l2 : list nat) : nat :=
  (length (filter (λ y, y ∉ P) l2) * S (length (get i c0)) + length l2)%nat.

Lemma edge_of_fresh c P l1 l2 y :
  Inv c P l1 l2 → y ∉ P → edge_of i (nodes c) y = edge_of i (nodes c0) y.
Proof.
  intros HI Hy. unfold edge_of. by rewrite !lookup_total_alt, (inv_fresh _ _ _ _ HI y Hy).
Qed.

Lemma elem_of_add (P : gset nat) node y : y ∈ {[node]} ∪ P ↔ y = node ∨ y ∈ P.
Proof. by rewrite elem_of_union, elem_of_singleton. Qed.

Lemma not_elem_of_add (P : gset nat) node y : y ∉ {[node]} ∪ P ↔ y ≠ node ∧ y ∉ P.
Proof. rewrite elem_of_add. tauto. Qed.

Lemma filter_fresh (P : gset nat) node (l : list nat) :
  node ∉ l → filter (λ y, y ∉ {[node]} ∪ P) l = filter (λ y, y ∉ P) l.
Proof.
  induction l as [|y l IH]; [done|]. intros [Hne Hn]%not_elem_of_cons.
  rewrite !filter_cons, IH by done.
  destruct (decide (y ∉ P)).
  - by rewrite decide_True by (rewrite not_elem_of_add; split; [congruence|done]).
  - by rewrite decide_False by (by intros [_ ?]%not_elem_of_add).
Qed.

Lemma filter_done (P : gset nat) (l : list nat) :
  (∀ y, y ∈ l → y ∈ P) → filter (λ y, y ∉ P) l = [].
Proof.
  induction l as [|y l IH]; [done|]. intros Hl.
  rewrite filter_cons, decide_False by (intros Hy; apply Hy, Hl; left).
  apply IH. intros z Hz. apply Hl. by right.
Qed.

Lemma Inv_start : container_wf c0 → Inv c0 ∅ [] (get i c0).
Proof.
  intros Hwf. split; try done. intros y Hy. by apply elem_of_nil in Hy.
Qed.

(** The body finds nothing to snap to: the iterator moves on. *)
Lemma Inv_stay c P l1 node l2 :
  Inv c P l1 (node :: l2) →
  target i client_sz c (edge_of i (nodes c) node) = edge_of i (nodes c) node →
  Inv c ({[node]} ∪ P) (l1 ++ [node]) l2 ∧
  succ_in (get i c) node = head l2 ∧
  (todo ({[node]} ∪ P) l2 < todo P (node :: l2))%nat.
Proof.
  intros HI Hfix. pose proof (inv_wf _ _ _ _ HI) as (_ & _ & Hidx).
  destruct (Hidx i) as (Hnd & Hs & _). rewrite (inv_list _ _ _ _ HI) in Hnd, Hs.
  pose proof Hnd as Hnd'. apply NoDup_app in Hnd' as (_ & Hnd12 & [Hn2 _]%NoDup_cons).
  assert (node ∉ l1) as Hn1 by (intros Hin; apply (Hnd12 _ Hin); left).
  apply sorted_app in Hs as (_ & [Hs2 _]%sorted_cons & _).
  assert (∀ z, z ∈ l2 → z ∉ P → node ∉ P →
               rank i (edge_of i (nodes c0) node) ≤ rank i (edge_of i (nodes c0) z)) as Hord.
  { intros z Hz HzP HnP.
    rewrite <- (edge_of_fresh _ _ _ _ _ HI HnP), <- (edge_of_fresh _ _ _ _ _ HI HzP).
    by apply Hs2. }
  split; [|split].
  - split.
    + apply HI.
    + rewrite (inv_list _ _ _ _ HI), <- app_assoc. done.
    + apply HI.
    + intros y [Hy|Hy%list_elem_of_singleton]%elem_of_app; apply elem_of_add;
        [right; by apply (inv_done _ _ _ _ HI)|by left].
    + intros y [->|Hy]%elem_of_add; [done|by apply HI].
    + intros y [_ Hy]%not_elem_of_add. by apply HI.
    + intros y z [->|Hy]%elem_of_add Hz [_ HzP]%not_elem_of_add.
      * destruct (decide (node ∈ P)) as [HnP|HnP].
        -- apply (inv_order _ _ _ _ HI); [done|by right|done].
        -- by apply Hord.
      * apply (inv_order _ _ _ _ HI); [done|by right|done].
    + assert (∀ z, z ∈ P → node ∉ P →
                   edge_of i (nodes c0) z = edge_of i (nodes c0) node →
                   edge_of i (nodes c) z = edge_of i (nodes c) node) as Hnew.
      { intros z Hz HnP Heq. rewrite <- Hfix.
        symmetry. apply (inv_next _ _ _ _ HI); [done|by left|done|done]. }
      intros y z [->|Hy]%elem_of_add [->|Hz]%elem_of_add Heq; [done| | |].
      * destruct (decide (node ∈ P)); [by apply HI|symmetry; by apply Hnew].
      * destruct (decide (node ∈ P)); [by apply HI|by apply Hnew].
      * by apply HI.
    + intros y z [->|Hy]%elem_of_add Hz [_ HzP]%not_elem_of_add Heq.
      * destruct (decide (node ∈ P)) as [HnP|HnP].
        -- apply (inv_next _ _ _ _ HI); [done|by right|done|done].
        -- rewrite (edge_of_fresh _ _ _ _ _ HI HzP), <- Heq,
                   <- (edge_of_fresh _ _ _ _ _ HI HnP). done.
      * apply (inv_next _ _ _ _ HI); [done|by right|done|done].
    + apply HI.
    + apply HI.
    + apply HI.
  - rewrite (inv_list _ _ _ _ HI). by apply succ_in_app.
  - unfold todo. rewrite (filter_fresh _ _ _ Hn2), filter_cons. simpl.
    case_decide; simpl; lia.
Qed.

Lemma edge_set_edge x g : edge i (set_edge i x g) = x.
Proof. by destruct i. Qed.

Lemma edge_set_edge_ne j x g : j ≠ i → edge j (set_edge i x g) = edge j g.
Proof. by destruct i, j. Qed.

Lemma wnd_set_edge x g : GridLayoutWnd.wnd (set_edge i x g) = GridLayoutWnd.wnd g.
Proof. by destruct i. Qed.

(** The body snaps the node to [x]: the node moves towards the front of the
    index, the iterator with it. *)
Lemma Inv_snap c P l1 node l2 g x :
  Inv c P l1 (node :: l2) →
  nodes c !! node = Some g →
  scan i c (trip_count i client_sz (edge i g)) (edge i g + stride i) = Some x →
  ∃ l1' l2',
    Inv (replace node (set_edge i x g) c) ({[node]} ∪ P) l1' l2' ∧
    succ_in (get i (replace node (set_edge i x g) c)) node = head l2' ∧
    (todo ({[node]} ∪ P) l2' < todo P (node :: l2))%nat.
Proof.
  intros HI Hg Hscan. pose proof (inv_wf _ _ _ _ HI) as Hwf.
  pose proof Hwf as (Hwnd & Hptr & Hidx).
  destruct (Hidx i) as (Hnd & Hs & Hel). rewrite (inv_list _ _ _ _ HI) in Hnd, Hs.
  pose proof Hnd as Hnd'. apply NoDup_app in Hnd' as (_ & Hnd12 & [Hn2 _]%NoDup_cons).
  assert (node ∉ l1) as Hn1 by (intros Hin; apply (Hnd12 _ Hin); left).
  apply sorted_app in Hs as (_ & [Hs2 _]%sorted_cons & _).
  remember (edge i g) as k eqn:Hkdef.
  assert (edge_of i (nodes c) node = k) as Hk.
  { unfold edge_of. by rewrite (lookup_total_correct _ _ _ Hg). }
  rewrite Hk in Hs2.
  pose proof (scan_Some _ _ _ _ _ Hscan) as [(t & Ht & Htx) Hle]. rewrite rank_stride in Hle.
  assert (target i client_sz c k = x) as Htarget by (unfold target; by rewrite Hscan).
  assert (node ∉ P) as HnP.
  { intros HnP. pose proof (inv_stable _ _ _ _ HI node HnP) as Hst.
    rewrite Hk, Htarget in Hst. rewrite Hst in Hle. lia. }
  assert (t ∈ P) as HtP.
  { apply (inv_done _ _ _ _ HI). rewrite (inv_list _ _ _ _ HI) in Ht.
    apply elem_of_app in Ht as [Ht|[->|Ht]%elem_of_cons]; [done| |].
    - rewrite Hk in Htx. rewrite Htx in Hle. lia.
    - specialize (Hs2 t Ht). rewrite Htx in Hs2. lia. }
  set (v := set_edge i x g). set (c' := replace node v c).
  assert (GridLayoutWnd.wnd v = node) as Hvw.
  { unfold v. rewrite wnd_set_edge. by apply Hwnd. }
  assert (edge_of i (nodes c') node = x) as Hkey_node.
  { unfold c'. simpl. rewrite edge_of_insert. apply edge_set_edge. }
  assert (∀ j y, y ≠ node → edge_of j (nodes c') y = edge_of j (nodes c) y) as Hkey_ne.
  { intros j y Hy. unfold c'. simpl. by apply edge_of_insert_ne. }
  assert (∀ j y, j ≠ i → edge_of j (nodes c') y = edge_of j (nodes c) y) as Hkey_other.
  { intros j y Hj. destruct (decide (y = node)) as [->|Hy]; [|by apply Hkey_ne].
    unfold c'. simpl. rewrite edge_of_insert. unfold v. rewrite edge_set_edge_ne by done.
    unfold edge_of. by rewrite (lookup_total_correct _ _ _ Hg). }
  assert (container_wf c') as Hwf' by (by apply (replace_wf c node g v)).
  assert (∀ y, is_Some (nodes c' !! y) ↔ is_Some (nodes c !! y)) as Hdom.
  { intros y. unfold c'. simpl. rewrite lookup_insert_is_Some. split.
    - intros [<-|[_ ?]]; [by rewrite Hg|done].
    - intros Hy. destruct (decide (node = y)); [by left|by right]. }
  assert (∀ j y, y ∈ get j c' ↔ y ∈ get j c) as Hel'.
  { intros j y. destruct Hwf' as (_ & _ & Hidx'). destruct (Hidx' j) as (_ & _ & ->).
    destruct (Hidx j) as (_ & _ & ->). apply Hdom. }
  destruct (replace_in_own i (nodes c) x l1 node l2 Hnd) as (b1 & b2 & Hl1 & Hrep).
  { apply Forall_forall. intros y Hy. specialize (Hs2 y Hy). lia. }
  assert (get i c' = b1 ++ node :: b2 ++ l2) as Hlist.
  { unfold c'. rewrite get_replace, (inv_list _ _ _ _ HI). unfold v.
    by rewrite edge_set_edge. }
  assert (∀ z, present (opposite i) c' z ↔ present (opposite i) c z) as Hopp.
  { assert (opposite i ≠ i) as Hoi by (by destruct i).
    intros z. unfold present. split; intros (y & Hy & Hz); exists y.
    - by rewrite <- Hel', <- Hkey_other.
    - by rewrite Hel', Hkey_other. }
  assert (∀ z, present i c' z → present i c z) as Hown.
  { intros z (y & Hy & Hz). destruct (decide (y = node)) as [->|Hne].
    - rewrite Hkey_node in Hz. rewrite <- Hz. by exists t.
    - exists y. by rewrite <- Hel', <- Hkey_ne. }
  assert (∀ z, z ≠ k → present i c z → present i c' z) as Hown'.
  { intros z Hz (y & Hy & Hyz). exists y. rewrite Hel'. split; [done|].
    rewrite Hkey_ne; [done|]. intros ->. by rewrite Hk in Hyz. }
  assert (∀ y, y ∈ P →
               target i client_sz c' (edge_of i (nodes c) y) = edge_of i (nodes c) y) as Hstab.
  { intros y Hy. apply target_fixed. apply (scan_None_mono i c); [done|done|].
    apply target_fixed. by apply HI. }
  assert (target i client_sz c' k = x) as Htarget'.
  { unfold target. rewrite (scan_ext i c c'), Hscan; [done|done|].
    intros z Hz. rewrite rank_stride in Hz. split; [apply Hown|apply Hown'].
    intros ->. lia. }
  assert (∀ y, y ∈ P → y ≠ node) as HPn by (by intros y Hy ->).
  assert (∀ z, z ∈ b2 ++ l2 → z ∉ P → z ∈ l2) as Hrest.
  { intros z [Hz|Hz]%elem_of_app HzP; [|done]. destruct HzP.
    apply (inv_done _ _ _ _ HI). rewrite Hl1. apply elem_of_app. by right. }
  exists (b1 ++ [node]), (b2 ++ l2). split; [|split].
  - split.
    + done.
    + by rewrite Hlist, <- app_assoc.
    + rewrite <- (inv_len _ _ _ _ HI). apply replace_length; [done|by rewrite Hg].
    + intros y [Hy|Hy%list_elem_of_singleton]%elem_of_app; apply elem_of_add; [right|by left].
      apply (inv_done _ _ _ _ HI). rewrite Hl1. apply elem_of_app. by left.
    + intros y [->|Hy]%elem_of_add.
      * rewrite Hkey_node, <- Htx. by apply Hstab.
      * rewrite Hkey_ne by (by apply HPn). by apply Hstab.
    + intros y [Hne Hy]%not_elem_of_add. unfold c'. simpl.
      rewrite lookup_insert_ne by done. by apply HI.
    + intros y z [->|Hy]%elem_of_add Hz [Hne HzP]%not_elem_of_add.
      * rewrite <- (edge_of_fresh _ _ _ _ _ HI HnP), <- (edge_of_fresh _ _ _ _ _ HI HzP), Hk.
        apply Hs2. by apply Hrest.
      * apply (inv_order _ _ _ _ HI); [done|right; by apply Hrest|done].
    + assert (∀ z, z ∈ P → edge_of i (nodes c0) z = edge_of i (nodes c0) node →
                   edge_of i (nodes c') z = edge_of i (nodes c') node) as Hnew.
      { intros z Hz Heq. rewrite Hkey_node, Hkey_ne by (by apply HPn).
        rewrite <- Htarget, <- Hk. symmetry.
        apply (inv_next _ _ _ _ HI); [done|by left|done|done]. }
      intros y z [->|Hy]%elem_of_add [->|Hz]%elem_of_add Heq; [done| | |].
      * symmetry. by apply Hnew.
      * by apply Hnew.
      * rewrite !Hkey_ne by (by apply HPn). by apply HI.
    + intros y z Hy Hz [Hne HzP]%not_elem_of_add Heq.
      pose proof (Hrest z Hz HzP) as Hz2.
      assert (edge_of i (nodes c) z = k) as Hzk.
      { apply (rank_inj i). specialize (Hs2 z Hz2).
        rewrite (edge_of_fresh _ _ _ _ _ HI HzP), <- Heq in Hs2 |- *.
        assert (rank i (edge_of i (nodes c0) y) ≤ rank i k); [|lia].
        rewrite <- Hk, (edge_of_fresh _ _ _ _ _ HI HnP).
        apply elem_of_add in Hy as [->|Hy]; [done|].
        apply (inv_order _ _ _ _ HI); [done|by left|done]. }
      rewrite (Hkey_ne _ z) by done. rewrite Hzk, Htarget'.
      apply elem_of_add in Hy as [->|Hy]; [done|].
      rewrite Hkey_ne by (by apply HPn). rewrite <- Htarget, <- Hzk.
      apply (inv_next _ _ _ _ HI); [done|by right|done|done].
    + intros y. rewrite Hdom. apply HI.
    + intros j y Hj. rewrite Hkey_other by done. by apply HI.
    + apply HI.
  - rewrite Hlist. apply succ_in_app. intros Hin. apply Hn1. rewrite Hl1.
    apply elem_of_app. by left.
  - unfold todo. rewrite filter_app, (filter_fresh _ _ _ Hn2), filter_cons.
    rewrite decide_True by done.
    assert (filter (λ y, y ∉ {[node]} ∪ P) b2 = []) as ->.
    { apply filter_done. intros y Hy. apply elem_of_add. right.
      apply (inv_done _ _ _ _ HI). rewrite Hl1. apply elem_of_app. by right. }
    pose proof (inv_len _ _ _ _ HI) as Hlen.
    rewrite (inv_list _ _ _ _ HI), Hl1, !length_app in Hlen. simpl in Hlen.
    rewrite !length_app. cbn [app length].
    generalize dependent (length (filter (λ y, y ∉ P) l2)). intros u. nia.
Qed.

(** The loop ends within [fuel] visits and keeps the invariant. *)
Lemma align_Inv fuel c P l1 l2 :
  Inv c P l1 l2 → (todo P l2 < fuel)%nat →
  ∃ c' P', align fuel i client_sz (head l2) c = Ok c' ∧ Inv c' P' (get i c') [].
Proof.
  revert c P l1 l2. induction fuel as [|fuel IH]; intros c P l1 l2 HI Hfuel; [lia|].
  destruct l2 as [|node l2].
  - exists c, P. split; [done|]. pose proof (inv_list _ _ _ _ HI) as Hl.
    rewrite app_nil_r in Hl. by rewrite Hl.
  - cbn [head align].
    assert (nodes c !! node = Some (nodes c !!! node)) as Hg.
    { apply lookup_lookup_total. pose proof (inv_wf _ _ _ _ HI) as (_ & _ & Hidx).
      destruct (Hidx i) as (_ & _ & Hel). apply Hel. rewrite (inv_list _ _ _ _ HI).
      apply elem_of_app. right. left. }
    destruct (scan i c _ _) as [x|] eqn:Hscan.
    + destruct (Inv_snap _ _ _ _ _ _ _ HI Hg Hscan) as (l1' & l2' & HI' & -> & Hlt).
      apply (IH _ _ _ _ HI'). lia.
    + destruct (Inv_stay _ _ _ _ _ HI) as (HI' & -> & Hlt).
      { unfold target, edge_of. by rewrite Hscan. }
      apply (IH _ _ _ _ HI'). lia.
Qed.

(** The loop of index [i], from [begin()], on a container of [n] nodes:
    [(n + 1)²] visits are enough. It returns a container of the same nodes;
    the coordinates of the other indices are as before, and nodes that were
    on the same edge are on the same edge. *)
Lemma align_result fuel :
  container_wf c0 →
  (S (length (get i c0)) * S (length (get i c0)) ≤ fuel)%nat →
  ∃ c', align fuel i client_sz (begin_ i c0) c0 = Ok c' ∧
        container_wf c' ∧
        (∀ y, is_Some (nodes c' !! y) ↔ is_Some (nodes c0 !! y)) ∧
        (∀ j y, j ≠ i → edge_of j (nodes c') y = edge_of j (nodes c0) y) ∧
        by_pointer c' = by_pointer c0 ∧
        (∀ y z, is_Some (nodes c0 !! y) → is_Some (nodes c0 !! z) →
                edge_of i (nodes c0) y = edge_of i (nodes c0) z →
                edge_of i (nodes c') y = edge_of i (nodes c') z).
Proof.
  intros Hwf Hfuel.
  destruct (align_Inv fuel c0 ∅ [] (get i c0) (Inv_start Hwf)) as (c' & P' & Hrun & HI).
  { unfold todo.
    match goal with
    | |- (length ?f * _ + _ < _)%nat =>
        assert (length f ≤ length (get i c0))%nat as Hf by apply length_filter;
        revert Hf; generalize (length f)
    end.
    revert Hfuel. generalize (length (get i c0)). intros n Hfuel u Hf. nia. }
  exists c'. split; [done|]. split; [apply HI|]. split; [apply HI|]. split; [apply HI|].
  split; [apply HI|]. intros y z Hy Hz Heq.
  pose proof (inv_wf _ _ _ _ HI) as (_ & _ & Hidx). destruct (Hidx i) as (_ & _ & Hel).
  apply (inv_same _ _ _ _ HI); [| |done]; apply (inv_done _ _ _ _ HI), Hel, (inv_dom _ _ _ _ HI);
    done.
Qed.

End align_facts.

Lemma wf_length c c' j j' :
  container_wf c → container_wf c' →
  (∀ y, is_Some (nodes c' !! y) ↔ is_Some (nodes c !! y)) →
  length (get j' c') = length (get j c).
Proof.
  intros (_ & _ & Hidx) (_ & _ & Hidx') Hdom.
  destruct (Hidx j) as (Hnd & _ & Hel). destruct (Hidx' j') as (Hnd' & _ & Hel').
  apply Permutation_length, NoDup_Permutation; [done|done|].
  intros y. by rewrite Hel, Hel', Hdom.
Qed.

Lemma validate_throws client_sz rect m_children c e :
  validate client_sz rect m_children c = Throw e → e = BadLayout.
Proof.
  revert c. induction m_children as [|wnd later IH]; intros c; simpl; [done|].
  destruct (outside _ _ _); [apply IH|]. destruct (existsb _ _); [by intros [= <-]|apply IH].
Qed.

Lemma emplace_nonempty x s : emplace x s ≠ [].
Proof. destruct s as [|y s]; simpl; [done|]. repeat case_decide; done. Qed.

Lemma unique_edges_nonempty i c : get i c ≠ [] → unique_edges i c ≠ [].
Proof.
  unfold unique_edges. destruct (get i c) as [|y l _] using rev_ind; [done|].
  intros _. rewrite foldl_app. simpl. apply emplace_nonempty.
Qed.

(** ** [GridLayout]: cells *)

(** The four loops in a row, with fuel for [(n + 1)²] visits each, [n]
    being the number of nodes: they return, the nodes are the same, and
    nodes that had the same left edge have the same left edge. *)
Lemma align_all fuel client_sz c1 :
  container_wf c1 →
  (S (length (get LayoutLeft c1)) * S (length (get LayoutLeft c1)) ≤ fuel)%nat →
  ∃ c2 c3 c4 c5,
    align fuel LayoutLeft client_sz (begin_ LayoutLeft c1) c1 = Ok c2 ∧
    align fuel LayoutRight client_sz (begin_ LayoutRight c2) c2 = Ok c3 ∧
    align fuel LayoutTop client_sz (begin_ LayoutTop c3) c3 = Ok c4 ∧
    align fuel LayoutBottom client_sz (begin_ LayoutBottom c4) c4 = Ok c5 ∧
    container_wf c5 ∧
    (∀ y, is_Some (nodes c5 !! y) ↔ is_Some (nodes c1 !! y)) ∧
    by_pointer c5 = by_pointer c1 ∧
    (∀ y z, is_Some (nodes c1 !! y) → is_Some (nodes c1 !! z) →
            edge_of LayoutLeft (nodes c1) y = edge_of LayoutLeft (nodes c1) z →
            edge_of LayoutLeft (nodes c5) y = edge_of LayoutLeft (nodes c5) z).
Proof.
  intros Hwf1 Hfuel.
  destruct (align_result LayoutLeft client_sz c1 fuel Hwf1 Hfuel)
    as (c2 & Hrun2 & Hwf2 & Hdom2 & Hother2 & Hptr2 & Hsame).
  destruct (align_result LayoutRight client_sz c2 fuel Hwf2)
    as (c3 & Hrun3 & Hwf3 & Hdom3 & Hother3 & Hptr3 & _).
  { by rewrite (wf_length c1 c2 LayoutLeft LayoutRight). }
  destruct (align_result LayoutTop client_sz c3 fuel Hwf3)
    as (c4 & Hrun4 & Hwf4 & Hdom4 & Hother4 & Hptr4 & _).
  { rewrite (wf_length c1 c3 LayoutLeft LayoutTop); [done|done|done|].
    intros y. by rewrite Hdom3. }
  destruct (align_result LayoutBottom client_sz c4 fuel Hwf4)
    as (c5 & Hrun5 & Hwf5 & Hdom5 & Hother5 & Hptr5 & _).
  { rewrite (wf_length c1 c4 LayoutLeft LayoutBottom); [done|done|done|].
    intros y. by rewrite Hdom4, Hdom3. }
  exists c2, c3, c4, c5. split_and!; try done.
  - intros y. by rewrite Hdom5, Hdom4, Hdom3.
  - by rewrite Hptr5, Hptr4, Hptr3.
  - intros y z Hy Hz Heq.
    rewrite !(Hother5 LayoutLeft), !(Hother4 LayoutLeft), !(Hother3 LayoutLeft) by done.
    by apply Hsame.
Qed.

(** X2. With fuel for [(n + 1)²] visits of a loop, [n] being the number of
    children, [GridLayout] comes to an end: it raises [BadLayout] or
    returns, with a layout to make or without one. *)
Theorem GridLayout_core_returns fuel client_sz rect m_children :
  (S (length m_children) * S (length m_children) ≤ fuel)%nat →
  GridLayout_core fuel client_sz rect m_children = Throw BadLayout ∨
  ∃ plan, GridLayout_core fuel client_sz rect m_children = Ok plan.
Proof.
  intros Hfuel. unfold GridLayout_core.
  destruct (validate client_sz rect m_children empty) as [c1|e] eqn:Hval.
  2:{ left. by rewrite (validate_throws _ _ _ _ _ Hval). }
  destruct (validate_spec _ _ _ _ _ Hval empty_wf) as (Hwf1 & _ & _ & _ & Hlen).
  { intros y g. simpl. by rewrite lookup_empty. }
  destruct (align_all fuel client_sz c1 Hwf1)
    as (c2 & c3 & c4 & c5 & Hr2 & Hr3 & Hr4 & Hr5 & _).
  { specialize (Hlen LayoutLeft). change (get LayoutLeft empty) with (@nil nat) in Hlen.
    cbn [length] in Hlen. etrans; [|exact Hfuel]. apply Nat.mul_le_mono; lia. }
  right. cbn [mbind result_bind].
  rewrite Hr2. cbn [mbind result_bind]. rewrite Hr3. cbn [mbind result_bind].
  rewrite Hr4. cbn [mbind result_bind]. rewrite Hr5. cbn [mbind result_bind].
  destruct (_ || _); by eexists.
Qed.

Lemma GridLayout_core_returns_witness :
  GridLayout_core 9 (Pt.Build 30 30) rect_cross [1; 2]%nat = Throw BadLayout ∨
  ∃ plan, GridLayout_core 9 (Pt.Build 30 30) rect_cross [1; 2]%nat = Ok plan.
Proof.
  apply (GridLayout_core_returns 9 (Pt.Build 30 30) rect_cross [1; 2]%nat).
  simpl. lia.
Defined.

(** C8. Take any children, any two of them [A] and [B] that are eligible
    for the grid (inside the client rectangle) and have the same left edge,
    and fuel for [(n + 1)²] visits of a loop, [n] being the number of
    children. If [GridLayout] does not raise [BadLayout], it produces a
    layout; [A] and [B] both get a cell in it, and whatever cell [A] has
    starts in the same column as whatever cell [B] has. *)
Theorem GridLayout_same_left_same_column fuel client_sz rect m_children A B :
  (S (length m_children) * S (length m_children) ≤ fuel)%nat →
  GridLayout_core fuel client_sz rect m_children ≠ Throw BadLayout →
  A ∈ m_children → B ∈ m_children →
  outside client_sz (Rect.ul (rect A)) (Rect.lr (rect A)) = false →
  outside client_sz (Rect.ul (rect B)) (Rect.lr (rect B)) = false →
  Pt.x (Rect.ul (rect A)) = Pt.x (Rect.ul (rect B)) →
  ∃ plan,
    GridLayout_core fuel client_sz rect m_children = Ok (Some plan) ∧
    (∃ a, a ∈ plan_cells plan ∧ cell_wnd a = A) ∧
    (∃ b, b ∈ plan_cells plan ∧ cell_wnd b = B) ∧
    ∀ a b, a ∈ plan_cells plan → b ∈ plan_cells plan →
           cell_wnd a = A → cell_wnd b = B → cell_column a = cell_column b.
Proof.
  intros Hfuel Hok HA HB HAin HBin Hleft.
  destruct (validate client_sz rect m_children empty) as [c1|e] eqn:Hval.
  2:{ destruct Hok. unfold GridLayout_core. rewrite Hval.
      by rewrite (validate_throws _ _ _ _ _ Hval). }
  destruct (validate_spec _ _ _ _ _ Hval empty_wf) as (Hwf1 & Hfr & Hin & _ & Hlen).
  { intros y g. simpl. by rewrite lookup_empty. }
  pose proof (Hin A HA HAin) as HA1. pose proof (Hin B HB HBin) as HB1.
  destruct (align_all fuel client_sz c1 Hwf1)
    as (c2 & c3 & c4 & c5 & Hr2 & Hr3 & Hr4 & Hr5 & Hwf5 & Hdom & Hptr & Hsame).
  { specialize (Hlen LayoutLeft). change (get LayoutLeft empty) with (@nil nat) in Hlen.
    cbn [length] in Hlen. etrans; [|exact Hfuel]. apply Nat.mul_le_mono; lia. }
  assert (edge_of LayoutLeft (nodes c5) A = edge_of LayoutLeft (nodes c5) B) as Hcol.
  { apply Hsame; [done|done|]. destruct HA1 as [gA HgA], HB1 as [gB HgB].
    unfold edge_of. rewrite (lookup_total_correct _ _ _ HgA), (lookup_total_correct _ _ _ HgB).
    by rewrite (Hfr _ _ HgA), (Hfr _ _ HgB). }
  pose proof Hwf5 as (Hwnd5 & Hptr5 & Hidx5).
  assert (∀ y, is_Some (nodes c1 !! y) → get LayoutLeft c5 ≠ [] ∧ get LayoutTop c5 ≠ []) as Hne.
  { intros y Hy%Hdom. destruct (Hidx5 LayoutLeft) as (_ & _ & Hl).
    destruct (Hidx5 LayoutTop) as (_ & _ & Ht). apply Hl in Hy as Hyl. apply Ht in Hy as Hyt.
    split; intros Hnil; [rewrite Hnil in Hyl|rewrite Hnil in Hyt]; by apply elem_of_nil in Hyl || by apply elem_of_nil in Hyt. }
  destruct (Hne A HA1) as [Hl5 Ht5].
  set (unique_lefts := unique_edges LayoutLeft c5).
  set (unique_tops := unique_edges LayoutTop c5).
  set (cell := λ y, cell_of unique_lefts unique_tops (nodes c5 !!! y)).
  assert (∀ y, is_Some (nodes c5 !! y) → cell_wnd (cell y) = y) as Hcw.
  { intros y [g Hg]. unfold cell. rewrite (lookup_total_correct _ _ _ Hg). simpl.
    by apply Hwnd5. }
  exists (mkLayoutPlan (length unique_tops) (length unique_lefts) (cell <$> by_pointer c5)).
  split; [|split; [|split]].
  - unfold GridLayout_core. rewrite Hval. cbn [mbind result_bind].
    rewrite Hr2. cbn [mbind result_bind]. rewrite Hr3. cbn [mbind result_bind].
    rewrite Hr4. cbn [mbind result_bind]. rewrite Hr5. cbn [mbind result_bind].
    fold unique_lefts unique_tops.
    rewrite !bool_decide_eq_false_2; [done| |]; by apply unique_edges_nonempty.
  - exists (cell A). simpl. split; [|by apply Hcw, Hdom].
    apply list_elem_of_fmap_2, Hptr5, Hdom, HA1.
  - exists (cell B). simpl. split; [|by apply Hcw, Hdom].
    apply list_elem_of_fmap_2, Hptr5, Hdom, HB1.
  - simpl. intros a b (ya & -> & Hya)%list_elem_of_fmap (yb & -> & Hyb)%list_elem_of_fmap.
    rewrite !Hcw by (by apply Hptr5). intros -> ->. unfold cell, cell_of. simpl.
    f_equal. f_equal. apply Hcol.
Qed.

Lemma GridLayout_same_left_same_column_witness :
  ∃ plan,
    GridLayout_core 16 (Pt.Build 100 100) rect_three [1; 2; 3]%nat = Ok (Some plan) ∧
    (∃ a, a ∈ plan_cells plan ∧ cell_wnd a = 1%nat) ∧
    (∃ b, b ∈ plan_cells plan ∧ cell_wnd b = 2%nat) ∧
    ∀ a b, a ∈ plan_cells plan → b ∈ plan_cells plan →
           cell_wnd a = 1%nat → cell_wnd b = 2%nat → cell_column a = cell_column b.
Proof.
  apply (GridLayout_same_left_same_column 16 (Pt.Build 100 100) rect_three
           [1; 2; 3]%nat 1%nat 2%nat).
  - simpl. lia.
  - vm_compute. discriminate.
  - compute_done.
  - compute_done.
  - reflexivity.
  - reflexivity.
  - reflexivity.
Defined.

(** The layout of the three children of [rect_three]: two rows and two
    columns; 1 and 2 in column 0, 3 in column 1. *)
Example GridLayout_three :
  GridLayout_core 16 (Pt.Build 100 100) rect_three [1; 2; 3]%nat
  = Ok (Some (mkLayoutPlan 2 2 [mkGridCell 1 0 0 1 1; mkGridCell 2 1 0 1 1;
                                mkGridCell 3 0 1 1 1])).
Proof. vm_compute. reflexivity. Qed.

(** The same on the window tree: the layout is made, installed and attached,
    and the children are added to it. *)
Example GridLayout_three_calls :
  (GridLayout 16 0%nat st_grid).1 = Ok tt ∧
  calls (GridLayout 16 0%nat st_grid).2
  = calls st_grid ++
    [Layout_ctor 4 2 2; GUI_Remove 4; Layout_Add 4 1 0 0 1 1; Layout_Add 4 2 1 0 1 1;
     Layout_Add 4 3 0 1 1 1] ∧
  Wnd.m_layout <$> heap (GridLayout 16 0%nat st_grid).2 !! 0%nat = Some (Some 4%nat).
Proof. vm_compute. done. Qed.

(** ** C1: what the validation catches *)

(** X1. The validation raises exactly when some eligible child has its
    upper-left corner, or the pixel inside its lower-right corner, in the
    rectangle of a child that comes later in [m_children], eligible or not. *)
Theorem validate_BadLayout client_sz rect m_children c :
  validate client_sz rect m_children c = Throw BadLayout ↔
  ∃ l1 wnd l2 other,
    m_children = l1 ++ wnd :: l2 ∧ other ∈ l2 ∧
    outside client_sz (Rect.ul (rect wnd)) (Rect.lr (rect wnd)) = false ∧
    corner_inside rect (Rect.ul (rect wnd)) (Rect.lr (rect wnd)) other = true.
Proof.
  revert c. induction m_children as [|wnd later IH]; intros c; simpl.
  - split; [done|]. intros (l1 & w & l2 & o & Hl & _). by destruct l1.
  - assert ((∃ l1 w l2 o, later = l1 ++ w :: l2 ∧ o ∈ l2 ∧
               outside client_sz (Rect.ul (rect w)) (Rect.lr (rect w)) = false ∧
               corner_inside rect (Rect.ul (rect w)) (Rect.lr (rect w)) o = true) →
            ∃ l1 w l2 o, wnd :: later = l1 ++ w :: l2 ∧ o ∈ l2 ∧
               outside client_sz (Rect.ul (rect w)) (Rect.lr (rect w)) = false ∧
               corner_inside rect (Rect.ul (rect w)) (Rect.lr (rect w)) o = true) as Hlater.
    { intros (l1 & w & l2 & o & -> & H). by exists (wnd :: l1), w, l2, o. }
    destruct (outside client_sz _ _) eqn:Hout.
    + rewrite IH. split; [done|].
      intros ([|w' l1] & w & l2 & o & [= Hw Hl] & Ho & Hout' & Hc).
      * subst w. congruence.
      * by exists l1, w, l2, o.
    + destruct (existsb _ later) eqn:Hex.
      * split; [intros _|done]. apply existsb_exists in Hex as (o & Ho & Hc).
        exists [], wnd, later, o. split_and!; try done. by apply list_elem_of_In.
      * rewrite IH. split; [done|].
        intros ([|w' l1] & w & l2 & o & [= Hw Hl] & Ho & Hout' & Hc).
        -- subst w l2. assert (existsb (corner_inside rect (Rect.ul (rect wnd))
                                  (Rect.lr (rect wnd))) later = true); [|congruence].
           apply existsb_exists. exists o. split; [by apply list_elem_of_In|done].
        -- by exists l1, w, l2, o.
Qed.

(** C1, the code at two inputs. In a 30 x 30 client area, the children of
    [rect_cross] are both eligible and cross each other: the pixel (15, 15)
    is in both. Neither has a tested corner in the other, so [GridLayout]
    raises nothing and gives both the same cell. In a 100 x 100 client area,
    the only eligible child of [rect_outside] is 1; its corner is in 2, which
    is not eligible, and [GridLayout] raises [BadLayout]. *)
Theorem GridLayout_overlap_validation :
  (outside (Pt.Build 30 30) (Rect.ul (rect_cross 1)) (Rect.lr (rect_cross 1)) = false ∧
   outside (Pt.Build 30 30) (Rect.ul (rect_cross 2)) (Rect.lr (rect_cross 2)) = false ∧
   Rect.Contains (rect_cross 1) (Pt.Build 15 15) = true ∧
   Rect.Contains (rect_cross 2) (Pt.Build 15 15) = true ∧
   GridLayout_core 9 (Pt.Build 30 30) rect_cross [1; 2]%nat
   = Ok (Some (mkLayoutPlan 1 1 [mkGridCell 1 0 0 1 1; mkGridCell 2 0 0 1 1])) ∧
   GridLayout_core 9 (Pt.Build 30 30) rect_cross [2; 1]%nat
   = Ok (Some (mkLayoutPlan 1 1 [mkGridCell 1 0 0 1 1; mkGridCell 2 0 0 1 1]))) ∧
  (outside (Pt.Build 100 100) (Rect.ul (rect_outside 1)) (Rect.lr (rect_outside 1)) = false ∧
   outside (Pt.Build 100 100) (Rect.ul (rect_outside 2)) (Rect.lr (rect_outside 2)) = true ∧
   GridLayout_core 9 (Pt.Build 100 100) rect_outside [1; 2]%nat = Throw BadLayout).
Proof. vm_compute. done. Qed.

(** * Further properties of the flag registry and of flag sets *)

Local Open Scope Z_scope.

(** ** The [FlagType] constructor *)

Lemma length_filter_fmap {A B} (f : A → B) (P : B → Prop) `{∀ x, Decision (P x)} l :
  length (filter P (f <$> l)) = length (filter (λ x, P (f x)) l).
Proof.
  induction l as [|x l IH]; [done|]. rewrite fmap_cons, !filter_cons.
  destruct (decide (P (f x))); simpl; by rewrite IH.
Qed.

Lemma testbit_0_land num : Z.testbit num 0 = true ↔ Z.land num 1 ≠ 0.
Proof.
  rewrite land_1_mod. pose proof (Z.bit0_mod num) as Hb.
  destruct (Z.testbit num 0); simpl in Hb; split; intros; try done; lia.
Qed.

(** The loop of [OneBits] counts the set bits among the low [n] bits. *)
Lemma OneBits_loop_count n num :
  OneBits_loop n num 0
  = length (filter (λ i, Z.testbit num (Z.of_nat i) = true) (seq 0 n)).
Proof.
  revert num. induction n as [|n IH]; intros num; [done|].
  cbn [OneBits_loop]. rewrite OneBits_loop_acc, IH.
  cbn [seq]. rewrite <- fmap_S_seq, filter_cons.
  assert (filter (λ i, Z.testbit (Z.shiftr num 1) (Z.of_nat i) = true) (seq 0 n)
          = filter (λ x, Z.testbit num (Z.of_nat (S x)) = true) (seq 0 n)) as ->.
  { apply list_filter_iff. intros i.
    rewrite Z.shiftr_spec by lia. by rewrite Nat2Z.inj_succ, Z.add_1_r. }
  change (Z.of_nat 0) with 0.
  destruct (decide (Z.testbit num 0 = true)) as [Hb|Hb]; case_decide as Hl;
    cbn [length]; rewrite length_filter_fmap; try done; exfalso.
  - by apply testbit_0_land in Hb.
  - by apply Hb, testbit_0_land.
Qed.

Lemma pow2_below_digits v i :
  0 ≤ i → v = 2 ^ i → v < 2 ^ Z.of_nat digits → ∃ j, (j < digits)%nat ∧ v = 2 ^ Z.of_nat j.
Proof.
  intros Hi -> Hlt. apply Z.pow_lt_mono_r_iff in Hlt; [|lia..].
  exists (Z.to_nat i). split; [lia|]. by rewrite Z2Nat.id.
Qed.

Lemma OneBits_single_bit v : single_bit v → (OneBits v ≤ 1)%nat.
Proof.
  intros [->|(i & Hi & ->)]; [vm_compute; lia|].
  unfold digits in Hi.
  do 16 (destruct i as [|i]; [vm_compute; lia|]). lia.
Qed.

(** X4. The constructor of a flag type converts its argument to
    [unsigned short] and accepts it exactly when at most one of the sixteen
    bits is set: zero and the sixteen powers of two. Every other value is
    refused with [invalid_argument]. [OneBits], on which the test rests,
    is the number of set bits. *)
Theorem FlagType_make_single_bit value :
  OneBits (value mod 2 ^ Z.of_nat digits)
  = length (set_bits (value mod 2 ^ Z.of_nat digits)) ∧
  (single_bit (value mod 2 ^ Z.of_nat digits) ↔
   FlagType.make value = Ok (FlagType.Build (value mod 2 ^ Z.of_nat digits))) ∧
  (¬ single_bit (value mod 2 ^ Z.of_nat digits) ↔
   FlagType.make value = Throw invalid_argument).
Proof.
  unfold FlagType.make. cbv zeta.
  assert (0 ≤ value mod 2 ^ Z.of_nat digits < 2 ^ Z.of_nat digits) as Hr
    by (apply Z.mod_pos_bound; by apply Z.pow_pos_nonneg).
  revert Hr. generalize (value mod 2 ^ Z.of_nat digits). intros v Hr.
  split; [unfold OneBits, set_bits; apply OneBits_loop_count|].
  assert ((OneBits v ≤ 1)%nat ↔ single_bit v) as Hone.
  { split; [|apply OneBits_single_bit]. intros Hle. unfold OneBits in Hle.
    apply (OneBits_loop_single digits v Hr) in Hle as [?|(i & Hi & Hp)]; [by left|].
    right. eapply pow2_below_digits; [done..|lia]. }
  case_decide as Hb.
  - assert (¬ single_bit v) as Hns by (rewrite <- Hone; lia).
    split; split; intros; done.
  - assert (single_bit v) as Hs by (apply Hone; lia).
    split; split; intros; done.
Qed.

(** ** Registration followed by lookup *)

Lemma contains_range spec flag :
  FlagSpec_wf spec →
  FlagSpec.contains spec flag = Ok true ↔ flag ∈ FlagSpec.range spec.
Proof.
  intros Hwf. rewrite contains_spec by done.
  case_bool_decide; split; intros; try done; congruence.
Qed.

Lemma result_get {A} (r1 r2 : result A) :
  (∀ a, r1 = Ok a ↔ r2 = Ok a) → (∀ e, r1 = Throw e ↔ r2 = Throw e) → r1 = r2.
Proof.
  intros Hok Hthrow. destruct r1 as [a|e].
  - symmetry. by apply Hok.
  - symmetry. by apply Hthrow.
Qed.

Section assoc_scan_more.
Context {K V : Type} `{EqDecision K}.
Implicit Types (keys : list K) (vals : list V).

(** The scan reads the slots from [idx] up to [idx + n] only. *)
Lemma assoc_scan_ext keys keys' vals vals' k miss n idx :
  (∀ i, (idx ≤ i < idx + n)%nat → keys' !! i = keys !! i ∧ vals' !! i = vals !! i) →
  assoc_scan keys' vals' k miss n idx = assoc_scan keys vals k miss n idx.
Proof.
  revert idx. induction n as [|n IH]; intros idx Hsame; simpl; [done|].
  destruct (Hsame idx) as [Hk Hv]; [lia|]. unfold at_. rewrite Hk, Hv.
  destruct (keys !! idx) as [f|]; simpl; [|done].
  case_decide; [done|]. apply IH. intros i Hi. apply Hsame. lia.
Qed.

(** One more slot: the earlier slots win, then the new one is tried. *)
Lemma assoc_scan_snoc keys vals k miss n idx x v :
  (idx + n ≤ length keys)%nat →
  keys !! (idx + n)%nat = Some x → vals !! (idx + n)%nat = Some v →
  assoc_scan keys vals k miss (S n) idx
  = match assoc_scan keys vals k miss n idx with
    | Ok a => Ok a
    | Throw e => if decide (x = k) then Ok v else Throw miss
    end.
Proof.
  revert idx. induction n as [|n IH]; intros idx Hlen Hx Hv.
  - simpl. rewrite Nat.add_0_r in Hx, Hv. unfold at_. rewrite Hx, Hv. simpl.
    by case_decide.
  - change (assoc_scan keys vals k miss (S (S n)) idx)
      with (f ← at_ keys idx;
            if decide (f = k) then at_ vals idx
            else assoc_scan keys vals k miss (S n) (S idx)).
    change (assoc_scan keys vals k miss (S n) idx)
      with (f ← at_ keys idx;
            if decide (f = k) then at_ vals idx
            else assoc_scan keys vals k miss n (S idx)).
    destruct (at_lt keys idx) as (f & -> & Hf); [lia|]. simpl.
    destruct (decide (f = k)) as [Heq|Heq].
    + destruct (at_ vals idx) eqn:Hat; [done|].
      unfold at_ in Hat. destruct (vals !! idx) eqn:Hvi; [done|].
      apply lookup_ge_None in Hvi. apply lookup_lt_Some in Hv. lia.
    + apply IH; [lia|by replace (S idx + n)%nat with (idx + S n)%nat by lia..].
Qed.
End assoc_scan_more.

Lemma insert_Ok_shape flag name spec spec' :
  FlagSpec.insert flag name spec = (Ok tt, spec') →
  spec' = FlagSpec.Build (S (FlagSpec.m_count spec))
            (<[FlagSpec.m_count spec := flag]> (FlagSpec.m_flags spec))
            (<[FlagSpec.m_count spec := name]> (FlagSpec.m_strings spec)).
Proof.
  unfold FlagSpec.insert. case_decide; [discriminate|].
  destruct (FlagSpec.insert_scan _ _ _ _); [|discriminate]. by intros [= <-].
Qed.

(** X5. A successful [insert flag name] makes [flag] known and named
    [name], and changes the answer for no other flag and no other name. The
    name itself leads to [flag] only if it was not in use: a name used
    before keeps the flag it had. *)
Theorem FlagSpec_insert_then_lookup spec flag name spec' :
  registered spec →
  FlagSpec.insert flag name spec = (Ok tt, spec') →
  FlagSpec.contains spec' flag = Ok true ∧
  FlagSpec.ToString spec' flag = Ok name ∧
  FlagSpec.FromString spec' name
  = (if decide (name ∈ FlagSpec_names spec) then FlagSpec.FromString spec name
     else Ok flag) ∧
  (∀ g, g ≠ flag →
        FlagSpec.contains spec' g = FlagSpec.contains spec g ∧
        FlagSpec.ToString spec' g = FlagSpec.ToString spec g) ∧
  (∀ s, s ≠ name → FlagSpec.FromString spec' s = FlagSpec.FromString spec s).
Proof.
  intros Hreg Hins. pose proof (registered_wf _ Hreg) as Hwf.
  destruct (insert_Ok _ _ _ _ Hwf Hins) as (Hlt & Hnew & Hwf' & _ & Hrange & Hnames).
  pose proof (insert_Ok_shape _ _ _ _ Hins) as ->.
  destruct Hwf as (Hc & Hfl & Hsl).
  set (c := FlagSpec.m_count spec) in *.
  assert (∀ g, FlagSpec.ToString
                 (FlagSpec.Build (S c) (<[c := flag]> (FlagSpec.m_flags spec))
                                 (<[c := name]> (FlagSpec.m_strings spec))) g
               = match FlagSpec.ToString spec g with
                 | Ok a => Ok a
                 | Throw _ => if decide (flag = g) then Ok name else Throw UnknownFlag
                 end) as HTo.
  { intros g. unfold FlagSpec.ToString. rewrite !ToString_loop_scan. cbn [FlagSpec.m_count
      FlagSpec.m_flags FlagSpec.m_strings]. fold c.
    rewrite (assoc_scan_snoc _ _ _ _ c 0 flag name);
      [|rewrite length_insert; lia|apply list_lookup_insert_eq; lia..].
    rewrite (assoc_scan_ext (FlagSpec.m_flags spec) _ (FlagSpec.m_strings spec)); [done|].
    intros i Hi. rewrite !list_lookup_insert_ne by lia. done. }
  assert (∀ s, FlagSpec.FromString
                 (FlagSpec.Build (S c) (<[c := flag]> (FlagSpec.m_flags spec))
                                 (<[c := name]> (FlagSpec.m_strings spec))) s
               = match FlagSpec.FromString spec s with
                 | Ok a => Ok a
                 | Throw _ => if decide (name = s) then Ok flag else Throw UnknownString
                 end) as HFrom.
  { intros s. unfold FlagSpec.FromString. rewrite !FromString_loop_scan. cbn [FlagSpec.m_count
      FlagSpec.m_flags FlagSpec.m_strings]. fold c.
    rewrite (assoc_scan_snoc _ _ _ _ c 0 name flag);
      [|rewrite length_insert; lia|apply list_lookup_insert_eq; lia..].
    rewrite (assoc_scan_ext (FlagSpec.m_strings spec) _ (FlagSpec.m_flags spec)); [done|].
    intros i Hi. rewrite !list_lookup_insert_ne by lia. done. }
  assert (FlagSpec_wf spec) as Hwf by done.
  split; [|split; [|split; [|split]]].
  - apply contains_range; [done|]. rewrite Hrange, elem_of_app, list_elem_of_singleton. by right.
  - rewrite HTo. destruct (FlagSpec.ToString spec flag) as [a|e] eqn:Hto.
    + exfalso. apply ToString_Ok in Hto as (i & Hi & Hfi & _); [|done].
      apply Hnew, elem_of_take. eauto.
    + by rewrite decide_True.
  - rewrite HFrom, (decide_True (P := name = name)) by done.
    destruct (decide (name ∈ FlagSpec_names spec)) as [Hin|Hin].
    + destruct (FlagSpec.FromString spec name) as [a|e] eqn:Hfrom; [done|].
      apply FromString_Throw in Hfrom as [_ Hno]; done.
    + destruct (FlagSpec.FromString spec name) as [a|e] eqn:Hfrom.
      * exfalso. apply FromString_Ok in Hfrom as (i & Hi & Hsi & _); [|done].
        apply Hin, elem_of_take. eauto.
      * done.
  - intros g Hne. split.
    + rewrite !contains_spec, Hrange by done. f_equal. apply bool_decide_ext.
      rewrite elem_of_app, list_elem_of_singleton.
      split; [intros [?|?]; [done|congruence]|by left].
    + rewrite HTo. destruct (FlagSpec.ToString spec g) as [a|e] eqn:Hto; [done|].
      apply ToString_Throw in Hto as [-> _]; [|done]. by rewrite decide_False.
  - intros s Hne. rewrite HFrom.
    destruct (FlagSpec.FromString spec s) as [a|e] eqn:Hfrom; [done|].
    apply FromString_Throw in Hfrom as [-> _]; [|done]. by rewrite decide_False.
Qed.

Lemma FlagSpec_insert_then_lookup_witness :
  FlagSpec.contains spec_AB flag_B = Ok true ∧
  FlagSpec.ToString spec_AB flag_B = Ok "B"%string ∧
  FlagSpec.FromString spec_AB "B"
  = (if decide ("B"%string ∈ FlagSpec_names spec_A) then FlagSpec.FromString spec_A "B"
     else Ok flag_B) ∧
  (∀ g, g ≠ flag_B →
        FlagSpec.contains spec_AB g = FlagSpec.contains spec_A g ∧
        FlagSpec.ToString spec_AB g = FlagSpec.ToString spec_A g) ∧
  (∀ s, s ≠ "B"%string → FlagSpec.FromString spec_AB s = FlagSpec.FromString spec_A s).
Proof.
  apply (FlagSpec_insert_then_lookup spec_A flag_B "B" spec_AB).
  - by apply (registered_insert FlagSpec.default flag_A "A"); [apply registered_default|].
  - reflexivity.
Defined.

(** ** The algebra of [~] *)

Lemma complement_value spec s :
  registered spec → Forall FlagType_valid (FlagSpec.range spec) →
  Flags.complement spec s = Ok (Flags.Build (Z.ldiff (universe spec) (Flags.m_flags s))).
Proof.
  intros Hreg Hvalid. unfold Flags.complement.
  rewrite complement_loop_spec; [done|by apply registered_wf|].
  apply Forall_forall. intros f Hf. split; [done|].
  by apply (proj1 (Forall_forall _ _) Hvalid).
Qed.

Ltac bitwise :=
  apply Z.bits_inj'; intros ? _;
  rewrite ?Z.land_spec, ?Z.lor_spec, ?Z.ldiff_spec, ?Z.lxor_spec,
          ?Z.land_spec, ?Z.lor_spec, ?Z.ldiff_spec, ?Z.bits_0;
  repeat match goal with |- context [Z.testbit ?a ?k] => destruct (Z.testbit a k) end;
  done.

(** X6. Over a registry of flags the constructor accepts, [~] obeys De
    Morgan's laws with [|] and [&], never shares a flag with its operand,
    and applied twice gives back the registered part of the operand: flags
    outside the registry are lost, so [~~a] is [a] only for sets of
    registered flags. *)
Theorem Flags_complement_algebra spec a b :
  registered spec →
  Forall FlagType_valid (FlagSpec.range spec) →
  ∃ ca cb,
    Flags.complement spec a = Ok ca ∧ Flags.complement spec b = Ok cb ∧
    Flags.complement spec (Flags.or a b) = Ok (Flags.and ca cb) ∧
    Flags.complement spec (Flags.and a b) = Ok (Flags.or ca cb) ∧
    Flags.and a ca = Flags.default ∧
    Flags.complement spec ca = Ok (Flags.and a (Flags.Build (universe spec))) ∧
    (Flags.complement spec ca = Ok a
     ↔ Z.land (Flags.m_flags a) (universe spec) = Flags.m_flags a).
Proof.
  intros Hreg Hvalid.
  exists (Flags.Build (Z.ldiff (universe spec) (Flags.m_flags a))),
         (Flags.Build (Z.ldiff (universe spec) (Flags.m_flags b))).
  rewrite !complement_value by done.
  unfold Flags.or, Flags.and, Flags.or_assign, Flags.and_assign, Flags.default.
  cbn [Flags.m_flags].
  assert (Z.ldiff (universe spec) (Z.ldiff (universe spec) (Flags.m_flags a))
          = Z.land (Flags.m_flags a) (universe spec)) as Htwice by bitwise.
  split_and!; try done.
  - do 2 f_equal. bitwise.
  - do 2 f_equal. bitwise.
  - f_equal. bitwise.
  - by rewrite Htwice.
  - rewrite Htwice. destruct a as [s]. cbn [Flags.m_flags].
    split; [by intros [= ?]|by intros ->].
Qed.

Lemma Flags_complement_algebra_witness :
  ∃ ca cb,
    Flags.complement spec_ABC (Flags.Build 1) = Ok ca ∧
    Flags.complement spec_ABC (Flags.Build 8) = Ok cb ∧
    Flags.complement spec_ABC (Flags.or (Flags.Build 1) (Flags.Build 8))
    = Ok (Flags.and ca cb) ∧
    Flags.complement spec_ABC (Flags.and (Flags.Build 1) (Flags.Build 8))
    = Ok (Flags.or ca cb) ∧
    Flags.and (Flags.Build 1) ca = Flags.default ∧
    Flags.complement spec_ABC ca
    = Ok (Flags.and (Flags.Build 1) (Flags.Build (universe spec_ABC))) ∧
    (Flags.complement spec_ABC ca = Ok (Flags.Build 1)
     ↔ Z.land (Flags.m_flags (Flags.Build 1)) (universe spec_ABC)
       = Flags.m_flags (Flags.Build 1)).
Proof.
  apply (Flags_complement_algebra spec_ABC (Flags.Build 1) (Flags.Build 8)).
  - apply spec_ABC_registered.
  - apply spec_ABC_flags_valid.
Defined.

(** A flag outside the registry does not survive [~~]: over [{A,B,C}],
    [~~{A, 8}] is [{A}]. *)
Example complement_twice_drops_unregistered :
  (c ← Flags.complement spec_ABC (Flags.Build 9); Flags.complement spec_ABC c)
  = Ok (Flags.Build 1).
Proof. reflexivity. Qed.

(** ** Stream output *)

Lemma append_empty_r (s : string) : (s ++ "")%string = s.
Proof.
  induction s as [|c s IH]; [done|].
  change (String c (s ++ "") = String c s)%string. by rewrite IH.
Qed.

Lemma append_assoc (s1 s2 s3 : string) : ((s1 ++ s2) ++ s3 = s1 ++ (s2 ++ s3))%string.
Proof.
  induction s1 as [|c s1 IH]; [done|].
  change (String c ((s1 ++ s2) ++ s3) = String c (s1 ++ (s2 ++ s3)))%string.
  by rewrite IH.
Qed.

(** What the loop has written once it has printed [names] after [os]. *)
Definition written (flag_printed : bool) (os : string) (names : list string) : string :=
  match names with
  | [] => os
  | _ => ((if flag_printed then os ++ " | " else os) ++ String.concat " | " names)%string
  end.

Lemma written_cons (flag_printed : bool) os name names :
  written true ((if flag_printed then os ++ " | " else os) ++ name) names
  = written flag_printed os (name :: names).
Proof.
  unfold written. destruct names as [|n2 names].
  - done.
  - change (String.concat " | " (name :: n2 :: names))
      with (name ++ " | " ++ String.concat " | " (n2 :: names))%string.
    by rewrite !append_assoc.
Qed.

Lemma filter_fmap_commute {A B} (f : A → B) (P : B → Prop) `{∀ x, Decision (P x)}
      (l : list A) :
  filter P (f <$> l) = f <$> filter (λ x, P (f x)) l.
Proof.
  induction l as [|x l IH]; [done|]. rewrite fmap_cons, !filter_cons.
  destruct (decide (P (f x))); simpl; by rewrite IH.
Qed.

Lemma filter_none {A} (P : A → Prop) `{∀ x, Decision (P x)} (l : list A) :
  Forall (λ x, ¬ P x) l → filter P l = [].
Proof.
  induction 1 as [|x l Hx _ IH]; [done|]. by rewrite filter_cons_False.
Qed.

(** The set bits met by [S n] rounds: bit [i] if it is set, then those met
    by the [n] rounds that follow. *)
Lemma bits_step (i n : nat) (d : Z) :
  (λ j, (i + j)%nat) <$> filter (λ j, Z.testbit d (Z.of_nat j) = true) (seq 0 (S n))
  = (if decide (Z.land d 1 = 0) then [] else [i])
    ++ ((λ j, (S i + j)%nat)
          <$> filter (λ j, Z.testbit (Z.shiftr d 1) (Z.of_nat j) = true) (seq 0 n)).
Proof.
  cbn [seq]. rewrite <- fmap_S_seq, filter_cons, filter_fmap_commute.
  assert (filter (λ x, Z.testbit d (Z.of_nat (S x)) = true) (seq 0 n)
          = filter (λ j, Z.testbit (Z.shiftr d 1) (Z.of_nat j) = true) (seq 0 n)) as ->.
  { apply list_filter_iff. intros j.
    rewrite Z.shiftr_spec by lia. by rewrite Nat2Z.inj_succ, Z.add_1_r. }
  assert ((λ j, (i + j)%nat) <$> (S <$> filter (λ j, Z.testbit (Z.shiftr d 1) (Z.of_nat j) = true)
                                          (seq 0 n))
          = (λ j, (S i + j)%nat)
              <$> filter (λ j, Z.testbit (Z.shiftr d 1) (Z.of_nat j) = true) (seq 0 n)) as Hshift.
  { rewrite <- list_fmap_compose. apply list_fmap_ext. intros _ j _. simpl. lia. }
  change (Z.of_nat 0) with 0.
  destruct (decide (Z.testbit d 0 = true)) as [Hb|Hb]; case_decide as Hl.
  - by apply testbit_0_land in Hb.
  - rewrite fmap_cons, Hshift. by rewrite Nat.add_0_r.
  - by rewrite Hshift.
  - exfalso. by apply Hb, testbit_0_land.
Qed.

Lemma FlagType_make_bit (i : nat) :
  (i < digits)%nat → FlagType.make (Z.shiftl 1 (Z.of_nat i)) = Ok (bit_flag i).
Proof.
  intros Hi. rewrite Z.shiftl_1_l.
  assert (2 ^ Z.of_nat i mod 2 ^ Z.of_nat digits = 2 ^ Z.of_nat i) as Hmod.
  { apply Z.mod_small. split; [by apply Z.pow_nonneg|].
    apply Z.pow_lt_mono_r; lia. }
  unfold FlagType.make. cbv zeta. rewrite Hmod.
  rewrite decide_False; [done|].
  assert (OneBits (2 ^ Z.of_nat i) ≤ 1)%nat; [|lia].
  apply OneBits_single_bit. right. by exists i.
Qed.

Lemma Flags_output_loop_spec spec n i d flag_printed os :
  FlagSpec_wf spec →
  (∀ j : nat, Z.testbit d (Z.of_nat j) = true → (i + j < digits)%nat) →
  (Forall (λ b, bit_flag b ∈ FlagSpec.range spec)
          ((λ j, (i + j)%nat) <$> filter (λ j, Z.testbit d (Z.of_nat j) = true) (seq 0 n)) →
   ∃ names,
     Forall2 (λ b name, FlagSpec.ToString spec (bit_flag b) = Ok name)
             ((λ j, (i + j)%nat) <$> filter (λ j, Z.testbit d (Z.of_nat j) = true) (seq 0 n))
             names ∧
     Flags_output_loop spec n i d flag_printed os = (Ok tt, written flag_printed os names)) ∧
  (¬ Forall (λ b, bit_flag b ∈ FlagSpec.range spec)
            ((λ j, (i + j)%nat) <$> filter (λ j, Z.testbit d (Z.of_nat j) = true) (seq 0 n)) →
   (Flags_output_loop spec n i d flag_printed os).1 = Throw UnknownFlag).
Proof.
  intros Hwf. revert i d flag_printed os.
  induction n as [|n IH]; intros i d flag_printed os Hhigh.
  { split; [|intros []; constructor]. intros _. exists []. split; [constructor|done]. }
  assert (∀ j : nat, Z.testbit (Z.shiftr d 1) (Z.of_nat j) = true → (S i + j < digits)%nat)
    as Hhigh'.
  { intros j Hj. rewrite Z.shiftr_spec in Hj by lia.
    specialize (Hhigh (S j)). rewrite Nat2Z.inj_succ, <- Z.add_1_r in Hhigh.
    specialize (Hhigh Hj). lia. }
  rewrite bits_step. cbn [Flags_output_loop].
  destruct (decide (Z.land d 1 = 0)) as [Hl|Hl]; [apply (IH _ _ _ _ Hhigh')|].
  assert (i < digits)%nat as Hi.
  { specialize (Hhigh 0%nat). rewrite Nat.add_0_r in Hhigh.
    apply Hhigh. by apply testbit_0_land. }
  rewrite (FlagType_make_bit i Hi). cbn [mbind result_bind].
  destruct (FlagSpec.ToString spec (bit_flag i)) as [name|e] eqn:Hto.
  - assert (bit_flag i ∈ FlagSpec.range spec) as Hin.
    { destruct (decide (bit_flag i ∈ FlagSpec.range spec)) as [|Hno]; [done|].
      assert (FlagSpec.ToString spec (bit_flag i) = Throw UnknownFlag)
        by (by apply ToString_Throw).
      congruence. }
    destruct (IH (S i) (Z.shiftr d 1) true
                 ((if flag_printed then os ++ " | " else os) ++ name)%string Hhigh')
      as [IHok IHthrow].
    split.
    + intros Hall. apply Forall_app in Hall as [_ Hall].
      destruct (IHok Hall) as (names & Hnames & Hrun).
      exists (name :: names). split; [by constructor|].
      by rewrite Hrun, written_cons.
    + intros Hnot. apply IHthrow. intros Hall. apply Hnot, Forall_app.
      split; [by repeat constructor|done].
  - apply ToString_Throw in Hto as [-> Hno]; [|done].
    split; [|done]. intros Hall. apply Forall_app in Hall as [Hall _].
    apply Forall_inv in Hall. done.
Qed.

(** X7. Written to a stream, a flag set shows the names of its flags in
    the order of their bits, lowest first, with [" | "] between them; the
    empty set writes nothing. If some bit of the set is not a registered
    flag, the output stops with [UnknownFlag]. A registered zero flag is
    never shown. *)
Theorem Flags_output_names spec s os :
  registered spec →
  0 ≤ Flags.m_flags s < 2 ^ Z.of_nat digits →
  (Forall (λ b, bit_flag b ∈ FlagSpec.range spec) (set_bits (Flags.m_flags s)) →
   ∃ names,
     Forall2 (λ b name, FlagSpec.ToString spec (bit_flag b) = Ok name)
             (set_bits (Flags.m_flags s)) names ∧
     Flags_output spec s os = (Ok tt, (os ++ String.concat " | " names)%string)) ∧
  (¬ Forall (λ b, bit_flag b ∈ FlagSpec.range spec) (set_bits (Flags.m_flags s)) →
   (Flags_output spec s os).1 = Throw UnknownFlag).
Proof.
  intros Hreg Hrange. pose proof (registered_wf _ Hreg) as Hwf.
  assert (∀ j : nat, Z.testbit (Flags.m_flags s) (Z.of_nat j) = true → (0 + j < digits)%nat)
    as Hhigh.
  { intros j Hj. destruct (decide (j < digits)%nat) as [|Hge]; [done|exfalso].
    rewrite <- (Z.mod_small (Flags.m_flags s) (2 ^ Z.of_nat digits)) in Hj by done.
    rewrite Z.mod_pow2_bits_high in Hj; [done|lia]. }
  assert ((λ j, (0 + j)%nat)
            <$> filter (λ j, Z.testbit (Flags.m_flags s) (Z.of_nat j) = true)
                       (seq 0 unsigned_int_bits)
          = set_bits (Flags.m_flags s)) as Hbits.
  { rewrite list_fmap_id. unfold set_bits, unsigned_int_bits, digits.
    change 32%nat with (16 + 16)%nat. rewrite seq_app, filter_app.
    rewrite (filter_none _ (seq 16 16)); [by rewrite app_nil_r|].
    apply Forall_forall. intros j Hj%elem_of_seq Hb.
    specialize (Hhigh j Hb). unfold digits in Hhigh. lia. }
  pose proof (Flags_output_loop_spec spec unsigned_int_bits 0 (Flags.m_flags s) false os
                Hwf Hhigh) as [Hok Hthrow].
  rewrite Hbits in Hok, Hthrow. split; [|done].
  intros Hall. destruct (Hok Hall) as (names & Hnames & Hrun).
  exists names. split; [done|]. unfold Flags_output. rewrite Hrun.
  unfold written. destruct names; [by rewrite append_empty_r|done].
Qed.

Lemma Flags_output_names_witness :
  (Forall (λ b, bit_flag b ∈ FlagSpec.range spec_ABC) (set_bits (Flags.m_flags (Flags.Build 5))) →
   ∃ names,
     Forall2 (λ b name, FlagSpec.ToString spec_ABC (bit_flag b) = Ok name)
             (set_bits (Flags.m_flags (Flags.Build 5))) names ∧
     Flags_output spec_ABC (Flags.Build 5) "" = (Ok tt, ("" ++ String.concat " | " names)%string)) ∧
  (¬ Forall (λ b, bit_flag b ∈ FlagSpec.range spec_ABC)
            (set_bits (Flags.m_flags (Flags.Build 5))) →
   (Flags_output spec_ABC (Flags.Build 5) "").1 = Throw UnknownFlag).
Proof.
  apply (Flags_output_names spec_ABC (Flags.Build 5) "").
  - apply spec_ABC_registered.
  - vm_compute. split; [discriminate|reflexivity].
Defined.

(** Over [{A,B,C}]: [{A,C}] is written as its two names, the empty set as
    nothing, and a set with an unregistered bit stops after the names and
    the separator that came before it. *)
Example Flags_output_ABC :
  Flags_output spec_ABC (Flags.Build 5) "" = (Ok tt, "A | C"%string) ∧
  Flags_output spec_ABC (Flags.Build 0) "" = (Ok tt, ""%string) ∧
  Flags_output spec_ABC (Flags.Build 9) "" = (Throw UnknownFlag, "A | "%string).
Proof. repeat split. Qed.

(** ** Capacity *)

(** The seventeen values the [FlagType] constructor accepts. *)
Definition valid_flags : list FlagType.t :=
  FlagType.Build 0 :: (bit_flag <$> seq 0 digits).

Lemma valid_flags_valid : Forall FlagType_valid valid_flags.
Proof. unfold valid_flags. repeat constructor. Qed.

(** X8. A registry built by [insert] calls holds each of its flags once,
    one name per flag, and never more than sixteen flags. The constructor
    of a flag type accepts seventeen values, the zero flag and the sixteen
    bits, so no registry holds them all: once sixteen are in, [insert]
    refuses the last one with [runtime_error]. *)
Theorem FlagSpec_capacity spec :
  registered spec →
  NoDup (FlagSpec.range spec) ∧
  length (FlagSpec.range spec) = FlagSpec.m_count spec ∧
  length (FlagSpec_names spec) = FlagSpec.m_count spec ∧
  (FlagSpec.m_count spec ≤ digits)%nat ∧
  (∃ f, FlagType_valid f ∧ f ∉ FlagSpec.range spec) ∧
  (FlagSpec.m_count spec = digits →
   ∀ f name, FlagSpec.insert f name spec = (Throw runtime_error, spec)).
Proof.
  intros Hreg. pose proof (registered_NoDup _ Hreg) as Hnd.
  destruct (registered_wf _ Hreg) as (Hc & Hfl & Hsl).
  assert (length (FlagSpec.range spec) = FlagSpec.m_count spec) as Hlen
    by (unfold FlagSpec.range; rewrite length_take; lia).
  split_and!; try done.
  - unfold FlagSpec_names. rewrite length_take. lia.
  - destruct (decide (Forall (λ f, f ∈ FlagSpec.range spec) valid_flags)) as [Hall|Hnot].
    + exfalso.
      assert (valid_flags ⊆+ FlagSpec.range spec) as Hsub.
      { apply NoDup_submseteq; [|by apply Forall_forall].
        unfold valid_flags. by apply (bool_decide_unpack _). }
      apply submseteq_length in Hsub. rewrite Hlen in Hsub.
      change (length valid_flags) with 17%nat in Hsub. unfold digits in Hc. lia.
    + apply not_Forall_Exists in Hnot; [|apply _].
      apply Exists_exists in Hnot as (f & Hin & Hno). exists f. split; [|done].
      by apply (proj1 (Forall_forall _ _) valid_flags_valid).
  - intros Hfull f name. unfold FlagSpec.insert. rewrite decide_True; [done|lia].
Qed.

Lemma FlagSpec_capacity_witness :
  NoDup (FlagSpec.range spec_ABC) ∧
  length (FlagSpec.range spec_ABC) = FlagSpec.m_count spec_ABC ∧
  length (FlagSpec_names spec_ABC) = FlagSpec.m_count spec_ABC ∧
  (FlagSpec.m_count spec_ABC ≤ digits)%nat ∧
  (∃ f, FlagType_valid f ∧ f ∉ FlagSpec.range spec_ABC) ∧
  (FlagSpec.m_count spec_ABC = digits →
   ∀ f name, FlagSpec.insert f name spec_ABC = (Throw runtime_error, spec_ABC)).
Proof. apply (FlagSpec_capacity spec_ABC), spec_ABC_registered. Defined.

(** * Further properties of window geometry *)

Local Open Scope Z_scope.

Section geometry_facts.
Context {hdr : WndHeader}.

(** A larger budget changes no answer. *)
Lemma UpperLeft_mono fuel fuel' st this ul :
  (fuel ≤ fuel')%nat → UpperLeft fuel st this = Ok ul → UpperLeft fuel' st this = Ok ul.
Proof.
  revert fuel' this ul. induction fuel as [|fuel IH]; intros fuel' this ul Hle; [done|].
  destruct fuel' as [|fuel']; [lia|]. simpl.
  destruct (deref st this) as [w|]; simpl; [|done].
  destruct (LockAndResetIfExpired st (Wnd.m_parent w)) as [p|]; [|done].
  destruct (UpperLeft fuel st p) as [off|] eqn:Hoff; [|done].
  by rewrite (IH fuel' p off) by (done || lia).
Qed.

Lemma UpperLeft_live fuel st this ul :
  UpperLeft fuel st this = Ok ul → is_Some (heap st !! this).
Proof.
  destruct fuel; [done|]. simpl. unfold deref.
  destruct (heap st !! this); [by eexists|done].
Qed.

Lemma Pt_add_sub (a b c : Pt.t) : Pt.sub (Pt.add a c) (Pt.add b c) = Pt.sub a b.
Proof. unfold Pt.sub, Pt.add. simpl. f_equal; lia. Qed.

(** Both corners of a window are its relative corners moved by the same
    offset, that of the parent. *)
Lemma corners fuel st this w ul :
  heap st !! this = Some w → UpperLeft fuel st this = Ok ul →
  LowerRight fuel st this = Ok (Pt.add ul (Wnd.Size w)).
Proof.
  intros Hw Hul. unfold LowerRight, ClientUpperLeft. rewrite (deref_Some _ _ _ Hw). simpl.
  destruct fuel as [|fuel]; [done|]. simpl in Hul. rewrite (deref_Some _ _ _ Hw) in Hul.
  simpl in Hul. destruct (LockAndResetIfExpired st (Wnd.m_parent w)) as [p|].
  - destruct (UpperLeft fuel st p) as [off|] eqn:Hoff; [|done].
    rewrite (UpperLeft_mono fuel (S fuel) st p off) by (done || lia).
    injection Hul as <-. simpl. f_equal. unfold Pt.add, Wnd.Size. simpl. f_equal; lia.
  - injection Hul as <-. f_equal. unfold Pt.add, Wnd.Size. simpl.
    destruct (Wnd.m_lowerright w). simpl. f_equal; lia.
Qed.

Lemma ClientSize_run fuel st this w ul :
  heap st !! this = Some w → UpperLeft fuel st this = Ok ul →
  ClientSize fuel st this = Ok (Wnd.Size w).
Proof.
  intros Hw Hul. unfold ClientSize, ClientLowerRight, ClientUpperLeft.
  rewrite (corners _ _ _ _ _ Hw Hul), Hul. simpl. f_equal.
  unfold Pt.sub, Pt.add, Wnd.Size. simpl. f_equal; lia.
Qed.

(** X9. For a window of class [Wnd] the client area is the whole window:
    whatever the chain of parents, [LowerRight() - UpperLeft()] and
    [ClientSize()] are [Size()], and [InWindow] and [InClient] hold for
    the same points, those which [ScreenToWindow] sends into the rectangle
    from (0, 0) to [Size()], its lower and right borders left out. *)
Theorem client_area_is_window fuel st this w ul :
  heap st !! this = Some w →
  UpperLeft fuel st this = Ok ul →
  LowerRight fuel st this = Ok (Pt.add ul (Wnd.Size w)) ∧
  ClientSize fuel st this = Ok (Wnd.Size w) ∧
  ClientWidth fuel st this = Ok (Wnd.Width w) ∧
  ClientHeight fuel st this = Ok (Wnd.Height w) ∧
  ∀ pt, ∃ rel,
    ScreenToWindow fuel st this pt = Ok rel ∧
    ScreenToClient fuel st this pt = Ok rel ∧
    Pt.add rel ul = pt ∧
    InWindow fuel st this pt
    = Ok (Rect.Contains (Rect.Build (Pt.Build 0 0) (Wnd.Size w)) rel) ∧
    InClient fuel st this pt = InWindow fuel st this pt.
Proof.
  intros Hw Hul. pose proof (corners _ _ _ _ _ Hw Hul) as Hlr.
  split; [done|]. split; [by eapply ClientSize_run|].
  unfold ClientWidth, ClientHeight, ClientLowerRight, ClientUpperLeft.
  rewrite Hlr, Hul. simpl. unfold Wnd.Width, Wnd.Height.
  split; [f_equal; lia|]. split; [f_equal; lia|].
  intros pt. exists (Pt.sub pt ul).
  unfold ScreenToWindow, ScreenToClient, InWindow, InClient, ClientUpperLeft,
    ClientLowerRight. rewrite Hul, Hlr. simpl.
  split; [done|]. split; [done|].
  split; [destruct pt; unfold Pt.add, Pt.sub; simpl; f_equal; lia|].
  split; [|done].
  unfold Rect.Contains, Pt.le, Pt.lt, Wnd.Size. simpl.
  destruct (bool_decide (Pt.x ul ≤ Pt.x pt)) eqn:Hx, (bool_decide (Pt.y ul ≤ Pt.y pt)) eqn:Hy;
    simpl.
  - apply bool_decide_eq_true in Hx, Hy.
    rewrite (bool_decide_eq_true_2 (0 ≤ Pt.x pt - Pt.x ul)) by lia.
    rewrite (bool_decide_eq_true_2 (0 ≤ Pt.y pt - Pt.y ul)) by lia.
    simpl. do 2 f_equal; apply bool_decide_ext; lia.
  - apply bool_decide_eq_false in Hy.
    rewrite (bool_decide_eq_false_2 (0 ≤ Pt.y pt - Pt.y ul)) by lia.
    by rewrite andb_false_r.
  - apply bool_decide_eq_false in Hx.
    by rewrite (bool_decide_eq_false_2 (0 ≤ Pt.x pt - Pt.x ul)) by lia.
  - apply bool_decide_eq_false in Hx.
    by rewrite (bool_decide_eq_false_2 (0 ≤ Pt.x pt - Pt.x ul)) by lia.
Qed.

End geometry_facts.

Section region_facts.
Context {hdr : WndHeader}.

(** X10. [WindowRegion] answers [WR_NONE] for a window that is not
    resizable. For a resizable one it numbers the nine regions 0 to 8 row
    by row; the middle region 4 holds the points from the upper-left to
    the lower-right corner, both included, and so every point of the
    client area and, beyond it, the points on the lower and right
    borders, which [InClient] leaves out. *)
Theorem WindowRegion_regions fuel st this w ul pt resizable :
  heap st !! this = Some w →
  UpperLeft fuel st this = Ok ul →
  Resizable st this = Ok resizable →
  ∃ n,
    WindowRegion fuel st this pt = Ok (if resizable then WndRegion_of n else WR_NONE) ∧
    n = axis_region (Pt.x ul) (Pt.x ul + Wnd.Width w) (Pt.x pt)
        + 3 * axis_region (Pt.y ul) (Pt.y ul + Wnd.Height w) (Pt.y pt) ∧
    0 ≤ n ≤ 8 ∧
    (n = 4 ↔ Pt.le ul pt = true ∧ Pt.le pt (Pt.add ul (Wnd.Size w)) = true) ∧
    (InClient fuel st this pt = Ok true → n = 4).
Proof.
  intros Hw Hul Hres. pose proof (corners _ _ _ _ _ Hw Hul) as Hlr.
  eexists. split; [|split; [reflexivity|]].
  - unfold WindowRegion, ClientUpperLeft, ClientLowerRight. rewrite Hul, Hlr, Hres.
    cbn [mbind result_bind]. unfold axis_region, Pt.add, Wnd.Size, Wnd.Width, Wnd.Height.
    cbn [Pt.x Pt.y].
    by repeat case_decide.
  - unfold InClient, ClientUpperLeft, ClientLowerRight. rewrite Hul, Hlr.
    cbn [mbind result_bind].
    unfold axis_region, Pt.le, Pt.lt, Pt.add, Wnd.Size, Wnd.Width, Wnd.Height.
    cbn [Pt.x Pt.y]. rewrite !andb_true_iff, !bool_decide_eq_true.
    split; [repeat case_decide; lia|]. split.
    + repeat case_decide; lia.
    + destruct (bool_decide (Pt.x ul ≤ Pt.x pt) && bool_decide (Pt.y ul ≤ Pt.y pt)) eqn:Hle;
        [|done].
      apply andb_true_iff in Hle as [Hx Hy]. apply bool_decide_eq_true in Hx, Hy.
      intros [= Hlt]. apply andb_true_iff in Hlt as [Hx' Hy'].
      apply bool_decide_eq_true in Hx', Hy'. repeat case_decide; lia.
Qed.

End region_facts.

Section move_facts.
Context {hdr : WndHeader}.

Lemma moved_moved st this w a b :
  heap st !! this = Some w →
  moved (moved st this w a) this
        (Wnd.set_geometry (Pt.add (Wnd.m_upperleft w) a) (Pt.add (Wnd.m_lowerright w) a) w) b
  = moved st this w (Pt.add a b).
Proof.
  intros Hw. unfold moved, set_heap. simpl. rewrite insert_insert_eq.
  do 2 f_equal. unfold Wnd.set_geometry, Pt.add. simpl. f_equal; f_equal; lia.
Qed.

Lemma moved_0 st this w :
  heap st !! this = Some w → moved st this w (Pt.Build 0 0) = st.
Proof.
  intros Hw. unfold moved, set_heap.
  assert (Wnd.set_geometry (Pt.add (Wnd.m_upperleft w) (Pt.Build 0 0))
                           (Pt.add (Wnd.m_lowerright w) (Pt.Build 0 0)) w = w) as ->.
  { destruct w as [? ? [] [] ? ? ? ? ? ? ? ? ?]. unfold Wnd.set_geometry, Pt.add. simpl.
    by rewrite !Z.add_0_r. }
  rewrite insert_id by done. by destruct st.
Qed.

Lemma MoveTo_run fuel st this w pt :
  heap st !! this = Some w →
  MoveTo fuel this pt st = (Ok tt, moved st this w (Pt.sub pt (Wnd.m_upperleft w))).
Proof.
  intros Hw. rewrite <- (OffsetMove_run fuel) by done.
  unfold MoveTo, OffsetMove. unfold_M. rewrite (deref_Some _ _ _ Hw).
  f_equal; unfold Pt.add, Pt.sub, Wnd.Size; destruct pt; simpl; f_equal; lia.
Qed.

(** X11. Moving never resizes, clamps or notifies: [OffsetMove] and
    [MoveTo] shift both corners of the window, whatever its size limits,
    and leave everything else, the record of calls included, as it was.
    Two moves in a row are the move by the sum, a move and the opposite
    move restore the state, and [MoveTo pt] is the move by the way from
    the present upper-left corner to [pt]. *)
Theorem OffsetMove_composes fuel st this w a b :
  heap st !! this = Some w →
  OffsetMove fuel this a st = (Ok tt, moved st this w a) ∧
  Wnd.Size <$> heap (moved st this w a) !! this = Some (Wnd.Size w) ∧
  calls (moved st this w a) = calls st ∧
  (OffsetMove fuel this a;; OffsetMove fuel this b) st
  = OffsetMove fuel this (Pt.add a b) st ∧
  (OffsetMove fuel this a;; OffsetMove fuel this (Pt_opp a)) st = (Ok tt, st) ∧
  MoveTo fuel this (Pt.add (Wnd.m_upperleft w) a) st = OffsetMove fuel this a st.
Proof.
  intros Hw. pose proof (OffsetMove_run fuel st this w a Hw) as Ha.
  assert (heap (moved st this w a) !! this
          = Some (Wnd.set_geometry (Pt.add (Wnd.m_upperleft w) a)
                                   (Pt.add (Wnd.m_lowerright w) a) w)) as Hw'
    by apply lookup_insert_eq.
  assert (∀ c, (OffsetMove fuel this a;; OffsetMove fuel this c) st
               = (Ok tt, moved st this w (Pt.add a c))) as Hseq.
  { intros c. rewrite (bind_run _ _ _ _ _ Ha), (OffsetMove_run _ _ _ _ _ Hw').
    by rewrite moved_moved. }
  split_and!; try done.
  - rewrite Hw'. simpl. f_equal. unfold Wnd.Size, Pt.add. simpl. f_equal; lia.
  - by rewrite Hseq, (OffsetMove_run _ _ _ _ _ Hw).
  - rewrite Hseq.
    assert (Pt.add a (Pt_opp a) = Pt.Build 0 0) as ->
      by (unfold Pt.add, Pt_opp; simpl; f_equal; lia).
    by rewrite moved_0.
  - rewrite (MoveTo_run _ _ _ _ _ Hw), Ha. do 3 f_equal.
    destruct a. unfold Pt.add, Pt.sub. simpl. f_equal; lia.
Qed.

End move_facts.

Section limits_facts.
Context {hdr : WndHeader}.

Lemma insert_same_links st this w w1 :
  heap st !! this = Some w → Wnd.m_parent w1 = Wnd.m_parent w →
  same_links st (mkState (wnd_flags st) (<[this := w1]> (heap st)) (drops st) (calls st)).
Proof.
  intros Hw Hp X. simpl. rewrite lookup_insert. case_decide; [|done].
  subst X. rewrite Hw. simpl. by rewrite Hp.
Qed.

(** With the client area equal to the window, the effective minimum is the
    larger of the window's own minimum and that of its layout. *)
Lemma effective_min_size_run fuel st this w ul :
  heap st !! this = Some w → UpperLeft fuel st this = Ok ul →
  ∃ eff,
    effective_min_size fuel st this = Ok eff ∧
    Pt.le (Wnd.m_min_size w) eff = true ∧
    (Pt.x eff = Pt.x (Wnd.m_min_size w) ∨
     ∃ l lw, GetLayout st this = Ok (Some l) ∧ heap st !! l = Some lw ∧
             Pt.x eff = Pt.x (Wnd.m_min_size lw)) ∧
    (Pt.y eff = Pt.y (Wnd.m_min_size w) ∨
     ∃ l lw, GetLayout st this = Ok (Some l) ∧ heap st !! l = Some lw ∧
             Pt.y eff = Pt.y (Wnd.m_min_size lw)).
Proof.
  intros Hw Hul. unfold effective_min_size.
  rewrite (deref_Some _ _ _ Hw), (GetLayout_live _ _ _ Hw). cbn [mbind result_bind].
  destruct (LockAndResetIfExpired st (Wnd.m_layout w)) as [l|] eqn:Hl.
  - apply lock_Some in Hl as [Hl [lw Hlw]].
    rewrite (deref_Some _ _ _ Hlw), (ClientSize_run _ _ _ _ _ Hw Hul).
    cbn [mbind result_bind]. eexists. split; [done|].
    unfold Pt.le, Wnd.Size, Wnd.Width, Wnd.Height. cbn [Pt.x Pt.y].
    rewrite andb_true_iff, !bool_decide_eq_true.
    split; [lia|]. split.
    + destruct (Z.max_spec (Pt.x (Wnd.m_min_size w))
                  (Pt.x (Wnd.m_min_size lw)
                   + (Pt.x (Wnd.m_lowerright w) - Pt.x (Wnd.m_upperleft w)
                      - (Pt.x (Wnd.m_lowerright w) - Pt.x (Wnd.m_upperleft w)))))
        as [[_ ->]|[_ ->]]; [right|by left].
      exists l, lw. split; [done|]. split; [done|]. lia.
    + destruct (Z.max_spec (Pt.y (Wnd.m_min_size w))
                  (Pt.y (Wnd.m_min_size lw)
                   + (Pt.y (Wnd.m_lowerright w) - Pt.y (Wnd.m_upperleft w)
                      - (Pt.y (Wnd.m_lowerright w) - Pt.y (Wnd.m_upperleft w)))))
        as [[_ ->]|[_ ->]]; [right|by left].
      exists l, lw. split; [done|]. split; [done|]. lia.
  - eexists. split; [done|]. unfold Pt.le.
    rewrite andb_true_iff, !bool_decide_eq_true. split; [lia|]. split; by left.
Qed.

(** A [SizeMove] that asks for another size: the window is given the
    clamped corners, and nothing else of it changes. *)
Lemma SizeMove_resized fuel st this w ul lr eff :
  heap st !! this = Some w →
  effective_min_size fuel st this = Ok eff →
  Wnd.Size w ≠ Pt.sub lr ul →
  ∃ st' ul' lr',
    SizeMove fuel this ul lr st = (Ok tt, st') ∧
    heap st' = <[this := Wnd.set_geometry ul' lr' w]> (heap st) ∧
    axis_clamped (Pt.x lr - Pt.x ul) (Pt.x eff) (Pt.x (Wnd.m_max_size w))
                 (Pt.x lr' - Pt.x ul') ∧
    axis_clamped (Pt.y lr - Pt.y ul) (Pt.y eff) (Pt.y (Wnd.m_max_size w))
                 (Pt.y lr' - Pt.y ul').
Proof.
  intros Hw Heff Hne.
  pose proof (Clamp_effective fuel st this w ul lr eff Hw Heff) as Hclamp.
  set (cx := clamp_axis (Pt.x ul) (Pt.x lr) (Pt.x eff) (Pt.x (Wnd.m_max_size w))
                 (Pt.x (Wnd.m_upperleft w)) (Pt.x (Wnd.m_lowerright w))) in *.
  set (cy := clamp_axis (Pt.y ul) (Pt.y lr) (Pt.y eff) (Pt.y (Wnd.m_max_size w))
                 (Pt.y (Wnd.m_upperleft w)) (Pt.y (Wnd.m_lowerright w))) in *.
  set (w1 := Wnd.set_geometry (Pt.Build cx.1 cy.1) (Pt.Build cx.2 cy.2) w).
  set (st1 := mkState (wnd_flags st) (<[this := w1]> (heap st)) (drops st) (calls st)).
  assert (same_links st st1) as Hlinks by (by apply (insert_same_links _ _ w)).
  assert (heap st1 !! this = Some w1) as Hw1 by apply lookup_insert_eq.
  assert (∃ st', SizeMove fuel this ul lr st = (Ok tt, st') ∧ heap st' = heap st1)
    as (st' & Hrun & Hheap).
  { unfold SizeMove. unfold_M. rewrite (deref_Some _ _ _ Hw).
    rewrite bool_decide_eq_true_2 by done. rewrite Hclamp.
    rewrite (modify_Some _ _ _ _ Hw). cbn [fst snd]. fold w1. fold st1.
    rewrite (deref_Some _ _ _ Hw1), (GetLayout_live _ _ _ Hw1).
    change (Wnd.m_layout w1) with (Wnd.m_layout w).
    rewrite (same_links_lock _ _ _ Hlinks).
    unfold effective_min_size in Heff.
    rewrite (deref_Some _ _ _ Hw), (GetLayout_live _ _ _ Hw) in Heff. simpl in Heff.
    destruct (LockAndResetIfExpired st (Wnd.m_layout w)) as [l|]; simpl in Heff.
    - destruct (deref st l) as [lw|]; simpl in Heff; [|done].
      destruct (ClientSize fuel st this) as [cs|] eqn:Hcs; [|done].
      destruct (same_links_ClientSize_defined _ _ _ _ _ Hlinks Hcs) as [cs1 Hcs1].
      destruct (bool_decide (Wnd.Size w1 ≠ Wnd.Size w)); simpl; [|by eexists].
      rewrite Hcs1. simpl. destruct (Wnd.is_layout w); simpl; [by eexists|].
      destruct (LockAndResetIfExpired _ _); by eexists.
    - destruct (bool_decide (Wnd.Size w1 ≠ Wnd.Size w)); simpl; [|by eexists].
      destruct (Wnd.is_layout w); simpl; [by eexists|].
      destruct (LockAndResetIfExpired _ _); by eexists. }
  exists st', (Pt.Build cx.1 cy.1), (Pt.Build cx.2 cy.2).
  split; [done|]. split; [done|]. split; apply clamp_axis_spec.
Qed.

(** X12. [SetMinSize sz] with [sz] within the maximum size returns
    normally and leaves a window that has the new minimum and is at least
    that large: a smaller window is grown. *)
Theorem SetMinSize_grows fuel st this w ul sz :
  heap st !! this = Some w →
  UpperLeft fuel st this = Ok ul →
  Pt.le sz (Wnd.m_max_size w) = true →
  ∃ st' w',
    SetMinSize fuel this sz st = (Ok tt, st') ∧ heap st' !! this = Some w' ∧
    Wnd.m_min_size w' = sz ∧ Pt.le sz (Wnd.Size w') = true.
Proof.
  intros Hw Hul Hmax.
  set (w1 := Wnd.set_min_size sz w).
  set (st1 := mkState (wnd_flags st) (<[this := w1]> (heap st)) (drops st) (calls st)).
  assert (heap st1 !! this = Some w1) as Hw1 by apply lookup_insert_eq.
  assert (same_links st st1) as Hlinks by (by apply (insert_same_links _ _ w)).
  apply andb_true_iff in Hmax as [Hmx Hmy]. apply bool_decide_eq_true in Hmx, Hmy.
  unfold SetMinSize. unfold_M. rewrite (deref_Some _ _ _ Hw), (modify_Some _ _ _ _ Hw).
  fold w1. fold st1. case_decide as Hsmall.
  - destruct (same_links_UpperLeft_defined _ _ _ _ _ Hlinks Hul) as [ul1 Hul1].
    destruct (effective_min_size_run _ _ _ _ _ Hw1 Hul1) as (eff & Heff & Hle & _).
    apply andb_true_iff in Hle as [Hex Hey]. apply bool_decide_eq_true in Hex, Hey.
    cbn [w1 Wnd.set_min_size Wnd.m_min_size] in Hex, Hey.
    destruct (SizeMove_resized fuel st1 this w1 (Wnd.m_upperleft w1)
                (Pt.add (Wnd.m_upperleft w1)
                        (Pt.Build (Z.max (Wnd.Width w) (Pt.x sz)) (Z.max (Wnd.Height w) (Pt.y sz))))
                eff Hw1 Heff) as (st' & ul' & lr' & Hrun & Hheap & Hx & Hy).
    { unfold Wnd.Size, Pt.sub, Pt.add, Wnd.Width, Wnd.Height in *. simpl. intros [= Hxe Hye].
      lia. }
    exists st', (Wnd.set_geometry ul' lr' w1). split.
    + unfold Resize. unfold_M. by rewrite (deref_Some _ _ _ Hw1).
    + rewrite Hheap, lookup_insert_eq. split; [done|]. split; [done|].
      unfold Pt.le, Wnd.Size. cbn [Wnd.set_geometry Wnd.m_lowerright Wnd.m_upperleft Pt.x Pt.y].
      rewrite andb_true_iff, !bool_decide_eq_true.
      unfold axis_clamped, Pt.add in Hx, Hy. cbn [Pt.x Pt.y] in Hx, Hy.
      cbn [w1 Wnd.set_min_size Wnd.m_max_size] in Hx, Hy. lia.
  - assert (Pt.le sz (Wnd.Size w1) = true) as Hsz.
    { unfold Pt.le, Wnd.Size, Wnd.Width, Wnd.Height in *. simpl.
      rewrite andb_true_iff, !bool_decide_eq_true. lia. }
    destruct (bool_decide (Wnd.m_min_size w ≠ sz) && negb (Wnd.is_layout w)).
    + destruct (LockAndResetIfExpired st1 (Wnd.m_containing_layout w)); simpl;
        eexists _, w1; done.
    + by eexists _, w1.
Qed.

(** X13. [SetMaxSize sz] with [sz] not below the minimum size of the
    window nor below that of its layout returns normally and leaves a
    window that has the new maximum and is at most that large: a larger
    window is shrunk. *)
Theorem SetMaxSize_shrinks fuel st this w ul sz :
  heap st !! this = Some w →
  UpperLeft fuel st this = Ok ul →
  Pt.le (Wnd.m_min_size w) sz = true →
  (∀ l lw, GetLayout st this = Ok (Some l) → heap st !! l = Some lw →
           Pt.le (Wnd.m_min_size lw) sz = true) →
  ∃ st' w',
    SetMaxSize fuel this sz st = (Ok tt, st') ∧ heap st' !! this = Some w' ∧
    Wnd.m_max_size w' = sz ∧ Pt.le (Wnd.Size w') sz = true.
Proof.
  intros Hw Hul Hmin Hlayout.
  set (w1 := Wnd.set_max_size sz w).
  set (st1 := mkState (wnd_flags st) (<[this := w1]> (heap st)) (drops st) (calls st)).
  assert (heap st1 !! this = Some w1) as Hw1 by apply lookup_insert_eq.
  assert (same_links st st1) as Hlinks by (by apply (insert_same_links _ _ w)).
  apply andb_true_iff in Hmin as [Hmx Hmy]. apply bool_decide_eq_true in Hmx, Hmy.
  unfold SetMaxSize. unfold_M. rewrite (deref_Some _ _ _ Hw), (modify_Some _ _ _ _ Hw).
  fold w1. fold st1. case_decide as Hlarge.
  - destruct (same_links_UpperLeft_defined _ _ _ _ _ Hlinks Hul) as [ul1 Hul1].
    destruct (effective_min_size_run _ _ _ _ _ Hw1 Hul1) as (eff & Heff & _ & Hex & Hey).
    assert (∀ l lw1, GetLayout st1 this = Ok (Some l) → heap st1 !! l = Some lw1 →
                     Pt.le (Wnd.m_min_size lw1) sz = true) as Hlayout1.
    { intros l lw1. rewrite (GetLayout_live _ _ _ Hw1).
      change (Wnd.m_layout w1) with (Wnd.m_layout w).
      rewrite (same_links_lock _ _ _ Hlinks), <- (GetLayout_live _ _ _ Hw). intros Hl.
      simpl. rewrite lookup_insert. case_decide as Heq.
      - intros [= <-]. simpl. unfold Pt.le.
        rewrite andb_true_iff, !bool_decide_eq_true. done.
      - by apply Hlayout. }
    assert (Pt.x eff ≤ Pt.x sz ∧ Pt.y eff ≤ Pt.y sz) as [Hxe Hye].
    { split.
      - destruct Hex as [->|(l & lw1 & Hl & Hlw & ->)]; [done|].
        specialize (Hlayout1 l lw1 Hl Hlw). apply andb_true_iff in Hlayout1 as [Hb _].
        by apply bool_decide_eq_true in Hb.
      - destruct Hey as [->|(l & lw1 & Hl & Hlw & ->)]; [done|].
        specialize (Hlayout1 l lw1 Hl Hlw). apply andb_true_iff in Hlayout1 as [_ Hb].
        by apply bool_decide_eq_true in Hb. }
    destruct (SizeMove_resized fuel st1 this w1 (Wnd.m_upperleft w1)
                (Pt.add (Wnd.m_upperleft w1)
                        (Pt.Build (Z.min (Wnd.Width w) (Pt.x sz)) (Z.min (Wnd.Height w) (Pt.y sz))))
                eff Hw1 Heff) as (st' & ul' & lr' & Hrun & Hheap & Hx & Hy).
    { unfold Wnd.Size, Pt.sub, Pt.add, Wnd.Width, Wnd.Height in *. simpl. intros [= Hxq Hyq].
      lia. }
    exists st', (Wnd.set_geometry ul' lr' w1). split.
    + unfold Resize. unfold_M. by rewrite (deref_Some _ _ _ Hw1).
    + rewrite Hheap, lookup_insert_eq. split; [done|]. split; [done|].
      unfold Pt.le, Wnd.Size. cbn [Wnd.set_geometry Wnd.m_lowerright Wnd.m_upperleft Pt.x Pt.y].
      rewrite andb_true_iff, !bool_decide_eq_true.
      unfold axis_clamped, Pt.add in Hx, Hy. cbn [Pt.x Pt.y] in Hx, Hy.
      cbn [w1 Wnd.set_max_size Wnd.m_max_size] in Hx, Hy. lia.
  - exists st1, w1. split; [done|]. split; [done|]. split; [done|].
    unfold Pt.le, Wnd.Size, Wnd.Width, Wnd.Height in *. simpl.
    rewrite andb_true_iff, !bool_decide_eq_true. lia.
Qed.

End limits_facts.

(** * Ancestors *)

Local Open Scope Z_scope.

Section ancestor_facts.
Context {hdr : WndHeader}.

(** The window [k] parent links above [x]. *)
Fixpoint nth_parent (st : State) (k : nat) (x : nat) : option nat :=
  match k with
  | O => Some x
  | S k' =>
      w ← heap st !! x;
      p ← LockAndResetIfExpired st (Wnd.m_parent w);
      nth_parent st k' p
  end.

Lemma nth_parent_add st j k x :
  nth_parent st (j + k) x = y ← nth_parent st j x; nth_parent st k y.
Proof.
  revert x. induction j as [|j IH]; intros x; [done|]. simpl.
  destruct (heap st !! x) as [w|]; [|done]. simpl.
  destruct (LockAndResetIfExpired st (Wnd.m_parent w)) as [p|]; [|done]. simpl. apply IH.
Qed.

Lemma nth_parent_S st k x w :
  heap st !! x = Some w →
  nth_parent st (S k) x = p ← LockAndResetIfExpired st (Wnd.m_parent w); nth_parent st k p.
Proof. intros Hw. simpl. by rewrite Hw. Qed.

Lemma nth_parent_S_Some st k x y :
  nth_parent st (S k) x = Some y →
  ∃ w p, heap st !! x = Some w ∧ LockAndResetIfExpired st (Wnd.m_parent w) = Some p ∧
         is_Some (heap st !! p) ∧ nth_parent st k p = Some y.
Proof.
  simpl. destruct (heap st !! x) as [w|]; [|done]. simpl.
  destruct (LockAndResetIfExpired st (Wnd.m_parent w)) as [p|] eqn:Hp; [|done]. simpl.
  intros Hk. exists w, p. repeat split; try done. by apply lock_Some in Hp as [_ ?].
Qed.

Lemma IsAncestorOf_loop_true fuel st a po :
  IsAncestorOf_loop fuel st a po = Ok true ↔
  ∃ p k, po = Some p ∧ (k < fuel)%nat ∧ nth_parent st k p = Some a.
Proof.
  revert po. induction fuel as [|fuel IH]; intros po.
  { split; [done|]. intros (? & ? & _ & ? & _). lia. }
  simpl. destruct po as [p|]; [|split; [done|by intros (? & ? & ? & _)]].
  case_decide as Heq.
  - subst p. split; [|done]. intros _. exists a, 0%nat. split_and!; try done; lia.
  - unfold Parent, deref. destruct (heap st !! p) as [w|] eqn:Hw; simpl.
    + rewrite IH. split.
      * intros (p' & k & Hp' & Hk & Hnth). exists p, (S k). split; [done|].
        split; [lia|]. rewrite (nth_parent_S _ _ _ _ Hw), Hp'. done.
      * intros (? & k & [= <-] & Hk & Hnth). destruct k as [|k]; [simpl in Hnth; congruence|].
        rewrite (nth_parent_S _ _ _ _ Hw) in Hnth.
        destruct (LockAndResetIfExpired st (Wnd.m_parent w)) as [p'|]; [|done].
        exists p', k. split_and!; try done; lia.
    + split; [done|]. intros (? & k & [= <-] & Hk & Hnth).
      destruct k as [|k]; [simpl in Hnth; congruence|]. simpl in Hnth. by rewrite Hw in Hnth.
Qed.

(** [IsAncestorOf] answers yes exactly when some number of parent links,
    within the budget, leads from [x] to [a]. *)
Lemma IsAncestorOf_true fuel st a x :
  IsAncestorOf fuel st a (Some x) = Ok true ↔
  ∃ k, (1 ≤ k ≤ fuel)%nat ∧ nth_parent st k x = Some a.
Proof.
  unfold IsAncestorOf, Parent, deref. destruct (heap st !! x) as [w|] eqn:Hw; simpl.
  - rewrite IsAncestorOf_loop_true. split.
    + intros (p & k & Hp & Hk & Hnth). exists (S k). split; [lia|].
      by rewrite (nth_parent_S _ _ _ _ Hw), Hp.
    + intros (k & Hk & Hnth). destruct k as [|k]; [lia|].
      rewrite (nth_parent_S _ _ _ _ Hw) in Hnth.
      destruct (LockAndResetIfExpired st (Wnd.m_parent w)) as [p|]; [|done].
      exists p, k. split_and!; try done; lia.
  - split; [done|]. intros (k & Hk & Hnth). destruct k as [|k]; [lia|].
    simpl in Hnth. by rewrite Hw in Hnth.
Qed.

Lemma IsAncestorOf_loop_false fuel st a po :
  IsAncestorOf_loop fuel st a po = Ok false →
  ∀ p k, po = Some p → nth_parent st k p ≠ Some a.
Proof.
  revert po. induction fuel as [|fuel IH]; intros po; [done|]. simpl.
  destruct po as [p|]; [|done]. case_decide as Heq; [done|].
  unfold Parent, deref. destruct (heap st !! p) as [w|] eqn:Hw; [|done]. simpl.
  intros Hloop ? k [= <-]. destruct k as [|k]; [simpl; congruence|].
  rewrite (nth_parent_S _ _ _ _ Hw).
  destruct (LockAndResetIfExpired st (Wnd.m_parent w)) as [p'|] eqn:Hp'; [|done].
  by apply (IH _ Hloop).
Qed.

Lemma IsAncestorOf_false fuel st a x :
  IsAncestorOf fuel st a (Some x) = Ok false →
  ∀ k, (1 ≤ k)%nat → nth_parent st k x ≠ Some a.
Proof.
  unfold IsAncestorOf, Parent, deref. destruct (heap st !! x) as [w|] eqn:Hw; [|done]. simpl.
  intros Hloop k Hk. destruct k as [|k]; [lia|].
  rewrite (nth_parent_S _ _ _ _ Hw).
  destruct (LockAndResetIfExpired st (Wnd.m_parent w)) as [p|] eqn:Hp; [|done].
  by apply (IsAncestorOf_loop_false _ _ _ _ Hloop).
Qed.

(** A window whose position can be computed has its ancestors within the
    budget. *)
Lemma UpperLeft_nth fuel st x ul k y :
  UpperLeft fuel st x = Ok ul → nth_parent st k x = Some y →
  (k < fuel)%nat ∧ ∃ ul', UpperLeft (fuel - k) st y = Ok ul'.
Proof.
  revert fuel x ul. induction k as [|k IH]; intros fuel x ul Hul Hnth.
  - injection Hnth as <-. destruct fuel; [done|]. split; [lia|]. by exists ul.
  - apply nth_parent_S_Some in Hnth as (w & p & Hw & Hp & _ & Hnth).
    destruct fuel as [|fuel]; [done|]. simpl in Hul.
    rewrite (deref_Some _ _ _ Hw) in Hul. simpl in Hul. rewrite Hp in Hul.
    destruct (UpperLeft fuel st p) as [off|] eqn:Hoff; [|done].
    destruct (IH _ _ _ Hoff Hnth) as [Hlt Hy]. split; [lia|done].
Qed.

(** No window whose position can be computed is above itself. *)
Lemma UpperLeft_acyclic fuel st x ul k :
  UpperLeft fuel st x = Ok ul → nth_parent st k x = Some x → k = 0%nat.
Proof.
  revert x ul k. induction fuel as [fuel IH] using lt_wf_ind. intros x ul k Hul Hnth.
  destruct k as [|k]; [done|exfalso].
  destruct (UpperLeft_nth _ _ _ _ _ _ Hul Hnth) as [Hlt [ul' Hul']].
  assert (S k = 0)%nat; [|lia].
  apply (IH (fuel - S k)%nat) with x ul'; [lia|done..].
Qed.

Lemma IsAncestorOf_loop_total fuel st a x w ul :
  heap st !! x = Some w → UpperLeft fuel st x = Ok ul →
  ∃ b, IsAncestorOf_loop fuel st a (LockAndResetIfExpired st (Wnd.m_parent w)) = Ok b.
Proof.
  revert x w ul. induction fuel as [|fuel IH]; intros x w ul Hw Hul; [done|].
  simpl in Hul. rewrite (deref_Some _ _ _ Hw) in Hul. simpl in Hul. simpl.
  destruct (LockAndResetIfExpired st (Wnd.m_parent w)) as [p|] eqn:Hp; [|by eexists].
  case_decide; [by eexists|].
  destruct (UpperLeft fuel st p) as [off|] eqn:Hoff; [|done].
  apply lock_Some in Hp as [_ [wp Hwp]].
  rewrite (Parent_live _ _ _ Hwp). simpl. by apply (IH p wp off).
Qed.

Lemma IsAncestorOf_total fuel st a x ul :
  UpperLeft fuel st x = Ok ul → ∃ r, IsAncestorOf fuel st a (Some x) = Ok r.
Proof.
  intros Hul. destruct (UpperLeft_live _ _ _ _ Hul) as [w Hw].
  unfold IsAncestorOf. rewrite (Parent_live _ _ _ Hw). simpl.
  by apply (IsAncestorOf_loop_total _ _ _ x w ul).
Qed.

Lemma IsAncestorOf_not_true fuel st a x ul :
  UpperLeft fuel st x = Ok ul →
  (∀ k, (1 ≤ k)%nat → nth_parent st k x ≠ Some a) →
  IsAncestorOf fuel st a (Some x) = Ok false.
Proof.
  intros Hul Hno. destruct (IsAncestorOf_total fuel st a x ul Hul) as [[] Hr]; [|done].
  apply IsAncestorOf_true in Hr as (k & Hk & Hnth). by destruct (Hno k); [lia|].
Qed.

(** X14. [IsAncestorOf] is a strict order on the windows whose position
    can be computed. If [b] is an ancestor of [c], then [c] is no ancestor
    of [b] nor of itself, and every ancestor of [b] is one of [c]. The
    question is answered, for any window asked about, within the budget
    that [UpperLeft] needs for [c]. *)
Theorem IsAncestorOf_strict_order fuel st b c ul :
  UpperLeft fuel st c = Ok ul →
  IsAncestorOf fuel st b (Some c) = Ok true →
  IsAncestorOf fuel st c (Some c) = Ok false ∧
  IsAncestorOf fuel st c (Some b) = Ok false ∧
  (∀ a, IsAncestorOf fuel st a (Some b) = Ok true →
        IsAncestorOf fuel st a (Some c) = Ok true) ∧
  (∀ a, ∃ r, IsAncestorOf fuel st a (Some c) = Ok r).
Proof.
  intros Hul Hbc. apply IsAncestorOf_true in Hbc as (k2 & Hk2 & Hn2).
  destruct (UpperLeft_nth _ _ _ _ _ _ Hul Hn2) as [_ [ulb Hulb]].
  apply (UpperLeft_mono _ fuel) in Hulb; [|lia].
  split_and!.
  - apply (IsAncestorOf_not_true _ _ _ _ ul Hul). intros k Hk Hnth.
    pose proof (UpperLeft_acyclic _ _ _ _ _ Hul Hnth). lia.
  - apply (IsAncestorOf_not_true _ _ _ _ ulb Hulb). intros k Hk Hnth.
    assert (nth_parent st (k2 + k) c = Some c) as Hcycle
      by (by rewrite nth_parent_add, Hn2).
    pose proof (UpperLeft_acyclic _ _ _ _ _ Hul Hcycle). lia.
  - intros a. rewrite !IsAncestorOf_true. intros (k1 & Hk1 & Hn1).
    assert (nth_parent st (k2 + k1) c = Some a) as Hn
      by (by rewrite nth_parent_add, Hn2).
    destruct (UpperLeft_nth _ _ _ _ _ _ Hul Hn) as [Hlt _].
    exists (k2 + k1)%nat. split; [lia|done].
  - intros a. by apply (IsAncestorOf_total _ _ _ _ ul).
Qed.

(** The state with [a] moved by [d] has the links of [st]. *)
Lemma moved_same_links st a aw d :
  heap st !! a = Some aw → same_links st (moved st a aw d).
Proof. intros Haw. by apply (insert_same_links _ _ aw). Qed.

Lemma moved_nth_parent st a aw d k x :
  heap st !! a = Some aw → nth_parent (moved st a aw d) k x = nth_parent st k x.
Proof.
  intros Haw. revert x. induction k as [|k IH]; intros x; [done|]. simpl.
  rewrite lookup_insert. case_decide as Heq.
  - subst x. rewrite Haw. simpl.
    rewrite (same_links_lock _ _ _ (moved_same_links st a aw d Haw)).
    destruct (LockAndResetIfExpired st (Wnd.m_parent aw)); [|done]. simpl. apply IH.
  - destruct (heap st !! x) as [w|]; [|done]. simpl.
    rewrite (same_links_lock _ _ _ (moved_same_links st a aw d Haw)).
    destruct (LockAndResetIfExpired st (Wnd.m_parent w)); [|done]. simpl. apply IH.
Qed.

Lemma UpperLeft_moved fuel st a aw d x ul :
  heap st !! a = Some aw →
  UpperLeft fuel st x = Ok ul →
  ((∃ k, nth_parent st k x = Some a) →
   UpperLeft fuel (moved st a aw d) x = Ok (Pt.add ul d)) ∧
  ((∀ k, nth_parent st k x ≠ Some a) →
   UpperLeft fuel (moved st a aw d) x = Ok ul).
Proof.
  intros Haw. pose proof (moved_same_links st a aw d Haw) as Hlinks.
  revert x ul. induction fuel as [|fuel IH]; intros x ul Hul; [done|].
  pose proof Hul as Hul0. simpl in Hul. unfold deref in Hul.
  destruct (heap st !! x) as [w|] eqn:Hw; [|done]. simpl in Hul.
  assert (∀ p, LockAndResetIfExpired st (Wnd.m_parent w) = Some p →
               (∃ k, nth_parent st k p = Some a) → (∃ k, nth_parent st k x = Some a))
    as Hup.
  { intros p Hp [k Hk]. exists (S k). by rewrite (nth_parent_S _ _ _ _ Hw), Hp. }
  split.
  - intros Hchain. destruct (decide (x = a)) as [->|Hne].
    + assert (w = aw) as -> by congruence.
      cbn [UpperLeft]. unfold deref, moved, set_heap. cbn [heap].
      rewrite lookup_insert_eq. cbn [mbind result_bind Wnd.set_geometry Wnd.m_parent
        Wnd.m_upperleft].
      change (LockAndResetIfExpired _ (Wnd.m_parent aw))
        with (LockAndResetIfExpired (moved st a aw d) (Wnd.m_parent aw)).
      rewrite (same_links_lock _ _ _ Hlinks).
      destruct (LockAndResetIfExpired st (Wnd.m_parent aw)) as [p|] eqn:Hp.
      * destruct (UpperLeft fuel st p) as [off|] eqn:Hoff; [|done].
        destruct (IH _ _ Hoff) as [_ IHsame].
        change (UpperLeft fuel _ p) with (UpperLeft fuel (moved st a aw d) p).
        rewrite IHsame.
        { injection Hul as <-. cbn [mbind result_bind]. f_equal.
          unfold Pt.add. simpl. f_equal; lia. }
        intros k Hk.
        assert (nth_parent st (S k) a = Some a) as Hcycle
          by (by rewrite (nth_parent_S _ _ _ _ Hw), Hp).
        by pose proof (UpperLeft_acyclic _ _ _ _ _ Hul0 Hcycle).
      * by injection Hul as <-.
    + destruct Hchain as [k Hk]. destruct k as [|k]; [simpl in Hk; congruence|].
      rewrite (nth_parent_S _ _ _ _ Hw) in Hk.
      cbn [UpperLeft]. unfold deref, moved, set_heap. cbn [heap].
      rewrite lookup_insert_ne, Hw by done. cbn [mbind result_bind].
      change (LockAndResetIfExpired _ (Wnd.m_parent w))
        with (LockAndResetIfExpired (moved st a aw d) (Wnd.m_parent w)).
      rewrite (same_links_lock _ _ _ Hlinks).
      destruct (LockAndResetIfExpired st (Wnd.m_parent w)) as [p|] eqn:Hp; [|done].
      destruct (UpperLeft fuel st p) as [off|] eqn:Hoff; [|done].
      destruct (IH _ _ Hoff) as [IHmoved _].
      change (UpperLeft fuel _ p) with (UpperLeft fuel (moved st a aw d) p).
      rewrite IHmoved by eauto. injection Hul as <-. cbn [mbind result_bind]. f_equal.
      unfold Pt.add. simpl. f_equal; lia.
  - intros Hno. assert (x ≠ a) as Hne by (intros ->; by apply (Hno 0%nat)).
    cbn [UpperLeft]. unfold deref, moved, set_heap. cbn [heap].
    rewrite lookup_insert_ne, Hw by done. cbn [mbind result_bind].
    change (LockAndResetIfExpired _ (Wnd.m_parent w))
      with (LockAndResetIfExpired (moved st a aw d) (Wnd.m_parent w)).
    rewrite (same_links_lock _ _ _ Hlinks).
    destruct (LockAndResetIfExpired st (Wnd.m_parent w)) as [p|] eqn:Hp; [|done].
    destruct (UpperLeft fuel st p) as [off|] eqn:Hoff; [|done].
    destruct (IH _ _ Hoff) as [_ IHsame].
    change (UpperLeft fuel _ p) with (UpperLeft fuel (moved st a aw d) p).
    rewrite IHsame; [done|]. intros k Hk. apply (Hno (S k)).
    by rewrite (nth_parent_S _ _ _ _ Hw), Hp.
Qed.

(** X15. Moving a window moves what is below it: after [OffsetMove] of
    [a] by [d], the screen position of [a] and of every window that has [a]
    among its ancestors is the former one plus [d]; that of every other
    window is the former one. *)
Theorem OffsetMove_moves_descendants fuel st a aw x ul d :
  heap st !! a = Some aw →
  UpperLeft fuel st x = Ok ul →
  ∃ below,
    IsAncestorOf fuel st a (Some x) = Ok below ∧
    UpperLeft fuel (after (OffsetMove fuel a d) st) x
    = Ok (if bool_decide (x = a) || below then Pt.add ul d else ul).
Proof.
  intros Haw Hul. unfold after. rewrite (OffsetMove_run _ _ _ _ _ Haw). cbn [snd].
  destruct (IsAncestorOf_total fuel st a x ul Hul) as [below Hbelow].
  exists below. split; [done|].
  destruct (UpperLeft_moved fuel st a aw d x ul Haw Hul) as [Hmoved Hsame].
  case_bool_decide as Heq; simpl.
  - subst x. apply Hmoved. by exists 0%nat.
  - destruct below.
    + apply IsAncestorOf_true in Hbelow as (k & _ & Hk). apply Hmoved. by exists k.
    + apply Hsame. intros k Hk. destruct k as [|k]; [simpl in Hk; congruence|].
      by apply (IsAncestorOf_false _ _ _ _ Hbelow (S k)); [lia|].
Qed.

Lemma RootParent_loop_run fuel st p wp ul :
  heap st !! p = Some wp → UpperLeft fuel st p = Ok ul →
  ∃ root k,
    RootParent_loop fuel st (Some p) (LockAndResetIfExpired st (Wnd.m_parent wp))
    = Ok (Some root) ∧
    (k < fuel)%nat ∧ nth_parent st k p = Some root ∧ Parent st root = Ok None.
Proof.
  revert p wp ul. induction fuel as [|fuel IH]; intros p wp ul Hwp Hul; [done|].
  simpl in Hul. rewrite (deref_Some _ _ _ Hwp) in Hul. simpl in Hul. simpl.
  destruct (LockAndResetIfExpired st (Wnd.m_parent wp)) as [g|] eqn:Hg.
  - destruct (UpperLeft fuel st g) as [off|] eqn:Hoff; [|done].
    pose proof Hg as Hg'. apply lock_Some in Hg' as [_ [wg Hwg]].
    rewrite (Parent_live _ _ _ Hwg). simpl.
    destruct (IH g wg off Hwg Hoff) as (root & k & Hrun & Hk & Hnth & Hroot).
    exists root, (S k). split_and!; try done; [lia|].
    by rewrite (nth_parent_S _ _ _ _ Hwp), Hg.
  - exists p, 0%nat. split_and!; try done; [lia|].
    by rewrite (Parent_live _ _ _ Hwp), Hg.
Qed.

(** X16. [RootParent] returns within the budget that [UpperLeft] needs.
    It answers with no window exactly for a window without a parent, and
    otherwise with an ancestor of the window that has no parent itself. *)
Theorem RootParent_is_root fuel st x ul :
  UpperLeft fuel st x = Ok ul →
  ∃ r,
    RootParent fuel st x = Ok r ∧
    (r = None ↔ Parent st x = Ok None) ∧
    (∀ root, r = Some root →
             Parent st root = Ok None ∧ IsAncestorOf fuel st root (Some x) = Ok true).
Proof.
  intros Hul. destruct (UpperLeft_live _ _ _ _ Hul) as [w Hw].
  unfold RootParent. rewrite (Parent_live _ _ _ Hw). cbn [mbind result_bind].
  destruct fuel as [|fuel]; [done|]. pose proof Hul as Hul0.
  simpl in Hul. rewrite (deref_Some _ _ _ Hw) in Hul. simpl in Hul.
  destruct (LockAndResetIfExpired st (Wnd.m_parent w)) as [p|] eqn:Hp.
  - destruct (UpperLeft fuel st p) as [off|] eqn:Hoff; [|done].
    pose proof Hp as Hp'. apply lock_Some in Hp' as [_ [wp Hwp]].
    rewrite (Parent_live _ _ _ Hwp). cbn [mbind result_bind].
    apply (UpperLeft_mono _ (S fuel)) in Hoff; [|lia].
    destruct (RootParent_loop_run (S fuel) st p wp off Hwp Hoff)
      as (root & k & Hrun & Hk & Hnth & Hroot).
    exists (Some root). split; [done|]. split; [done|].
    intros ? [= <-]. split; [done|]. apply IsAncestorOf_true.
    destruct (UpperLeft_nth _ _ _ _ (S k) root Hul0) as [Hlt _].
    { by rewrite (nth_parent_S _ _ _ _ Hw), Hp. }
    exists (S k). split; [lia|]. by rewrite (nth_parent_S _ _ _ _ Hw), Hp.
  - exists None. split; [done|]. split; [done|]. by intros ? [=].
Qed.

End ancestor_facts.

(** * Further properties of the window tree *)

Local Open Scope Z_scope.

Section tree_more_facts.
Context {hdr : WndHeader}.

(** ** Lists of children *)

Lemma erase_first_id c l : c ∉ l → erase_first c l = l.
Proof.
  induction l as [|y l IH]; simpl; [done|]. intros Hno.
  rewrite decide_False by (intros ->; apply Hno, list_elem_of_here).
  f_equal. apply IH. intros ?. by apply Hno, list_elem_of_further.
Qed.

Lemma erase_first_others c l :
  filter (λ x, x ≠ c) (erase_first c l) = filter (λ x, x ≠ c) l.
Proof.
  induction l as [|y l IH]; simpl; [done|]. case_decide as Heq.
  - subst y. by rewrite filter_cons_False by (intros Hcc; by apply Hcc).
  - by rewrite !filter_cons, IH.
Qed.

Lemma erase_first_Permutation c l : c ∈ l → c :: erase_first c l ≡ₚ l.
Proof.
  induction l as [|y l IH]; simpl; [by intros ?%elem_of_nil|].
  case_decide as Heq; [by subst|].
  intros [->|Hin]%elem_of_cons; [done|]. rewrite Permutation_swap. by rewrite IH.
Qed.

Lemma filter_all {A} (P : A → Prop) `{∀ x, Decision (P x)} (l : list A) :
  Forall P l → filter P l = l.
Proof.
  induction 1 as [|x l Hx _ IH]; [done|]. by rewrite filter_cons_True, IH.
Qed.

Lemma erase_first_filter c l : NoDup l → erase_first c l = filter (λ x, x ≠ c) l.
Proof.
  induction 1 as [|y l Hy Hnd IH]; simpl; [done|]. case_decide as Heq.
  - subst y. rewrite filter_cons_False by (intros Hcc; by apply Hcc).
    symmetry. apply filter_all, Forall_forall. by intros x Hx ->.
  - by rewrite filter_cons_True, IH.
Qed.

(** X17. [MoveChildUp] and [MoveChildDown] of a child reorder the list of
    children and touch nothing else: the child ends last, respectively
    first, the list keeps its members, and the other children keep their
    order. For a window that is not a child, and for no window, both do
    nothing. *)
Theorem MoveChild_reorders st this w c :
  heap st !! this = Some w →
  c ∈ Wnd.m_children w →
  (∃ up down,
     MoveChildUp this (Some c) st
     = (Ok tt, set_heap st (<[this := Wnd.set_children up w]> (heap st))) ∧
     MoveChildDown this (Some c) st
     = (Ok tt, set_heap st (<[this := Wnd.set_children down w]> (heap st))) ∧
     last up = Some c ∧ head down = Some c ∧
     up ≡ₚ Wnd.m_children w ∧ down ≡ₚ Wnd.m_children w ∧
     filter (λ x, x ≠ c) up = filter (λ x, x ≠ c) (Wnd.m_children w) ∧
     filter (λ x, x ≠ c) down = filter (λ x, x ≠ c) (Wnd.m_children w)) ∧
  (∀ other, other ∉ Wnd.m_children w →
            MoveChildUp this (Some other) st = (Ok tt, st) ∧
            MoveChildDown this (Some other) st = (Ok tt, st)) ∧
  MoveChildUp this None st = (Ok tt, st) ∧
  MoveChildDown this None st = (Ok tt, st).
Proof.
  intros Hw Hin. split; [|split; [|done]].
  - exists (erase_first c (Wnd.m_children w) ++ [c]), (c :: erase_first c (Wnd.m_children w)).
    split_and!.
    + unfold MoveChildUp. unfold_M. rewrite (deref_Some _ _ _ Hw), decide_True by done.
      by rewrite (modify_Some _ _ _ _ Hw).
    + unfold MoveChildDown. unfold_M. rewrite (deref_Some _ _ _ Hw), decide_True by done.
      by rewrite (modify_Some _ _ _ _ Hw).
    + apply last_snoc.
    + done.
    + rewrite <- Permutation_cons_append. by apply erase_first_Permutation.
    + by apply erase_first_Permutation.
    + rewrite filter_app, erase_first_others.
      rewrite (filter_cons_False _ c) by (intros Hcc; by apply Hcc). by rewrite app_nil_r.
    + rewrite filter_cons_False by (intros Hcc; by apply Hcc). apply erase_first_others.
  - intros other Hno. unfold MoveChildUp, MoveChildDown. unfold_M.
    rewrite (deref_Some _ _ _ Hw). rewrite !decide_False by done. done.
Qed.

(** ** Detaching *)

(** What [DetachChildCore] does to the detached window. *)
Definition orphan (w : Wnd.t) : Wnd.t :=
  Wnd.set_containing_layout None (Wnd.set_parent None w).

Lemma lock_alter st (h : gmap nat Wnd.t) (f : Wnd.t → Wnd.t) i ptr :
  LockAndResetIfExpired (set_heap st (alter f i h)) ptr
  = LockAndResetIfExpired (set_heap st h) ptr.
Proof.
  destruct ptr as [p|]; [|done]. simpl.
  pose proof (alter_live f h i p) as Hlive.
  destruct (alter f i h !! p), (h !! p); try done.
  - by destruct (proj1 Hlive) as [? ?].
  - by destruct (proj2 Hlive) as [? ?].
Qed.

Lemma DetachChildCore_exact st O C ow :
  heap st !! O = Some ow → is_Some (heap st !! C) →
  DetachChildCore O (Some C) st
  = (Ok tt,
     set_heap st
       (alter (if decide (LockAndResetIfExpired st (Wnd.m_layout ow) = Some C)
               then Wnd.set_layout None else id) O
              (alter orphan C (heap st)))).
Proof.
  intros HO HC. unfold DetachChildCore.
  rewrite (bind_run _ _ _ _ _ (modify_live st C _ HC)).
  rewrite (bind_run _ _ _ _ _
             (modify_live (set_heap st (alter (Wnd.set_parent None) C (heap st))) C _
                ltac:(simpl; by apply alter_live))).
  cbn [heap set_heap]. rewrite set_heap_set_heap, alter_alter_eq.
  change (Wnd.set_containing_layout None ∘ Wnd.set_parent None) with orphan.
  assert (∃ ow1, alter orphan C (heap st) !! O = Some ow1 ∧ Wnd.m_layout ow1 = Wnd.m_layout ow)
    as (ow1 & HO1 & Hl1).
  { destruct (decide (C = O)) as [->|Hne].
    - rewrite lookup_alter_eq, HO. simpl. eexists. split; [done|]. by destruct ow.
    - rewrite lookup_alter_ne, HO by done. by eexists. }
  rewrite (bind_read _ _ _ _ (GetLayout_live (set_heap st _) _ _ HO1)).
  rewrite Hl1, lock_alter, set_heap_same. case_decide.
  - rewrite modify_live; [done|]. simpl. eauto.
  - unfold mret, M_ret. by rewrite (alter_id id) by done.
Qed.

Lemma DetachChild_exact st O C ow :
  heap st !! O = Some ow → C ∈ Wnd.m_children ow → is_Some (heap st !! C) →
  DetachChild O (Some C) st
  = (Ok tt,
     set_heap st
       (alter (λ w', Wnd.set_children (erase_first C (Wnd.m_children w')) w') O
          (alter (if decide (LockAndResetIfExpired st (Wnd.m_layout ow) = Some C)
                  then Wnd.set_layout None else id) O
                 (alter orphan C (heap st))))).
Proof.
  intros HO Hin HC. unfold DetachChild.
  rewrite (bind_read _ _ _ _ (deref_Some _ _ _ HO)), decide_True by done.
  rewrite (bind_run _ _ _ _ _ (DetachChildCore_exact _ _ _ _ HO HC)).
  rewrite modify_live; [done|]. simpl. rewrite !alter_live. eauto.
Qed.

Lemma orphan_orphan w : orphan (orphan w) = orphan w.
Proof. by destruct w. Qed.

Lemma lookup_foldl_orphan (h : gmap nat Wnd.t) l X :
  foldl (λ h c, alter orphan c h) h l !! X
  = (if decide (X ∈ l) then orphan else id) <$> h !! X.
Proof.
  revert h. induction l as [|c l IH]; intros h; simpl.
  - by destruct (h !! X).
  - rewrite IH, lookup_alter. destruct (decide (c = X)) as [->|Hne].
    + rewrite (decide_True (P := X ∈ X :: l)) by apply list_elem_of_here.
      destruct (h !! X) as [w|]; [|by case_decide]. simpl.
      case_decide; [by rewrite orphan_orphan|done].
    + destruct (decide (X ∈ l)) as [Hin|Hno].
      * by rewrite decide_True by (by apply list_elem_of_further).
      * rewrite decide_False; [done|]. intros [?|?]%elem_of_cons; done.
Qed.

Lemma DetachChildren_loop_exact this l st w0 :
  heap st !! this = Some w0 → Wnd.m_layout w0 = None →
  (∀ c, c ∈ l → is_Some (heap st !! c)) →
  DetachChildren_loop this l st
  = (Ok tt, set_heap st (foldl (λ h c, alter orphan c h) (heap st) l)).
Proof.
  revert st w0. induction l as [|c l IH]; intros st w0 Hthis Hlayout Hlive.
  - cbn [DetachChildren_loop foldl]. by rewrite set_heap_same.
  - cbn [DetachChildren_loop foldl].
    rewrite (bind_run _ _ _ _ _
               (DetachChildCore_exact _ _ _ _ Hthis (Hlive c ltac:(apply list_elem_of_here)))).
    rewrite Hlayout. cbn [LockAndResetIfExpired]. rewrite decide_False by done.
    rewrite (alter_id id) by done.
    assert (∃ w1, alter orphan c (heap st) !! this = Some w1 ∧ Wnd.m_layout w1 = None)
      as (w1 & Hthis1 & Hlayout1).
    { destruct (decide (c = this)) as [->|Hne].
      - rewrite lookup_alter_eq, Hthis. simpl. eexists. split; [done|]. by destruct w0.
      - rewrite lookup_alter_ne, Hthis by done. by eexists. }
    rewrite (IH (set_heap st (alter orphan c (heap st))) w1); [done..|].
    intros x Hx. simpl. apply alter_live, Hlive. by apply list_elem_of_further.
Qed.

(** X18. [DetachChildren] returns normally and leaves the window without
    children and without layout; every former child is left without
    parent and without containing layout; no other window changes, and
    nothing outside is called. *)
Theorem DetachChildren_orphans st this w :
  heap st !! this = Some w →
  (∀ c, c ∈ Wnd.m_children w → is_Some (heap st !! c)) →
  ∃ st',
    DetachChildren this st = (Ok tt, st') ∧
    children st' this = [] ∧
    GetLayout st' this = Ok None ∧
    (∀ c, c ∈ Wnd.m_children w →
          Parent st' c = Ok None ∧ ContainingLayout st' c = Ok None) ∧
    (∀ X, X ≠ this → X ∉ Wnd.m_children w → heap st' !! X = heap st !! X) ∧
    calls st' = calls st.
Proof.
  intros Hw Hlive.
  set (h1 := alter (Wnd.set_layout None) this (heap st)).
  assert (h1 !! this = Some (Wnd.set_layout None w)) as Hthis1
    by (unfold h1; by rewrite lookup_alter_eq, Hw).
  set (hn := foldl (λ h c, alter orphan c h) h1 (Wnd.m_children w)).
  assert (∃ w2, hn !! this = Some w2 ∧ Wnd.m_layout w2 = None ∧
                (this ∈ Wnd.m_children w → Wnd.m_parent w2 = None ∧
                                           Wnd.m_containing_layout w2 = None))
    as (w2 & Hthis2 & Hlayout2 & Hself).
  { unfold hn. rewrite lookup_foldl_orphan, Hthis1. simpl. eexists. split; [done|].
    case_decide; [|done]. by destruct w. }
  exists (set_heap st (<[this := Wnd.set_children [] w2]> hn)).
  split_and!.
  - unfold DetachChildren.
    rewrite (bind_run _ _ _ _ _ (modify_live st this _ ltac:(eauto))). fold h1.
    rewrite (bind_read _ _ _ _ (deref_Some (set_heap st h1) _ _ Hthis1)).
    change (Wnd.m_children (Wnd.set_layout None w)) with (Wnd.m_children w).
    rewrite (bind_run _ _ _ _ _
               (DetachChildren_loop_exact this _ (set_heap st h1) _ Hthis1 eq_refl
                  ltac:(intros c Hc; simpl; unfold h1; by apply alter_live, Hlive))).
    cbn [heap set_heap]. fold hn. by rewrite (modify_Some (set_heap st hn) _ _ _ Hthis2).
  - unfold children. simpl. by rewrite lookup_insert_eq.
  - rewrite (GetLayout_live _ _ (Wnd.set_children [] w2)) by apply lookup_insert_eq.
    cbn [Wnd.set_children Wnd.m_layout]. by rewrite Hlayout2.
  - intros c Hc. destruct (decide (c = this)) as [->|Hne].
    + destruct (Hself Hc) as [Hp Hcl]. unfold ContainingLayout.
      rewrite (Parent_live _ _ (Wnd.set_children [] w2)) by apply lookup_insert_eq.
      rewrite (deref_Some _ _ (Wnd.set_children [] w2)) by apply lookup_insert_eq.
      cbn [Wnd.set_children Wnd.m_parent Wnd.m_containing_layout mbind result_bind].
      by rewrite Hp, Hcl.
    + destruct (Hlive c Hc) as [cw Hcw].
      assert (heap (set_heap st (<[this := Wnd.set_children [] w2]> hn)) !! c
              = Some (orphan cw)) as Hc'.
      { simpl. rewrite lookup_insert_ne by done. unfold hn.
        rewrite lookup_foldl_orphan, decide_True by done.
        unfold h1. by rewrite lookup_alter_ne, Hcw by done. }
      unfold ContainingLayout. by rewrite (Parent_live _ _ _ Hc'), (deref_Some _ _ _ Hc').
  - intros X Hne Hno. simpl. rewrite lookup_insert_ne by done. unfold hn.
    rewrite lookup_foldl_orphan, decide_False by done. unfold h1.
    rewrite lookup_alter_ne by done. by destruct (heap st !! X).
  - done.
Qed.

(** X19. Detaching the window that is the installed layout clears the
    layout reference of the parent, next to the links of the child;
    detaching any other child leaves the layout installed. [DetachLayout]
    is that detachment and hands the layout back. *)
Theorem DetachChild_layout st p pw l :
  heap st !! p = Some pw →
  NoDup (Wnd.m_children pw) →
  GetLayout st p = Ok (Some l) →
  l ∈ Wnd.m_children pw →
  ∃ st',
    DetachChild p (Some l) st = (Ok tt, st') ∧
    DetachLayout p st = (Ok (Some l), st') ∧
    GetLayout st' p = Ok None ∧
    Parent st' l = Ok None ∧
    ContainingLayout st' l = Ok None ∧
    children st' p = erase_first l (Wnd.m_children pw) ∧
    (l ∉ children st' p) ∧
    (∀ c, c ∈ Wnd.m_children pw → c ≠ l → is_Some (heap st !! c) →
          GetLayout (after (DetachChild p (Some c)) st) p = Ok (Some l)).
Proof.
  intros Hp Hnd Hlayout Hin.
  rewrite (GetLayout_live _ _ _ Hp) in Hlayout. injection Hlayout as Hlayout.
  pose proof Hlayout as Hl. apply lock_Some in Hl as [_ [lw Hlw]].
  pose proof (DetachChild_exact st p l pw Hp Hin ltac:(eauto)) as Hrun.
  rewrite Hlayout, decide_True in Hrun by done.
  set (st' := set_heap st
                (alter (λ w', Wnd.set_children (erase_first l (Wnd.m_children w')) w') p
                   (alter (Wnd.set_layout None) p (alter orphan l (heap st))))) in *.
  exists st'. split; [exact Hrun|].
  assert (∃ pw', heap st' !! p = Some pw' ∧
                 Wnd.m_layout pw' = None ∧
                 Wnd.m_children pw' = erase_first l (Wnd.m_children pw) ∧
                 (p = l → Wnd.m_parent pw' = None ∧ Wnd.m_containing_layout pw' = None))
    as (pw' & Hp' & Hlay' & Hch' & Hself).
  { cbn [st' heap set_heap]. rewrite !lookup_alter_eq.
    destruct (decide (l = p)) as [->|Hne].
    - rewrite lookup_alter_eq, Hp. simpl. eexists. split; [done|]. by destruct pw.
    - rewrite lookup_alter_ne, Hp by done. simpl. eexists. split; [done|].
      destruct pw; simpl; split_and!; done. }
  assert (p ≠ l → heap st' !! l = Some (orphan lw)) as Hl'.
  { intros Hne. cbn [st' heap set_heap].
    by rewrite !lookup_alter_ne, lookup_alter_eq, Hlw by done. }
  split_and!.
  - unfold DetachLayout. rewrite (bind_read _ _ _ (Some l)).
    + by rewrite (bind_run _ _ _ _ _ Hrun).
    + by rewrite (GetLayout_live _ _ _ Hp), Hlayout.
  - rewrite (GetLayout_live _ _ _ Hp'). by rewrite Hlay'.
  - destruct (decide (p = l)) as [<-|Hne].
    + rewrite (Parent_live _ _ _ Hp'). by destruct (Hself eq_refl) as [-> _].
    + by rewrite (Parent_live _ _ _ (Hl' Hne)).
  - unfold ContainingLayout. destruct (decide (p = l)) as [<-|Hne].
    + rewrite (deref_Some _ _ _ Hp'). simpl. by destruct (Hself eq_refl) as [_ ->].
    + by rewrite (deref_Some _ _ _ (Hl' Hne)).
  - unfold children. by rewrite Hp'.
  - unfold children. rewrite Hp'. simpl. rewrite Hch'. by apply erase_first_gone.
  - intros c Hc Hne Hclive. unfold after.
    rewrite (DetachChild_exact st p c pw Hp Hc Hclive). cbn [snd].
    rewrite Hlayout, decide_False by congruence.
    set (st1 := set_heap st
                  (alter (λ w', Wnd.set_children (erase_first c (Wnd.m_children w')) w') p
                     (alter id p (alter orphan c (heap st))))).
    assert (∃ pw1, heap st1 !! p = Some pw1 ∧ Wnd.m_layout pw1 = Wnd.m_layout pw)
      as (pw1 & Hp1 & Hlay1).
    { cbn [st1 heap set_heap]. rewrite !lookup_alter_eq.
      destruct (decide (c = p)) as [->|Hcp].
      - rewrite lookup_alter_eq, Hp. simpl. eexists. split; [done|]. by destruct pw.
      - rewrite lookup_alter_ne, Hp by done. simpl. eexists. split; [done|]. by destruct pw. }
    rewrite (GetLayout_live _ _ _ Hp1), Hlay1. f_equal.
    rewrite <- Hlayout. unfold st1. by rewrite !lock_alter, set_heap_same.
Qed.

(** ** Attaching *)

(** The heap once [AttachChild] has taken the child from its parent: the
    parent link of [C] is followed, and the parent is asked to detach [C],
    which it does if it lists [C]. *)
Definition released (st : State) (C : nat) (cw : Wnd.t) : gmap nat Wnd.t :=
  match LockAndResetIfExpired st (Wnd.m_parent cw) with
  | Some old =>
      match heap st !! old with
      | Some ow =>
          if decide (C ∈ Wnd.m_children ow) then
            alter (λ w', Wnd.set_children (erase_first C (Wnd.m_children w')) w') old
              (alter (if decide (LockAndResetIfExpired st (Wnd.m_layout ow) = Some C)
                      then Wnd.set_layout None else id) old
                     (alter orphan C (heap st)))
          else heap st
      | None => heap st
      end
  | None => heap st
  end.

Lemma released_run st C cw :
  heap st !! C = Some cw →
  match LockAndResetIfExpired st (Wnd.m_parent cw) with
  | Some p => DetachChild p (Some C)
  | None => mret tt
  end st = (Ok tt, set_heap st (released st C cw)).
Proof.
  intros HC. unfold released.
  destruct (LockAndResetIfExpired st (Wnd.m_parent cw)) as [O|] eqn:HO;
    [|by rewrite set_heap_same].
  apply lock_Some in HO as [_ [ow HO]]. rewrite HO.
  case_decide as Hin; [by apply DetachChild_exact; eauto|].
  unfold DetachChild. rewrite (bind_read _ _ _ _ (deref_Some _ _ _ HO)).
  by rewrite decide_False, set_heap_same by done.
Qed.

(** The detachment changes the links of windows and nothing else. *)
Lemma released_lookup st C cw X :
  match heap st !! X with
  | Some w =>
      ∃ w1, released st C cw !! X = Some w1 ∧
            Wnd.weak_this w1 = Wnd.weak_this w ∧
            Wnd.is_layout w1 = Wnd.is_layout w ∧
            Wnd.m_upperleft w1 = Wnd.m_upperleft w ∧
            Wnd.m_lowerright w1 = Wnd.m_lowerright w
  | None => released st C cw !! X = None
  end.
Proof.
  assert (match heap st !! X with
          | Some w =>
              ∃ w1, heap st !! X = Some w1 ∧
                    Wnd.weak_this w1 = Wnd.weak_this w ∧
                    Wnd.is_layout w1 = Wnd.is_layout w ∧
                    Wnd.m_upperleft w1 = Wnd.m_upperleft w ∧
                    Wnd.m_lowerright w1 = Wnd.m_lowerright w
          | None => heap st !! X = None
          end) as Hsame.
  { destruct (heap st !! X) as [w|]; [by exists w|done]. }
  unfold released.
  destruct (LockAndResetIfExpired st (Wnd.m_parent cw)) as [old|]; [|done].
  destruct (heap st !! old) as [ow|]; [|done].
  case_decide; [|done]. clear Hsame.
  rewrite !lookup_alter.
  repeat case_decide; subst; destruct (heap st !! X) as [w|] eqn:HX; simpl; try done;
    (eexists; split; [reflexivity|by destruct w]).
Qed.

Lemma released_live st C cw X :
  is_Some (released st C cw !! X) ↔ is_Some (heap st !! X).
Proof.
  pose proof (released_lookup st C cw X) as Hl.
  destruct (heap st !! X) as [w|].
  - destruct Hl as (w1 & -> & _). split; eauto.
  - rewrite Hl. done.
Qed.

Lemma AttachChild_exact st P C pw cw :
  heap st !! P = Some pw → Wnd.weak_this pw = true → heap st !! C = Some cw →
  AttachChild P (Some C) st
  = (Ok tt,
     mkState (wnd_flags st)
       (alter (λ w', Wnd.set_children (Wnd.m_children w' ++ [C]) w') P
          (alter (if Wnd.is_layout pw then Wnd.set_containing_layout (Some P) else id) C
             (alter (Wnd.set_parent (Some P)) C (released st C cw))))
       (drops st) (calls st ++ [GUI_Remove C])).
Proof.
  intros HP Hshared HC.
  pose proof (released_live st C cw) as Hdom.
  assert (∃ pw1, released st C cw !! P = Some pw1 ∧ Wnd.is_layout pw1 = Wnd.is_layout pw)
    as (pw1 & HP1 & Hlayout1).
  { pose proof (released_lookup st C cw P) as Hl. rewrite HP in Hl.
    destruct Hl as (pw1 & ? & _ & ? & _). eauto. }
  unfold AttachChild. apply try_catch_Ok.
  rewrite (bind_read _ _ _ P)
    by (unfold shared_from_this; rewrite (deref_Some _ _ _ HP); simpl; by rewrite Hshared).
  rewrite (bind_read _ _ _ _ (Parent_live _ _ _ HC)).
  rewrite (bind_run _ _ _ _ _ (released_run _ _ _ HC)).
  rewrite (bind_read _ _ _ _ (deref_Some (set_heap st (released st C cw)) _ _ HP1)).
  rewrite Hlayout1.
  set (st0 := mkState (wnd_flags st) (released st C cw) (drops st) (calls st ++ [GUI_Remove C])).
  assert (do_call (GUI_Remove C) (set_heap st (released st C cw)) = (Ok tt, st0)) as Hcall
    by done.
  rewrite (bind_run _ _ _ _ _ Hcall). unfold SetParent.
  rewrite (bind_run _ _ _ _ _ (modify_live st0 C _ ltac:(by apply Hdom; eauto))).
  destruct (Wnd.is_layout pw).
  - rewrite (bind_run _ _ _ _ _
               (modify_live (set_heap st0 (alter (Wnd.set_parent (Some P)) C (heap st0))) C _
                  ltac:(simpl; apply alter_live, Hdom; eauto))).
    rewrite modify_live; [done|]. simpl. rewrite !alter_live. apply Hdom. eauto.
  - rewrite (alter_id id) by done. unfold mret at 1, M_ret at 1.
    unfold mbind at 1, M_bind at 1.
    rewrite modify_live; [done|]. simpl. rewrite !alter_live. apply Hdom. eauto.
Qed.

(** The state that [AttachChild] leaves. *)
Definition attached_state (st : State) (P C : nat) (pw cw : Wnd.t) : State :=
  mkState (wnd_flags st)
    (alter (λ w', Wnd.set_children (Wnd.m_children w' ++ [C]) w') P
       (alter (if Wnd.is_layout pw then Wnd.set_containing_layout (Some P) else id) C
          (alter (Wnd.set_parent (Some P)) C (released st C cw))))
    (drops st) (calls st ++ [GUI_Remove C]).

Lemma attached_live st P C pw cw X :
  is_Some (heap (attached_state st P C pw cw) !! X) ↔ is_Some (heap st !! X).
Proof.
  unfold attached_state. cbn [heap]. rewrite !alter_live. apply released_live.
Qed.

Lemma attached_lock st P C pw cw ptr :
  LockAndResetIfExpired (attached_state st P C pw cw) ptr = LockAndResetIfExpired st ptr.
Proof.
  destruct ptr as [q|]; [|done]. unfold LockAndResetIfExpired.
  pose proof (attached_live st P C pw cw q) as Hdom.
  destruct (heap (attached_state st P C pw cw) !! q) eqn:H1, (heap st !! q) eqn:H2; try done.
  - destruct (proj1 Hdom) as [? ?]; [eauto|done].
  - destruct (proj2 Hdom) as [? ?]; [eauto|done].
Qed.

Lemma attached_child st P C pw cw :
  heap st !! P = Some pw → heap st !! C = Some cw →
  Parent (attached_state st P C pw cw) C = Ok (Some P) ∧
  last (children (attached_state st P C pw cw) P) = Some C.
Proof.
  intros HP HC. split.
  - unfold Parent, deref.
    assert (∃ cw', heap (attached_state st P C pw cw) !! C = Some cw' ∧
                   Wnd.m_parent cw' = Some P) as (cw' & -> & Hpar).
    { unfold attached_state. cbn [heap].
      destruct (proj2 (released_live st C cw C)) as [cw1 Hcw1]; [eauto|].
      destruct (decide (P = C)) as [->|Hne].
      - rewrite !lookup_alter_eq, Hcw1. simpl. eexists. split; [done|].
        by destruct (Wnd.is_layout pw).
      - rewrite lookup_alter_ne, !lookup_alter_eq, Hcw1 by done. simpl.
        eexists. split; [done|]. by destruct (Wnd.is_layout pw). }
    simpl. rewrite Hpar, attached_lock. f_equal. apply lock_live. eauto.
  - unfold children. destruct (proj2 (attached_live st P C pw cw P)) as [w1 Hw1]; [eauto|].
    revert Hw1. unfold attached_state. cbn [heap]. rewrite lookup_alter_eq.
    destruct (alter _ C _ !! P) as [w0|]; [|done]. simpl. intros _. apply last_snoc.
Qed.

(** X20. [AttachChild] never throws. Called on a window that a
    [shared_ptr] owns, it makes the child the last child and sets the
    parent link of the child, whatever the tree was, and has the
    application forget the child; the parent links of the other windows
    stay. Called on a window that is not owned yet (from its constructor),
    it changes no window and writes one line to [std::cerr]. *)
Theorem AttachChild_never_throws st this c w :
  heap st !! this = Some w →
  is_Some (heap st !! c) →
  ∃ st',
    AttachChild this (Some c) st = (Ok tt, st') ∧
    if Wnd.weak_this w then
      Parent st' c = Ok (Some this) ∧
      last (children st' this) = Some c ∧
      calls st' = calls st ++ [GUI_Remove c] ∧
      ∀ X, X ≠ c → Parent st' X = Parent st X
    else
      heap st' = heap st ∧ calls st' = calls st ++ [cerr_AttachChild this (Some c)].
Proof.
  intros Hw [cw Hc]. destruct (Wnd.weak_this w) eqn:Hshared.
  2:{ eexists. split.
      - unfold AttachChild, try_catch.
        unfold mbind at 1, M_bind at 1. unfold read at 1, shared_from_this.
        rewrite (deref_Some _ _ _ Hw). simpl. rewrite Hshared. reflexivity.
      - done. }
  exists (attached_state st this c w cw).
  split; [by apply (AttachChild_exact st this c w cw)|].
  destruct (attached_child st this c w cw Hw Hc) as [Hpar Hlast].
  split; [done|]. split; [done|]. split; [done|].
  intros X Hne. unfold Parent, deref.
  assert (Wnd.m_parent <$> released st c cw !! X = Wnd.m_parent <$> heap st !! X) as Hrel.
  { unfold released.
    destruct (LockAndResetIfExpired st (Wnd.m_parent cw)) as [O|]; [|done].
    destruct (heap st !! O) as [ow|] eqn:HO; [|done]. case_decide; [|done].
    rewrite !lookup_alter. rewrite (decide_False (P := c = X)) by done.
    repeat case_decide; subst; destruct (heap st !! X) as [[]|]; done. }
  assert (Wnd.m_parent <$> heap (attached_state st this c w cw) !! X
          = Wnd.m_parent <$> heap st !! X) as Hpar'.
  { rewrite <- Hrel. unfold attached_state. cbn [heap].
    destruct (decide (this = X)) as [<-|Hx].
    - rewrite lookup_alter_eq, !lookup_alter_ne by done.
      by destruct (released st c cw !! this) as [[]|].
    - by rewrite !lookup_alter_ne by done. }
  destruct (heap (attached_state st this c w cw) !! X) as [w1|] eqn:H1,
    (heap st !! X) as [w0|] eqn:H0; simpl in Hpar'; try done.
  injection Hpar' as Hpar'. simpl. by rewrite Hpar', attached_lock.
Qed.

(** Once a window is its own parent, the walks up the parent chain do not
    end. *)
Lemma own_parent_loops st x :
  Parent st x = Ok (Some x) →
  ∀ fuel, UpperLeft fuel st x = Throw out_of_fuel ∧
          RootParent fuel st x = Throw out_of_fuel.
Proof.
  intros Hpar fuel. split.
  - induction fuel as [|fuel IH]; [done|]. simpl.
    unfold Parent in Hpar. destruct (deref st x) as [w|]; [|done]. simpl in *.
    injection Hpar as ->. by rewrite IH.
  - unfold RootParent. rewrite Hpar. cbn [mbind result_bind]. rewrite Hpar.
    cbn [mbind result_bind]. induction fuel as [|fuel IH]; [done|]. simpl.
    rewrite Hpar. simpl. exact IH.
Qed.

(** X21. [AttachChild] does not refuse to attach a window to itself.
    The window is then its own parent and its own child; the walks up its
    parent chain ([UpperLeft], [RootParent]) no longer end, whatever the
    budget, and [IsAncestorOf] calls it an ancestor of itself. *)
Theorem AttachChild_self_cycle st w ww :
  heap st !! w = Some ww →
  Wnd.weak_this ww = true →
  ∃ st',
    AttachChild w (Some w) st = (Ok tt, st') ∧
    Parent st' w = Ok (Some w) ∧
    w ∈ children st' w ∧
    IsAncestorOf 1 st' w (Some w) = Ok true ∧
    ∀ fuel, UpperLeft fuel st' w = Throw out_of_fuel ∧
            RootParent fuel st' w = Throw out_of_fuel.
Proof.
  intros Hw Hshared. exists (attached_state st w w ww ww).
  split; [by apply AttachChild_exact|].
  destruct (attached_child st w w ww ww Hw Hw) as [Hpar Hlast].
  split; [done|]. split_and!.
  - apply last_Some in Hlast as [l' ->]. apply elem_of_app. right. apply list_elem_of_here.
  - unfold IsAncestorOf. rewrite Hpar. simpl. by rewrite decide_True.
  - by apply own_parent_loops.
Qed.

End tree_more_facts.
(** * Children dragged away, browse modes, row and column layouts *)

Local Open Scope Z_scope.

Section drag_facts.
Context {hdr : WndHeader}.

Lemma filter_ext_in {A} (P Q : A → Prop) `{∀ x, Decision (P x)} `{∀ x, Decision (Q x)}
      (l : list A) :
  (∀ x, x ∈ l → P x ↔ Q x) → filter P l = filter Q l.
Proof.
  induction l as [|x l IH]; intros Hext; [done|].
  rewrite !filter_cons, IH by (intros y Hy; apply Hext; by apply list_elem_of_further).
  pose proof (Hext x ltac:(apply list_elem_of_here)) as Hx.
  destruct (decide (P x)), (decide (Q x)); tauto || done.
Qed.

(** What [ChildrenDraggedAway] does to each window of the heap, [w] being
    the window whose children are dragged. *)
Definition dragged (this : nat) (w : Wnd.t) (wnds : list (option nat))
           (X : nat) (xw xw' : Wnd.t) : Prop :=
  Wnd.m_children xw' = (if decide (this = X)
                        then filter (λ c, Some c ∉ wnds) (Wnd.m_children xw)
                        else Wnd.m_children xw) ∧
  Wnd.m_parent xw' = (if decide (X ∈ Wnd.m_children w ∧ Some X ∈ wnds) then None
                      else Wnd.m_parent xw).

Lemma ChildrenDraggedAway_found this destination wnds :
  ∀ st w,
    heap st !! this = Some w →
    NoDup (Wnd.m_children w) →
    (∀ c, c ∈ Wnd.m_children w → is_Some (heap st !! c)) →
    ∃ h', ChildrenDraggedAway this wnds destination st = (Ok tt, set_heap st h') ∧
          ∀ X, match heap st !! X with
               | Some xw => ∃ xw', h' !! X = Some xw' ∧ dragged this w wnds X xw xw'
               | None => h' !! X = None
               end.
Proof.
  induction wnds as [|wnd wnds IH]; intros st w Hw Hnd Hlive.
  - exists (heap st). split; [by rewrite set_heap_same|]. intros X.
    destruct (heap st !! X) as [xw|] eqn:HX; [|done]. exists xw. split; [done|].
    unfold dragged. split.
    + case_decide; [|done]. symmetry. apply filter_all, Forall_forall.
      intros c _. apply not_elem_of_nil.
    + rewrite decide_False; [done|]. intros [_ Hin]. by apply elem_of_nil in Hin.
  - cbn [ChildrenDraggedAway].
    destruct wnd as [c|]; [destruct (decide (c ∈ Wnd.m_children w)) as [Hin|Hno]|].
    + destruct (DetachChild_found st this c w Hw Hin (Hlive c Hin)) as (h1 & Hrun & Hrel).
      rewrite (bind_run _ _ _ _ _ Hrun).
      pose proof (Hrel this) as Hthis. rewrite Hw in Hthis.
      destruct Hthis as (w1 & Hw1 & _ & _ & Hch1 & _).
      rewrite decide_True in Hch1 by done.
      assert (∀ x, x ≠ c → x ∈ Wnd.m_children w1 ↔ x ∈ Wnd.m_children w) as Hmem.
      { intros x Hx. rewrite Hch1, erase_first_filter, list_elem_of_filter by done. tauto. }
      destruct (IH (set_heap st h1) w1) as (h' & Hrun' & Hrel').
      * done.
      * rewrite Hch1. by apply erase_first_NoDup.
      * intros x Hx. simpl. rewrite Hch1 in Hx. apply erase_first_elem in Hx.
        destruct (Hlive x Hx) as [xw HX]. pose proof (Hrel x) as Hx1. rewrite HX in Hx1.
        destruct Hx1 as (x1 & -> & _). eauto.
      * exists h'. split; [by rewrite Hrun', set_heap_set_heap|]. intros X.
        pose proof (Hrel X) as HX1. pose proof (Hrel' X) as HX'. cbn [heap set_heap] in HX'.
        destruct (heap st !! X) as [xw|] eqn:HX; [|rewrite HX1 in HX'; exact HX'].
        destruct HX1 as (x1 & HX1 & _ & _ & Hch & Hpar). rewrite HX1 in HX'.
        destruct HX' as (x' & HX' & Hch' & Hpar'). exists x'. split; [done|]. split.
        -- rewrite Hch', Hch. destruct (decide (this = X)) as [<-|HtX]; [|done].
           assert (xw = w) as -> by congruence.
           rewrite erase_first_filter, list_filter_filter by done.
           apply filter_ext_in. intros x _. rewrite not_elem_of_cons. split.
           ++ intros [? ?]. split; [congruence|done].
           ++ intros [? ?]. split; [done|congruence].
        -- rewrite Hpar', Hpar. destruct (decide (c = X)) as [->|Hne].
           ++ rewrite (decide_True (P := X ∈ Wnd.m_children w ∧ Some X ∈ Some X :: wnds))
                by (split; [done|apply list_elem_of_here]).
              by case_decide.
           ++ destruct (decide (X ∈ Wnd.m_children w ∧ Some X ∈ Some c :: wnds))
                as [[H1 H2]|Hn].
              ** apply elem_of_cons in H2 as [?|H2]; [congruence|].
                 rewrite decide_True; [done|]. split; [|done]. apply Hmem; done.
              ** rewrite decide_False; [done|]. intros [H1 H2]. apply Hn.
                 split; [by apply Hmem|by apply list_elem_of_further].
    + assert (DetachChild this (Some c) st = (Ok tt, st)) as Hrun.
      { unfold DetachChild. rewrite (bind_read _ _ _ _ (deref_Some _ _ _ Hw)).
        by rewrite decide_False. }
      rewrite (bind_run _ _ _ _ _ Hrun).
      destruct (IH st w Hw Hnd Hlive) as (h' & Hrun' & Hrel'). exists h'.
      split; [done|]. intros X. pose proof (Hrel' X) as HX'.
      destruct (heap st !! X) as [xw|] eqn:HX; [|done].
      destruct HX' as (x' & HX' & Hch' & Hpar'). exists x'. split; [done|]. split.
      * rewrite Hch'. destruct (decide (this = X)) as [<-|HtX]; [|done].
        assert (xw = w) as -> by congruence.
        apply filter_ext_in. intros x Hx. rewrite not_elem_of_cons. split; [|tauto].
        intros ?. split; [|done]. intros [= ->]. done.
      * rewrite Hpar'.
        destruct (decide (X ∈ Wnd.m_children w ∧ Some X ∈ Some c :: wnds)) as [[H1 H2]|Hn].
        -- apply elem_of_cons in H2 as [[= ->]|H2]; [done|]. by rewrite decide_True.
        -- rewrite decide_False; [done|]. intros [H1 H2]. apply Hn.
           split; [done|by apply list_elem_of_further].
    + assert (DetachChild this None st = (Ok tt, st)) as Hrun.
      { unfold DetachChild. by rewrite (bind_read _ _ _ _ (deref_Some _ _ _ Hw)). }
      rewrite (bind_run _ _ _ _ _ Hrun).
      destruct (IH st w Hw Hnd Hlive) as (h' & Hrun' & Hrel'). exists h'.
      split; [done|]. intros X. pose proof (Hrel' X) as HX'.
      destruct (heap st !! X) as [xw|] eqn:HX; [|done].
      destruct HX' as (x' & HX' & Hch' & Hpar'). exists x'. split; [done|]. split.
      * rewrite Hch'. destruct (decide (this = X)) as [<-|HtX]; [|done].
        apply filter_ext_in. intros x Hx. rewrite not_elem_of_cons. split; [done|tauto].
      * rewrite Hpar'.
        destruct (decide (X ∈ Wnd.m_children w ∧ Some X ∈ None :: wnds)) as [[H1 H2]|Hn].
        -- apply elem_of_cons in H2 as [?|H2]; [done|]. by rewrite decide_True.
        -- rewrite decide_False; [done|]. intros [H1 H2]. apply Hn.
           split; [done|by apply list_elem_of_further].
Qed.

(** X22. [ChildrenDraggedAway] returns normally and removes from the
    children exactly the windows of [wnds] that are children, keeping the
    order of the others; each removed child is left without parent. Null
    pointers and windows that are no children are skipped, the parents of
    all other windows and the children of the other windows stay, and
    [destination] plays no part. *)
Theorem ChildrenDraggedAway_removes st this w wnds :
  heap st !! this = Some w →
  NoDup (Wnd.m_children w) →
  (∀ c, c ∈ Wnd.m_children w → is_Some (heap st !! c)) →
  ∃ st',
    (∀ destination, ChildrenDraggedAway this wnds destination st = (Ok tt, st')) ∧
    children st' this = filter (λ c, Some c ∉ wnds) (Wnd.m_children w) ∧
    (∀ c, c ∈ Wnd.m_children w → Some c ∈ wnds → Parent st' c = Ok None) ∧
    (∀ X, ¬ (X ∈ Wnd.m_children w ∧ Some X ∈ wnds) → Parent st' X = Parent st X) ∧
    (∀ X, X ≠ this → children st' X = children st X) ∧
    calls st' = calls st.
Proof.
  intros Hw Hnd Hlive.
  destruct (ChildrenDraggedAway_found this None wnds st w Hw Hnd Hlive)
    as (h' & Hrun & Hrel).
  assert (∀ ptr, LockAndResetIfExpired (set_heap st h') ptr = LockAndResetIfExpired st ptr)
    as Hlock.
  { intros [q|]; [|done]. unfold LockAndResetIfExpired. cbn [heap set_heap].
    pose proof (Hrel q) as Hq. destruct (heap st !! q) as [qw|]; [|by rewrite Hq].
    by destruct Hq as (qw' & -> & _). }
  exists (set_heap st h'). split_and!.
  - intros other. rewrite <- Hrun. clear. revert st.
    induction wnds as [|wnd wnds IH]; intros st; [done|]. cbn [ChildrenDraggedAway].
    unfold mbind, M_bind. destruct (DetachChild this wnd st) as [[[]|e] st1]; [apply IH|done].
  - unfold children. cbn [heap set_heap]. pose proof (Hrel this) as Hthis.
    rewrite Hw in Hthis. destruct Hthis as (w' & -> & Hch & _). simpl.
    by rewrite Hch, decide_True.
  - intros c Hc Hin. pose proof (Hrel c) as Hc'. destruct (Hlive c Hc) as [cw Hcw].
    rewrite Hcw in Hc'. destruct Hc' as (cw' & Hcw' & _ & Hpar).
    rewrite (Parent_live (set_heap st h') c cw') by done.
    by rewrite Hpar, decide_True.
  - intros X Hno. pose proof (Hrel X) as HX. unfold Parent, deref. cbn [heap set_heap].
    destruct (heap st !! X) as [xw|]; [|by rewrite HX].
    destruct HX as (xw' & -> & _ & Hpar). cbn [mbind result_bind].
    by rewrite Hlock, Hpar, decide_False.
  - intros X Hne. unfold children. cbn [heap set_heap]. pose proof (Hrel X) as HX.
    destruct (heap st !! X) as [xw|]; [|by rewrite HX].
    destruct HX as (xw' & -> & Hch & _). simpl. by rewrite Hch, decide_False.
  - done.
Qed.

End drag_facts.
(** * Browse modes *)

Local Open Scope Z_scope.

Lemma length_set_times n first time (l : list BrowseInfoMode.t) :
  length (set_times n first time l) = length l.
Proof.
  revert first l. induction n as [|n IH]; intros first l; simpl; [done|].
  by rewrite IH, length_alter.
Qed.








(** * Row and column layouts, custom layouts *)

Local Open Scope Z_scope.

Section layout_facts.
Context {hdr : WndHeader}.

Section emplace_facts.
Variable less : nat → nat → result bool.
Variable key : nat → Z.

Let by_key (a b : nat) : Prop := key a ≤ key b.

Lemma multiset_emplace_sorted wnd wnds :
  (∀ y, y ∈ wnds → less wnd y = Ok (bool_decide (key wnd < key y))) →
  StronglySorted by_key wnds →
  ∃ wnds',
    multiset_emplace less wnd wnds = Ok wnds' ∧
    StronglySorted by_key wnds' ∧
    wnds' ≡ₚ wnd :: wnds ∧
    ∀ k, filter (λ c, key c = k) wnds'
         = filter (λ c, key c = k) wnds ++ filter (λ c, key c = k) [wnd].
Proof.
  induction wnds as [|y wnds IH]; intros Hless Hsorted.
  - exists [wnd]. split_and!; try done. repeat constructor.
  - apply StronglySorted_inv in Hsorted as [Hsorted Hy].
    cbn [multiset_emplace]. rewrite Hless by apply list_elem_of_here.
    cbn [mbind result_bind]. case_bool_decide as Hlt.
    + exists (wnd :: y :: wnds). split_and!; try done.
      * constructor; [by constructor|]. constructor; [unfold by_key; lia|].
        eapply Forall_impl; [exact Hy|]. unfold by_key. intros; lia.
      * intros k. destruct (decide (key wnd = k)) as [Hk|Hk].
        -- rewrite !(filter_cons_True _ wnd) by done.
           rewrite (filter_none (λ c, key c = k) (y :: wnds)); [done|].
           apply Forall_forall. intros c [->|Hc]%elem_of_cons; [lia|].
           rewrite Forall_forall in Hy. specialize (Hy c Hc). unfold by_key in Hy. lia.
        -- rewrite (filter_cons_False _ wnd) by done.
           rewrite (filter_cons_False _ wnd) by done. by rewrite app_nil_r.
    + destruct IH as (rest & -> & Hs & Hperm & Hfilter);
        [by intros; apply Hless, list_elem_of_further|done|].
      exists (y :: rest). split_and!; try done.
      * constructor; [done|]. rewrite Hperm. constructor; [unfold by_key; lia|done].
      * rewrite Hperm. apply Permutation_swap.
      * intros k. rewrite !(filter_cons _ y), Hfilter. by case_decide.
Qed.

Lemma layout_wnds_sorted client_sz rect m_children :
  ∀ wnds,
    (∀ a b, a ∈ m_children → b ∈ m_children ++ wnds →
            less a b = Ok (bool_decide (key a < key b))) →
    StronglySorted by_key wnds →
    ∃ wnds',
      layout_wnds less client_sz rect m_children wnds = Ok wnds' ∧
      StronglySorted by_key wnds' ∧
      wnds' ≡ₚ wnds ++ filter (λ c, outside client_sz (Rect.ul (rect c)) (Rect.lr (rect c))
                                    = false) m_children ∧
      ∀ k, filter (λ c, key c = k) wnds'
           = filter (λ c, key c = k) wnds
             ++ filter (λ c, key c = k)
                  (filter (λ c, outside client_sz (Rect.ul (rect c)) (Rect.lr (rect c))
                                = false) m_children).
Proof.
  induction m_children as [|child later IH]; intros wnds Hless Hsorted.
  - exists wnds. split_and!; try done.
    + by rewrite filter_nil, app_nil_r.
    + intros k. by rewrite !filter_nil, app_nil_r.
  - cbn [layout_wnds]. cbv zeta.
    destruct (outside client_sz (Rect.ul (rect child)) (Rect.lr (rect child))) eqn:Hout.
    + rewrite filter_cons_False by (by rewrite Hout). apply IH; [|done].
      intros a b Ha Hb. apply Hless; [by apply list_elem_of_further|].
      apply elem_of_app in Hb as [Hb|Hb]; apply elem_of_app; [left|by right].
      by apply list_elem_of_further.
    + rewrite filter_cons_True by done.
      destruct (multiset_emplace_sorted child wnds) as (wnds1 & -> & Hs1 & Hperm1 & Hf1).
      * intros y Hy. apply Hless; [apply list_elem_of_here|]. apply elem_of_app. by right.
      * done.
      * cbn [mbind result_bind].
        destruct (IH wnds1) as (wnds' & -> & Hs' & Hperm' & Hf'); [|done|].
        -- intros a b Ha Hb. apply Hless; [by apply list_elem_of_further|].
           apply elem_of_app in Hb as [Hb|Hb].
           ++ apply elem_of_app. left. by apply list_elem_of_further.
           ++ rewrite Hperm1 in Hb. apply elem_of_cons in Hb as [->|Hb].
              ** apply elem_of_app. left. apply list_elem_of_here.
              ** apply elem_of_app. by right.
        -- exists wnds'. split_and!; try done.
           ++ rewrite Hperm', Hperm1. simpl. apply Permutation_middle.
           ++ intros k. rewrite Hf', Hf1, <- app_assoc. f_equal.
              by rewrite (filter_cons _ child), (filter_cons _ child), filter_nil;
                case_decide.
Qed.

End emplace_facts.

(** The children that [HorizontalLayout] and [VerticalLayout] lay out:
    those inside the client area, in child order. *)
Definition inside_client (st : State) (client_sz : Pt.t) (m_children : list nat) : list nat :=
  filter (λ c, outside client_sz (Rect.ul (rect_of st c)) (Rect.lr (rect_of st c)) = false)
         m_children.

(** X25. [HorizontalLayout] hands to the new layout the children that lie
    inside the client area, each once, by increasing left edge; children
    with the same left edge keep their order in the child list.
    [VerticalLayout] does the same by top edge. *)
Theorem layout_wnds_order fuel st this w client_sz (left top : nat → Z) :
  heap st !! this = Some w →
  ClientSize fuel st this = Ok client_sz →
  (∀ c, c ∈ Wnd.m_children w →
        Left fuel st c = Ok (left c) ∧ Top fuel st c = Ok (top c)) →
  ∃ row column,
    HorizontalLayout_wnds fuel st this = Ok row ∧
    VerticalLayout_wnds fuel st this = Ok column ∧
    row ≡ₚ inside_client st client_sz (Wnd.m_children w) ∧
    column ≡ₚ inside_client st client_sz (Wnd.m_children w) ∧
    StronglySorted (λ a b, left a ≤ left b) row ∧
    StronglySorted (λ a b, top a ≤ top b) column ∧
    (∀ k, filter (λ c, left c = k) row
          = filter (λ c, left c = k) (inside_client st client_sz (Wnd.m_children w))) ∧
    (∀ k, filter (λ c, top c = k) column
          = filter (λ c, top c = k) (inside_client st client_sz (Wnd.m_children w))).
Proof.
  intros Hw Hsz Hedges.
  destruct (layout_wnds_sorted (WndHorizontalLess fuel st) left client_sz (rect_of st)
              (Wnd.m_children w) []) as (row & Hrow & Hs1 & Hp1 & Hf1).
  { intros a b Ha Hb. rewrite app_nil_r in Hb. unfold WndHorizontalLess.
    destruct (Hedges a Ha) as [-> _]. by destruct (Hedges b Hb) as [-> _]. }
  { constructor. }
  destruct (layout_wnds_sorted (WndVerticalLess fuel st) top client_sz (rect_of st)
              (Wnd.m_children w) []) as (column & Hcol & Hs2 & Hp2 & Hf2).
  { intros a b Ha Hb. rewrite app_nil_r in Hb. unfold WndVerticalLess.
    destruct (Hedges a Ha) as [_ ->]. by destruct (Hedges b Hb) as [_ ->]. }
  { constructor. }
  exists row, column. unfold HorizontalLayout_wnds, VerticalLayout_wnds.
  rewrite Hsz, (deref_Some _ _ _ Hw). cbn [mbind result_bind].
  split_and!; done.
Qed.

(** X26. [SetLayout] throws [BadLayout], and changes nothing, when the
    layout given is the layout that the window has or the layout that
    contains the window. No layout counts as a layout here: on a window
    that has no layout, or is in no layout, [SetLayout] of the null
    pointer throws [BadLayout]. *)
Theorem SetLayout_BadLayout (Layout_SizeMove : nat → Pt.t → Pt.t → M unit)
        fuel st this w layout :
  heap st !! this = Some w →
  layout = LockAndResetIfExpired st (Wnd.m_layout w) ∨
  layout = LockAndResetIfExpired st (Wnd.m_containing_layout w) →
  SetLayout Layout_SizeMove fuel this layout st = (Throw BadLayout, st).
Proof.
  intros Hw Hbad. unfold SetLayout.
  rewrite (bind_read _ _ _ _ (GetLayout_live _ _ _ Hw)).
  destruct (decide (layout = LockAndResetIfExpired st (Wnd.m_layout w))) as [Heq|Hne].
  - done.
  - destruct Hbad as [?|Hbad]; [done|].
    assert (ContainingLayout st this
            = Ok (LockAndResetIfExpired st (Wnd.m_containing_layout w))) as Hcl
      by (unfold ContainingLayout; by rewrite (deref_Some _ _ _ Hw)).
    unfold mbind at 1, M_bind at 1. rewrite (bind_read _ _ _ _ Hcl).
    unfold mret, M_ret. by rewrite bool_decide_true.
Qed.

End layout_facts.
(** * Grid layout: the cells *)

Local Open Scope Z_scope.

Import GridLayoutWndContainer.

Lemma validate_only client_sz rect m_children c c' :
  validate client_sz rect m_children c = Ok c' →
  ∀ y, is_Some (nodes c' !! y) →
       is_Some (nodes c !! y) ∨
       (y ∈ m_children ∧ outside client_sz (Rect.ul (rect y)) (Rect.lr (rect y)) = false).
Proof.
  revert c. induction m_children as [|wnd later IH]; intros c; simpl.
  - intros [= <-] y Hy. by left.
  - destruct (outside client_sz _ _) eqn:Hout.
    + intros Hv y Hy. destruct (IH _ Hv y Hy) as [?|[? ?]]; [by left|].
      right. split; [by apply list_elem_of_further|done].
    + destruct (existsb _ later); [done|]. intros Hv y Hy.
      destruct (IH _ Hv y Hy) as [Hin|[? ?]].
      * unfold insert in Hin. case_decide; [by left|]. simpl in Hin.
        apply lookup_insert_is_Some in Hin as [<-|[_ Hin]]; [|by left].
        right. split; [apply list_elem_of_here|done].
      * right. split; [by apply list_elem_of_further|done].
Qed.

Lemma link_unique_NoDup it l : it ∉ l → NoDup l → NoDup (link_unique it l).
Proof.
  induction l as [|y l IH]; simpl; intros Hno Hnd; [by apply NoDup_singleton|].
  case_decide; [by constructor|].
  apply NoDup_cons in Hnd as [Hy Hnd]. apply not_elem_of_cons in Hno as [Hne Hno].
  constructor; [|by apply IH]. rewrite link_unique_elem. intros [?|?]; congruence || done.
Qed.

Lemma validate_NoDup client_sz rect m_children c c' :
  validate client_sz rect m_children c = Ok c' →
  container_wf c → NoDup (by_pointer c) → NoDup (by_pointer c').
Proof.
  revert c. induction m_children as [|wnd later IH]; intros c; simpl.
  - by intros [= <-].
  - destruct (outside client_sz _ _); [apply IH|].
    destruct (existsb _ later); [done|]. intros Hv Hwf Hnd.
    apply (IH _ Hv); [by apply insert_wf|]. unfold insert. case_decide as Hc; [done|].
    simpl. apply link_unique_NoDup; [|done]. destruct Hwf as (_ & Hptr & _).
    by rewrite Hptr.
Qed.

Lemma emplace_length x s : (length (emplace x s) ≤ S (length s))%nat.
Proof.
  induction s as [|y s IH]; simpl; [done|]. repeat case_decide; simpl; lia.
Qed.

Lemma unique_edges_length i c : (length (unique_edges i c) ≤ length (get i c))%nat.
Proof.
  unfold unique_edges. induction (get i c) as [|y l IH] using rev_ind; [done|].
  rewrite foldl_app, length_app. simpl.
  etrans; [apply emplace_length|]. lia.
Qed.

(** X27. [GridLayout] makes a layout exactly when some child lies inside
    the client area. The layout then has at least one row and one column,
    and each child inside the client area is added to it once; no other
    window is added. *)
Theorem GridLayout_core_cells fuel client_sz rect m_children plan :
  (S (length m_children) * S (length m_children) ≤ fuel)%nat →
  GridLayout_core fuel client_sz rect m_children = Ok plan →
  match plan with
  | None =>
      ∀ y, y ∈ m_children →
           outside client_sz (Rect.ul (rect y)) (Rect.lr (rect y)) = true
  | Some plan =>
      NoDup (cell_wnd <$> plan_cells plan) ∧
      (∀ y, y ∈ cell_wnd <$> plan_cells plan
            ↔ y ∈ m_children ∧
              outside client_sz (Rect.ul (rect y)) (Rect.lr (rect y)) = false) ∧
      (1 ≤ plan_rows plan ≤ length (plan_cells plan))%nat ∧
      (1 ≤ plan_columns plan ≤ length (plan_cells plan))%nat
  end.
Proof.
  intros Hfuel. unfold GridLayout_core.
  destruct (validate client_sz rect m_children empty) as [c1|e] eqn:Hval; [|done].
  destruct (validate_spec _ _ _ _ _ Hval empty_wf) as (Hwf1 & Hfr & Hin & _ & Hlen).
  { intros y g. simpl. by rewrite lookup_empty. }
  pose proof (validate_only _ _ _ _ _ Hval) as Honly.
  destruct (align_all fuel client_sz c1 Hwf1)
    as (c2 & c3 & c4 & c5 & Hr2 & Hr3 & Hr4 & Hr5 & Hwf5 & Hdom & Hptr & _).
  { specialize (Hlen LayoutLeft). change (get LayoutLeft empty) with (@nil nat) in Hlen.
    cbn [length] in Hlen. etrans; [|exact Hfuel]. apply Nat.mul_le_mono; lia. }
  cbn [mbind result_bind].
  rewrite Hr2. cbn [mbind result_bind]. rewrite Hr3. cbn [mbind result_bind].
  rewrite Hr4. cbn [mbind result_bind]. rewrite Hr5. cbn [mbind result_bind].
  pose proof Hwf5 as (Hwnd5 & Hptr5 & Hidx5).
  assert (∀ y, is_Some (nodes c5 !! y)
               ↔ y ∈ m_children ∧
                 outside client_sz (Rect.ul (rect y)) (Rect.lr (rect y)) = false) as Hnodes.
  { intros y. rewrite Hdom. split.
    - intros Hy. destruct (Honly y Hy) as [Hy'|?]; [|done].
      simpl in Hy'. rewrite lookup_empty in Hy'. by destruct Hy'.
    - intros [? ?]. by apply Hin. }
  set (unique_lefts := unique_edges LayoutLeft c5).
  set (unique_tops := unique_edges LayoutTop c5).
  destruct (bool_decide (unique_lefts = []) || bool_decide (unique_tops = [])) eqn:Hempty.
  - intros [= <-]. intros y Hy.
    destruct (outside client_sz (Rect.ul (rect y)) (Rect.lr (rect y))) eqn:Hout; [done|].
    assert (is_Some (nodes c5 !! y)) as Hy5 by (by apply Hnodes).
    destruct (Hidx5 LayoutLeft) as (_ & _ & Hl). destruct (Hidx5 LayoutTop) as (_ & _ & Ht).
    apply orb_true_iff in Hempty as [He|He]; apply bool_decide_eq_true in He.
    + destruct (unique_edges_nonempty LayoutLeft c5); [|done].
      intros Hnil. apply Hl in Hy5. rewrite Hnil in Hy5. by apply elem_of_nil in Hy5.
    + destruct (unique_edges_nonempty LayoutTop c5); [|done].
      intros Hnil. apply Ht in Hy5. rewrite Hnil in Hy5. by apply elem_of_nil in Hy5.
  - intros [= <-]. cbn [plan_cells plan_rows plan_columns].
    set (cell := λ y, cell_of unique_lefts unique_tops (nodes c5 !!! y)).
    assert (cell_wnd <$> (cell <$> by_pointer c5) = by_pointer c5) as Hwnds.
    { rewrite <- list_fmap_compose. rewrite <- (list_fmap_id (by_pointer c5)) at 2.
      apply list_fmap_ext. intros _ y Hy%list_elem_of_lookup_2. apply Hptr5 in Hy as [g Hg].
      unfold cell. simpl. rewrite (lookup_total_correct _ _ _ Hg). by apply Hwnd5. }
    rewrite Hwnds, length_fmap.
    apply orb_false_iff in Hempty as [Hl He].
    apply bool_decide_eq_false in Hl, He.
    assert (NoDup (by_pointer c5)) as Hnd5.
    { rewrite Hptr. apply (validate_NoDup _ _ _ _ _ Hval empty_wf). constructor. }
    assert (∀ j, length (get j c5) = length (by_pointer c5)) as Hsame.
    { intros j. destruct (Hidx5 j) as (Hndj & _ & Hj).
      apply Permutation_length, NoDup_Permutation; [done|done|].
      intros y. by rewrite Hj, Hptr5. }
    split_and!.
    + done.
    + intros y. rewrite Hptr5. apply Hnodes.
    + destruct unique_tops; [done|simpl; lia].
    + rewrite <- (Hsame LayoutTop). apply unique_edges_length.
    + destruct unique_lefts; [done|simpl; lia].
    + rewrite <- (Hsame LayoutLeft). apply unique_edges_length.
Qed.
(** * The further properties at work *)

Local Open Scope Z_scope.

(** Child 1 of [st_grid], at (10, 10) in its parent at (0, 0). *)
Lemma client_area_is_window_witness :
  LowerRight 2 st_grid 1%nat = Ok (Pt.add (Pt.Build 10 10) (Wnd.Size w_grid_1)) ∧
  ClientSize 2 st_grid 1%nat = Ok (Wnd.Size w_grid_1) ∧
  ClientWidth 2 st_grid 1%nat = Ok (Wnd.Width w_grid_1) ∧
  ClientHeight 2 st_grid 1%nat = Ok (Wnd.Height w_grid_1) ∧
  ∀ pt, ∃ rel,
    ScreenToWindow 2 st_grid 1%nat pt = Ok rel ∧
    ScreenToClient 2 st_grid 1%nat pt = Ok rel ∧
    Pt.add rel (Pt.Build 10 10) = pt ∧
    InWindow 2 st_grid 1%nat pt
    = Ok (Rect.Contains (Rect.Build (Pt.Build 0 0) (Wnd.Size w_grid_1)) rel) ∧
    InClient 2 st_grid 1%nat pt = InWindow 2 st_grid 1%nat pt.
Proof.
  apply (client_area_is_window 2 st_grid 1%nat w_grid_1 (Pt.Build 10 10)).
  - vm_compute. reflexivity.
  - vm_compute. reflexivity.
Defined.

(** The point (30, 25) on the right border of the resizable window from
    (20, 20) to (30, 30): region 4, and not in the client area. *)
Lemma WindowRegion_regions_witness :
  ∃ n,
    WindowRegion 1 st_resizable 0%nat (Pt.Build 30 25) = Ok (WndRegion_of n) ∧
    n = axis_region 20 (20 + Wnd.Width w_resizable) 30
        + 3 * axis_region 20 (20 + Wnd.Height w_resizable) 25 ∧
    0 ≤ n ≤ 8 ∧
    (n = 4 ↔ Pt.le (Pt.Build 20 20) (Pt.Build 30 25) = true ∧
             Pt.le (Pt.Build 30 25) (Pt.add (Pt.Build 20 20) (Wnd.Size w_resizable)) = true) ∧
    (InClient 1 st_resizable 0%nat (Pt.Build 30 25) = Ok true → n = 4).
Proof.
  apply (WindowRegion_regions 1 st_resizable 0%nat w_resizable (Pt.Build 20 20)
           (Pt.Build 30 25) true).
  - vm_compute. reflexivity.
  - vm_compute. reflexivity.
  - vm_compute. reflexivity.
Defined.

Example WindowRegion_border :
  WindowRegion 1 st_resizable 0%nat (Pt.Build 30 25) = Ok (WndRegion_of 4) ∧
  InClient 1 st_resizable 0%nat (Pt.Build 30 25) = Ok false.
Proof. vm_compute. done. Qed.

Lemma OffsetMove_composes_witness :
  OffsetMove 0 0%nat (Pt.Build 3 4) st_plain
  = (Ok tt, moved st_plain 0%nat w_plain (Pt.Build 3 4)) ∧
  Wnd.Size <$> heap (moved st_plain 0%nat w_plain (Pt.Build 3 4)) !! 0%nat
  = Some (Wnd.Size w_plain) ∧
  calls (moved st_plain 0%nat w_plain (Pt.Build 3 4)) = calls st_plain ∧
  (OffsetMove 0 0%nat (Pt.Build 3 4);; OffsetMove 0 0%nat (Pt.Build 1 1)) st_plain
  = OffsetMove 0 0%nat (Pt.add (Pt.Build 3 4) (Pt.Build 1 1)) st_plain ∧
  (OffsetMove 0 0%nat (Pt.Build 3 4);; OffsetMove 0 0%nat (Pt_opp (Pt.Build 3 4))) st_plain
  = (Ok tt, st_plain) ∧
  MoveTo 0 0%nat (Pt.add (Wnd.m_upperleft w_plain) (Pt.Build 3 4)) st_plain
  = OffsetMove 0 0%nat (Pt.Build 3 4) st_plain.
Proof.
  apply (OffsetMove_composes 0 st_plain 0%nat w_plain (Pt.Build 3 4) (Pt.Build 1 1)).
  vm_compute. reflexivity.
Defined.

(** The 10 x 10 window of [st_plain] is given the minimum size 20 x 20. *)
Lemma SetMinSize_grows_witness :
  ∃ st' w',
    SetMinSize 1 0%nat (Pt.Build 20 20) st_plain = (Ok tt, st') ∧
    heap st' !! 0%nat = Some w' ∧
    Wnd.m_min_size w' = Pt.Build 20 20 ∧ Pt.le (Pt.Build 20 20) (Wnd.Size w') = true.
Proof.
  apply (SetMinSize_grows 1 st_plain 0%nat w_plain (Pt.Build 0 0) (Pt.Build 20 20)).
  - vm_compute. reflexivity.
  - vm_compute. reflexivity.
  - vm_compute. reflexivity.
Defined.

(** The 10 x 10 window of [st_plain] is given the maximum size 5 x 5. *)
Lemma SetMaxSize_shrinks_witness :
  ∃ st' w',
    SetMaxSize 1 0%nat (Pt.Build 5 5) st_plain = (Ok tt, st') ∧
    heap st' !! 0%nat = Some w' ∧
    Wnd.m_max_size w' = Pt.Build 5 5 ∧ Pt.le (Wnd.Size w') (Pt.Build 5 5) = true.
Proof.
  apply (SetMaxSize_shrinks 1 st_plain 0%nat w_plain (Pt.Build 0 0) (Pt.Build 5 5)).
  - vm_compute. reflexivity.
  - vm_compute. reflexivity.
  - vm_compute. reflexivity.
  - intros l lw Hl. vm_compute in Hl. discriminate Hl.
Defined.

(** In [st_grid], window 0 is an ancestor of window 1. *)
Lemma IsAncestorOf_strict_order_witness :
  IsAncestorOf 2 st_grid 1%nat (Some 1%nat) = Ok false ∧
  IsAncestorOf 2 st_grid 1%nat (Some 0%nat) = Ok false ∧
  (∀ a, IsAncestorOf 2 st_grid a (Some 0%nat) = Ok true →
        IsAncestorOf 2 st_grid a (Some 1%nat) = Ok true) ∧
  (∀ a, ∃ r, IsAncestorOf 2 st_grid a (Some 1%nat) = Ok r).
Proof.
  apply (IsAncestorOf_strict_order 2 st_grid 0%nat 1%nat (Pt.Build 10 10)).
  - vm_compute. reflexivity.
  - vm_compute. reflexivity.
Defined.

(** Moving window 0 of [st_grid] by (5, 5) moves its child 1. *)
Lemma OffsetMove_moves_descendants_witness :
  ∃ below,
    IsAncestorOf 2 st_grid 0%nat (Some 1%nat) = Ok below ∧
    UpperLeft 2 (after (OffsetMove 2 0%nat (Pt.Build 5 5)) st_grid) 1%nat
    = Ok (if bool_decide (1%nat = 0%nat) || below
          then Pt.add (Pt.Build 10 10) (Pt.Build 5 5) else Pt.Build 10 10).
Proof.
  apply (OffsetMove_moves_descendants 2 st_grid 0%nat w_grid_0 1%nat (Pt.Build 10 10)
           (Pt.Build 5 5)).
  - vm_compute. reflexivity.
  - vm_compute. reflexivity.
Defined.

Lemma RootParent_is_root_witness :
  ∃ r,
    RootParent 2 st_grid 1%nat = Ok r ∧
    (r = None ↔ Parent st_grid 1%nat = Ok None) ∧
    (∀ root, r = Some root →
             Parent st_grid root = Ok None ∧
             IsAncestorOf 2 st_grid root (Some 1%nat) = Ok true).
Proof.
  apply (RootParent_is_root 2 st_grid 1%nat (Pt.Build 10 10)).
  vm_compute. reflexivity.
Defined.

Example RootParent_of_child : RootParent 2 st_grid 1%nat = Ok (Some 0%nat).
Proof. vm_compute. reflexivity. Qed.

(** Child 2 of the three children of window 0 of [st_grid]. *)
Lemma MoveChild_reorders_witness :
  (∃ up down,
     MoveChildUp 0%nat (Some 2%nat) st_grid
     = (Ok tt, set_heap st_grid (<[0%nat := Wnd.set_children up w_grid_0]> (heap st_grid))) ∧
     MoveChildDown 0%nat (Some 2%nat) st_grid
     = (Ok tt, set_heap st_grid (<[0%nat := Wnd.set_children down w_grid_0]> (heap st_grid))) ∧
     last up = Some 2%nat ∧ head down = Some 2%nat ∧
     up ≡ₚ Wnd.m_children w_grid_0 ∧ down ≡ₚ Wnd.m_children w_grid_0 ∧
     filter (λ x, x ≠ 2%nat) up = filter (λ x, x ≠ 2%nat) (Wnd.m_children w_grid_0) ∧
     filter (λ x, x ≠ 2%nat) down = filter (λ x, x ≠ 2%nat) (Wnd.m_children w_grid_0)) ∧
  (∀ other, other ∉ Wnd.m_children w_grid_0 →
            MoveChildUp 0%nat (Some other) st_grid = (Ok tt, st_grid) ∧
            MoveChildDown 0%nat (Some other) st_grid = (Ok tt, st_grid)) ∧
  MoveChildUp 0%nat None st_grid = (Ok tt, st_grid) ∧
  MoveChildDown 0%nat None st_grid = (Ok tt, st_grid).
Proof.
  apply (MoveChild_reorders st_grid 0%nat w_grid_0 2%nat).
  - vm_compute. reflexivity.
  - compute_done.
Defined.

Example MoveChild_orders :
  children (after (MoveChildUp 0%nat (Some 2%nat)) st_grid) 0%nat = [1; 3; 2]%nat ∧
  children (after (MoveChildDown 0%nat (Some 2%nat)) st_grid) 0%nat = [2; 1; 3]%nat.
Proof. vm_compute. done. Qed.

Lemma DetachChildren_orphans_witness :
  ∃ st',
    DetachChildren 0%nat st_grid = (Ok tt, st') ∧
    children st' 0%nat = [] ∧
    GetLayout st' 0%nat = Ok None ∧
    (∀ c, c ∈ Wnd.m_children w_grid_0 →
          Parent st' c = Ok None ∧ ContainingLayout st' c = Ok None) ∧
    (∀ X, X ≠ 0%nat → X ∉ Wnd.m_children w_grid_0 → heap st' !! X = heap st_grid !! X) ∧
    calls st' = calls st_grid.
Proof.
  apply (DetachChildren_orphans st_grid 0%nat w_grid_0).
  - vm_compute. reflexivity.
  - apply Forall_forall. repeat constructor; vm_compute; eauto.
Defined.

(** Window 4 is the layout of window 0 in [st_layout]. *)
Lemma DetachChild_layout_witness :
  ∃ st',
    DetachChild 0%nat (Some 4%nat) st_layout = (Ok tt, st') ∧
    DetachLayout 0%nat st_layout = (Ok (Some 4%nat), st') ∧
    GetLayout st' 0%nat = Ok None ∧
    Parent st' 4%nat = Ok None ∧
    ContainingLayout st' 4%nat = Ok None ∧
    children st' 0%nat = erase_first 4%nat (Wnd.m_children w_layout_0) ∧
    (4%nat ∉ children st' 0%nat) ∧
    (∀ c, c ∈ Wnd.m_children w_layout_0 → c ≠ 4%nat → is_Some (heap st_layout !! c) →
          GetLayout (after (DetachChild 0%nat (Some c)) st_layout) 0%nat = Ok (Some 4%nat)).
Proof.
  apply (DetachChild_layout st_layout 0%nat w_layout_0 4%nat).
  - vm_compute. reflexivity.
  - compute_done.
  - vm_compute. reflexivity.
  - compute_done.
Defined.

(** Window 2 of [st_three] is attached to window 0, which a [shared_ptr]
    owns. *)
Lemma AttachChild_never_throws_witness :
  ∃ st',
    AttachChild 0%nat (Some 2%nat) st_three = (Ok tt, st') ∧
    Parent st' 2%nat = Ok (Some 0%nat) ∧
    last (children st' 0%nat) = Some 2%nat ∧
    calls st' = calls st_three ++ [GUI_Remove 2%nat] ∧
    ∀ X, X ≠ 2%nat → Parent st' X = Parent st_three X.
Proof.
  apply (AttachChild_never_throws st_three 0%nat 2%nat
           (Wnd.Build true false (Pt.Build 0 0) (Pt.Build 50 50) (Pt.Build 0 0)
              (Pt.Build (2 ^ 30) (2 ^ 30)) (Flags.Build 1) None [] None None [] false)).
  - vm_compute. reflexivity.
  - vm_compute. eauto.
Defined.

Lemma AttachChild_self_cycle_witness :
  ∃ st',
    AttachChild 0%nat (Some 0%nat) st_plain = (Ok tt, st') ∧
    Parent st' 0%nat = Ok (Some 0%nat) ∧
    0%nat ∈ children st' 0%nat ∧
    IsAncestorOf 1 st' 0%nat (Some 0%nat) = Ok true ∧
    ∀ fuel, UpperLeft fuel st' 0%nat = Throw out_of_fuel ∧
            RootParent fuel st' 0%nat = Throw out_of_fuel.
Proof.
  apply (AttachChild_self_cycle st_plain 0%nat w_plain).
  - vm_compute. reflexivity.
  - reflexivity.
Defined.

(** Child 2 of window 0 of [st_grid] is dragged away, together with a
    null pointer and with window 7, which is no child. *)
Lemma ChildrenDraggedAway_removes_witness :
  ∃ st',
    (∀ destination,
       ChildrenDraggedAway 0%nat [Some 2%nat; None; Some 7%nat] destination st_grid
       = (Ok tt, st')) ∧
    children st' 0%nat
    = filter (λ c, Some c ∉ [Some 2%nat; None; Some 7%nat]) (Wnd.m_children w_grid_0) ∧
    (∀ c, c ∈ Wnd.m_children w_grid_0 → Some c ∈ [Some 2%nat; None; Some 7%nat] →
          Parent st' c = Ok None) ∧
    (∀ X, ¬ (X ∈ Wnd.m_children w_grid_0 ∧ Some X ∈ [Some 2%nat; None; Some 7%nat]) →
          Parent st' X = Parent st_grid X) ∧
    (∀ X, X ≠ 0%nat → children st' X = children st_grid X) ∧
    calls st' = calls st_grid.
Proof.
  apply (ChildrenDraggedAway_removes st_grid 0%nat w_grid_0 [Some 2%nat; None; Some 7%nat]).
  - vm_compute. reflexivity.
  - compute_done.
  - apply Forall_forall. repeat constructor; vm_compute; eauto.
Defined.

Example ChildrenDraggedAway_children :
  children (after (ChildrenDraggedAway 0%nat [Some 2%nat; None; Some 7%nat] None) st_grid)
           0%nat = [1; 3]%nat.
Proof. vm_compute. reflexivity. Qed.

(** The three children of [st_grid]: 1 and 2 share their left edge, 1 and
    3 their top edge. *)
Lemma layout_wnds_order_witness :
  ∃ row column,
    HorizontalLayout_wnds 2 st_grid 0%nat = Ok row ∧
    VerticalLayout_wnds 2 st_grid 0%nat = Ok column ∧
    row ≡ₚ inside_client st_grid (Pt.Build 100 100) (Wnd.m_children w_grid_0) ∧
    column ≡ₚ inside_client st_grid (Pt.Build 100 100) (Wnd.m_children w_grid_0) ∧
    StronglySorted (λ a b, left_three a ≤ left_three b) row ∧
    StronglySorted (λ a b, top_three a ≤ top_three b) column ∧
    (∀ k, filter (λ c, left_three c = k) row
          = filter (λ c, left_three c = k)
              (inside_client st_grid (Pt.Build 100 100) (Wnd.m_children w_grid_0))) ∧
    (∀ k, filter (λ c, top_three c = k) column
          = filter (λ c, top_three c = k)
              (inside_client st_grid (Pt.Build 100 100) (Wnd.m_children w_grid_0))).
Proof.
  apply (layout_wnds_order 2 st_grid 0%nat w_grid_0 (Pt.Build 100 100) left_three top_three).
  - vm_compute. reflexivity.
  - vm_compute. reflexivity.
  - apply Forall_forall. repeat constructor; vm_compute; reflexivity.
Defined.

Example layout_wnds_three :
  HorizontalLayout_wnds 2 st_grid 0%nat = Ok [1; 2; 3]%nat ∧
  VerticalLayout_wnds 2 st_grid 0%nat = Ok [1; 3; 2]%nat.
Proof. vm_compute. done. Qed.

(** No layout is set on the window of [st_plain], which has none. *)
Lemma SetLayout_BadLayout_witness :
  SetLayout (λ _ _ _, mret tt) 0 0%nat None st_plain = (Throw BadLayout, st_plain).
Proof.
  apply (SetLayout_BadLayout (λ _ _ _, mret tt) 0 st_plain 0%nat w_plain None).
  - vm_compute. reflexivity.
  - left. reflexivity.
Defined.

(** The three children of [rect_three], all inside the client area. *)
Lemma GridLayout_core_cells_witness :
  ∃ plan,
    GridLayout_core 16 (Pt.Build 100 100) rect_three [1; 2; 3]%nat = Ok (Some plan) ∧
    NoDup (cell_wnd <$> plan_cells plan) ∧
    (∀ y, y ∈ cell_wnd <$> plan_cells plan
          ↔ y ∈ [1; 2; 3]%nat ∧
            outside (Pt.Build 100 100) (Rect.ul (rect_three y)) (Rect.lr (rect_three y))
            = false) ∧
    (1 ≤ plan_rows plan ≤ length (plan_cells plan))%nat ∧
    (1 ≤ plan_columns plan ≤ length (plan_cells plan))%nat.
Proof.
  exists (mkLayoutPlan 2 2 [mkGridCell 1 0 0 1 1; mkGridCell 2 1 0 1 1; mkGridCell 3 0 1 1 1]).
  split; [vm_compute; reflexivity|].
  apply (GridLayout_core_cells 16 (Pt.Build 100 100) rect_three [1; 2; 3]%nat
           (Some (mkLayoutPlan 2 2 [mkGridCell 1 0 0 1 1; mkGridCell 2 1 0 1 1;
                                    mkGridCell 3 0 1 1 1]))).
  - simpl. lia.
  - vm_compute. reflexivity.
Defined.
